(** * Preprocessing passes for ONNX export: a shallow embedding

    The development embeds
    [torch/csrc/jit/passes/onnx/preprocess_for_onnx.cpp] and proves the
    properties its specification states about the four rewrite passes.

    The passes mutate a graph of heap-allocated [Node]s and [Value]s through
    pointers.  The embedding keeps that shape: a graph is a store of nodes and
    a store of values, both finite maps from addresses, together with the tree
    of blocks that orders the nodes.  Every operation is a function from a
    graph to [option] of a graph; [None] stands for a run that does not
    complete normally (an out-of-range [at()], a failed internal assertion, a
    dangling pointer, a loop that never ends). *)

From Stdlib Require Import ZArith.
From stdpp Require Import base option list gmap strings.

Local Open Scope string_scope.

(** ** Symbols *)

(** Interned, qualified names such as [aten::split]. *)
Abbreviation Symbol := string (only parsing).

Module aten.
Definition split : Symbol := "aten::split".
Definition split_with_sizes : Symbol := "aten::split_with_sizes".
Definition unsafe_split : Symbol := "aten::unsafe_split".
Definition unsafe_split_with_sizes : Symbol := "aten::unsafe_split_with_sizes".
Definition unbind : Symbol := "aten::unbind".
Definition unsafe_chunk : Symbol := "aten::unsafe_chunk".
Definition where_ : Symbol := "aten::where".
Definition add : Symbol := "aten::add".
Definition index_put_ : Symbol := "aten::index_put_".
Definition masked_fill : Symbol := "aten::masked_fill".
Definition masked_scatter : Symbol := "aten::masked_scatter".
End aten.

Module prim.
Definition ListUnpack : Symbol := "prim::ListUnpack".
Definition ListConstruct : Symbol := "prim::ListConstruct".
End prim.

Module onnx.
Definition Concat : Symbol := "onnx::Concat".
Definition Constant : Symbol := "onnx::Constant".
Definition Gather : Symbol := "onnx::Gather".
End onnx.

Module attr.
Definition _outputs : Symbol := "attr::_outputs".
Definition axis : Symbol := "attr::axis".
Definition value : Symbol := "attr::value".
End attr.

(** ** Types *)

Inductive ScalarType :=
  | Byte | Char | Short | Int | Long | Half | Float | Double | Bool.

(** The variants of the type algebra the passes look at.  Of a tensor type
    the passes read the scalar kind and the number of dimensions, each of
    which may be unknown. *)
Inductive JitType :=
  | TensorType (scalarType : option ScalarType) (rank : option nat)
  | ListType (elem : JitType)
  | OptionalType (elem : JitType)
  | IntType
  | FloatType
  | BoolType
  | NoneType.

#[global] Instance ScalarType_eq_dec : EqDecision ScalarType.
Proof. solve_decision. Defined.

#[global] Instance JitType_eq_dec : EqDecision JitType.
Proof. solve_decision. Defined.

(** [t->cast<ListType>()], yielding the element type. *)
Definition cast_ListType (t : JitType) : option JitType :=
  match t with ListType elem => Some elem | _ => None end.

(** [t->cast<TensorType>()], yielding [scalarType()] and [sizes().size()]. *)
Definition cast_TensorType (t : JitType) : option (option ScalarType * option nat) :=
  match t with TensorType st rk => Some (st, rk) | _ => None end.

(** [t->cast<IntType>()] as a truth value. *)
Definition cast_IntType (t : JitType) : bool :=
  match t with IntType => true | _ => false end.

(** Modelled from the spec: [TensorType::get()], the type a freshly created
    [Value] carries, is declared outside this file; the data model gives a
    tensor type optional scalar kind and shape, and a new value knows
    neither. *)
Definition TensorType_get : JitType := TensorType None None.

(** Modelled from the spec: [TensorType::fromNumberType] is declared outside
    this file.  Section 4.2 describes its result on the integer element type
    as "the tensor type derived from the integer element type (a 1-D integer
    tensor)"; the float and boolean cases follow the same scheme and are never
    reached by the passes. *)
Definition fromNumberType (t : JitType) : JitType :=
  match t with
  | IntType => TensorType (Some Long) (Some 1)
  | FloatType => TensorType (Some Double) (Some 1)
  | BoolType => TensorType (Some Bool) (Some 1)
  | _ => TensorType_get
  end.

(** ** Machine integers *)

Local Open Scope Z_scope.

(** Conversion of an unbounded integer to a signed [w]-bit one. *)
Definition wrap_signed (w : Z) (z : Z) : Z :=
  (z + 2 ^ (w - 1)) mod 2 ^ w - 2 ^ (w - 1).

(** [int(i)] for a [size_t] [i]. *)
Definition to_int (i : nat) : Z := wrap_signed 32 (Z.of_nat i).

(** [static_cast<int64_t>(i)] for a [size_t] [i]. *)
Definition to_int64 (i : nat) : Z := wrap_signed 64 (Z.of_nat i).

Definition INT_MAX : Z := 2147483647.

Local Close Scope Z_scope.

(** ** Nodes, values, blocks, graphs *)

Abbreviation NodeId := nat (only parsing).
Abbreviation ValueId := nat (only parsing).

(** A zero-dimensional constant tensor, as [at::scalar_to_tensor] builds from
    an integral scalar. *)
Record Tensor := mkTensor { dtype : ScalarType; item : Z }.

Inductive AttributeValue :=
  | IntAttr (i : Z)
  | TensorAttr (t : Tensor).

Record Use := mkUse { user : NodeId; offset : nat }.

#[global] Instance Use_eq_dec : EqDecision Use.
Proof. solve_decision. Defined.

Record Value := mkValue {
  type : JitType;      (* type() *)
  node : NodeId;       (* node(), the producer *)
  uses : list Use      (* uses() *)
}.

Record Node := mkNode {
  kind : Symbol;
  inputs : list ValueId;
  outputs : list ValueId;
  attributes : list (Symbol * AttributeValue)
}.

(** A block lists its nodes in program order; each node comes with its nested
    blocks.  The parameter node and the return node of a block are nodes of
    the store that are not part of the list. *)
Inductive Block := mkBlock {
  param_node : NodeId;
  return_node : NodeId;
  nodes : list (NodeId * list Block)
}.

Record Graph := mkGraph {
  all_nodes : gmap nat Node;
  all_values : gmap nat Value;
  block : Block                (* graph->block() *)
}.

Definition set_type (t : JitType) (v : Value) : Value :=
  mkValue t (node v) (uses v).
Definition set_uses (us : list Use) (v : Value) : Value :=
  mkValue (type v) (node v) us.
Definition set_inputs (ins : list ValueId) (n : Node) : Node :=
  mkNode (kind n) ins (outputs n) (attributes n).
Definition set_outputs (outs : list ValueId) (n : Node) : Node :=
  mkNode (kind n) (inputs n) outs (attributes n).
Definition set_attributes (ats : list (Symbol * AttributeValue)) (n : Node) : Node :=
  mkNode (kind n) (inputs n) (outputs n) ats.

Definition set_all_nodes (ns : gmap nat Node) (g : Graph) : Graph :=
  mkGraph ns (all_values g) (block g).
Definition set_all_values (vs : gmap nat Value) (g : Graph) : Graph :=
  mkGraph (all_nodes g) vs (block g).
Definition set_block (b : Block) (g : Graph) : Graph :=
  mkGraph (all_nodes g) (all_values g) b.

(** Sequencing of a loop body over a list, left to right, stopping at the
    first failure. *)
Definition foldM {A S : Type} (f : A → S → option S) : list A → S → option S :=
  fix go (l : list A) (s : S) : option S :=
    match l with
    | [] => Some s
    | x :: l' => s' ← f x s; go l' s'
    end.

#[global] Arguments foldM : simpl never.

(** ** The block tree *)

(** The nodes of a block list, nested blocks included, in program order. *)
Fixpoint block_nodes (b : Block) : list NodeId :=
  match b with
  | mkBlock _ _ ns =>
      flat_map (λ e, e.1 :: flat_map block_nodes e.2) ns
  end.

(** [n->inBlockList()]. *)
Definition inBlockList (n : NodeId) (g : Graph) : bool :=
  bool_decide (n ∈ block_nodes (block g)).

(** [n->blocks()]: the nested blocks of the node at its place in the tree. *)
Fixpoint blocks_in (n : NodeId) (b : Block) : list Block :=
  match b with
  | mkBlock _ _ ns =>
      flat_map (λ e, if decide (e.1 = n) then e.2
                     else flat_map (blocks_in n) e.2) ns
  end.

Definition blocks (n : NodeId) (g : Graph) : list Block :=
  blocks_in n (block g).

(** Linking [new], a node without blocks, into the list right before [it]. *)
Fixpoint link_before (new it : NodeId) (b : Block) : Block :=
  match b with
  | mkBlock p r ns =>
      mkBlock p r
        (flat_map (λ e, let e' := (e.1, map (link_before new it) e.2) in
                        if decide (e.1 = it) then [(new, []); e'] else [e']) ns)
  end.

(** Unlinking [n] from the list it is in. *)
Fixpoint unlink (n : NodeId) (b : Block) : Block :=
  match b with
  | mkBlock p r ns =>
      mkBlock p r
        (flat_map (λ e, if decide (e.1 = n) then []
                        else [(e.1, map (unlink n) e.2)]) ns)
  end.

(** ** Operations of the IR host

    The graph data structure lives outside the file under study; the passes
    use it through the interface the specification lists in its section 6.
    The operations below say what each one does to the stores.  Section 7 of
    the specification makes a violated IR invariant (an inconsistent use
    list, a dangling producer) a fatal internal assertion: here such a call
    yields [None]. *)

(** Modelled from the spec: [Node::input(i)], [Node::outputs().at(i)] (host
    accessors, not part of the file): the [i]-th element, with a range
    check. *)
Definition input (i : nat) (n : Node) : option ValueId := inputs n !! i.
Definition output_at (i : nat) (n : Node) : option ValueId := outputs n !! i.

(** Modelled from the spec: [Node::input()] and [Node::output()] (host
    accessors): the only input, the only output; any other count is an
    assertion failure. *)
Definition the_input (n : Node) : option ValueId :=
  match inputs n with [v] => Some v | _ => None end.
Definition the_output (n : Node) : option ValueId :=
  match outputs n with [v] => Some v | _ => None end.

(** Modelled from the spec: [Node::addOutput()] ([add_output()] of section
    6): a new value, produced by the node, without uses, is appended to the
    node's outputs. *)
Definition addOutput (n : NodeId) (g : Graph) : option (ValueId * Graph) :=
  nd ← all_nodes g !! n;
  let v := fresh (dom (all_values g)) in
  Some (v, mkGraph (<[n := set_outputs (outputs nd ++ [v]) nd]> (all_nodes g))
                   (<[v := mkValue TensorType_get n []]> (all_values g))
                   (block g)).

Fixpoint addOutputs (k : nat) (n : NodeId) (g : Graph) : option Graph :=
  match k with
  | 0 => Some g
  | S k' => '(_, g') ← addOutput n g; addOutputs k' n g'
  end.

(** Modelled from the spec: [Graph::create(kind, num_outputs)] of section 6:
    a new node of the given kind with [num_outputs] outputs, no inputs and no
    attributes, owned by the graph and not yet part of any block. *)
Definition create (k : Symbol) (num_outputs : nat) (g : Graph)
    : option (NodeId * Graph) :=
  let n := fresh (dom (all_nodes g)) in
  g' ← addOutputs num_outputs n
         (set_all_nodes (<[n := mkNode k [] [] []]> (all_nodes g)) g);
  Some (n, g').

(** Modelled from the spec: the attribute setters [i_] and [t_] ([set_int],
    [set_tensor] of section 6) on the node's string-keyed attribute map: an
    existing entry of that name is replaced, a new one is appended. *)
Fixpoint set_attr (name : Symbol) (v : AttributeValue)
    (ats : list (Symbol * AttributeValue)) : list (Symbol * AttributeValue) :=
  match ats with
  | [] => [(name, v)]
  | (k, w) :: ats' =>
      if decide (k = name) then (name, v) :: ats'
      else (k, w) :: set_attr name v ats'
  end.

Fixpoint find_attr (name : Symbol) (ats : list (Symbol * AttributeValue))
    : option AttributeValue :=
  match ats with
  | [] => None
  | (k, w) :: ats' => if decide (k = name) then Some w else find_attr name ats'
  end.

Definition setAttr (n : NodeId) (name : Symbol) (v : AttributeValue) (g : Graph)
    : option Graph :=
  nd ← all_nodes g !! n;
  Some (set_all_nodes
          (<[n := set_attributes (set_attr name v (attributes nd)) nd]> (all_nodes g)) g).

Definition i_ (n : NodeId) (name : Symbol) (v : Z) : Graph → option Graph :=
  setAttr n name (IntAttr v).
Definition t_ (n : NodeId) (name : Symbol) (v : Tensor) : Graph → option Graph :=
  setAttr n name (TensorAttr v).

(** Modelled from the spec: [at::scalar_to_tensor(at::Scalar(i))] for an
    [int] [i] (ATen, not part of the file): "a scalar integer tensor with
    value i". *)
Definition scalar_to_tensor (i : Z) : Tensor := mkTensor Long i.

(** Modelled from the spec: [Value::setType] and [Value::copyMetadata]
    ([copy_metadata_from] of section 6): the type of the value is replaced,
    in the second case by the type of the other value (rewrite step 3 of
    section 4.1: "copy the type/shape metadata"). *)
Definition setType (v : ValueId) (t : JitType) (g : Graph) : option Graph :=
  val ← all_values g !! v;
  Some (set_all_values (<[v := set_type t val]> (all_values g)) g).

Definition copyMetadata (v from : ValueId) (g : Graph) : option Graph :=
  src ← all_values g !! from;
  setType v (type src) g.

(** Modelled from the spec: [Node::addInput(v)] ([add_input] of section 6):
    [v] becomes the last input, and the new edge is recorded in the use list
    of [v]. *)
Definition addInput (n : NodeId) (v : ValueId) (g : Graph) : option Graph :=
  nd ← all_nodes g !! n;
  val ← all_values g !! v;
  Some (mkGraph
          (<[n := set_inputs (inputs nd ++ [v]) nd]> (all_nodes g))
          (<[v := set_uses (uses val ++ [mkUse n (length (inputs nd))]) val]>
             (all_values g))
          (block g)).

(** Removing the first occurrence of a use from a use list. *)
Fixpoint erase_use (u : Use) (us : list Use) : list Use :=
  match us with
  | [] => []
  | u' :: us' => if decide (u' = u) then us' else u' :: erase_use u us'
  end.

(** One input edge of [n] is dropped from the use list of the value it
    reads; the edge not being recorded there is an inconsistent use list. *)
Definition dropInput (n : NodeId) (iv : nat * ValueId)
    (vs : gmap nat Value) : option (gmap nat Value) :=
  val ← vs !! iv.2;
  if decide (mkUse n iv.1 ∈ uses val)
  then Some (<[iv.2 := set_uses (erase_use (mkUse n iv.1) (uses val)) val]> vs)
  else None.

(** Modelled from the spec: [Node::removeAllInputs()] ([remove_all_inputs]
    of section 6; rewrite step 4 of section 4.1: "clear U's input edges
    (removing N's original output from use-lists)"). *)
Definition removeAllInputs (n : NodeId) (g : Graph) : option Graph :=
  nd ← all_nodes g !! n;
  vs ← foldM (dropInput n) (imap pair (inputs nd)) (all_values g);
  Some (mkGraph (<[n := set_inputs [] nd]> (all_nodes g)) vs (block g)).

(** Modelled from the spec: [Node::eraseOutput(i)] ([erase_output(i)] of
    section 6): the [i]-th output is removed from the node and freed; it must
    exist and must have no uses left (lifecycle rule of section 3). *)
Definition eraseOutput (n : NodeId) (i : nat) (g : Graph) : option Graph :=
  nd ← all_nodes g !! n;
  v ← outputs nd !! i;
  val ← all_values g !! v;
  match uses val with
  | [] => Some (mkGraph (<[n := set_outputs (delete i (outputs nd)) nd]> (all_nodes g))
                        (delete v (all_values g))
                        (block g))
  | _ :: _ => None
  end.

(** One use of [old] is redirected to [new]: the input slot the use names
    must exist and must hold [old]. *)
Definition redirect (old new : ValueId) (u : Use)
    (ns : gmap nat Node) : option (gmap nat Node) :=
  nd ← ns !! user u;
  if decide (inputs nd !! offset u = Some old)
  then Some (<[user u := set_inputs (<[offset u := new]> (inputs nd)) nd]> ns)
  else None.

(** Modelled from the spec: [Value::replaceAllUsesWith(new)]
    ([replace_all_uses_with] on values, section 6): every input slot recorded
    in the use list of the value is made to read [new], and the uses move, in
    order, to the end of the use list of [new].  The host does this one use
    at a time until none is left, which never ends when a value with uses is
    replaced by itself. *)
Definition Value_replaceAllUsesWith (v new : ValueId) (g : Graph) : option Graph :=
  val ← all_values g !! v;
  match uses val with
  | [] => Some g
  | _ :: _ =>
      if decide (v = new) then None else
      nval ← all_values g !! new;
      ns ← foldM (redirect v new) (uses val) (all_nodes g);
      Some (mkGraph ns
              (<[v := set_uses [] val]>
                 (<[new := set_uses (uses nval ++ uses val) nval]> (all_values g)))
              (block g))
  end.

(** Modelled from the spec: [Node::replaceAllUsesWith(other)]
    ([replace_all_uses_with(n)] on nodes, section 6; rewrite step 6 of
    section 4.1: "positionally: the i-th output of U is now the i-th new
    output of N").  The two nodes must have the same number of outputs. *)
Definition Node_replaceAllUsesWith (n other : NodeId) (g : Graph) : option Graph :=
  nd ← all_nodes g !! n;
  od ← all_nodes g !! other;
  if decide (length (outputs nd) = length (outputs od))
  then foldM (λ p, Value_replaceAllUsesWith p.1 p.2) (zip (outputs nd) (outputs od)) g
  else None.

(** Modelled from the spec: [Node::insertBefore(it)] ([insert_before] of
    section 6): the node, so far in no block, is linked into the list of [it]
    right before it. *)
Definition insertBefore (n it : NodeId) (g : Graph) : option Graph :=
  if inBlockList it g && negb (inBlockList n g)
  then Some (set_block (link_before n it (block g)) g)
  else None.

Fixpoint eraseOutputs (k : nat) (n : NodeId) (g : Graph) : option Graph :=
  match k with
  | 0 => Some g
  | S k' => g' ← eraseOutput n k' g; eraseOutputs k' n g'
  end.

(** Destruction of a node whose nested blocks are destroyed by [nested], last
    block first: the outputs are erased from the last to the first (none may
    have a use left), the blocks go, the input edges are cleared, and the
    node is unlinked and freed. *)
Definition destroy_with (nested : list (Graph → option Graph))
    (n : NodeId) (g : Graph) : option Graph :=
  nd ← all_nodes g !! n;
  g ← eraseOutputs (length (outputs nd)) n g;
  g ← foldr (λ d acc, g' ← acc; d g') (Some g) nested;
  g ← removeAllInputs n g;
  Some (mkGraph (delete n (all_nodes g)) (all_values g) (unlink n (block g))).

(** Destruction of a block: the return node lets go of its inputs, the nodes
    are destroyed from the last to the first, then the return node and the
    parameter node. *)
Fixpoint Block_destroy (b : Block) (g : Graph) : option Graph :=
  match b with
  | mkBlock p r ns =>
      g ← removeAllInputs r g;
      g ← foldr (λ e acc, g' ← acc; destroy_with (map Block_destroy e.2) e.1 g')
                (Some g) ns;
      g ← destroy_with [] r g;
      destroy_with [] p g
  end.

(** Modelled from the spec: [Node::destroy()], reached through the
    iterator's [destroyCurrent()] ([destroy()] of section 6; lifecycle rule
    of section 3: "A destroyed node's outputs must have no remaining uses;
    its input edges are cleared first"). *)
Definition destroy (n : NodeId) (g : Graph) : option Graph :=
  destroy_with (map Block_destroy (blocks n g)) n g.

(** ** The passes *)

(** *** ListUnpack fusion *)

(** [None] inside [Some] is [at::nullopt]. *)
Definition FindFusibleListUnpack (n : NodeId) (g : Graph) : option (option NodeId) :=
  nd ← all_nodes g !! n;
  if decide (length (outputs nd) ≠ 1) then Some None else
  out ← the_output nd;
  val ← all_values g !! out;
  if decide (length (uses val) ≠ 1) then Some None else
  u ← uses val !! 0;
  listUnpackNode ← all_nodes g !! user u;
  if decide (kind listUnpackNode ≠ prim.ListUnpack) then Some None else
  Some (Some (user u)).

(** Body of the loop that adds the outputs: [n->addOutput()] followed by
    [copyMetadata(listUnpack_node->output(i))]. *)
Definition add_output_like (n listUnpack_node : NodeId) (i : nat) (g : Graph)
    : option Graph :=
  '(new_output, g) ← addOutput n g;
  lu ← all_nodes g !! listUnpack_node;
  o ← output_at i lu;
  copyMetadata new_output o g.

(** [FuseWithListUnpack(Node* n)].  The loop counter is an [int] compared
    with the current number of outputs of the ListUnpack node: it overflows
    beyond [INT_MAX] outputs, and the bound would grow with every round if the
    two nodes were the same. *)
Definition FuseWithListUnpack (n : NodeId) (g : Graph) : option Graph :=
  found_listUnpack ← FindFusibleListUnpack n g;
  match found_listUnpack with
  | None => Some g
  | Some listUnpack_node =>
      nd ← all_nodes g !! n;
      if decide (length (outputs nd) = 1) then
        lu ← all_nodes g !! listUnpack_node;
        g ← i_ n attr._outputs (to_int64 (length (outputs lu))) g;
        if decide (n = listUnpack_node) then None else
        if decide (Z.of_nat (length (outputs lu)) ≤ INT_MAX)%Z then
          g ← foldM (add_output_like n listUnpack_node)
                    (seq 0 (length (outputs lu))) g;
          g ← removeAllInputs listUnpack_node g;
          g ← eraseOutput n 0 g;
          Node_replaceAllUsesWith listUnpack_node n g
        else None
      else None
  end.

(** The [switch] on the kind of the node. *)
Definition fusible_kinds : list Symbol :=
  [aten.split; aten.split_with_sizes; aten.unsafe_split;
   aten.unsafe_split_with_sizes; aten.unbind; aten.unsafe_chunk; aten.where_].

(** The loop body of [FuseWithListUnpack(Block* b)] once the nested blocks
    are done. *)
Definition FuseWithListUnpack_at (it : NodeId) (g : Graph) : option Graph :=
  nd ← all_nodes g !! it;
  if decide (kind nd ∈ fusible_kinds) then FuseWithListUnpack it g else Some g.

(** [FuseWithListUnpack(Block* b)].  The iterator walks the list of the
    block; the rewrites of this file link new nodes only before the cursor
    and destroy only the node under the cursor, so the nodes the loop visits
    are those of the list as it was when the loop began. *)
Fixpoint FuseWithListUnpack_Block (b : Block) (g : Graph) : option Graph :=
  match b with
  | mkBlock _ _ ns =>
      foldM (λ e g, g' ← foldM FuseWithListUnpack_Block e.2 g;
                    FuseWithListUnpack_at e.1 g') ns g
  end.

(** *** List add to Concat *)

Definition ReplaceAddWithConcat_at (it : NodeId) (g : Graph) : option Graph :=
  nd ← all_nodes g !! it;
  if decide (kind nd = aten.add) then
    in0 ← input 0 nd;
    val0 ← all_values g !! in0;
    match cast_ListType (type val0) with
    | None => Some g
    | Some elem =>
        in1 ← input 1 nd;
        val1 ← all_values g !! in1;
        match cast_ListType (type val1) with
        | None => Some g
        | Some _ =>
            if cast_IntType elem then
              '(concat_node, g) ← create onnx.Concat 1 g;
              g ← i_ concat_node attr.axis 0 g;
              g ← insertBefore concat_node it g;
              nd ← all_nodes g !! it;
              in0 ← input 0 nd;
              g ← addInput concat_node in0 g;
              nd ← all_nodes g !! it;
              in1 ← input 1 nd;
              g ← addInput concat_node in1 g;
              cn ← all_nodes g !! concat_node;
              out0 ← output_at 0 cn;
              g ← setType out0 (fromNumberType elem) g;
              g ← Node_replaceAllUsesWith it concat_node g;
              g ← removeAllInputs it g;
              destroy it g
            else Some g
        end
    end
  else Some g.

Fixpoint ReplaceAddWithConcat (b : Block) (g : Graph) : option Graph :=
  match b with
  | mkBlock _ _ ns =>
      foldM (λ e g, g' ← foldM ReplaceAddWithConcat e.2 g;
                    ReplaceAddWithConcat_at e.1 g') ns g
  end.

(** *** Indexed put to masked fill or masked scatter *)

(** [!x] for a [size_t] [x]. *)
Definition lnot_size_t (x : nat) : bool := bool_decide (x = 0).

(** [(!lc_node->inputs().size()) == 1]: the negation is a [bool], promoted
    to [int] for the comparison. *)
Definition inputs_size_guard (size : nat) : bool :=
  (Z.b2z (lnot_size_t size) =? 1)%Z.

(** The loop body once the nested blocks are done.  The test of lines
    209-211 is the parameter [size_check], so that the body can be compared
    with the same body without the test. *)
Definition index_put_body (size_check : nat → bool) (it : NodeId) (g : Graph)
    : option Graph :=
  nd ← all_nodes g !! it;
  if decide (kind nd = aten.index_put_) then
    in1 ← input 1 nd;
    val1 ← all_values g !! in1;
    let lc_node := node val1 in
    lc ← all_nodes g !! lc_node;
    mask ← input 0 lc;
    mval ← all_values g !! mask;
    match cast_TensorType (type mval) with
    | Some (Some Bool, _) =>
        if size_check (length (inputs lc)) then Some g else
        in2 ← input 2 nd;
        val2 ← all_values g !! in2;
        match cast_TensorType (type val2) with
        | Some (_, Some rank) =>
            '(masked_node, g) ←
               (if decide (rank = 0) then create aten.masked_fill 1 g
                else create aten.masked_scatter 1 g);
            g ← insertBefore masked_node it g;
            nd ← all_nodes g !! it;
            in0 ← input 0 nd;
            g ← addInput masked_node in0 g;
            lc ← all_nodes g !! lc_node;
            mask ← input 0 lc;
            g ← addInput masked_node mask g;
            nd ← all_nodes g !! it;
            in2 ← input 2 nd;
            g ← addInput masked_node in2 g;
            g ← Node_replaceAllUsesWith it masked_node g;
            g ← removeAllInputs it g;
            destroy it g
        | _ => Some g
        end
    | _ => Some g
    end
  else Some g.

Definition ReplaceIndexPutWithMaskedScatter_at : NodeId → Graph → option Graph :=
  index_put_body inputs_size_guard.

Fixpoint ReplaceIndexPutWithMaskedScatter (b : Block) (g : Graph) : option Graph :=
  match b with
  | mkBlock _ _ ns =>
      foldM (λ e g, g' ← foldM ReplaceIndexPutWithMaskedScatter e.2 g;
                    ReplaceIndexPutWithMaskedScatter_at e.1 g') ns g
  end.

(** *** ListUnpack of an integer list to Gather *)

(** The condition of the [if] inside the loop over the outputs, with its
    short-circuit evaluation. *)
Definition unpacks_opaque_int_list (it : NodeId) (g : Graph) : option bool :=
  nd ← all_nodes g !! it;
  if decide (length (inputs nd) = 1) then
    v ← the_input nd;
    val ← all_values g !! v;
    producer ← all_nodes g !! node val;
    if decide (kind producer ≠ prim.ListConstruct) then
      match cast_ListType (type val) with
      | Some elem => Some (cast_IntType elem)
      | None => Some false
      end
    else Some false
  else Some false.

(** One round of the loop over the outputs of the ListUnpack node [it]. *)
Definition gather_output (it : NodeId) (i : nat) (g : Graph) : option Graph :=
  nd ← all_nodes g !! it;
  output ← output_at i nd;
  c ← unpacks_opaque_int_list it g;
  if c : bool then
    '(gather_indices, g) ← create onnx.Constant 1 g;
    g ← insertBefore gather_indices it g;
    g ← t_ gather_indices attr.value (scalar_to_tensor (to_int i)) g;
    '(gather_node, g) ← create onnx.Gather 1 g;
    g ← insertBefore gather_node it g;
    nd ← all_nodes g !! it;
    v ← the_input nd;
    g ← addInput gather_node v g;
    gi ← all_nodes g !! gather_indices;
    gi_out ← the_output gi;
    g ← addInput gather_node gi_out g;
    gn ← all_nodes g !! gather_node;
    gn_out ← the_output gn;
    Value_replaceAllUsesWith output gn_out g
  else Some g.

Definition fuseListAndListUnpack_at (it : NodeId) (g : Graph) : option Graph :=
  nd ← all_nodes g !! it;
  if decide (kind nd = prim.ListUnpack) then
    foldM (gather_output it) (seq 0 (length (outputs nd))) g
  else Some g.

Fixpoint fuseListAndListUnpack (b : Block) (g : Graph) : option Graph :=
  match b with
  | mkBlock _ _ ns =>
      foldM (λ e g, g' ← foldM fuseListAndListUnpack e.2 g;
                    fuseListAndListUnpack_at e.1 g') ns g
  end.

(** *** The entry point *)

Definition PreprocessForONNX (graph : Graph) : option Graph :=
  g ← FuseWithListUnpack_Block (block graph) graph;
  g ← ReplaceAddWithConcat (block g) g;
  g ← ReplaceIndexPutWithMaskedScatter (block g) g;
  fuseListAndListUnpack (block g) g.

(** ** Well-formed graphs

    The invariants of section 8 of the specification, over the stores: the
    use lists and the input edges say the same (invariant 1), every value is
    an output of its producer, which is in the graph, and of no other node
    (invariant 2 and invariant 1 of section 3); the nodes of the block tree
    are in the store.  A graph is well formed when, in addition, no node
    reads an output of its own. *)

(** The input slot a use names exists and reads [v]. *)
Definition use_is_edge (g : Graph) (v : ValueId) (u : Use) : Prop :=
  (all_nodes g !! user u ≫= λ nd, inputs nd !! offset u) = Some v.

(** The input edge number [iv.1] of [n], reading [iv.2], is in the use list
    of the value. *)
Definition edge_is_use (g : Graph) (n : NodeId) (iv : nat * ValueId) : Prop :=
  mkUse n iv.1 ∈ default [] (uses <$> all_values g !! iv.2).

(** The value [o] names [n] as its producer. *)
Definition produced_by (g : Graph) (n : NodeId) (o : ValueId) : Prop :=
  node <$> all_values g !! o = Some n.

(** The node [n] is in the graph and lists [v] among its outputs. *)
Definition is_output_of (g : Graph) (v : ValueId) (n : NodeId) : Prop :=
  v ∈ default [] (outputs <$> all_nodes g !! n).

Definition Value_wf (g : Graph) (v : ValueId) (val : Value) : Prop :=
  Forall (use_is_edge g v) (uses val) ∧ NoDup (uses val) ∧
  is_output_of g v (node val).

Definition Node_wf (g : Graph) (n : NodeId) (nd : Node) : Prop :=
  Forall (edge_is_use g n) (imap pair (inputs nd)) ∧
  Forall (produced_by g n) (outputs nd) ∧ NoDup (outputs nd).

Definition consistent (g : Graph) : Prop :=
  map_Forall (Value_wf g) (all_values g) ∧
  map_Forall (Node_wf g) (all_nodes g) ∧
  Forall (λ n, is_Some (all_nodes g !! n)) (block_nodes (block g)).

Definition reads_no_own_output (nd : Node) : Prop :=
  Forall (λ v, v ∉ outputs nd) (inputs nd).

Definition wf (g : Graph) : Prop :=
  consistent g ∧ map_Forall (λ _, reads_no_own_output) (all_nodes g).

#[global] Instance consistent_dec g : Decision (consistent g).
Proof.
  unfold consistent, Value_wf, Node_wf, use_is_edge, edge_is_use, produced_by,
    is_output_of.
  apply _.
Defined.

#[global] Instance wf_dec g : Decision (wf g).
Proof. unfold wf, reads_no_own_output. apply _. Defined.

(** Invariant 1 of section 8 for one value: "its use set equals
    {(n, i) : n.input(i) == v}". *)
Definition uses_agree (g : Graph) (v : ValueId) (us : list Use) : Prop :=
  NoDup us ∧
  ∀ m i, mkUse m i ∈ us ↔
         ∃ nd, all_nodes g !! m = Some nd ∧ inputs nd !! i = Some v.

(** ** Rewiring in closed form *)

(** Reading [new] wherever [old] was read. *)
Definition subst_value (old new : ValueId) (x : ValueId) : ValueId :=
  if decide (x = old) then new else x.

Definition subst_inputs (σ : ValueId → ValueId) (nd : Node) : Node :=
  set_inputs (map σ (inputs nd)) nd.

(** The same for the pairs [(old, new)] of a list, one after the other. *)
Fixpoint subst_values (ps : list (ValueId * ValueId)) (x : ValueId) : ValueId :=
  match ps with
  | [] => x
  | p :: ps' => subst_values ps' (subst_value p.1 p.2 x)
  end.

(** The inputs of node [n] once the slots the uses [us] name read [new]. *)
Definition retarget (n : NodeId) (us : list Use) (new : ValueId)
    (ins : list ValueId) : list ValueId :=
  imap (λ i x, if decide (mkUse n i ∈ us) then new else x) ins.

(** [u] is an input edge of [n], from the inputs [ins], that reads [v]. *)
Definition reads (n : NodeId) (ins : list ValueId) (v : ValueId) (u : Use) : Prop :=
  user u = n ∧ ins !! offset u = Some v.

(** A use list without the input edges of [n]. *)
Definition without_edges (n : NodeId) (ins : list ValueId) (v : ValueId)
    (val : Value) : Value :=
  set_uses (filter (λ u, ¬ reads n ins v u) (uses val)) val.

(** What the list-index expansion adds for one output of a ListUnpack node:
    the [onnx::Constant] node and its output, the [onnx::Gather] node and
    its output. *)
Record Expansion := mkExpansion {
  index_node : NodeId;
  index_value : ValueId;
  element_node : NodeId;
  element_value : ValueId
}.

(** The nodes the expansion links in, in program order. *)
Definition expansion_nodes (rs : list Expansion) : list nat :=
  flat_map (λ r, [index_node r; element_node r]) rs.

(** None of the four rewrites fires at the node [n]: each loop body returns
    the graph it was given. *)
Definition quiet_at (g : Graph) (n : NodeId) : Prop :=
  FuseWithListUnpack_at n g = Some g ∧
  ReplaceAddWithConcat_at n g = Some g ∧
  ReplaceIndexPutWithMaskedScatter_at n g = Some g ∧
  fuseListAndListUnpack_at n g = Some g.

(** ** Relations between the graph a pass is given and the one it returns *)

(** No node of the block tree is of one of the kinds [ks]. *)
Definition without_kinds (ks : list Symbol) (g : Graph) : Prop :=
  ∀ n nd, n ∈ block_nodes (block g) → all_nodes g !! n = Some nd →
          kind nd ∉ ks.

(** The same block tree and the same nodes, each of the kind it had. *)
Definition same_skeleton (g g' : Graph) : Prop :=
  block g' = block g ∧
  ∀ m, kind <$> all_nodes g' !! m = kind <$> all_nodes g !! m.

(** What the list-index expansion keeps of the graph [g0] it began with:
    the stores are consistent; the nodes of the block tree are there, in
    their order; every node is there, with its kind, its outputs and its
    number of inputs, and reads none of its own outputs; every value is
    there, with its type. *)
Definition expansion_invariant (g0 g : Graph) : Prop :=
  consistent g ∧
  sublist (block_nodes (block g0)) (block_nodes (block g)) ∧
  (∀ m md0, all_nodes g0 !! m = Some md0 →
     ∃ md, all_nodes g !! m = Some md ∧ kind md = kind md0 ∧
           outputs md = outputs md0 ∧
           length (inputs md) = length (inputs md0) ∧
           reads_no_own_output md) ∧
  (∀ x val0, all_values g0 !! x = Some val0 →
     ∃ val, all_values g !! x = Some val ∧ type val = type val0).

(** ** The order in which a pass visits the nodes *)

(** The loops of the four passes go through the list of a block from the
    first node to the last and, at each node, through its nested blocks
    before the node itself. *)
Fixpoint visit_order (b : Block) : list NodeId :=
  match b with
  | mkBlock _ _ ns =>
      flat_map (λ e, (flat_map visit_order e.2 ++ [e.1])%list) ns
  end.

(** The loop with body [step], run on the graph [g], comes to the node [it]
    with the graph [g1] in hand and the nodes [rest] still to visit. *)
Definition reaches (step : NodeId → Graph → option Graph)
    (g : Graph) (it : NodeId) (g1 : Graph) (rest : list NodeId) : Prop :=
  ∃ before, visit_order (block g) = (before ++ it :: rest)%list ∧
            foldM step before g = Some g1.

(** ** What a run of the passes cannot undo *)

(** The kinds of the nodes the passes create. *)
Definition created_kinds : list Symbol :=
  [onnx.Concat; aten.masked_fill; aten.masked_scatter; onnx.Constant;
   onnx.Gather].

(** Every node of the store [ns'] is of a kind the passes create, or was in
    the store [ns] with the kind it has, and has no inputs if it had none
    there. *)
Definition descends_nodes (ns ns' : gmap nat Node) : Prop :=
  ∀ x d', ns' !! x = Some d' →
          kind d' ∈ created_kinds ∨
          ∃ d, ns !! x = Some d ∧ kind d = kind d' ∧
               (inputs d = [] → inputs d' = []).

Definition descends (g g' : Graph) : Prop :=
  descends_nodes (all_nodes g) (all_nodes g').

(** The node [x], if the graph has it, has no inputs or is of a kind the
    passes create. *)
Definition spent (g : Graph) (x : NodeId) : Prop :=
  ∀ d, all_nodes g !! x = Some d → inputs d = [] ∨ kind d ∈ created_kinds.

(** Every node of the store [ns] is in the store [ns'], with the kind it
    has. *)
Definition keeps_kinds_nodes (ns ns' : gmap nat Node) : Prop :=
  ∀ x d, ns !! x = Some d → ∃ d', ns' !! x = Some d' ∧ kind d' = kind d.

Definition keeps_kinds (g g' : Graph) : Prop :=
  keeps_kinds_nodes (all_nodes g) (all_nodes g').

(** One round of the loop body of one of the four passes, at some node. *)
Definition round (g g' : Graph) : Prop :=
  ∃ n, FuseWithListUnpack_at n g = Some g' ∨
       ReplaceAddWithConcat_at n g = Some g' ∨
       ReplaceIndexPutWithMaskedScatter_at n g = Some g' ∨
       fuseListAndListUnpack_at n g = Some g'.

(** No [prim::ListUnpack] node reads one of its own outputs. *)
Definition unpacks_read_no_own_output (g : Graph) : Prop :=
  ∀ u lu, all_nodes g !! u = Some lu → kind lu = prim.ListUnpack →
          reads_no_own_output lu.

(** ** Graphs without a cycle *)

(** Every value a node reads is made by a node of lower rank: the input
    edges make no cycle. *)
Definition ranked (rank : NodeId → nat) (g : Graph) : Prop :=
  map_Forall
    (λ n nd,
       map_Forall
         (λ p pd, Forall (λ v, v ∈ outputs pd → rank p < rank n) (inputs nd))
         (all_nodes g))
    (all_nodes g).

#[global] Instance ranked_dec rank g : Decision (ranked rank g).
Proof. unfold ranked. apply _. Defined.

(** What the loop of the indexed-put pass keeps of a graph, the nodes [todo]
    being still to visit: the stores are consistent, the input edges make no
    cycle, and every node still to visit is in the block tree and, if it is
    an [index_put_] node, has one output and no nested block. *)
Definition index_put_invariant (todo : list NodeId) (g : Graph) : Prop :=
  consistent g ∧ (∃ rank, ranked rank g) ∧
  ∀ x, x ∈ todo →
       x ∈ block_nodes (block g) ∧
       ∀ d, all_nodes g !! x = Some d → kind d = aten.index_put_ →
            length (outputs d) = 1 ∧ blocks x g = [].

(** ** The patterns in the words of the specification *)

(** Section 4.1: "A trigger node N is fusible iff: (a) N has exactly one
    output, (b) that output has exactly one use, and (c) that use's consumer
    is a ListUnpack node."  [u] is that consumer. *)
Definition fusible (g : Graph) (nd : Node) (u : NodeId) : Prop :=
  ∃ out val off lu,
    outputs nd = [out] ∧ all_values g !! out = Some val ∧
    uses val = [mkUse u off] ∧
    all_nodes g !! u = Some lu ∧ kind lu = prim.ListUnpack.

(** ** The graphs of the comments in the source *)

Module Examples.

Definition Param : Symbol := "prim::Param".
Definition Return : Symbol := "prim::Return".
Definition Float3 : JitType := TensorType (Some Float) (Some 3).

(** [%8 : Tensor[] = aten::split_with_sizes(%input, %13, %7)] followed by
    [%9, %10, %11 = prim::ListUnpack(%8)] and [return (%9, %10, %11)].
    Values: 0 is [%input], 1 is [%13], 2 is [%7], 3 is [%8], 4 to 6 are
    [%9] to [%11]. *)
Definition split_graph : Graph :=
  mkGraph
    (list_to_map
       [(0, mkNode Param [] [0] []);
        (1, mkNode Return [4; 5; 6] [] []);
        (2, mkNode "prim::Constant" [] [1] []);
        (3, mkNode "prim::Constant" [] [2] []);
        (4, mkNode aten.split_with_sizes [0; 1; 2] [3] []);
        (5, mkNode prim.ListUnpack [3] [4; 5; 6] [])])
    (list_to_map
       [(0, mkValue Float3 0 [mkUse 4 0]);
        (1, mkValue (ListType IntType) 2 [mkUse 4 1]);
        (2, mkValue IntType 3 [mkUse 4 2]);
        (3, mkValue (ListType (TensorType None None)) 4 [mkUse 5 0]);
        (4, mkValue Float3 5 [mkUse 1 0]);
        (5, mkValue Float3 5 [mkUse 1 1]);
        (6, mkValue Float3 5 [mkUse 1 2])])
    (mkBlock 0 1 [(2, []); (3, []); (4, []); (5, [])]).

(** The same with a second consumer of the list [%8]. *)
Definition split_two_uses_graph : Graph :=
  mkGraph
    (list_to_map
       [(0, mkNode Param [] [0] []);
        (1, mkNode Return [4; 5; 6; 7] [] []);
        (2, mkNode "prim::Constant" [] [1] []);
        (3, mkNode "prim::Constant" [] [2] []);
        (4, mkNode aten.split_with_sizes [0; 1; 2] [3] []);
        (5, mkNode prim.ListUnpack [3] [4; 5; 6] []);
        (6, mkNode "aten::len" [3] [7] [])])
    (list_to_map
       [(0, mkValue Float3 0 [mkUse 4 0]);
        (1, mkValue (ListType IntType) 2 [mkUse 4 1]);
        (2, mkValue IntType 3 [mkUse 4 2]);
        (3, mkValue (ListType (TensorType None None)) 4 [mkUse 5 0; mkUse 6 0]);
        (4, mkValue Float3 5 [mkUse 1 0]);
        (5, mkValue Float3 5 [mkUse 1 1]);
        (6, mkValue Float3 5 [mkUse 1 2]);
        (7, mkValue IntType 6 [mkUse 1 3])])
    (mkBlock 0 1 [(2, []); (3, []); (4, []); (5, []); (6, [])]).

(** [%7 : int[] = aten::add(%l1.1, %l2.1)] with the two lists made by
    [aten::size] and [aten::list], read by [aten::new_zeros].  Values: 0
    and 1 are [%x.1] and [%y.1], 2 is [%2], 3 is [%3], 4 is [%l1.1], 5 is
    [%5], 6 is [%l2.1], 7 is [%7], 8 is [%8].  The element types of the
    two lists are parameters. *)
Definition add_graph (elem1 elem2 : JitType) : Graph :=
  mkGraph
    (list_to_map
       [(0, mkNode Param [] [0; 1] []);
        (1, mkNode Return [8] [] []);
        (2, mkNode "prim::Constant" [] [2] []);
        (3, mkNode "aten::size" [0] [3] []);
        (4, mkNode "aten::list" [3] [4] []);
        (5, mkNode "aten::size" [1] [5] []);
        (6, mkNode "aten::list" [5] [6] []);
        (7, mkNode aten.add [4; 6] [7] []);
        (8, mkNode "aten::new_zeros" [0; 7; 2; 2; 2; 2] [8] [])])
    (list_to_map
       [(0, mkValue Float3 0 [mkUse 3 0; mkUse 8 0]);
        (1, mkValue Float3 0 [mkUse 5 0]);
        (2, mkValue NoneType 2 [mkUse 8 2; mkUse 8 3; mkUse 8 4; mkUse 8 5]);
        (3, mkValue (ListType elem1) 3 [mkUse 4 0]);
        (4, mkValue (ListType elem1) 4 [mkUse 7 0]);
        (5, mkValue (ListType elem2) 5 [mkUse 6 0]);
        (6, mkValue (ListType elem2) 6 [mkUse 7 1]);
        (7, mkValue (ListType elem1) 7 [mkUse 8 1]);
        (8, mkValue (TensorType None None) 8 [mkUse 1 0])])
    (mkBlock 0 1 [(2, []); (3, []); (4, []); (5, []); (6, []); (7, []); (8, [])]).

(** [%mask = aten::index_put_(%mask.1, %22, %23, %24)] with
    [%22 = prim::ListConstruct(%21)].  Values: 0 is [%mask.1], 1 is [%21],
    2 is [%22], 3 is [%23], 4 is [%24], 5 is [%mask].  The types of the
    index [%21] and of the value [%23] are parameters. *)
Definition index_put_graph (index_type value_type : JitType) : Graph :=
  mkGraph
    (list_to_map
       [(0, mkNode Param [] [0; 1] []);
        (1, mkNode Return [5] [] []);
        (2, mkNode prim.ListConstruct [1] [2] []);
        (3, mkNode "prim::Constant" [] [3] []);
        (4, mkNode "prim::Constant" [] [4] []);
        (5, mkNode aten.index_put_ [0; 2; 3; 4] [5] [])])
    (list_to_map
       [(0, mkValue Float3 0 [mkUse 5 0]);
        (1, mkValue index_type 0 [mkUse 2 0]);
        (2, mkValue (ListType (OptionalType (TensorType None None))) 2 [mkUse 5 1]);
        (3, mkValue value_type 3 [mkUse 5 2]);
        (4, mkValue BoolType 4 [mkUse 5 3]);
        (5, mkValue Float3 5 [mkUse 1 0])])
    (mkBlock 0 1 [(2, []); (3, []); (4, []); (5, [])]).

(** The same, the index list being an empty [prim::ListConstruct()]. *)
Definition index_put_no_index_graph : Graph :=
  mkGraph
    (list_to_map
       [(0, mkNode Param [] [0] []);
        (1, mkNode Return [5] [] []);
        (2, mkNode prim.ListConstruct [] [2] []);
        (3, mkNode "prim::Constant" [] [3] []);
        (4, mkNode "prim::Constant" [] [4] []);
        (5, mkNode aten.index_put_ [0; 2; 3; 4] [5] [])])
    (list_to_map
       [(0, mkValue Float3 0 [mkUse 5 0]);
        (2, mkValue (ListType (OptionalType (TensorType None None))) 2 [mkUse 5 1]);
        (3, mkValue (TensorType (Some Float) (Some 0)) 3 [mkUse 5 2]);
        (4, mkValue BoolType 4 [mkUse 5 3]);
        (5, mkValue Float3 5 [mkUse 1 0])])
    (mkBlock 0 1 [(2, []); (3, []); (4, []); (5, [])]).

(** [%a.1, %b.1 = prim::ListUnpack(%2)] with [%2 : int[]] made by the node
    of kind [producer], read by [%5 = prim::ListConstruct(%a.1, %b.1)].
    Values: 0 is [%x.1], 1 is [%2], 2 and 3 are [%a.1] and [%b.1], 4 is
    [%5]. *)
Definition unpack_graph (producer : Symbol) : Graph :=
  mkGraph
    (list_to_map
       [(0, mkNode Param [] [0] []);
        (1, mkNode Return [4] [] []);
        (2, mkNode producer [0] [1] []);
        (3, mkNode prim.ListUnpack [1] [2; 3] []);
        (4, mkNode prim.ListConstruct [2; 3] [4] [])])
    (list_to_map
       [(0, mkValue (TensorType (Some Float) (Some 2)) 0 [mkUse 2 0]);
        (1, mkValue (ListType IntType) 2 [mkUse 3 0]);
        (2, mkValue IntType 3 [mkUse 4 0]);
        (3, mkValue IntType 3 [mkUse 4 1]);
        (4, mkValue (ListType IntType) 4 [mkUse 1 0])])
    (mkBlock 0 1 [(2, []); (3, []); (4, [])]).

(** A conditional with one nested block:
    [%5 : int = prim::If(%1)], [block0(): %2 : int[] = aten::size(%x.1)],
    [%3 : int, %4 : int = inner(%2)], [-> (%3)], and [return (%5)].
    Values: 0 is [%x.1], 1 is the condition; nodes 4 and 5 are the parameter
    node and the return node of the nested block. *)
Definition nested_graph (inner : Symbol) : Graph :=
  mkGraph
    (list_to_map
       [(0, mkNode Param [] [0] []);
        (1, mkNode Return [5] [] []);
        (2, mkNode "prim::Constant" [] [1] []);
        (3, mkNode "prim::If" [1] [5] []);
        (4, mkNode Param [] [] []);
        (5, mkNode Return [3] [] []);
        (6, mkNode "aten::size" [0] [2] []);
        (7, mkNode inner [2] [3; 4] [])])
    (list_to_map
       [(0, mkValue (TensorType (Some Float) (Some 2)) 0 [mkUse 6 0]);
        (1, mkValue BoolType 2 [mkUse 3 0]);
        (2, mkValue (ListType IntType) 6 [mkUse 7 0]);
        (3, mkValue IntType 7 [mkUse 5 0]);
        (4, mkValue IntType 7 []);
        (5, mkValue IntType 3 [mkUse 1 0])])
    (mkBlock 0 1 [(2, []); (3, [mkBlock 4 5 [(6, []); (7, [])]])]).

(** [%4 : int[] = aten::add(%2, %3)] of the sizes of [%x.1] and [%y.1],
    unpacked by [%5 : int, %6 : int = prim::ListUnpack(%4)], and
    [return (%5)].  Values: 0 and 1 are [%x.1] and [%y.1]. *)
Definition add_unpack_graph : Graph :=
  mkGraph
    (list_to_map
       [(0, mkNode Param [] [0; 1] []);
        (1, mkNode Return [5] [] []);
        (2, mkNode "aten::size" [0] [2] []);
        (3, mkNode "aten::size" [1] [3] []);
        (4, mkNode aten.add [2; 3] [4] []);
        (5, mkNode prim.ListUnpack [4] [5; 6] [])])
    (list_to_map
       [(0, mkValue Float3 0 [mkUse 2 0]);
        (1, mkValue Float3 0 [mkUse 3 0]);
        (2, mkValue (ListType IntType) 2 [mkUse 4 0]);
        (3, mkValue (ListType IntType) 3 [mkUse 4 1]);
        (4, mkValue (ListType IntType) 4 [mkUse 5 0]);
        (5, mkValue IntType 5 [mkUse 1 0]);
        (6, mkValue IntType 5 [])])
    (mkBlock 0 1 [(2, []); (3, []); (4, []); (5, [])]).

(** Two indexed puts in a row with the same mask, the value of the second
    being the result of the first:
    [%4 = aten::index_put_(%x, %3, %v)] with [%3 = prim::ListConstruct(%c)]
    and [%6 = aten::index_put_(%x, %5, %4)] with
    [%5 = prim::ListConstruct(%c)].  Values: 0 is [%x], 1 is the [Bool] mask
    [%c], 2 is the scalar [%v]. *)
Definition index_put_chain_graph : Graph :=
  mkGraph
    (list_to_map
       [(0, mkNode Param [] [0; 1; 2] []);
        (1, mkNode Return [6] [] []);
        (2, mkNode prim.ListConstruct [1] [3] []);
        (3, mkNode aten.index_put_ [0; 3; 2] [4] []);
        (4, mkNode prim.ListConstruct [1] [5] []);
        (5, mkNode aten.index_put_ [0; 5; 4] [6] [])])
    (list_to_map
       [(0, mkValue Float3 0 [mkUse 3 0; mkUse 5 0]);
        (1, mkValue (TensorType (Some Bool) (Some 3)) 0 [mkUse 2 0; mkUse 4 0]);
        (2, mkValue (TensorType (Some Float) (Some 0)) 0 [mkUse 3 2]);
        (3, mkValue (ListType (OptionalType (TensorType None None))) 2
              [mkUse 3 1]);
        (4, mkValue Float3 3 [mkUse 5 2]);
        (5, mkValue (ListType (OptionalType (TensorType None None))) 4
              [mkUse 5 1]);
        (6, mkValue Float3 5 [mkUse 1 0])])
    (mkBlock 0 1 [(2, []); (3, []); (4, []); (5, [])]).

(** Two indexed puts in a row with the same mask, the second writing into
    the result of the first:
    [%4 = aten::index_put_(%x, %3, %v)] with [%3 = prim::ListConstruct(%c)]
    and [%6 = aten::index_put_(%4, %5, %v)] with
    [%5 = prim::ListConstruct(%c)].  Values: 0 is [%x], 1 is the [Bool] mask
    [%c], 2 is the scalar [%v]. *)
Definition index_put_twice_graph : Graph :=
  mkGraph
    (list_to_map
       [(0, mkNode Param [] [0; 1; 2] []);
        (1, mkNode Return [6] [] []);
        (2, mkNode prim.ListConstruct [1] [3] []);
        (3, mkNode aten.index_put_ [0; 3; 2] [4] []);
        (4, mkNode prim.ListConstruct [1] [5] []);
        (5, mkNode aten.index_put_ [4; 5; 2] [6] [])])
    (list_to_map
       [(0, mkValue Float3 0 [mkUse 3 0]);
        (1, mkValue (TensorType (Some Bool) (Some 3)) 0 [mkUse 2 0; mkUse 4 0]);
        (2, mkValue (TensorType (Some Float) (Some 0)) 0 [mkUse 3 2; mkUse 5 2]);
        (3, mkValue (ListType (OptionalType (TensorType None None))) 2
              [mkUse 3 1]);
        (4, mkValue Float3 3 [mkUse 5 0]);
        (5, mkValue (ListType (OptionalType (TensorType None None))) 4
              [mkUse 5 1]);
        (6, mkValue Float3 5 [mkUse 1 0])])
    (mkBlock 0 1 [(2, []); (3, []); (4, []); (5, [])]).

(** The list of [%3 : Tensor[] = aten::where(%c)] read both by
    [%4 = aten::index_put_(%x, %3, %v)] and by
    [%5, %6 = prim::ListUnpack(%3)].  Values: 0 is [%x], 1 is the [Bool]
    tensor [%c], 2 is the scalar [%v]. *)
Definition where_index_put_graph : Graph :=
  mkGraph
    (list_to_map
       [(0, mkNode Param [] [0; 1; 2] []);
        (1, mkNode Return [4; 5] [] []);
        (2, mkNode aten.where_ [1] [3] []);
        (3, mkNode aten.index_put_ [0; 3; 2] [4] []);
        (4, mkNode prim.ListUnpack [3] [5; 6] [])])
    (list_to_map
       [(0, mkValue Float3 0 [mkUse 3 0]);
        (1, mkValue (TensorType (Some Bool) (Some 3)) 0 [mkUse 2 0]);
        (2, mkValue (TensorType (Some Float) (Some 0)) 0 [mkUse 3 2]);
        (3, mkValue (ListType (TensorType None None)) 2
              [mkUse 3 1; mkUse 4 0]);
        (4, mkValue Float3 3 [mkUse 1 0]);
        (5, mkValue (TensorType (Some Long) (Some 1)) 4 [mkUse 1 1]);
        (6, mkValue (TensorType (Some Long) (Some 1)) 4 [])])
    (mkBlock 0 1 [(2, []); (3, []); (4, [])]).

End Examples.

(** * Properties *)

Local Close Scope string_scope.

(** ** The size test of the indexed-put pass *)

Lemma inputs_size_guard_spec (size : nat) :
  inputs_size_guard size = true ↔ size = 0.
Proof.
  unfold inputs_size_guard, lnot_size_t.
  destruct size as [|size]; simpl; split; intros H; try done.
Qed.

Lemma inputs_size_guard_after_input (lc : Node) (mask : ValueId) :
  input 0 lc = Some mask → inputs_size_guard (length (inputs lc)) = false.
Proof.
  unfold input. destruct (inputs lc) as [|v vs]; [done|]. intros _. reflexivity.
Qed.

Lemma index_put_body_size_check (check1 check2 : nat → bool) it g :
  (∀ size, 0 < size → check1 size = check2 size) →
  index_put_body check1 it g = index_put_body check2 it g.
Proof.
  intros Hc. unfold index_put_body.
  destruct (all_nodes g !! it) as [nd|]; simpl; [|done].
  case_decide; [|done].
  destruct (input 1 nd) as [in1|]; simpl; [|done].
  destruct (all_values g !! in1) as [val1|]; simpl; [|done].
  destruct (all_nodes g !! node val1) as [lc|]; simpl; [|done].
  destruct (input 0 lc) as [mask|] eqn:Hmask; simpl; [|done].
  destruct (all_values g !! mask) as [mval|]; simpl; [|done].
  rewrite (Hc (length (inputs lc))); [done|].
  unfold input in Hmask. destruct (inputs lc); simpl; [done|lia].
Qed.

(** ** The unchecked read of the first index *)

(** C10: the indexed-put pass reads [lc_node->input(0)] of the producer of
    the second input of an [index_put_] node whatever that producer is; when
    the producer has no input the read is out of range and the pass does not
    complete. *)
Theorem C10_index_put_reads_missing_input it g nd in1 val1 lc :
  all_nodes g !! it = Some nd →
  kind nd = aten.index_put_ →
  input 1 nd = Some in1 →
  all_values g !! in1 = Some val1 →
  all_nodes g !! node val1 = Some lc →
  inputs lc = [] →
  ReplaceIndexPutWithMaskedScatter_at it g = None.
Proof.
  intros Hit Hk Hin1 Hval1 Hlc Hnil.
  unfold ReplaceIndexPutWithMaskedScatter_at, index_put_body.
  rewrite Hit. simpl. rewrite decide_True by done.
  rewrite Hin1. simpl. rewrite Hval1. simpl. rewrite Hlc. simpl.
  unfold input. rewrite Hnil. reflexivity.
Qed.

Lemma C10_index_put_reads_missing_input_witness :
  ReplaceIndexPutWithMaskedScatter_at 5 Examples.index_put_no_index_graph = None.
Proof.
  apply (C10_index_put_reads_missing_input 5 Examples.index_put_no_index_graph
           (mkNode aten.index_put_ [0; 2; 3; 4] [5] []) 2
           (mkValue (ListType (OptionalType (TensorType None None))) 2 [mkUse 5 1])
           (mkNode prim.ListConstruct [] [2] [])); reflexivity.
Defined.

(** ** Nodes the list-add pass leaves alone *)

(** C2: an [aten::add] node one of whose two inputs is not a list, or whose
    list element type (read from input 0) is not [Int], is left unchanged,
    and with it the graph; so is an add of two float lists. *)
Theorem C2_add_not_of_int_lists_unchanged it g nd in0 in1 val0 val1 :
  all_nodes g !! it = Some nd →
  kind nd = aten.add →
  input 0 nd = Some in0 →
  input 1 nd = Some in1 →
  all_values g !! in0 = Some val0 →
  all_values g !! in1 = Some val1 →
  cast_ListType (type val0) = None ∨
  cast_ListType (type val1) = None ∨
  (∀ elem, type val0 = ListType elem → elem ≠ IntType) →
  ReplaceAddWithConcat_at it g = Some g.
Proof.
  intros Hit Hk Hin0 Hin1 Hval0 Hval1 Hno.
  unfold ReplaceAddWithConcat_at.
  rewrite Hit. simpl. rewrite decide_True by done.
  rewrite Hin0. simpl. rewrite Hval0. simpl.
  destruct (cast_ListType (type val0)) as [elem|] eqn:Hl0; [|done].
  rewrite Hin1. simpl. rewrite Hval1. simpl.
  destruct (cast_ListType (type val1)) as [elem1|] eqn:Hl1; [|done].
  destruct Hno as [?|[?|Hno]]; [done..|].
  destruct (type val0) eqn:Ht0; try done. simpl in Hl0. simplify_eq.
  specialize (Hno elem eq_refl). by destruct elem.
Qed.

Lemma C2_add_not_of_int_lists_unchanged_witness :
  ReplaceAddWithConcat_at 7 (Examples.add_graph FloatType FloatType)
  = Some (Examples.add_graph FloatType FloatType).
Proof.
  apply (C2_add_not_of_int_lists_unchanged 7 _
           (mkNode aten.add [4; 6] [7] []) 4 6
           (mkValue (ListType FloatType) 4 [mkUse 7 0])
           (mkValue (ListType FloatType) 6 [mkUse 7 1]));
    try reflexivity.
  right; right. intros elem [= <-]. discriminate.
Defined.

(** The element type is read from input 0 only: an add of an int list and a
    float list is rewritten. *)
Example add_int_list_float_list_rewritten :
  ∃ g', ReplaceAddWithConcat_at 7 (Examples.add_graph IntType FloatType) = Some g' ∧
        all_nodes g' !! 7 = None ∧
        all_nodes g' !! 9 = Some (mkNode onnx.Concat [4; 6] [9] [(attr.axis, IntAttr 0)]).
Proof. eexists. split; [vm_compute; reflexivity|]. split; reflexivity. Qed.

(** ** Indexed puts the pass leaves alone *)

(** C9: an [index_put_] node whose mask is not a tensor, or has no scalar
    kind, or one that is not [Bool], or whose value is not a tensor or has no
    known rank, is left unchanged, and with it the whole graph: no node is
    created. *)
Theorem C9_index_put_without_match_unchanged it g nd in1 val1 lc mask mval :
  all_nodes g !! it = Some nd →
  kind nd = aten.index_put_ →
  input 1 nd = Some in1 →
  all_values g !! in1 = Some val1 →
  all_nodes g !! node val1 = Some lc →
  input 0 lc = Some mask →
  all_values g !! mask = Some mval →
  cast_TensorType (type mval) = None ∨
  (∃ rk, type mval = TensorType None rk) ∨
  (∃ st rk, type mval = TensorType (Some st) rk ∧ st ≠ Bool) ∨
  (∃ in2 val2,
     input 2 nd = Some in2 ∧ all_values g !! in2 = Some val2 ∧
     (cast_TensorType (type val2) = None ∨
      ∃ st, type val2 = TensorType st None)) →
  ReplaceIndexPutWithMaskedScatter_at it g = Some g.
Proof.
  intros Hit Hk Hin1 Hval1 Hlc Hmask Hmval Hno.
  unfold ReplaceIndexPutWithMaskedScatter_at, index_put_body.
  rewrite Hit. simpl. rewrite decide_True by done.
  rewrite Hin1. simpl. rewrite Hval1. simpl. rewrite Hlc. simpl.
  rewrite Hmask. simpl. rewrite Hmval. simpl.
  rewrite (inputs_size_guard_after_input _ _ Hmask).
  destruct (type mval) as [[[]|] rk| | | | | |] eqn:Htm; simpl; try done;
    try (destruct Hno as [?|[[? ?]|[(st & rk' & ? & ?)|Hno]]];
         simplify_eq; try done).
  destruct Hno as (in2 & val2 & Hin2 & Hval2 & Hno).
  rewrite Hin2. simpl. rewrite Hval2. simpl.
  destruct (type val2) as [st2 [rk2|]| | | | | |] eqn:Htv; simpl; try done.
  destruct Hno as [?|[? ?]]; simplify_eq.
Qed.

Lemma C9_index_put_without_match_unchanged_witness :
  ReplaceIndexPutWithMaskedScatter_at 5
    (Examples.index_put_graph (TensorType (Some Long) (Some 3))
                              (TensorType (Some Float) (Some 1)))
  = Some (Examples.index_put_graph (TensorType (Some Long) (Some 3))
                                   (TensorType (Some Float) (Some 1))).
Proof.
  apply (C9_index_put_without_match_unchanged 5 _
           (mkNode aten.index_put_ [0; 2; 3; 4] [5] []) 2
           (mkValue (ListType (OptionalType (TensorType None None))) 2 [mkUse 5 1])
           (mkNode prim.ListConstruct [1] [2] []) 1
           (mkValue (TensorType (Some Long) (Some 3)) 0 [mkUse 2 0]));
    try reflexivity.
  right; right; left. exists Long, (Some 3). split; [reflexivity|discriminate].
Defined.

(** ** Reading the invariants *)

Section consistent_facts.
Context (g : Graph) (Hc : consistent g).

Lemma consistent_use v val u :
  all_values g !! v = Some val → u ∈ uses val →
  ∃ ud, all_nodes g !! user u = Some ud ∧ inputs ud !! offset u = Some v.
Proof using Hc.
  intros Hv Hu. destruct Hc as (Hvals & _ & _).
  destruct (Hvals v val Hv) as (Huses & _ & _).
  rewrite Forall_forall in Huses. specialize (Huses u Hu).
  unfold use_is_edge in Huses.
  destruct (all_nodes g !! user u) as [ud|]; simpl in Huses; [|done].
  by exists ud.
Qed.

Lemma consistent_uses_NoDup v val :
  all_values g !! v = Some val → NoDup (uses val).
Proof using Hc.
  intros Hv. destruct Hc as (Hvals & _ & _).
  by destruct (Hvals v val Hv) as (_ & ? & _).
Qed.

Lemma consistent_producer v val :
  all_values g !! v = Some val →
  ∃ nd, all_nodes g !! node val = Some nd ∧ v ∈ outputs nd.
Proof using Hc.
  intros Hv. destruct Hc as (Hvals & _ & _).
  destruct (Hvals v val Hv) as (_ & _ & Hout). unfold is_output_of in Hout.
  destruct (all_nodes g !! node val) as [nd|]; simpl in Hout.
  - by exists nd.
  - by apply elem_of_nil in Hout.
Qed.

Lemma consistent_input n nd i v :
  all_nodes g !! n = Some nd → inputs nd !! i = Some v →
  ∃ val, all_values g !! v = Some val ∧ mkUse n i ∈ uses val.
Proof using Hc.
  intros Hn Hi. destruct Hc as (_ & Hnodes & _).
  destruct (Hnodes n nd Hn) as (Hedges & _).
  rewrite Forall_forall in Hedges.
  assert (Hin : (i, v) ∈ imap pair (inputs nd)).
  { apply list_elem_of_lookup. exists i. by rewrite list_lookup_imap, Hi. }
  specialize (Hedges _ Hin). unfold edge_is_use in Hedges. simpl in Hedges.
  destruct (all_values g !! v) as [val|]; simpl in Hedges.
  - by exists val.
  - by apply elem_of_nil in Hedges.
Qed.

Lemma consistent_output n nd o :
  all_nodes g !! n = Some nd → o ∈ outputs nd →
  ∃ val, all_values g !! o = Some val ∧ node val = n.
Proof using Hc.
  intros Hn Ho. destruct Hc as (_ & Hnodes & _).
  destruct (Hnodes n nd Hn) as (_ & Hprod & _).
  rewrite Forall_forall in Hprod. specialize (Hprod o Ho).
  unfold produced_by in Hprod.
  destruct (all_values g !! o) as [val|]; simpl in Hprod; [|done].
  exists val. split; [done|]. congruence.
Qed.

Lemma consistent_outputs_NoDup n nd :
  all_nodes g !! n = Some nd → NoDup (outputs nd).
Proof using Hc.
  intros Hn. destruct Hc as (_ & Hnodes & _).
  by destruct (Hnodes n nd Hn) as (_ & _ & ?).
Qed.

Lemma consistent_block_node n :
  n ∈ block_nodes (block g) → is_Some (all_nodes g !! n).
Proof using Hc.
  intros Hn. destruct Hc as (_ & _ & Hblock).
  rewrite Forall_forall in Hblock. by apply Hblock.
Qed.

Lemma consistent_uses_agree v val :
  all_values g !! v = Some val → uses_agree g v (uses val).
Proof using Hc.
  intros Hv. split; [by eapply consistent_uses_NoDup|]. intros m i. split.
  - intros Hu. by apply (consistent_use v val _ Hv) in Hu.
  - intros (nd & Hm & Hi).
    destruct (consistent_input m nd i v Hm Hi) as (val' & ? & ?). by simplify_eq.
Qed.
End consistent_facts.

Lemma wf_consistent g : wf g → consistent g.
Proof. by intros [? _]. Qed.

Lemma wf_no_self_use g n nd v :
  wf g → all_nodes g !! n = Some nd → v ∈ inputs nd → v ∉ outputs nd.
Proof.
  intros [_ Hself] Hn Hv. specialize (Hself n nd Hn).
  unfold reads_no_own_output in Hself. rewrite Forall_forall in Hself.
  by apply Hself.
Qed.

(** ** The loops of the host operations in closed form *)

Lemma set_inputs_id nd : set_inputs (inputs nd) nd = nd.
Proof. by destruct nd. Qed.
Lemma set_uses_id val : set_uses (uses val) val = val.
Proof. by destruct val. Qed.

Lemma retarget_nil n new ins : retarget n [] new ins = ins.
Proof.
  unfold retarget. apply list_eq. intros i. rewrite list_lookup_imap.
  by destruct (ins !! i).
Qed.

Lemma retarget_lookup n us new ins i :
  retarget n us new ins !! i
  = (λ x, if decide (mkUse n i ∈ us) then new else x) <$> ins !! i.
Proof. unfold retarget. by rewrite list_lookup_imap. Qed.

Lemma retarget_cons_same n o us new ins :
  retarget n us new (<[o := new]> ins) = retarget n (mkUse n o :: us) new ins.
Proof.
  apply list_eq. intros i. rewrite !retarget_lookup.
  destruct (decide (i = o)) as [->|Hne].
  - destruct (ins !! o) eqn:Ho.
    + rewrite list_lookup_insert_eq by (by eapply lookup_lt_Some). simpl.
      rewrite (decide_True (P := _ ∈ _ :: _)) by left.
      by case_decide.
    + assert (length ins ≤ o) by (by apply lookup_ge_None).
      rewrite (proj2 (lookup_ge_None _ _)); [done|]. by rewrite length_insert.
  - rewrite list_lookup_insert_ne by done.
    destruct (ins !! i); simpl; [|done]. f_equal.
    destruct (decide (mkUse n i ∈ us)).
    + rewrite decide_True; [done|]. by right.
    + rewrite decide_False; [done|]. intros [?|?]%elem_of_cons; [congruence|done].
Qed.

Lemma retarget_cons_other n u us new ins :
  user u ≠ n → retarget n (u :: us) new ins = retarget n us new ins.
Proof.
  intros Hne. apply list_eq. intros i. rewrite !retarget_lookup.
  destruct (ins !! i); simpl; [|done]. f_equal.
  destruct (decide (mkUse n i ∈ us)).
  - rewrite decide_True; [done|]. by right.
  - rewrite decide_False; [done|].
    intros [Heq|?]%elem_of_cons; [|done]. destruct u; simplify_eq/=.
Qed.

Lemma foldM_nil {A S} (f : A → S → option S) s : foldM f [] s = Some s.
Proof. done. Qed.
Lemma foldM_cons {A S} (f : A → S → option S) x l s :
  foldM f (x :: l) s = f x s ≫= foldM f l.
Proof. done. Qed.
Lemma foldM_app {A S} (f : A → S → option S) l1 l2 s :
  foldM f (l1 ++ l2) s = foldM f l1 s ≫= foldM f l2.
Proof.
  revert s. induction l1 as [|x l1 IH]; intros s; [done|].
  rewrite <- app_comm_cons, !foldM_cons. destruct (f x s); simpl; [apply IH|done].
Qed.

Lemma redirect_Some old new u ns nd :
  ns !! user u = Some nd → inputs nd !! offset u = Some old →
  redirect old new u ns
  = Some (<[user u := set_inputs (<[offset u := new]> (inputs nd)) nd]> ns).
Proof.
  intros Hnd Hslot. unfold redirect. rewrite Hnd. simpl.
  by rewrite decide_True.
Qed.

Lemma foldM_redirect old new us : ∀ ns,
  NoDup us →
  (∀ u, u ∈ us → ∃ nd, ns !! user u = Some nd ∧ inputs nd !! offset u = Some old) →
  ∃ ns', foldM (redirect old new) us ns = Some ns' ∧
         ∀ n, ns' !! n = (λ nd, set_inputs (retarget n us new (inputs nd)) nd) <$> ns !! n.
Proof.
  induction us as [|u us IH]; intros ns Hnd Hok.
  - exists ns. split; [done|]. intros n.
    destruct (ns !! n) as [nd|]; simpl; [|done].
    by rewrite retarget_nil, set_inputs_id.
  - apply NoDup_cons in Hnd as [Hu Hnd].
    destruct (Hok u) as (nd & Hnd_u & Hslot); [left|].
    rewrite foldM_cons, (redirect_Some _ _ _ _ _ Hnd_u Hslot). simpl.
    set (ns1 := <[user u := set_inputs (<[offset u := new]> (inputs nd)) nd]> ns).
    destruct (IH ns1 Hnd) as (ns' & Hfold & Hlook).
    { intros u' Hu'. destruct (Hok u') as (nd' & Hnd' & Hslot'); [by right|].
      unfold ns1. destruct (decide (user u = user u')) as [Heq|Hne].
      - rewrite Heq, lookup_insert_eq. eexists. split; [done|]. simpl.
        rewrite <- Heq in Hnd'. simplify_eq.
        rewrite list_lookup_insert_ne; [done|].
        intros Hoff. apply Hu. destruct u, u'; simplify_eq/=. done.
      - rewrite lookup_insert_ne by done. eauto. }
    exists ns'. split; [done|]. intros n. rewrite Hlook. unfold ns1.
    destruct (decide (user u = n)) as [<-|Hne].
    + rewrite lookup_insert_eq, Hnd_u. simpl. f_equal.
      unfold set_inputs. simpl. f_equal.
      rewrite retarget_cons_same. by destruct u.
    + rewrite lookup_insert_ne by done.
      destruct (ns !! n); simpl; [|done].
      by rewrite retarget_cons_other.
Qed.

Lemma subst_inputs_id σ nd :
  (∀ x, x ∈ inputs nd → σ x = x) → subst_inputs σ nd = nd.
Proof.
  intros H. unfold subst_inputs.
  rewrite <- (set_inputs_id nd) at 3. f_equal.
  rewrite <- (list_fmap_id (inputs nd)) at 2.
  apply list_fmap_ext. intros i x Hx. apply H. by eapply list_elem_of_lookup_2.
Qed.

Lemma retarget_subst g v us m nd new :
  uses_agree g v us → all_nodes g !! m = Some nd →
  retarget m us new (inputs nd) = map (subst_value v new) (inputs nd).
Proof.
  intros [_ Hag] Hm. apply list_eq. intros i.
  rewrite retarget_lookup, list_lookup_fmap.
  destruct (inputs nd !! i) as [x|] eqn:Hx; simpl; [|done]. f_equal.
  unfold subst_value. destruct (decide (mkUse m i ∈ us)) as [Hin|Hin].
  - apply Hag in Hin as (nd' & ? & ?). simplify_eq. by rewrite decide_True.
  - rewrite decide_False; [done|]. intros ->. apply Hin, Hag. eauto.
Qed.

Lemma Value_replaceAllUsesWith_spec g v new val nval :
  all_values g !! v = Some val →
  all_values g !! new = Some nval →
  v ≠ new →
  uses_agree g v (uses val) →
  Value_replaceAllUsesWith v new g
  = Some (mkGraph (subst_inputs (subst_value v new) <$> all_nodes g)
            (<[v := set_uses [] val]>
               (<[new := set_uses (uses nval ++ uses val) nval]> (all_values g)))
            (block g)).
Proof.
  intros Hv Hnew Hne Hag. unfold Value_replaceAllUsesWith. rewrite Hv. simpl.
  assert (Hnodes : ∀ ns', (∀ n, ns' !! n = (λ nd, set_inputs (retarget n (uses val) new (inputs nd)) nd) <$> all_nodes g !! n) →
                          ns' = subst_inputs (subst_value v new) <$> all_nodes g).
  { intros ns' Hlook. apply map_eq. intros n. rewrite Hlook, lookup_fmap.
    destruct (all_nodes g !! n) as [nd|] eqn:Hn; simpl; [|done].
    f_equal. unfold subst_inputs. f_equal. by eapply retarget_subst. }
  destruct (uses val) as [|u us] eqn:Huses.
  - f_equal. destruct g as [ns vs b]. simpl in *. f_equal.
    + apply Hnodes. intros n. destruct (ns !! n); simpl; [|done].
      by rewrite retarget_nil, set_inputs_id.
    + rewrite app_nil_r, set_uses_id, (insert_id vs new) by done.
      rewrite <- Huses, set_uses_id. by rewrite insert_id.
  - rewrite decide_False by done. rewrite Hnew. simpl.
    destruct (foldM_redirect v new (u :: us) (all_nodes g)) as (ns' & Hfold & Hlook).
    + apply Hag.
    + intros u' Hu'. destruct u' as [m i]. simpl. by apply Hag in Hu'.
    + rewrite Hfold. simpl. do 2 f_equal. by apply Hnodes.
Qed.

Lemma filter_all {A} (P : A → Prop) `{∀ x, Decision (P x)} (l : list A) :
  Forall P l → filter P l = l.
Proof.
  induction 1 as [|x l Hx Hl IH]; [done|].
  by rewrite filter_cons_True, IH.
Qed.

Lemma erase_use_filter u us :
  NoDup us → erase_use u us = filter (λ u', u' ≠ u) us.
Proof.
  induction 1 as [|u' us Hnotin Hnd IH]; [done|]. simpl.
  destruct (decide (u' = u)) as [->|Hne].
  - rewrite filter_cons_False by (by intros ?).
    symmetry. apply filter_all.
    rewrite Forall_forall. by intros x Hx ->.
  - rewrite filter_cons_True by done. by rewrite IH.
Qed.

Lemma dropInput_Some n i v vs val :
  vs !! v = Some val → mkUse n i ∈ uses val →
  dropInput n (i, v) vs
  = Some (<[v := set_uses (erase_use (mkUse n i) (uses val)) val]> vs).
Proof.
  intros Hv Hin. unfold dropInput. simpl. rewrite Hv. simpl.
  by rewrite decide_True.
Qed.

Lemma foldM_dropInput n l : ∀ j vs,
  (∀ i v, l !! i = Some v →
          ∃ val, vs !! v = Some val ∧ mkUse n (j + i) ∈ uses val ∧ NoDup (uses val)) →
  ∃ vs', foldM (dropInput n) (imap (λ i v, (j + i, v)) l) vs = Some vs' ∧
         ∀ v, vs' !! v
              = (λ val, set_uses
                          (filter (λ u, ¬ (user u = n ∧ j ≤ offset u ∧
                                           l !! (offset u - j) = Some v))
                                  (uses val)) val) <$> vs !! v.
Proof.
  induction l as [|x l IH]; intros j vs Hok.
  - exists vs. split; [done|]. intros v.
    destruct (vs !! v) as [val|]; simpl; [|done]. f_equal.
    rewrite filter_all, set_uses_id; [done|].
    rewrite Forall_forall. intros u _ (_ & _ & Hl). by rewrite lookup_nil in Hl.
  - destruct (Hok 0 x eq_refl) as (val & Hx & Hin & Hnd).
    rewrite Nat.add_0_r in Hin.
    simpl imap. rewrite foldM_cons, Nat.add_0_r.
    rewrite (dropInput_Some _ _ _ _ _ Hx Hin). simpl.
    set (vs1 := <[x := set_uses (erase_use (mkUse n j) (uses val)) val]> vs).
    destruct (IH (S j) vs1) as (vs' & Hfold & Hlook).
    { intros i v Hv. destruct (Hok (S i) v Hv) as (val' & Hv' & Hin' & Hnd').
      replace (j + S i) with (S j + i) in Hin' by lia.
      unfold vs1. destruct (decide (x = v)) as [->|Hne].
      - rewrite lookup_insert_eq. eexists. split; [done|]. simplify_eq. simpl.
        rewrite erase_use_filter by done. split.
        + apply list_elem_of_filter. split; [|done]. intros [=]. lia.
        + by apply NoDup_filter.
      - rewrite lookup_insert_ne by done. eauto. }
    exists vs'. split.
    { rewrite <- Hfold. f_equal. apply imap_ext. intros i v _. simpl. f_equal. lia. }
    intros v. rewrite Hlook. unfold vs1.
    destruct (decide (x = v)) as [->|Hne].
    + rewrite lookup_insert_eq, Hx. simpl. f_equal. unfold set_uses. simpl. f_equal.
      rewrite erase_use_filter, list_filter_filter by done.
      apply list_filter_iff. intros [m o]. simpl. split.
      * intros [Hno Hneq] (-> & Hle & Hl). destruct (decide (o = j)) as [->|Hoj]; [done|].
        apply Hno. split; [done|]. split; [lia|].
        replace (o - j) with (S (o - S j)) in Hl by lia. done.
      * intros Hno. split.
        -- intros (-> & Hle & Hl). apply Hno. split; [done|]. split; [lia|].
           replace (o - j) with (S (o - S j)) by lia. done.
        -- intros [= -> ->]. apply Hno. split; [done|]. split; [lia|].
           by rewrite Nat.sub_diag.
    + rewrite lookup_insert_ne by done.
      destruct (vs !! v) as [val'|]; simpl; [|done]. f_equal. f_equal.
      apply list_filter_iff. intros [m o]. simpl. split.
      * intros Hno (-> & Hle & Hl). destruct (decide (o = j)) as [->|Hoj].
        -- rewrite Nat.sub_diag in Hl. simpl in Hl. congruence.
        -- apply Hno. split; [done|]. split; [lia|].
           replace (o - j) with (S (o - S j)) in Hl by lia. done.
      * intros Hno (-> & Hle & Hl). apply Hno. split; [done|]. split; [lia|].
        replace (o - j) with (S (o - S j)) by lia. done.
Qed.

Lemma removeAllInputs_spec g n nd :
  all_nodes g !! n = Some nd →
  (∀ i v, inputs nd !! i = Some v →
          ∃ val, all_values g !! v = Some val ∧ mkUse n i ∈ uses val ∧ NoDup (uses val)) →
  removeAllInputs n g
  = Some (mkGraph (<[n := set_inputs [] nd]> (all_nodes g))
            (map_imap (λ v val, Some (without_edges n (inputs nd) v val)) (all_values g))
            (block g)).
Proof.
  intros Hn Hok. unfold removeAllInputs. rewrite Hn. simpl.
  destruct (foldM_dropInput n (inputs nd) 0 (all_values g)) as (vs' & Hfold & Hlook).
  { intros i v Hv. by apply Hok. }
  rewrite (imap_ext _ pair) in Hfold by done.
  rewrite Hfold. simpl. do 2 f_equal.
  apply map_eq. intros v. rewrite Hlook, map_lookup_imap.
  destruct (all_values g !! v) as [val|]; simpl; [|done]. f_equal.
  unfold without_edges. f_equal. apply list_filter_iff. intros u.
  unfold reads. rewrite Nat.sub_0_r. split.
  - intros Hno [? ?]. apply Hno. split; [done|]. split; [lia|done].
  - intros Hno (? & _ & ?). by apply Hno.
Qed.

(** ** The block tree *)

Lemma Block_nested_ind (P : Block → Prop) :
  (∀ p r ns, Forall (λ e, Forall P e.2) ns → P (mkBlock p r ns)) →
  ∀ b, P b.
Proof.
  intros H. fix IH 1. intros [p r ns]. apply H.
  induction ns as [|[n bs] ns IHns]; constructor; [|exact IHns].
  simpl. induction bs as [|b bs IHbs]; constructor; [apply IH|exact IHbs].
Qed.

Lemma flat_map_ext_Forall {A B} (f g : A → list B) l :
  Forall (λ x, f x = g x) l → flat_map f l = flat_map g l.
Proof. induction 1 as [|x l Hx _ IH]; [done|]. simpl. by rewrite Hx, IH. Qed.

Lemma flat_map_flat_map {A B C} (f : A → list B) (g : B → list C) l :
  flat_map g (flat_map f l) = flat_map (λ x, flat_map g (f x)) l.
Proof.
  induction l as [|x l IH]; [done|]. simpl. by rewrite flat_map_app, IH.
Qed.

Lemma flat_map_map {A B C} (f : A → B) (g : B → list C) l :
  flat_map g (map f l) = flat_map (λ x, g (f x)) l.
Proof. induction l as [|x l IH]; [done|]. simpl. by rewrite IH. Qed.

Lemma block_nodes_link_before new it b :
  block_nodes (link_before new it b)
  = flat_map (λ x, if decide (x = it) then [new; x] else [x]) (block_nodes b).
Proof.
  induction b as [p r ns IH] using Block_nested_ind. simpl.
  rewrite !flat_map_flat_map. apply flat_map_ext_Forall.
  eapply Forall_impl; [exact IH|]. intros [n bs] Hbs. simpl in *.
  assert (Hnested : flat_map block_nodes (map (link_before new it) bs)
                    = flat_map (λ x, if decide (x = it) then [new; x] else [x])
                        (flat_map block_nodes bs)).
  { rewrite flat_map_map, flat_map_flat_map. by apply flat_map_ext_Forall. }
  destruct (decide (n = it)) as [->|Hne]; simpl; rewrite Hnested, ?app_nil_r.
  - done.
  - done.
Qed.

Lemma blocks_in_link_before n new it b :
  blocks_in n (link_before new it b) = map (link_before new it) (blocks_in n b).
Proof.
  induction b as [p r ns IH] using Block_nested_ind. simpl.
  rewrite flat_map_flat_map.
  induction IH as [|[m bs] ns Hbs _ IHns]; [done|]. simpl in *.
  rewrite map_app, <- IHns. f_equal.
  assert (Hnested : flat_map (blocks_in n) (map (link_before new it) bs)
                    = map (link_before new it) (flat_map (blocks_in n) bs)).
  { clear IHns. induction Hbs as [|b bs Hb _ IHbs]; [done|]. simpl.
    by rewrite map_app, Hb, IHbs. }
  destruct (decide (m = it)) as [->|Hne]; simpl; rewrite ?app_nil_r.
  - destruct (decide (new = n)), (decide (it = n)); simpl; by rewrite ?Hnested.
  - destruct (decide (m = n)); simpl; by rewrite ?Hnested.
Qed.

Lemma block_nodes_unlink n b :
  blocks_in n b = [] →
  block_nodes (unlink n b) = filter (λ x, x ≠ n) (block_nodes b).
Proof.
  induction b as [p r ns IH] using Block_nested_ind. simpl. intros Hnil.
  rewrite flat_map_flat_map.
  induction IH as [|[m bs] ns Hbs _ IHns]; [done|]. simpl in *.
  apply app_eq_nil in Hnil as [Hm Hnil].
  rewrite (IHns Hnil).
  destruct (decide (m = n)) as [->|Hne]; simpl.
  - subst bs. simpl. by rewrite filter_cons_False by (by intros ?).
  - rewrite filter_cons_True, filter_app, app_nil_r by done. do 2 f_equal.
    clear IHns Hnil. induction Hbs as [|b bs Hb _ IHbs]; [done|]. simpl in *.
    apply app_eq_nil in Hm as [Hb' Hm].
    by rewrite filter_app, Hb, IHbs.
Qed.

Lemma elem_of_block_nodes_unlink x n b :
  x ∈ block_nodes (unlink n b) → x ∈ block_nodes b ∧ x ≠ n.
Proof.
  induction b as [p r ns IH] using Block_nested_ind. simpl.
  rewrite flat_map_flat_map.
  induction IH as [|[m bs] ns Hbs _ IHns]; simpl; [by intros ?%elem_of_nil|].
  rewrite elem_of_app, elem_of_cons, elem_of_app. intros [Hx|Hx].
  - destruct (decide (m = n)) as [->|Hne]; simpl in Hx; [by apply elem_of_nil in Hx|].
    rewrite app_nil_r in Hx. apply elem_of_cons in Hx as [->|Hx]; [by auto|].
    cut (x ∈ flat_map block_nodes bs ∧ x ≠ n); [by intros [? ?]; auto|].
    clear IHns Hne. simpl in Hbs. revert Hx. generalize dependent bs.
    induction 1 as [|b bs' Hb _ IHbs]; simpl; [by intros ?%elem_of_nil|].
    rewrite !elem_of_app. intros [Hx|Hx].
    + destruct (Hb Hx). auto.
    + destruct (IHbs Hx). auto.
  - destruct (IHns Hx). auto.
Qed.

(** ** Consistency, preserved by the host operations *)

Lemma consistent_intro g :
  (∀ v val u, all_values g !! v = Some val → u ∈ uses val →
     ∃ ud, all_nodes g !! user u = Some ud ∧ inputs ud !! offset u = Some v) →
  (∀ v val, all_values g !! v = Some val → NoDup (uses val)) →
  (∀ v val, all_values g !! v = Some val →
     ∃ nd, all_nodes g !! node val = Some nd ∧ v ∈ outputs nd) →
  (∀ n nd i v, all_nodes g !! n = Some nd → inputs nd !! i = Some v →
     ∃ val, all_values g !! v = Some val ∧ mkUse n i ∈ uses val) →
  (∀ n nd o, all_nodes g !! n = Some nd → o ∈ outputs nd →
     ∃ val, all_values g !! o = Some val ∧ node val = n) →
  (∀ n nd, all_nodes g !! n = Some nd → NoDup (outputs nd)) →
  (∀ n, n ∈ block_nodes (block g) → is_Some (all_nodes g !! n)) →
  consistent g.
Proof.
  intros Huse Hnd Hprod Hin Hout Hond Hblock. split; [|split].
  - intros v val Hv. split; [|split].
    + rewrite Forall_forall. intros u Hu.
      destruct (Huse v val u Hv Hu) as (ud & Hud & Hslot).
      unfold use_is_edge. by rewrite Hud.
    + by eapply Hnd.
    + destruct (Hprod v val Hv) as (nd & Hn & Ho).
      unfold is_output_of. by rewrite Hn.
  - intros n nd Hn. split; [|split].
    + rewrite Forall_forall. intros [i v] Hiv.
      apply list_elem_of_lookup in Hiv as [j Hj].
      rewrite list_lookup_imap in Hj.
      destruct (inputs nd !! j) as [w|] eqn:Hw; simplify_eq/=.
      destruct (Hin n nd i v Hn Hw) as (val & Hval & Hu).
      unfold edge_is_use. simpl. by rewrite Hval.
    + rewrite Forall_forall. intros o Ho.
      destruct (Hout n nd o Hn Ho) as (val & Hval & Hnode).
      unfold produced_by. rewrite Hval. simpl. by f_equal.
    + by eapply Hond.
  - rewrite Forall_forall. exact Hblock.
Qed.

Lemma fresh_node_None g : all_nodes g !! fresh (dom (all_nodes g)) = None.
Proof. apply not_elem_of_dom, is_fresh. Qed.

Lemma fresh_value_None g : all_values g !! fresh (dom (all_values g)) = None.
Proof. apply not_elem_of_dom, is_fresh. Qed.

Lemma create_1_spec k g :
  create k 1 g
  = Some (fresh (dom (all_nodes g)),
          mkGraph
            (<[fresh (dom (all_nodes g)) :=
                 mkNode k [] [fresh (dom (all_values g))] []]> (all_nodes g))
            (<[fresh (dom (all_values g)) :=
                 mkValue TensorType_get (fresh (dom (all_nodes g))) []]> (all_values g))
            (block g)).
Proof.
  unfold create. simpl. unfold addOutput. simpl.
  rewrite lookup_insert_eq. simpl. by rewrite insert_insert_eq.
Qed.

Lemma create_1_consistent g k c co :
  all_nodes g !! c = None → all_values g !! co = None →
  consistent g →
  consistent (mkGraph (<[c := mkNode k [] [co] []]> (all_nodes g))
                      (<[co := mkValue TensorType_get c []]> (all_values g))
                      (block g)).
Proof.
  intros Hc Hco Hg. apply consistent_intro; simpl.
  - intros v val u Hv Hu. destruct (decide (co = v)) as [->|Hne].
    + rewrite lookup_insert_eq in Hv. simplify_eq/=. by apply elem_of_nil in Hu.
    + rewrite lookup_insert_ne in Hv by done.
      destruct (consistent_use g Hg v val u Hv Hu) as (ud & Hud & Hslot).
      exists ud. split; [|done]. rewrite lookup_insert_ne; [done|]. congruence.
  - intros v val Hv. destruct (decide (co = v)) as [->|Hne].
    + rewrite lookup_insert_eq in Hv. simplify_eq/=. constructor.
    + rewrite lookup_insert_ne in Hv by done. by eapply consistent_uses_NoDup.
  - intros v val Hv. destruct (decide (co = v)) as [->|Hne].
    + rewrite lookup_insert_eq in Hv. simplify_eq/=.
      rewrite lookup_insert_eq. eexists. split; [done|]. simpl. left.
    + rewrite lookup_insert_ne in Hv by done.
      destruct (consistent_producer g Hg v val Hv) as (nd & Hn & Ho).
      exists nd. split; [|done]. rewrite lookup_insert_ne; [done|]. congruence.
  - intros n nd i v Hn Hi. destruct (decide (c = n)) as [->|Hne].
    + rewrite lookup_insert_eq in Hn. by simplify_eq/=.
    + rewrite lookup_insert_ne in Hn by done.
      destruct (consistent_input g Hg n nd i v Hn Hi) as (val & Hval & Hu).
      exists val. split; [|done]. rewrite lookup_insert_ne; [done|]. congruence.
  - intros n nd o Hn Ho. destruct (decide (c = n)) as [->|Hne].
    + rewrite lookup_insert_eq in Hn. simplify_eq/=.
      apply list_elem_of_singleton in Ho as ->. rewrite lookup_insert_eq. eauto.
    + rewrite lookup_insert_ne in Hn by done.
      destruct (consistent_output g Hg n nd o Hn Ho) as (val & Hval & Hnode).
      exists val. split; [|done]. rewrite lookup_insert_ne; [done|]. congruence.
  - intros n nd Hn. destruct (decide (c = n)) as [->|Hne].
    + rewrite lookup_insert_eq in Hn. simplify_eq/=. apply NoDup_singleton.
    + rewrite lookup_insert_ne in Hn by done. by eapply consistent_outputs_NoDup.
  - intros n Hn. destruct (consistent_block_node g Hg n Hn) as [nd Hnd].
    exists nd. rewrite lookup_insert_ne; [done|]. congruence.
Qed.

Lemma consistent_set_node g n nd nd' :
  all_nodes g !! n = Some nd →
  inputs nd' = inputs nd → outputs nd' = outputs nd →
  consistent g →
  consistent (set_all_nodes (<[n := nd']> (all_nodes g)) g).
Proof.
  intros Hn Hins Houts Hg. apply consistent_intro; simpl.
  - intros v val u Hv Hu.
    destruct (consistent_use g Hg v val u Hv Hu) as (ud & Hud & Hslot).
    destruct (decide (n = user u)) as [->|Hne].
    + rewrite lookup_insert_eq. exists nd'. split; [done|]. simplify_eq. congruence.
    + rewrite lookup_insert_ne by done. eauto.
  - intros v val Hv. by eapply consistent_uses_NoDup.
  - intros v val Hv. destruct (consistent_producer g Hg v val Hv) as (pd & Hp & Ho).
    destruct (decide (n = node val)) as [->|Hne].
    + rewrite lookup_insert_eq. exists nd'. split; [done|]. simplify_eq. congruence.
    + rewrite lookup_insert_ne by done. eauto.
  - intros m md i v Hm Hi. destruct (decide (n = m)) as [->|Hne].
    + rewrite lookup_insert_eq in Hm. simplify_eq. rewrite Hins in Hi.
      by eapply consistent_input.
    + rewrite lookup_insert_ne in Hm by done. by eapply consistent_input.
  - intros m md o Hm Ho. destruct (decide (n = m)) as [->|Hne].
    + rewrite lookup_insert_eq in Hm. simplify_eq. rewrite Houts in Ho.
      by eapply consistent_output.
    + rewrite lookup_insert_ne in Hm by done. by eapply consistent_output.
  - intros m md Hm. destruct (decide (n = m)) as [->|Hne].
    + rewrite lookup_insert_eq in Hm. simplify_eq. rewrite Houts.
      by eapply consistent_outputs_NoDup.
    + rewrite lookup_insert_ne in Hm by done. by eapply consistent_outputs_NoDup.
  - intros m Hm. destruct (decide (n = m)) as [->|Hne].
    + rewrite lookup_insert_eq. eauto.
    + rewrite lookup_insert_ne by done. by eapply consistent_block_node.
Qed.

Lemma consistent_set_value g v val val' :
  all_values g !! v = Some val →
  uses val' = uses val → node val' = node val →
  consistent g →
  consistent (set_all_values (<[v := val']> (all_values g)) g).
Proof.
  intros Hv Huses Hnode Hg. apply consistent_intro; simpl.
  - intros w wal u Hw Hu. destruct (decide (v = w)) as [->|Hne].
    + rewrite lookup_insert_eq in Hw. simplify_eq. rewrite Huses in Hu.
      by eapply consistent_use.
    + rewrite lookup_insert_ne in Hw by done. by eapply consistent_use.
  - intros w wal Hw. destruct (decide (v = w)) as [->|Hne].
    + rewrite lookup_insert_eq in Hw. simplify_eq. rewrite Huses.
      by eapply consistent_uses_NoDup.
    + rewrite lookup_insert_ne in Hw by done. by eapply consistent_uses_NoDup.
  - intros w wal Hw. destruct (decide (v = w)) as [->|Hne].
    + rewrite lookup_insert_eq in Hw. simplify_eq. rewrite Hnode.
      by eapply consistent_producer.
    + rewrite lookup_insert_ne in Hw by done. by eapply consistent_producer.
  - intros m md i w Hm Hi.
    destruct (consistent_input g Hg m md i w Hm Hi) as (wal & Hw & Hu).
    destruct (decide (v = w)) as [->|Hne].
    + rewrite lookup_insert_eq. exists val'. split; [done|]. simplify_eq. congruence.
    + rewrite lookup_insert_ne by done. eauto.
  - intros m md o Hm Ho.
    destruct (consistent_output g Hg m md o Hm Ho) as (wal & Hw & Hp).
    destruct (decide (v = o)) as [->|Hne].
    + rewrite lookup_insert_eq. exists val'. split; [done|]. simplify_eq. congruence.
    + rewrite lookup_insert_ne by done. eauto.
  - intros m md Hm. by eapply consistent_outputs_NoDup.
  - intros m Hm. by eapply consistent_block_node.
Qed.

Lemma setAttr_spec n name a g nd :
  all_nodes g !! n = Some nd →
  setAttr n name a g
  = Some (set_all_nodes
            (<[n := set_attributes (set_attr name a (attributes nd)) nd]> (all_nodes g)) g).
Proof. intros Hn. unfold setAttr. by rewrite Hn. Qed.

Lemma setType_spec v t g val :
  all_values g !! v = Some val →
  setType v t g = Some (set_all_values (<[v := set_type t val]> (all_values g)) g).
Proof. intros Hv. unfold setType. by rewrite Hv. Qed.

Lemma elem_of_block_nodes_link_before x new it b :
  x ∈ block_nodes (link_before new it b) →
  x = new ∨ x ∈ block_nodes b.
Proof.
  rewrite block_nodes_link_before. intros Hx.
  apply list_elem_of_In, in_flat_map in Hx as (y & Hy & Hx).
  apply list_elem_of_In in Hy. apply list_elem_of_In in Hx.
  destruct (decide (y = it)) as [->|Hne].
  - apply elem_of_cons in Hx as [->|Hx]; [by left|].
    apply list_elem_of_singleton in Hx as ->. by right.
  - apply list_elem_of_singleton in Hx as ->. by right.
Qed.

Lemma insertBefore_spec n it g :
  it ∈ block_nodes (block g) → n ∉ block_nodes (block g) →
  insertBefore n it g = Some (set_block (link_before n it (block g)) g).
Proof.
  intros Hit Hn. unfold insertBefore, inBlockList.
  by rewrite bool_decide_eq_true_2, bool_decide_eq_false_2.
Qed.

Lemma consistent_link_before g n it :
  is_Some (all_nodes g !! n) →
  consistent g →
  consistent (set_block (link_before n it (block g)) g).
Proof.
  intros Hn Hg. apply consistent_intro; simpl.
  - by apply consistent_use.
  - by apply consistent_uses_NoDup.
  - by apply consistent_producer.
  - by apply consistent_input.
  - by apply consistent_output.
  - by apply consistent_outputs_NoDup.
  - intros m [->|Hm]%elem_of_block_nodes_link_before; [done|].
    by apply consistent_block_node.
Qed.

Lemma addInput_spec n v g nd val :
  all_nodes g !! n = Some nd → all_values g !! v = Some val →
  addInput n v g
  = Some (mkGraph
            (<[n := set_inputs (inputs nd ++ [v]) nd]> (all_nodes g))
            (<[v := set_uses (uses val ++ [mkUse n (length (inputs nd))]) val]>
               (all_values g))
            (block g)).
Proof. intros Hn Hv. unfold addInput. by rewrite Hn, Hv. Qed.

Lemma addInput_consistent n v g nd val :
  all_nodes g !! n = Some nd → all_values g !! v = Some val →
  consistent g →
  consistent (mkGraph
            (<[n := set_inputs (inputs nd ++ [v]) nd]> (all_nodes g))
            (<[v := set_uses (uses val ++ [mkUse n (length (inputs nd))]) val]>
               (all_values g))
            (block g)).
Proof.
  intros Hn Hv Hg. apply consistent_intro; simpl.
  - intros w wal u Hw Hu.
    assert (Hold : ∀ wal0, all_values g !! w = Some wal0 → u ∈ uses wal0 →
              ∃ ud, <[n := set_inputs (inputs nd ++ [v]) nd]> (all_nodes g) !! user u = Some ud
                    ∧ inputs ud !! offset u = Some w).
    { intros wal0 Hw0 Hu0.
      destruct (consistent_use g Hg w wal0 u Hw0 Hu0) as (ud & Hud & Hslot).
      destruct (decide (n = user u)) as [->|Hne].
      - rewrite lookup_insert_eq. eexists. split; [done|]. simplify_eq. simpl.
        by apply lookup_app_l_Some.
      - rewrite lookup_insert_ne by done. eauto. }
    destruct (decide (v = w)) as [->|Hne].
    + rewrite lookup_insert_eq in Hw. simplify_eq. simpl in Hu.
      apply elem_of_app in Hu as [Hu|Hu]; [by eapply Hold|].
      apply list_elem_of_singleton in Hu as ->. simpl.
      rewrite lookup_insert_eq. eexists. split; [done|]. simpl.
      by rewrite lookup_app_r, Nat.sub_diag.
    + rewrite lookup_insert_ne in Hw by done. by eapply Hold.
  - intros w wal Hw. destruct (decide (v = w)) as [->|Hne].
    + rewrite lookup_insert_eq in Hw. simplify_eq. simpl.
      apply NoDup_app. split; [by eapply consistent_uses_NoDup|].
      split; [|apply NoDup_singleton].
      intros u Hu ->%list_elem_of_singleton.
      destruct (consistent_use g Hg w val _ Hv Hu) as (ud & Hud & Hslot).
      simpl in *. simplify_eq. apply lookup_lt_Some in Hslot. lia.
    + rewrite lookup_insert_ne in Hw by done. by eapply consistent_uses_NoDup.
  - intros w wal Hw.
    assert (Hold : ∀ wal0, all_values g !! w = Some wal0 →
              ∃ pd, <[n := set_inputs (inputs nd ++ [v]) nd]> (all_nodes g) !! node wal0 = Some pd
                    ∧ w ∈ outputs pd).
    { intros wal0 Hw0.
      destruct (consistent_producer g Hg w wal0 Hw0) as (pd & Hp & Ho).
      destruct (decide (n = node wal0)) as [->|Hne].
      - rewrite lookup_insert_eq. eexists. split; [done|]. by simplify_eq.
      - rewrite lookup_insert_ne by done. eauto. }
    destruct (decide (v = w)) as [->|Hne].
    + rewrite lookup_insert_eq in Hw. simplify_eq. simpl. by apply Hold.
    + rewrite lookup_insert_ne in Hw by done. by apply Hold.
  - intros m md i w Hm Hi.
    assert (Hold : ∀ md0, all_nodes g !! m = Some md0 → inputs md0 !! i = Some w →
              ∃ wal, <[v := set_uses (uses val ++ [mkUse n (length (inputs nd))]) val]>
                       (all_values g) !! w = Some wal ∧ mkUse m i ∈ uses wal).
    { intros md0 Hm0 Hi0.
      destruct (consistent_input g Hg m md0 i w Hm0 Hi0) as (wal & Hw & Hu).
      destruct (decide (v = w)) as [->|Hne].
      - rewrite lookup_insert_eq. eexists. split; [done|]. simplify_eq. simpl.
        apply elem_of_app. by left.
      - rewrite lookup_insert_ne by done. eauto. }
    destruct (decide (n = m)) as [->|Hne].
    + rewrite lookup_insert_eq in Hm. simplify_eq. simpl in Hi.
      apply lookup_app_Some in Hi as [Hi|[Hlen Hi]]; [by eapply Hold|].
      apply list_lookup_singleton_Some in Hi as [Hz ->].
      rewrite lookup_insert_eq. eexists. split; [done|]. simpl.
      apply elem_of_app. right. apply list_elem_of_singleton. f_equal. lia.
    + rewrite lookup_insert_ne in Hm by done. by eapply Hold.
  - intros m md o Hm Ho.
    assert (Hold : ∀ md0, all_nodes g !! m = Some md0 → o ∈ outputs md0 →
              ∃ wal, <[v := set_uses (uses val ++ [mkUse n (length (inputs nd))]) val]>
                       (all_values g) !! o = Some wal ∧ node wal = m).
    { intros md0 Hm0 Ho0.
      destruct (consistent_output g Hg m md0 o Hm0 Ho0) as (wal & Hw & Hp).
      destruct (decide (v = o)) as [->|Hne].
      - rewrite lookup_insert_eq. eexists. split; [done|]. by simplify_eq.
      - rewrite lookup_insert_ne by done. eauto. }
    destruct (decide (n = m)) as [->|Hne].
    + rewrite lookup_insert_eq in Hm. simplify_eq. by eapply Hold.
    + rewrite lookup_insert_ne in Hm by done. by eapply Hold.
  - intros m md Hm. destruct (decide (n = m)) as [->|Hne].
    + rewrite lookup_insert_eq in Hm. simplify_eq. simpl.
      by eapply consistent_outputs_NoDup.
    + rewrite lookup_insert_ne in Hm by done. by eapply consistent_outputs_NoDup.
  - intros m Hm. destruct (decide (n = m)) as [->|Hne].
    + rewrite lookup_insert_eq. eauto.
    + rewrite lookup_insert_ne by done. by eapply consistent_block_node.
Qed.

Lemma addOutput_spec n g nd :
  all_nodes g !! n = Some nd →
  addOutput n g
  = Some (fresh (dom (all_values g)),
          mkGraph
            (<[n := set_outputs (outputs nd ++ [fresh (dom (all_values g))]) nd]>
               (all_nodes g))
            (<[fresh (dom (all_values g)) := mkValue TensorType_get n []]>
               (all_values g))
            (block g)).
Proof. intros Hn. unfold addOutput. by rewrite Hn. Qed.

Lemma addOutput_consistent n g nd v t :
  all_nodes g !! n = Some nd → all_values g !! v = None →
  consistent g →
  consistent (mkGraph (<[n := set_outputs (outputs nd ++ [v]) nd]> (all_nodes g))
                      (<[v := mkValue t n []]> (all_values g))
                      (block g)).
Proof.
  intros Hn Hv Hg. apply consistent_intro; simpl.
  - intros w wal u Hw Hu. destruct (decide (v = w)) as [->|Hne].
    + rewrite lookup_insert_eq in Hw. simplify_eq/=. by apply elem_of_nil in Hu.
    + rewrite lookup_insert_ne in Hw by done.
      destruct (consistent_use g Hg w wal u Hw Hu) as (ud & Hud & Hslot).
      destruct (decide (n = user u)) as [->|Hnu].
      * rewrite lookup_insert_eq. eexists. split; [done|]. by simplify_eq.
      * rewrite lookup_insert_ne by done. eauto.
  - intros w wal Hw. destruct (decide (v = w)) as [->|Hne].
    + rewrite lookup_insert_eq in Hw. simplify_eq/=. constructor.
    + rewrite lookup_insert_ne in Hw by done. by eapply consistent_uses_NoDup.
  - intros w wal Hw. destruct (decide (v = w)) as [->|Hne].
    + rewrite lookup_insert_eq in Hw. simplify_eq/=. rewrite lookup_insert_eq.
      eexists. split; [done|]. simpl. apply elem_of_app. right. left.
    + rewrite lookup_insert_ne in Hw by done.
      destruct (consistent_producer g Hg w wal Hw) as (pd & Hp & Ho).
      destruct (decide (n = node wal)) as [->|Hnp].
      * rewrite lookup_insert_eq. eexists. split; [done|]. simplify_eq. simpl.
        apply elem_of_app. by left.
      * rewrite lookup_insert_ne by done. eauto.
  - intros m md i w Hm Hi.
    assert (Hold : ∀ md0, all_nodes g !! m = Some md0 → inputs md0 !! i = Some w →
              ∃ wal, <[v := mkValue t n []]> (all_values g) !! w = Some wal
                     ∧ mkUse m i ∈ uses wal).
    { intros md0 Hm0 Hi0.
      destruct (consistent_input g Hg m md0 i w Hm0 Hi0) as (wal & Hw & Hu).
      exists wal. split; [|done]. rewrite lookup_insert_ne; [done|]. congruence. }
    destruct (decide (n = m)) as [->|Hne].
    + rewrite lookup_insert_eq in Hm. simplify_eq. by eapply Hold.
    + rewrite lookup_insert_ne in Hm by done. by eapply Hold.
  - intros m md o Hm Ho.
    assert (Hold : ∀ md0, all_nodes g !! m = Some md0 → o ∈ outputs md0 →
              ∃ wal, <[v := mkValue t n []]> (all_values g) !! o = Some wal
                     ∧ node wal = m).
    { intros md0 Hm0 Ho0.
      destruct (consistent_output g Hg m md0 o Hm0 Ho0) as (wal & Hw & Hp).
      exists wal. split; [|done]. rewrite lookup_insert_ne; [done|]. congruence. }
    destruct (decide (n = m)) as [->|Hne].
    + rewrite lookup_insert_eq in Hm. simplify_eq. simpl in Ho.
      apply elem_of_app in Ho as [Ho|Ho]; [by eapply Hold|].
      apply list_elem_of_singleton in Ho as ->. rewrite lookup_insert_eq. eauto.
    + rewrite lookup_insert_ne in Hm by done. by eapply Hold.
  - intros m md Hm. destruct (decide (n = m)) as [->|Hne].
    + rewrite lookup_insert_eq in Hm. simplify_eq. simpl.
      apply NoDup_app. split; [by eapply consistent_outputs_NoDup|].
      split; [|apply NoDup_singleton].
      intros o Ho ->%list_elem_of_singleton.
      destruct (consistent_output g Hg m nd v Hn Ho) as (wal & Hw & _). congruence.
    + rewrite lookup_insert_ne in Hm by done. by eapply consistent_outputs_NoDup.
  - intros m Hm. destruct (decide (n = m)) as [->|Hne].
    + rewrite lookup_insert_eq. eauto.
    + rewrite lookup_insert_ne by done. by eapply consistent_block_node.
Qed.

Lemma lookup_subst_inputs σ (ns : gmap nat Node) m :
  (subst_inputs σ <$> ns) !! m = subst_inputs σ <$> ns !! m.
Proof. apply lookup_fmap. Qed.

Lemma Value_replaceAllUsesWith_consistent g v new val nval :
  all_values g !! v = Some val →
  all_values g !! new = Some nval →
  v ≠ new →
  consistent g →
  consistent (mkGraph (subst_inputs (subst_value v new) <$> all_nodes g)
            (<[v := set_uses [] val]>
               (<[new := set_uses (uses nval ++ uses val) nval]> (all_values g)))
            (block g)).
Proof.
  intros Hv Hnew Hne Hg. apply consistent_intro; simpl.
  - intros w wal u Hw Hu.
    assert (Hslot : ∀ x wal0, all_values g !! x = Some wal0 → u ∈ uses wal0 →
              ∃ ud, (subst_inputs (subst_value v new) <$> all_nodes g) !! user u = Some ud
                    ∧ inputs ud !! offset u = Some (subst_value v new x)).
    { intros x wal0 Hx Hux.
      destruct (consistent_use g Hg x wal0 u Hx Hux) as (ud & Hud & Hs).
      rewrite lookup_fmap, Hud. eexists. split; [done|]. simpl.
      by rewrite list_lookup_fmap, Hs. }
    destruct (decide (v = w)) as [->|Hvw].
    { rewrite lookup_insert_eq in Hw. simplify_eq/=. by apply elem_of_nil in Hu. }
    rewrite lookup_insert_ne in Hw by done.
    destruct (decide (new = w)) as [->|Hnw].
    + rewrite lookup_insert_eq in Hw. simplify_eq/=.
      apply elem_of_app in Hu as [Hu|Hu].
      * destruct (Hslot w nval Hnew Hu) as (ud & ? & Hs). exists ud. split; [done|].
        rewrite Hs. unfold subst_value. by rewrite decide_False.
      * destruct (Hslot v val Hv Hu) as (ud & ? & Hs). exists ud. split; [done|].
        rewrite Hs. unfold subst_value. by rewrite decide_True.
    + rewrite lookup_insert_ne in Hw by done.
      destruct (Hslot w wal Hw Hu) as (ud & ? & Hs). exists ud. split; [done|].
      rewrite Hs. unfold subst_value. by rewrite decide_False.
  - intros w wal Hw. destruct (decide (v = w)) as [->|Hvw].
    { rewrite lookup_insert_eq in Hw. simplify_eq/=. constructor. }
    rewrite lookup_insert_ne in Hw by done.
    destruct (decide (new = w)) as [->|Hnw].
    + rewrite lookup_insert_eq in Hw. simplify_eq/=.
      apply NoDup_app. split; [by eapply consistent_uses_NoDup|].
      split; [|by eapply consistent_uses_NoDup].
      intros u Hu1 Hu2.
      destruct (consistent_use g Hg w nval u Hnew Hu1) as (ud & Hud & Hs).
      destruct (consistent_use g Hg v val u Hv Hu2) as (ud' & Hud' & Hs').
      congruence.
    + rewrite lookup_insert_ne in Hw by done. by eapply consistent_uses_NoDup.
  - intros w wal Hw.
    assert (Hold : ∀ wal0, all_values g !! w = Some wal0 →
              ∃ pd, (subst_inputs (subst_value v new) <$> all_nodes g) !! node wal0 = Some pd
                    ∧ w ∈ outputs pd).
    { intros wal0 Hw0. destruct (consistent_producer g Hg w wal0 Hw0) as (pd & Hp & Ho).
      rewrite lookup_fmap, Hp. eexists. split; [done|]. done. }
    destruct (decide (v = w)) as [->|Hvw].
    { rewrite lookup_insert_eq in Hw. simplify_eq/=. by apply Hold. }
    rewrite lookup_insert_ne in Hw by done.
    destruct (decide (new = w)) as [->|Hnw].
    + rewrite lookup_insert_eq in Hw. simplify_eq/=. by apply Hold.
    + rewrite lookup_insert_ne in Hw by done. by apply Hold.
  - intros m md i w Hm Hi. rewrite lookup_fmap in Hm.
    destruct (all_nodes g !! m) as [md0|] eqn:Hm0; simplify_eq/=.
    rewrite list_lookup_fmap in Hi.
    destruct (inputs md0 !! i) as [x|] eqn:Hx; simplify_eq/=.
    destruct (consistent_input g Hg m md0 i x Hm0 Hx) as (wal & Hw & Hu).
    unfold subst_value. destruct (decide (x = v)) as [->|Hxv].
    + rewrite lookup_insert_ne, lookup_insert_eq by done.
      eexists. split; [done|]. simplify_eq. simpl. apply elem_of_app. by right.
    + rewrite lookup_insert_ne by done. destruct (decide (new = x)) as [->|Hnx].
      * rewrite lookup_insert_eq. eexists. split; [done|]. simplify_eq. simpl.
        apply elem_of_app. by left.
      * rewrite lookup_insert_ne by done. eauto.
  - intros m md o Hm Ho. rewrite lookup_fmap in Hm.
    destruct (all_nodes g !! m) as [md0|] eqn:Hm0; simplify_eq/=.
    destruct (consistent_output g Hg m md0 o Hm0 Ho) as (wal & Hw & Hp).
    destruct (decide (v = o)) as [->|Hvo].
    { rewrite lookup_insert_eq. eexists. split; [done|]. by simplify_eq. }
    rewrite lookup_insert_ne by done.
    destruct (decide (new = o)) as [->|Hno].
    + rewrite lookup_insert_eq. eexists. split; [done|]. by simplify_eq.
    + rewrite lookup_insert_ne by done. eauto.
  - intros m md Hm. rewrite lookup_fmap in Hm.
    destruct (all_nodes g !! m) as [md0|] eqn:Hm0; simplify_eq/=.
    by eapply consistent_outputs_NoDup.
  - intros m Hm. rewrite lookup_fmap.
    destruct (consistent_block_node g Hg m Hm) as [md ->]. eauto.
Qed.

Lemma lookup_without_edges n ins (vs : gmap nat Value) v :
  map_imap (λ v val, Some (without_edges n ins v val)) vs !! v
  = without_edges n ins v <$> vs !! v.
Proof. rewrite map_lookup_imap. by destruct (vs !! v). Qed.

Lemma removeAllInputs_consistent g n nd :
  all_nodes g !! n = Some nd →
  consistent g →
  removeAllInputs n g
  = Some (mkGraph (<[n := set_inputs [] nd]> (all_nodes g))
            (map_imap (λ v val, Some (without_edges n (inputs nd) v val)) (all_values g))
            (block g)) ∧
  consistent (mkGraph (<[n := set_inputs [] nd]> (all_nodes g))
            (map_imap (λ v val, Some (without_edges n (inputs nd) v val)) (all_values g))
            (block g)).
Proof.
  intros Hn Hg. split.
  { apply removeAllInputs_spec; [done|]. intros i v Hi.
    destruct (consistent_input g Hg n nd i v Hn Hi) as (val & Hv & Hu).
    exists val. split; [done|]. split; [done|]. by eapply consistent_uses_NoDup. }
  apply consistent_intro; simpl.
  - intros w wal u Hw Hu. rewrite lookup_without_edges in Hw.
    destruct (all_values g !! w) as [wal0|] eqn:Hw0; simplify_eq/=.
    apply list_elem_of_filter in Hu as [Hno Hu].
    destruct (consistent_use g Hg w wal0 u Hw0 Hu) as (ud & Hud & Hs).
    destruct (decide (n = user u)) as [->|Hne].
    + exfalso. apply Hno. split; [done|]. by simplify_eq.
    + rewrite lookup_insert_ne by done. eauto.
  - intros w wal Hw. rewrite lookup_without_edges in Hw.
    destruct (all_values g !! w) as [wal0|] eqn:Hw0; simplify_eq/=.
    apply NoDup_filter. by eapply consistent_uses_NoDup.
  - intros w wal Hw. rewrite lookup_without_edges in Hw.
    destruct (all_values g !! w) as [wal0|] eqn:Hw0; simplify_eq/=.
    destruct (consistent_producer g Hg w wal0 Hw0) as (pd & Hp & Ho).
    destruct (decide (n = node wal0)) as [->|Hne].
    + rewrite lookup_insert_eq. eexists. split; [done|]. by simplify_eq.
    + rewrite lookup_insert_ne by done. eauto.
  - intros m md i w Hm Hi. destruct (decide (n = m)) as [->|Hne].
    { rewrite lookup_insert_eq in Hm. by simplify_eq/=. }
    rewrite lookup_insert_ne in Hm by done.
    destruct (consistent_input g Hg m md i w Hm Hi) as (wal & Hw & Hu).
    rewrite lookup_without_edges, Hw. eexists. split; [done|]. simpl.
    apply list_elem_of_filter. split; [|done]. intros [? _]. simpl in *. congruence.
  - intros m md o Hm Ho.
    assert (Hold : ∀ md0, all_nodes g !! m = Some md0 → o ∈ outputs md0 →
              ∃ wal, map_imap (λ v val, Some (without_edges n (inputs nd) v val))
                       (all_values g) !! o = Some wal ∧ node wal = m).
    { intros md0 Hm0 Ho0.
      destruct (consistent_output g Hg m md0 o Hm0 Ho0) as (wal & Hw & Hp).
      rewrite lookup_without_edges, Hw. eexists. split; [done|]. done. }
    destruct (decide (n = m)) as [->|Hne].
    + rewrite lookup_insert_eq in Hm. simplify_eq. by eapply Hold.
    + rewrite lookup_insert_ne in Hm by done. by eapply Hold.
  - intros m md Hm. destruct (decide (n = m)) as [->|Hne].
    + rewrite lookup_insert_eq in Hm. simplify_eq. simpl.
      by eapply consistent_outputs_NoDup.
    + rewrite lookup_insert_ne in Hm by done. by eapply consistent_outputs_NoDup.
  - intros m Hm. destruct (decide (n = m)) as [->|Hne].
    + rewrite lookup_insert_eq. eauto.
    + rewrite lookup_insert_ne by done. by eapply consistent_block_node.
Qed.

Lemma elem_of_delete_ne {A} (l : list A) i x y :
  x ∈ l → l !! i = Some y → x ≠ y → x ∈ delete i l.
Proof.
  intros Hx Hi Hne. apply list_elem_of_lookup in Hx as [j Hj].
  apply list_elem_of_lookup. destruct (decide (j < i)) as [Hlt|Hge].
  - exists j. by rewrite list_lookup_delete_lt.
  - assert (j ≠ i) by (intros ->; congruence).
    exists (j - 1). rewrite list_lookup_delete_ge by lia.
    by replace (S (j - 1)) with j by lia.
Qed.

Lemma elem_of_delete_inv {A} (l : list A) i x :
  x ∈ delete i l → x ∈ l.
Proof. intros Hx. eapply elem_of_sublist; [done|]. apply sublist_delete. Qed.

Lemma NoDup_delete_not_elem {A} (l : list A) i y :
  NoDup l → l !! i = Some y → y ∉ delete i l.
Proof.
  intros Hnd Hi Hin. apply list_elem_of_lookup in Hin as [j Hj].
  destruct (decide (j < i)) as [Hlt|Hge].
  - rewrite list_lookup_delete_lt in Hj by done.
    assert (j = i) by (by eapply NoDup_lookup). lia.
  - rewrite list_lookup_delete_ge in Hj by lia.
    assert (S j = i) by (by eapply NoDup_lookup). lia.
Qed.

Lemma eraseOutput_spec n i g nd v val :
  all_nodes g !! n = Some nd → outputs nd !! i = Some v →
  all_values g !! v = Some val → uses val = [] →
  eraseOutput n i g
  = Some (mkGraph (<[n := set_outputs (delete i (outputs nd)) nd]> (all_nodes g))
                  (delete v (all_values g)) (block g)).
Proof.
  intros Hn Hi Hv Hu. unfold eraseOutput. rewrite Hn. simpl. rewrite Hi. simpl.
  rewrite Hv. simpl. by rewrite Hu.
Qed.

Lemma eraseOutput_consistent n i g nd v val :
  all_nodes g !! n = Some nd → outputs nd !! i = Some v →
  all_values g !! v = Some val → uses val = [] →
  consistent g →
  consistent (mkGraph (<[n := set_outputs (delete i (outputs nd)) nd]> (all_nodes g))
                      (delete v (all_values g)) (block g)).
Proof.
  intros Hn Hi Hv Hu Hg.
  assert (Hvn : node val = n).
  { destruct (consistent_output g Hg n nd v Hn) as (val' & ? & ?);
      [by eapply list_elem_of_lookup_2|]. by simplify_eq. }
  apply consistent_intro; simpl.
  - intros w wal u Hw Huw. apply lookup_delete_Some in Hw as [Hne Hw].
    destruct (consistent_use g Hg w wal u Hw Huw) as (ud & Hud & Hs).
    destruct (decide (n = user u)) as [->|Hnu].
    + rewrite lookup_insert_eq. eexists. split; [done|]. by simplify_eq.
    + rewrite lookup_insert_ne by done. eauto.
  - intros w wal Hw. apply lookup_delete_Some in Hw as [Hne Hw].
    by eapply consistent_uses_NoDup.
  - intros w wal Hw. apply lookup_delete_Some in Hw as [Hne Hw].
    destruct (consistent_producer g Hg w wal Hw) as (pd & Hp & Ho).
    destruct (decide (n = node wal)) as [->|Hnp].
    + rewrite lookup_insert_eq. eexists. split; [done|]. simplify_eq. simpl.
      by eapply elem_of_delete_ne.
    + rewrite lookup_insert_ne by done. eauto.
  - intros m md j w Hm Hj.
    assert (Hold : ∀ md0, all_nodes g !! m = Some md0 → inputs md0 !! j = Some w →
              ∃ wal, delete v (all_values g) !! w = Some wal ∧ mkUse m j ∈ uses wal).
    { intros md0 Hm0 Hj0.
      destruct (consistent_input g Hg m md0 j w Hm0 Hj0) as (wal & Hw & Huw).
      exists wal. split; [|done]. apply lookup_delete_Some. split; [|done].
      intros <-. simplify_eq. rewrite Hu in Huw. by apply elem_of_nil in Huw. }
    destruct (decide (n = m)) as [->|Hne].
    + rewrite lookup_insert_eq in Hm. simplify_eq. by eapply Hold.
    + rewrite lookup_insert_ne in Hm by done. by eapply Hold.
  - intros m md o Hm Ho. destruct (decide (n = m)) as [->|Hne].
    + rewrite lookup_insert_eq in Hm. simplify_eq. simpl in Ho.
      destruct (consistent_output g Hg _ nd o Hn) as (wal & Hw & Hp);
        [by eapply elem_of_delete_inv|].
      exists wal. split; [|done]. apply lookup_delete_Some. split; [|done].
      intros <-. eapply NoDup_delete_not_elem; [|done..].
      by eapply consistent_outputs_NoDup.
    + rewrite lookup_insert_ne in Hm by done.
      destruct (consistent_output g Hg m md o Hm Ho) as (wal & Hw & Hp).
      exists wal. split; [|done]. apply lookup_delete_Some. split; [|done].
      intros <-. simplify_eq.
  - intros m md Hm. destruct (decide (n = m)) as [->|Hne].
    + rewrite lookup_insert_eq in Hm. simplify_eq. simpl.
      eapply sublist_NoDup; [|apply sublist_delete].
      by eapply consistent_outputs_NoDup.
    + rewrite lookup_insert_ne in Hm by done. by eapply consistent_outputs_NoDup.
  - intros m Hm. destruct (decide (n = m)) as [->|Hne].
    + rewrite lookup_insert_eq. eauto.
    + rewrite lookup_insert_ne by done. by eapply consistent_block_node.
Qed.

Lemma freeNode_consistent n g nd :
  all_nodes g !! n = Some nd → inputs nd = [] → outputs nd = [] →
  consistent g →
  consistent (mkGraph (delete n (all_nodes g)) (all_values g) (unlink n (block g))).
Proof.
  intros Hn Hins Houts Hg. apply consistent_intro; simpl.
  - intros w wal u Hw Hu.
    destruct (consistent_use g Hg w wal u Hw Hu) as (ud & Hud & Hs).
    exists ud. split; [|done]. apply lookup_delete_Some. split; [|done].
    intros Heq. rewrite <- Heq in Hud. simplify_eq. by rewrite Hins in Hs.
  - by apply consistent_uses_NoDup.
  - intros w wal Hw. destruct (consistent_producer g Hg w wal Hw) as (pd & Hp & Ho).
    exists pd. split; [|done]. apply lookup_delete_Some. split; [|done].
    intros Heq. rewrite <- Heq in Hp. simplify_eq.
    rewrite Houts in Ho. by apply elem_of_nil in Ho.
  - intros m md i w Hm Hi. apply lookup_delete_Some in Hm as [Hne Hm].
    by eapply consistent_input.
  - intros m md o Hm Ho. apply lookup_delete_Some in Hm as [Hne Hm].
    by eapply consistent_output.
  - intros m md Hm. apply lookup_delete_Some in Hm as [Hne Hm].
    by eapply consistent_outputs_NoDup.
  - intros m [Hm Hne]%elem_of_block_nodes_unlink.
    destruct (consistent_block_node g Hg m Hm) as [md Hmd].
    exists md. apply lookup_delete_Some. by split.
Qed.

(** Destruction of a node with one output, no input left and no nested
    block. *)
Lemma destroy_spec n g nd out oval :
  all_nodes g !! n = Some nd →
  inputs nd = [] → outputs nd = [out] →
  all_values g !! out = Some oval → uses oval = [] →
  blocks n g = [] →
  destroy n g
  = Some (mkGraph (delete n (all_nodes g)) (delete out (all_values g))
                  (unlink n (block g))).
Proof.
  intros Hn Hins Houts Hout Huses Hblocks. unfold destroy, destroy_with.
  rewrite Hblocks, Hn. simpl. rewrite Houts. simpl.
  rewrite (eraseOutput_spec n 0 g nd out oval) by (by rewrite ?Houts).
  simpl. unfold removeAllInputs. simpl. rewrite lookup_insert_eq. simpl.
  rewrite Hins. simpl.
  do 2 f_equal. by rewrite insert_insert_eq, delete_insert_eq.
Qed.

Lemma option_bind_Some {A B} (f : A → option B) x : Some x ≫= f = f x.
Proof. done. Qed.

Ltac bind := rewrite option_bind_Some; cbv beta iota.

Lemma destroy_consistent n g nd out oval :
  all_nodes g !! n = Some nd →
  inputs nd = [] → outputs nd = [out] →
  all_values g !! out = Some oval → uses oval = [] →
  consistent g →
  consistent (mkGraph (delete n (all_nodes g)) (delete out (all_values g))
                      (unlink n (block g))).
Proof.
  intros Hn Hins Houts Hout Huses Hg.
  pose proof (eraseOutput_consistent n 0 g nd out oval Hn) as Hg'.
  rewrite Houts in Hg'. specialize (Hg' eq_refl Hout Huses Hg). simpl in Hg'.
  pose proof (freeNode_consistent n _ (set_outputs [] nd)
                (lookup_insert_eq _ _ _) Hins eq_refl Hg') as Hg''.
  simpl in Hg''. by rewrite delete_insert_eq in Hg''.
Qed.

Lemma Node_replaceAllUsesWith_single n other g nd od out new oval nval :
  all_nodes g !! n = Some nd → all_nodes g !! other = Some od →
  outputs nd = [out] → outputs od = [new] →
  all_values g !! out = Some oval → all_values g !! new = Some nval →
  out ≠ new →
  consistent g →
  Node_replaceAllUsesWith n other g
  = Some (mkGraph (subst_inputs (subst_value out new) <$> all_nodes g)
            (<[out := set_uses [] oval]>
               (<[new := set_uses (uses nval ++ uses oval) nval]> (all_values g)))
            (block g)).
Proof.
  intros Hn Ho Houts Hnews Hout Hnew Hne Hg. unfold Node_replaceAllUsesWith.
  rewrite Hn, Ho. simpl. rewrite Houts, Hnews. simpl.
  rewrite foldM_cons. simpl.
  rewrite (Value_replaceAllUsesWith_spec g out new oval nval); try done.
  by apply consistent_uses_agree.
Qed.

Lemma subst_inputs_not_read old new nd :
  old ∉ inputs nd → subst_inputs (subst_value old new) nd = nd.
Proof.
  intros Hno. apply subst_inputs_id. intros x Hx. unfold subst_value.
  rewrite decide_False; [done|]. by intros ->.
Qed.

Lemma input_elem_of i nd v : input i nd = Some v → v ∈ inputs nd.
Proof. unfold input. apply list_elem_of_lookup_2. Qed.

(** The end of the two rewrites that replace a node: the uses of the one
    output of [it] move to the one output of the new node [c], the input
    edges of [it] are cleared, and [it] is destroyed. *)
Lemma replace_and_destroy_spec g it c nd cn out co oval coval :
  consistent g →
  all_nodes g !! it = Some nd → all_nodes g !! c = Some cn →
  outputs nd = [out] → outputs cn = [co] →
  all_values g !! out = Some oval → all_values g !! co = Some coval →
  uses coval = [] →
  out ∉ inputs nd → out ∉ inputs cn →
  c ≠ it →
  blocks_in it (block g) = [] →
  ∃ g',
    (g1 ← Node_replaceAllUsesWith it c g;
     g2 ← removeAllInputs it g1;
     destroy it g2) = Some g' ∧
    all_nodes g' !! c = Some cn ∧
    all_values g' !! co = Some (set_uses (uses oval) coval) ∧
    block g' = unlink it (block g) ∧
    (∀ m, m ≠ it →
          all_nodes g' !! m = subst_inputs (subst_value out co) <$> all_nodes g !! m) ∧
    all_nodes g' !! it = None ∧
    all_values g' !! out = None ∧
    (∀ i v, inputs nd !! i = Some v →
            ∃ val', all_values g' !! v = Some val' ∧ mkUse it i ∉ uses val') ∧
    consistent g'.
Proof.
  intros Hg Hit Hc Houts Hcouts Hout Hco Hcouses Hout_nd Hout_cn Hcit Hblocks.
  assert (Hne : out ≠ co).
  { intros ->. pose proof (consistent_output g Hg it nd co Hit) as (v1 & Hv1 & Hn1);
      [rewrite Houts; left|].
    pose proof (consistent_output g Hg c cn co Hc) as (v2 & Hv2 & Hn2);
      [rewrite Hcouts; left|]. congruence. }
  assert (Hco_nd : co ∉ inputs nd).
  { intros Hin. apply list_elem_of_lookup in Hin as [j Hj].
    destruct (consistent_input g Hg it nd j co Hit Hj) as (? & ? & Hu).
    simplify_eq. rewrite Hcouses in Hu. by apply elem_of_nil in Hu. }
  rewrite (Node_replaceAllUsesWith_single it c g _ _ out co _ _ Hit Hc Houts
             Hcouts Hout Hco Hne Hg).
  bind.
  pose proof (Value_replaceAllUsesWith_consistent g out co _ _ Hout Hco Hne Hg) as Hg1.
  set (g1 := mkGraph _ _ (block g)) in *.
  assert (Hit1 : all_nodes g1 !! it = Some nd).
  { unfold g1. cbn [all_nodes]. rewrite lookup_fmap, Hit. simpl.
    by rewrite subst_inputs_not_read. }
  destruct (removeAllInputs_consistent g1 it nd Hit1 Hg1) as [Hrm Hg2].
  rewrite Hrm. bind.
  set (g2 := mkGraph _ _ (block g1)) in *.
  assert (Hit2 : all_nodes g2 !! it = Some (set_inputs [] nd)).
  { unfold g2. cbn [all_nodes]. apply lookup_insert_eq. }
  assert (Hout2 : all_values g2 !! out = Some (set_uses [] oval)).
  { unfold g2, g1. cbn [all_values].
    by rewrite lookup_without_edges, lookup_insert_eq. }
  rewrite (destroy_spec it g2 _ out _ Hit2 eq_refl Houts Hout2 eq_refl Hblocks).
  pose proof (destroy_consistent it g2 _ out _ Hit2 eq_refl Houts Hout2 eq_refl Hg2)
    as Hg3.
  set (g3 := mkGraph (delete it _) _ _) in *.
  exists g3. split; [done|].
  split.
  { unfold g3, g2, g1. cbn [all_nodes].
    rewrite lookup_delete_ne, lookup_insert_ne, lookup_fmap, Hc by done. simpl.
    by rewrite subst_inputs_not_read. }
  split.
  { unfold g3, g2, g1. cbn [all_values].
    rewrite lookup_delete_ne, lookup_without_edges by done.
    rewrite lookup_insert_ne, lookup_insert_eq by done. simpl.
    unfold without_edges, set_uses. simpl. rewrite Hcouses. simpl. f_equal. f_equal.
    apply filter_all. rewrite Forall_forall. intros u _ [_ Hr].
    apply Hco_nd. by eapply list_elem_of_lookup_2. }
  split; [done|].
  split.
  { intros m Hm. unfold g3, g2, g1. cbn [all_nodes].
    by rewrite lookup_delete_ne, lookup_insert_ne, lookup_fmap by done. }
  split; [apply lookup_delete_eq|]. split; [apply lookup_delete_eq|].
  split; [|done].
  intros i v Hi.
  destruct (consistent_input g1 Hg1 it nd i v Hit1 Hi) as (val1 & Hval1 & _).
  assert (v ≠ out) by (intros ->; apply Hout_nd; by eapply list_elem_of_lookup_2).
  exists (without_edges it (inputs nd) v val1). split.
  - unfold g3, g2. cbn [all_values]. rewrite lookup_delete_ne by done.
    by rewrite lookup_without_edges, Hval1.
  - unfold without_edges. simpl. intros [Hno _]%list_elem_of_filter.
    apply Hno. by split.
Qed.

Lemma filter_flat_map_replace (c it : nat) l :
  c ≠ it →
  filter (λ x, x ≠ it) (flat_map (λ x, if decide (x = it) then [c; x] else [x]) l)
  = flat_map (λ x, if decide (x = it) then [c] else [x]) l.
Proof.
  intros Hne. induction l as [|x l IH]; [done|]. simpl.
  rewrite filter_app, IH. f_equal.
  destruct (decide (x = it)) as [->|Hx].
  - rewrite filter_cons_True by done. by rewrite filter_cons_False by (by intros ?).
  - by rewrite filter_cons_True by done.
Qed.



(** ** When a trigger node is fused *)

Lemma FindFusibleListUnpack_fusible it g nd u :
  all_nodes g !! it = Some nd →
  FindFusibleListUnpack it g = Some (Some u) ↔ fusible g nd u.
Proof.
  intros Hit. unfold FindFusibleListUnpack, fusible, the_output.
  rewrite Hit. simpl. split.
  - case_decide as Hlen; [done|].
    destruct (outputs nd) as [|out [|? ?]]; simpl in *; try done.
    destruct (all_values g !! out) as [val|] eqn:Hval; simpl; [|done].
    case_decide as Hulen; [done|].
    destruct (uses val) as [|[u' off] [|? ?]] eqn:Huses; simpl in *; try done.
    destruct (all_nodes g !! u') as [lu|] eqn:Hlu; simpl; [|done].
    case_decide as Hkind; [done|]. intros [= <-].
    exists out, val, off, lu. repeat split; try done.
  - intros (out & val & off & lu & -> & Hval & Huses & Hlu & Hkind). simpl.
    rewrite Hval. simpl. rewrite Huses. simpl. rewrite Hlu. simpl.
    by rewrite decide_False by (by intros ?).
Qed.

Lemma FindFusibleListUnpack_not_fusible it g nd :
  consistent g →
  all_nodes g !! it = Some nd →
  (∀ u, ¬ fusible g nd u) →
  FindFusibleListUnpack it g = Some None.
Proof.
  intros Hg Hit Hno.
  destruct (FindFusibleListUnpack it g) as [[u|]|] eqn:Hfind.
  - by apply (FindFusibleListUnpack_fusible _ _ _ _ Hit), Hno in Hfind.
  - done.
  - exfalso. revert Hfind. unfold FindFusibleListUnpack, the_output.
    rewrite Hit. simpl. case_decide as Hlen; [done|].
    destruct (outputs nd) as [|out [|? ?]] eqn:Houts; simpl in *; try done.
    destruct (consistent_output g Hg it nd out Hit) as (val & Hval & _).
    { rewrite Houts. apply list_elem_of_here. }
    rewrite Hval. simpl. case_decide as Hulen; [done|].
    destruct (uses val) as [|u [|? ?]] eqn:Huses; simpl in *; try done.
    destruct (consistent_use g Hg out val u Hval) as (ud & Hud & _).
    { rewrite Huses. apply list_elem_of_here. }
    rewrite Hud. simpl. by case_decide.
Qed.

(** ** The list-add rewrite *)

(** C7: an [aten::add] node of two int lists, with one output, is replaced:
    a new [onnx::Concat] node with attribute [axis = 0], the two lists as
    inputs and one output stands in the block where the add node stood
    (it is linked in before the add node, which is then unlinked); the
    type of the new output is the tensor type derived from [Int]; every
    input slot that read the output of the add node reads the new output,
    whose use list is the one the old output had; the input edges of the add
    node are gone from the use lists, and the node and its output are
    freed. *)
Theorem C7_add_of_int_lists_becomes_concat it g nd in0 in1 val0 val1 out oval :
  wf g →
  all_nodes g !! it = Some nd →
  kind nd = aten.add →
  input 0 nd = Some in0 →
  input 1 nd = Some in1 →
  all_values g !! in0 = Some val0 →
  all_values g !! in1 = Some val1 →
  type val0 = ListType IntType →
  type val1 = ListType IntType →
  outputs nd = [out] →
  all_values g !! out = Some oval →
  it ∈ block_nodes (block g) →
  blocks it g = [] →
  ∃ g' concat_node new_out,
    ReplaceAddWithConcat_at it g = Some g' ∧
    all_nodes g !! concat_node = None ∧
    all_values g !! new_out = None ∧
    all_nodes g' !! concat_node
    = Some (mkNode onnx.Concat [in0; in1] [new_out] [(attr.axis, IntAttr 0)]) ∧
    all_values g' !! new_out
    = Some (mkValue (TensorType (Some Long) (Some 1)) concat_node (uses oval)) ∧
    block_nodes (block g')
    = flat_map (λ x, if decide (x = it) then [concat_node] else [x])
        (block_nodes (block g)) ∧
    (∀ m md, m ≠ it → all_nodes g !! m = Some md →
             all_nodes g' !! m = Some (subst_inputs (subst_value out new_out) md)) ∧
    all_nodes g' !! it = None ∧
    all_values g' !! out = None ∧
    (∀ i v, inputs nd !! i = Some v →
            ∃ val', all_values g' !! v = Some val' ∧ mkUse it i ∉ uses val') ∧
    consistent g'.
Proof.
  intros Hwf Hit Hkind Hin0 Hin1 Hval0 Hval1 Ht0 Ht1 Houts Hout Hblock Hblocks.
  pose proof (wf_consistent g Hwf) as Hg. unfold blocks in Hblocks.
  assert (Hout_nd : out ∉ inputs nd).
  { intros Hin. eapply (wf_no_self_use g it nd out); [done..|].
    rewrite Houts. left. }
  assert (Hne0 : in0 ≠ out) by (intros ->; by apply Hout_nd, (input_elem_of 0)).
  assert (Hne1 : in1 ≠ out) by (intros ->; by apply Hout_nd, (input_elem_of 1)).
  unfold ReplaceAddWithConcat_at.
  rewrite Hit. bind. rewrite decide_True by done.
  rewrite Hin0. bind. rewrite Hval0. bind. rewrite Ht0. cbn [cast_ListType].
  rewrite Hin1. bind. rewrite Hval1. bind. rewrite Ht1.
  cbn [cast_ListType cast_IntType].
  (* create *)
  rewrite create_1_spec. bind.
  pose proof (fresh_node_None g) as Hc. pose proof (fresh_value_None g) as Hco.
  set (c := fresh (dom (all_nodes g))) in *.
  set (co := fresh (dom (all_values g))) in *.
  clearbody c co.
  assert (Hcit : c ≠ it) by congruence.
  assert (Hco0 : co ≠ in0) by congruence.
  assert (Hco1 : co ≠ in1) by congruence.
  assert (Hcoout : co ≠ out) by congruence.
  pose proof (create_1_consistent g onnx.Concat c co Hc Hco Hg) as Hg1.
  set (g1 := mkGraph _ _ _) in *.
  (* i_ *)
  unfold i_. rewrite (setAttr_spec c _ _ g1 (mkNode onnx.Concat [] [co] []))
    by apply lookup_insert_eq.
  bind.
  pose proof (consistent_set_node g1 c (mkNode onnx.Concat [] [co] [])
                (mkNode onnx.Concat [] [co] [(attr.axis, IntAttr 0)])
                (lookup_insert_eq _ _ _) eq_refl eq_refl Hg1) as Hg2.
  change (set_attributes _ _)
    with (mkNode onnx.Concat [] [co] [(attr.axis, IntAttr 0)]).
  set (g2 := set_all_nodes _ g1) in *.
  (* insertBefore *)
  assert (Hcb : c ∉ block_nodes (block g)).
  { intros Hcb. apply (consistent_block_node g Hg) in Hcb as [? ?]. congruence. }
  rewrite (insertBefore_spec c it g2) by done. bind.
  pose proof (consistent_link_before g2 c it) as Hg3.
  set (g3 := set_block _ g2) in *.
  assert (Hc3 : all_nodes g3 !! c
                = Some (mkNode onnx.Concat [] [co] [(attr.axis, IntAttr 0)])).
  { unfold g3, g2. simpl. apply lookup_insert_eq. }
  specialize (Hg3 (mk_is_Some _ _ Hc3) Hg2).
  assert (Hit3 : all_nodes g3 !! it = Some nd).
  { unfold g3, g2, g1. simpl. by rewrite !lookup_insert_ne. }
  (* addInput, twice *)
  rewrite Hit3. bind. rewrite Hin0. bind.
  assert (Hval03 : all_values g3 !! in0 = Some val0).
  { unfold g3, g2, g1. simpl. by rewrite lookup_insert_ne. }
  rewrite (addInput_spec c in0 g3 _ _ Hc3 Hval03). bind.
  pose proof (addInput_consistent c in0 g3 _ _ Hc3 Hval03 Hg3) as Hg4.
  set (g4 := mkGraph _ _ (block g3)) in *.
  assert (Hc4 : all_nodes g4 !! c
                = Some (mkNode onnx.Concat [in0] [co] [(attr.axis, IntAttr 0)])).
  { unfold g4. simpl. apply lookup_insert_eq. }
  assert (Hit4 : all_nodes g4 !! it = Some nd).
  { unfold g4. simpl. by rewrite lookup_insert_ne. }
  rewrite Hit4. bind. rewrite Hin1. bind.
  destruct (consistent_input g4 Hg4 it nd 1 in1 Hit4 Hin1) as (val14 & Hval14 & _).
  rewrite (addInput_spec c in1 g4 _ _ Hc4 Hval14). bind.
  pose proof (addInput_consistent c in1 g4 _ _ Hc4 Hval14 Hg4) as Hg5.
  set (g5 := mkGraph _ _ (block g4)) in *.
  assert (Hc5 : all_nodes g5 !! c
                = Some (mkNode onnx.Concat [in0; in1] [co] [(attr.axis, IntAttr 0)])).
  { unfold g5. simpl. apply lookup_insert_eq. }
  assert (Hco5 : all_values g5 !! co = Some (mkValue TensorType_get c [])).
  { unfold g5, g4, g3, g2, g1. simpl. rewrite !lookup_insert_ne by done.
    apply lookup_insert_eq. }
  (* setType *)
  rewrite Hc5. bind. unfold output_at at 1. simpl outputs. simpl lookup. bind.
  rewrite (setType_spec co _ g5 _ Hco5). bind.
  pose proof (consistent_set_value g5 co _
                (set_type (fromNumberType IntType) (mkValue TensorType_get c []))
                Hco5 eq_refl eq_refl Hg5) as Hg6.
  set (g6 := set_all_values _ g5) in *.
  assert (Hit6 : all_nodes g6 !! it = Some nd).
  { unfold g6, g5. simpl. by rewrite lookup_insert_ne. }
  assert (Hco6 : all_values g6 !! co
                 = Some (mkValue (TensorType (Some Long) (Some 1)) c [])).
  { unfold g6. simpl. apply lookup_insert_eq. }
  assert (Hout6 : all_values g6 !! out = Some oval).
  { unfold g6, g5, g4, g3, g2, g1. simpl. by rewrite !lookup_insert_ne. }
  (* replaceAllUsesWith, removeAllInputs, destroy *)
  destruct (replace_and_destroy_spec g6 it c nd _ out co oval _ Hg6 Hit6 Hc5 Houts
              eq_refl Hout6 Hco6 eq_refl Hout_nd)
    as (g' & Hrun & Hc' & Hco' & Hblock' & Hother & Hit' & Hout' & Hins' & Hg').
  { simpl. intros [->|[->|[]%elem_of_nil]%elem_of_cons]%elem_of_cons; done. }
  { done. }
  { unfold g6, g5, g4, g3. simpl. by rewrite blocks_in_link_before, Hblocks. }
  exists g', c, co. split; [exact Hrun|].
  split; [done|]. split; [done|]. split; [done|]. split; [done|].
  split.
  { rewrite Hblock'. unfold g6, g5, g4, g3. simpl.
    rewrite block_nodes_unlink by (by rewrite blocks_in_link_before, Hblocks).
    rewrite block_nodes_link_before. by apply filter_flat_map_replace. }
  split.
  { intros m md Hm Hmd. assert (c ≠ m) by congruence.
    rewrite (Hother m Hm). unfold g6, g5, g4, g3, g2, g1. simpl.
    by rewrite !lookup_insert_ne, Hmd by done. }
  done.
Qed.

Lemma C7_add_of_int_lists_becomes_concat_witness :
  ∃ g', ReplaceAddWithConcat_at 7 (Examples.add_graph IntType IntType) = Some g' ∧
        all_nodes g' !! 7 = None ∧ consistent g'.
Proof.
  destruct (C7_add_of_int_lists_becomes_concat 7
              (Examples.add_graph IntType IntType)
              (mkNode aten.add [4; 6] [7] []) 4 6
              (mkValue (ListType IntType) 4 [mkUse 7 0])
              (mkValue (ListType IntType) 6 [mkUse 7 1]) 7
              (mkValue (ListType IntType) 7 [mkUse 8 1]))
    as (g' & c & co & Hrun & _ & _ & _ & _ & _ & _ & Hgone & _ & _ & Hg');
    try reflexivity.
  - apply (bool_decide_unpack _). vm_compute. exact I.
  - apply (bool_decide_unpack _). vm_compute. exact I.
  - exists g'. split; [exact Hrun|]. split; [exact Hgone|exact Hg'].
Defined.

(** ** The indexed-put rewrite *)

(** The rewrite of one [index_put_] node, in closed form. *)
Lemma index_put_rewrite_spec
    it g nd dest idx value ival lc mask mval vval rk st rank out oval :
  wf g →
  all_nodes g !! it = Some nd →
  kind nd = aten.index_put_ →
  input 0 nd = Some dest →
  input 1 nd = Some idx →
  input 2 nd = Some value →
  all_values g !! idx = Some ival →
  all_nodes g !! node ival = Some lc →
  input 0 lc = Some mask →
  all_values g !! mask = Some mval →
  type mval = TensorType (Some Bool) rk →
  all_values g !! value = Some vval →
  type vval = TensorType st (Some rank) →
  outputs nd = [out] →
  all_values g !! out = Some oval →
  mask ≠ out →
  it ∈ block_nodes (block g) →
  blocks it g = [] →
  ∃ g' masked_node new_out,
    ReplaceIndexPutWithMaskedScatter_at it g = Some g' ∧
    all_nodes g !! masked_node = None ∧
    all_values g !! new_out = None ∧
    all_nodes g' !! masked_node
    = Some (mkNode (if decide (rank = 0) then aten.masked_fill
                    else aten.masked_scatter)
                   [dest; mask; value] [new_out] []) ∧
    all_values g' !! new_out
    = Some (mkValue TensorType_get masked_node (uses oval)) ∧
    block_nodes (block g')
    = flat_map (λ x, if decide (x = it) then [masked_node] else [x])
        (block_nodes (block g)) ∧
    (∀ m md, m ≠ it → all_nodes g !! m = Some md →
             all_nodes g' !! m = Some (subst_inputs (subst_value out new_out) md)) ∧
    all_nodes g' !! it = None ∧
    all_values g' !! out = None ∧
    (∀ i v, inputs nd !! i = Some v →
            ∃ val', all_values g' !! v = Some val' ∧ mkUse it i ∉ uses val') ∧
    wf g' ∧
    (∀ m md', all_nodes g' !! m = Some md' →
       m = masked_node ∨
       m ≠ it ∧ ∃ md, all_nodes g !! m = Some md ∧
                      md' = subst_inputs (subst_value out new_out) md) ∧
    block g' = unlink it (link_before masked_node it (block g)).
Proof.
  intros Hwf Hit Hkind Hin0 Hin1 Hin2 Hival Hlc Hmask Hmval Htm Hvval Htv
    Houts Hout Hmask_out Hblock Hblocks.
  pose proof (wf_consistent g Hwf) as Hg. unfold blocks in Hblocks.
  assert (Hout_nd : out ∉ inputs nd).
  { intros Hin. eapply (wf_no_self_use g it nd out); [done..|].
    rewrite Houts. left. }
  assert (Hne0 : dest ≠ out) by (intros ->; by apply Hout_nd, (input_elem_of 0)).
  assert (Hne2 : value ≠ out) by (intros ->; by apply Hout_nd, (input_elem_of 2)).
  destruct (consistent_input g Hg it nd 0 dest Hit Hin0) as (dval & Hdval & _).
  unfold ReplaceIndexPutWithMaskedScatter_at, index_put_body.
  rewrite Hit. bind. rewrite decide_True by done.
  rewrite Hin1. bind. rewrite Hival. bind. rewrite Hlc. bind.
  rewrite Hmask. bind. rewrite Hmval. bind. rewrite Htm. cbn [cast_TensorType].
  rewrite (inputs_size_guard_after_input _ _ Hmask).
  rewrite Hin2. bind. rewrite Hvval. bind. rewrite Htv. cbn [cast_TensorType].
  (* create *)
  set (k := if decide (rank = 0) then aten.masked_fill else aten.masked_scatter).
  assert (Hcreate : (if decide (rank = 0) then create aten.masked_fill 1 g
                     else create aten.masked_scatter 1 g) = create k 1 g).
  { unfold k. by destruct (decide (rank = 0)). }
  rewrite Hcreate, create_1_spec. bind.
  pose proof (fresh_node_None g) as Hc. pose proof (fresh_value_None g) as Hco.
  set (c := fresh (dom (all_nodes g))) in *.
  set (co := fresh (dom (all_values g))) in *.
  clearbody c co.
  assert (Hcit : c ≠ it) by congruence.
  assert (Hclc : c ≠ node ival) by congruence.
  assert (Hco0 : co ≠ dest) by congruence.
  assert (Hco1 : co ≠ mask) by congruence.
  assert (Hco2 : co ≠ value) by congruence.
  assert (Hcoout : co ≠ out) by congruence.
  pose proof (create_1_consistent g k c co Hc Hco Hg) as Hg1.
  set (g1 := mkGraph _ _ _) in *.
  (* insertBefore *)
  assert (Hcb : c ∉ block_nodes (block g)).
  { intros Hcb. apply (consistent_block_node g Hg) in Hcb as [? ?]. congruence. }
  rewrite (insertBefore_spec c it g1) by done. bind.
  pose proof (consistent_link_before g1 c it) as Hg3.
  set (g3 := set_block _ g1) in *.
  assert (Hc3 : all_nodes g3 !! c = Some (mkNode k [] [co] [])).
  { unfold g3, g1. simpl. apply lookup_insert_eq. }
  specialize (Hg3 (mk_is_Some _ _ Hc3) Hg1).
  assert (Hit3 : all_nodes g3 !! it = Some nd).
  { unfold g3, g1. simpl. by rewrite !lookup_insert_ne. }
  (* addInput dest *)
  rewrite Hit3. bind. rewrite Hin0. bind.
  assert (Hval03 : all_values g3 !! dest = Some dval).
  { unfold g3, g1. simpl. by rewrite lookup_insert_ne. }
  rewrite (addInput_spec c dest g3 _ _ Hc3 Hval03). bind.
  pose proof (addInput_consistent c dest g3 _ _ Hc3 Hval03 Hg3) as Hg4.
  set (g4 := mkGraph _ _ (block g3)) in *.
  assert (Hc4 : all_nodes g4 !! c = Some (mkNode k [dest] [co] [])).
  { unfold g4. simpl. apply lookup_insert_eq. }
  assert (Hlc4 : all_nodes g4 !! node ival = Some lc).
  { unfold g4, g3, g1. simpl. by rewrite !lookup_insert_ne. }
  (* addInput mask *)
  rewrite Hlc4. bind. rewrite Hmask. bind.
  destruct (consistent_input g4 Hg4 _ lc 0 mask Hlc4 Hmask) as (mval4 & Hmval4 & _).
  rewrite (addInput_spec c mask g4 _ _ Hc4 Hmval4). bind.
  pose proof (addInput_consistent c mask g4 _ _ Hc4 Hmval4 Hg4) as Hg5.
  set (g5 := mkGraph _ _ (block g4)) in *.
  assert (Hc5 : all_nodes g5 !! c = Some (mkNode k [dest; mask] [co] [])).
  { unfold g5. simpl. apply lookup_insert_eq. }
  assert (Hit5 : all_nodes g5 !! it = Some nd).
  { unfold g5, g4. simpl. by rewrite !lookup_insert_ne. }
  (* addInput value *)
  rewrite Hit5. bind. rewrite Hin2. bind.
  destruct (consistent_input g5 Hg5 it nd 2 value Hit5 Hin2) as (vval5 & Hvval5 & _).
  rewrite (addInput_spec c value g5 _ _ Hc5 Hvval5). bind.
  pose proof (addInput_consistent c value g5 _ _ Hc5 Hvval5 Hg5) as Hg6.
  set (g6 := mkGraph _ _ (block g5)) in *.
  assert (Hc6 : all_nodes g6 !! c = Some (mkNode k [dest; mask; value] [co] [])).
  { unfold g6. simpl. apply lookup_insert_eq. }
  assert (Hit6 : all_nodes g6 !! it = Some nd).
  { unfold g6. simpl. by rewrite lookup_insert_ne. }
  assert (Hco6 : all_values g6 !! co = Some (mkValue TensorType_get c [])).
  { unfold g6, g5, g4, g3, g1. simpl. rewrite !lookup_insert_ne by done.
    apply lookup_insert_eq. }
  assert (Hout6 : all_values g6 !! out = Some oval).
  { unfold g6, g5, g4, g3, g1. simpl. by rewrite !lookup_insert_ne. }
  (* replaceAllUsesWith, removeAllInputs, destroy *)
  destruct (replace_and_destroy_spec g6 it c nd _ out co oval _ Hg6 Hit6 Hc6 Houts
              eq_refl Hout6 Hco6 eq_refl Hout_nd)
    as (g' & Hrun & Hc' & Hco' & Hblock' & Hother & Hit' & Hout' & Hins' & Hg').
  { simpl. intros Hin. repeat (apply elem_of_cons in Hin as [->|Hin]; [done|]).
    by apply elem_of_nil in Hin. }
  { done. }
  { unfold g6, g5, g4, g3. simpl. by rewrite blocks_in_link_before, Hblocks. }
  exists g', c, co. split; [exact Hrun|].
  split; [done|]. split; [done|]. split; [done|]. split; [done|].
  split.
  { rewrite Hblock'. unfold g6, g5, g4, g3. simpl.
    rewrite block_nodes_unlink by (by rewrite blocks_in_link_before, Hblocks).
    rewrite block_nodes_link_before. by apply filter_flat_map_replace. }
  split.
  { intros m md Hm Hmd. assert (c ≠ m) by congruence.
    rewrite (Hother m Hm). unfold g6, g5, g4, g3, g1. simpl.
    by rewrite !lookup_insert_ne, Hmd by done. }
  split; [done|]. split; [done|]. split; [done|].
  split.
  2:{ split; [|by rewrite Hblock'].
      intros m md' Hm'. destruct (decide (m = it)) as [->|Hm]; [congruence|].
      destruct (decide (m = c)) as [->|Hmc]; [by left|]. right.
      split; [done|]. rewrite (Hother m Hm) in Hm'.
      apply fmap_Some in Hm' as (md6 & Hmd6 & ->). exists md6. split; [|done].
      revert Hmd6. unfold g6, g5, g4, g3, g1. simpl.
      by rewrite !lookup_insert_ne by done. }
  split; [done|].
  intros m md' Hm'. destruct (decide (m = it)) as [->|Hm]; [congruence|].
  rewrite (Hother m Hm) in Hm'.
  apply fmap_Some in Hm' as (md6 & Hmd6 & ->).
  unfold reads_no_own_output, subst_inputs. simpl. rewrite Forall_forall.
  intros x Hx Hxo. apply list_elem_of_In, in_map_iff in Hx as (y & <- & Hy).
  apply list_elem_of_In in Hy.
  destruct (decide (m = c)) as [->|Hmc].
  - rewrite Hc6 in Hmd6. injection Hmd6 as <-. simpl in *.
    apply list_elem_of_singleton in Hxo. unfold subst_value in Hxo.
    repeat (apply elem_of_cons in Hy as [->|Hy];
            [by rewrite decide_False in Hxo by done|]).
    by apply elem_of_nil in Hy.
  - assert (Hmd : all_nodes g !! m = Some md6).
    { revert Hmd6. unfold g6, g5, g4, g3, g1. simpl.
      by rewrite !lookup_insert_ne by done. }
    destruct (consistent_output g Hg m md6 _ Hmd Hxo) as (xval & Hxval & _).
    unfold subst_value in Hxo, Hxval. case_decide; [congruence|].
    by apply (wf_no_self_use g m md6 y Hwf Hmd).
Qed.


(** ** The loop of the list-index expansion *)

Lemma unpacks_opaque_int_list_true it g nd v val pd :
  all_nodes g !! it = Some nd →
  inputs nd = [v] →
  all_values g !! v = Some val →
  all_nodes g !! node val = Some pd →
  kind pd ≠ prim.ListConstruct →
  type val = ListType IntType →
  unpacks_opaque_int_list it g = Some true.
Proof.
  intros Hit Hins Hv Hpd Hk Ht. unfold unpacks_opaque_int_list, the_input.
  rewrite Hit. bind. rewrite Hins. simpl. rewrite Hv. simpl. rewrite Hpd. simpl.
  rewrite decide_True by done. by rewrite Ht.
Qed.

(** One round of the loop over the outputs of a ListUnpack node. *)
Lemma gather_output_spec it i g nd v val pd o oval :
  consistent g →
  all_nodes g !! it = Some nd →
  inputs nd = [v] →
  all_values g !! v = Some val →
  all_nodes g !! node val = Some pd →
  kind pd ≠ prim.ListConstruct →
  type val = ListType IntType →
  outputs nd !! i = Some o →
  all_values g !! o = Some oval →
  v ≠ o →
  it ∈ block_nodes (block g) →
  ∃ g' c co gn go,
    gather_output it i g = Some g' ∧
    (all_nodes g !! c = None ∧ all_nodes g !! gn = None ∧ c ≠ gn ∧
     all_values g !! co = None ∧ all_values g !! go = None ∧ co ≠ go) ∧
    all_nodes g' !! c
    = Some (mkNode onnx.Constant [] [co]
              [(attr.value, TensorAttr (scalar_to_tensor (to_int i)))]) ∧
    all_nodes g' !! gn = Some (mkNode onnx.Gather [v; co] [go] []) ∧
    (∀ m md, all_nodes g !! m = Some md →
             all_nodes g' !! m = Some (subst_inputs (subst_value o go) md)) ∧
    all_values g' !! co = Some (mkValue TensorType_get c [mkUse gn 1]) ∧
    all_values g' !! go = Some (mkValue TensorType_get gn (uses oval)) ∧
    all_values g' !! o = Some (set_uses [] oval) ∧
    all_values g' !! v = Some (set_uses (uses val ++ [mkUse gn 0]) val) ∧
    (∀ x xval, all_values g !! x = Some xval → x ≠ o → x ≠ v →
               all_values g' !! x = Some xval) ∧
    block_nodes (block g')
    = flat_map (λ x, if decide (x = it) then [c; gn; x] else [x])
        (block_nodes (block g)) ∧
    consistent g'.
Proof.
  intros Hg Hit Hins Hv Hpd Hk Ht Ho Hoval Hvo Hblock.
  unfold gather_output. rewrite Hit. bind. unfold output_at. rewrite Ho. bind.
  rewrite (unpacks_opaque_int_list_true it g nd v val pd) by done. bind.
  (* the Constant node *)
  rewrite create_1_spec. bind.
  pose proof (fresh_node_None g) as Hc. pose proof (fresh_value_None g) as Hco.
  set (c := fresh (dom (all_nodes g))) in *.
  set (co := fresh (dom (all_values g))) in *.
  clearbody c co.
  assert (Hcit : c ≠ it) by congruence.
  assert (Hcov : co ≠ v) by congruence.
  assert (Hcoo : co ≠ o) by congruence.
  pose proof (create_1_consistent g onnx.Constant c co Hc Hco Hg) as Hg1.
  set (g1 := mkGraph _ _ _) in *.
  assert (Hcb : c ∉ block_nodes (block g)).
  { intros Hcb. apply (consistent_block_node g Hg) in Hcb as [? ?]. congruence. }
  rewrite (insertBefore_spec c it g1) by done. bind.
  pose proof (consistent_link_before g1 c it) as Hg2.
  set (g2 := set_block _ g1) in *.
  assert (Hc2 : all_nodes g2 !! c = Some (mkNode onnx.Constant [] [co] [])).
  { unfold g2, g1. simpl. apply lookup_insert_eq. }
  specialize (Hg2 (mk_is_Some _ _ Hc2) Hg1).
  unfold t_. rewrite (setAttr_spec c _ _ g2 _ Hc2). bind.
  pose proof (consistent_set_node g2 c _
                (mkNode onnx.Constant [] [co]
                   [(attr.value, TensorAttr (scalar_to_tensor (to_int i)))])
                Hc2 eq_refl eq_refl Hg2) as Hg3.
  change (set_attributes _ _)
    with (mkNode onnx.Constant [] [co]
            [(attr.value, TensorAttr (scalar_to_tensor (to_int i)))]).
  set (g3 := set_all_nodes _ g2) in *.
  (* the Gather node *)
  rewrite create_1_spec. bind.
  pose proof (fresh_node_None g3) as Hgn. pose proof (fresh_value_None g3) as Hgo.
  set (gn := fresh (dom (all_nodes g3))) in *.
  set (go := fresh (dom (all_values g3))) in *.
  clearbody gn go.
  assert (Hgnc : c ≠ gn).
  { intros <-. unfold g3 in Hgn. simpl in Hgn. by rewrite lookup_insert_eq in Hgn. }
  assert (Hgng : all_nodes g !! gn = None).
  { unfold g3, g2, g1 in Hgn. simpl in Hgn. by rewrite !lookup_insert_ne in Hgn. }
  assert (Hgoco : co ≠ go).
  { intros <-. unfold g3, g2, g1 in Hgo. simpl in Hgo.
    by rewrite lookup_insert_eq in Hgo. }
  assert (Hgog : all_values g !! go = None).
  { unfold g3, g2, g1 in Hgo. simpl in Hgo. by rewrite lookup_insert_ne in Hgo. }
  assert (Hgnit : gn ≠ it) by congruence.
  assert (Hgov : go ≠ v) by congruence.
  assert (Hgoo : go ≠ o) by congruence.
  pose proof (create_1_consistent g3 onnx.Gather gn go Hgn Hgo Hg3) as Hg4.
  set (g4 := mkGraph _ _ (block g3)) in *.
  assert (Hgnb : gn ∉ block_nodes (block g4)).
  { unfold g4, g3, g2. simpl.
    intros [->|Hin]%elem_of_block_nodes_link_before; [done|].
    apply (consistent_block_node g Hg) in Hin as [? ?]. congruence. }
  assert (Hitb : it ∈ block_nodes (block g4)).
  { unfold g4, g3, g2. simpl. rewrite block_nodes_link_before.
    apply list_elem_of_In, in_flat_map. exists it. split; [by apply list_elem_of_In|].
    rewrite decide_True by done. right. left. done. }
  rewrite (insertBefore_spec gn it g4) by done. bind.
  pose proof (consistent_link_before g4 gn it) as Hg5.
  set (g5 := set_block _ g4) in *.
  assert (Hgn5 : all_nodes g5 !! gn = Some (mkNode onnx.Gather [] [go] [])).
  { unfold g5, g4. simpl. apply lookup_insert_eq. }
  specialize (Hg5 (mk_is_Some _ _ Hgn5) Hg4).
  assert (Hit5 : all_nodes g5 !! it = Some nd).
  { unfold g5, g4, g3, g2, g1. simpl. by rewrite !lookup_insert_ne. }
  rewrite Hit5. bind. unfold the_input at 1. rewrite Hins. bind.
  assert (Hv5 : all_values g5 !! v = Some val).
  { unfold g5, g4, g3, g2, g1. simpl. by rewrite !lookup_insert_ne. }
  rewrite (addInput_spec gn v g5 _ _ Hgn5 Hv5). bind.
  pose proof (addInput_consistent gn v g5 _ _ Hgn5 Hv5 Hg5) as Hg6.
  set (g6 := mkGraph _ _ (block g5)) in *.
  assert (Hc6 : all_nodes g6 !! c
                = Some (mkNode onnx.Constant [] [co]
                          [(attr.value, TensorAttr (scalar_to_tensor (to_int i)))])).
  { unfold g6, g5, g4, g3. simpl. rewrite !lookup_insert_ne by done.
    apply lookup_insert_eq. }
  rewrite Hc6. bind. cbn [the_output outputs]. bind.
  assert (Hgn6 : all_nodes g6 !! gn = Some (mkNode onnx.Gather [v] [go] [])).
  { unfold g6. simpl. apply lookup_insert_eq. }
  assert (Hco6 : all_values g6 !! co = Some (mkValue TensorType_get c [])).
  { unfold g6, g5, g4, g3, g2, g1. simpl. rewrite !lookup_insert_ne by done.
    apply lookup_insert_eq. }
  rewrite (addInput_spec gn co g6 _ _ Hgn6 Hco6). bind.
  pose proof (addInput_consistent gn co g6 _ _ Hgn6 Hco6 Hg6) as Hg7.
  set (g7 := mkGraph _ _ (block g6)) in *.
  assert (Hgn7 : all_nodes g7 !! gn = Some (mkNode onnx.Gather [v; co] [go] [])).
  { unfold g7. simpl. apply lookup_insert_eq. }
  rewrite Hgn7. bind. cbn [the_output outputs]. bind.
  assert (Ho7 : all_values g7 !! o = Some oval).
  { unfold g7, g6, g5, g4, g3, g2, g1. simpl. by rewrite !lookup_insert_ne. }
  assert (Hgo7 : all_values g7 !! go = Some (mkValue TensorType_get gn [])).
  { unfold g7, g6, g5, g4. simpl. rewrite !lookup_insert_ne by done.
    apply lookup_insert_eq. }
  rewrite (Value_replaceAllUsesWith_spec g7 o go _ _ Ho7 Hgo7)
    by (done || by apply consistent_uses_agree).
  pose proof (Value_replaceAllUsesWith_consistent g7 o go _ _ Ho7 Hgo7
                ltac:(done) Hg7) as Hg8.
  set (g8 := mkGraph _ _ (block g7)) in *.
  exists g8, c, co, gn, go. split; [done|]. split; [done|].
  assert (Hsub : ∀ md, o ∉ inputs md →
                       subst_inputs (subst_value o go) md = md).
  { intros md. apply subst_inputs_not_read. }
  split.
  { unfold g8, g7. cbn [all_nodes]. rewrite lookup_fmap, lookup_insert_ne by done.
    rewrite Hc6. simpl. f_equal. }
  split.
  { unfold g8. cbn [all_nodes]. rewrite lookup_fmap, Hgn7. simpl. f_equal.
    apply Hsub. simpl. intros [->|[->|[]%elem_of_nil]%elem_of_cons]%elem_of_cons; done. }
  split.
  { intros m md Hm. assert (c ≠ m) by congruence. assert (gn ≠ m) by congruence.
    unfold g8, g7, g6, g5, g4, g3, g2, g1. simpl.
    by rewrite lookup_fmap, !lookup_insert_ne, Hm by done. }
  split.
  { unfold g8, g7. cbn [all_values]. rewrite !lookup_insert_ne by done.
    by rewrite lookup_insert_eq. }
  split.
  { unfold g8. cbn [all_values].
    by rewrite lookup_insert_ne, lookup_insert_eq by done. }
  split.
  { unfold g8. cbn [all_values]. by rewrite lookup_insert_eq. }
  split.
  { unfold g8, g7, g6. simpl. rewrite !lookup_insert_ne by done.
    by rewrite lookup_insert_eq. }
  split.
  { intros x xval Hx Hxo Hxv. assert (co ≠ x) by congruence.
    assert (go ≠ x) by congruence.
    unfold g8, g7, g6, g5, g4, g3, g2, g1. simpl.
    by rewrite !lookup_insert_ne by done. }
  split; [|done].
  unfold g8, g7, g6, g5, g4, g3, g2, g1. simpl.
  rewrite !block_nodes_link_before, flat_map_flat_map.
  apply flat_map_ext. intros x. destruct (decide (x = it)) as [->|Hx]; simpl.
  - rewrite decide_False, decide_True by done. done.
  - by rewrite decide_False by done.
Qed.

Lemma subst_values_notin ps x : x ∉ ps.*1 → subst_values ps x = x.
Proof.
  induction ps as [|[o n] ps IH]; [done|]. simpl. intros Hx.
  apply not_elem_of_cons in Hx as [Hne Hx].
  unfold subst_value at 1. rewrite decide_False by done. by apply IH.
Qed.

Lemma subst_inputs_compose σ1 σ2 md :
  subst_inputs σ2 (subst_inputs σ1 md) = subst_inputs (σ2 ∘ σ1) md.
Proof. unfold subst_inputs, set_inputs. simpl. by rewrite map_map. Qed.

Lemma subst_inputs_ext σ1 σ2 md :
  (∀ x, x ∈ inputs md → σ1 x = σ2 x) → subst_inputs σ1 md = subst_inputs σ2 md.
Proof.
  intros H. unfold subst_inputs. f_equal. apply list_fmap_ext.
  intros i x Hx. apply H. by eapply list_elem_of_lookup_2.
Qed.

Lemma flat_map_singleton {A} (l : list A) : flat_map (λ x, [x]) l = l.
Proof. induction l as [|x l IH]; [done|]. simpl. by rewrite IH. Qed.

Lemma to_int_small (i : nat) : (Z.of_nat i < 2 ^ 31)%Z → to_int i = Z.of_nat i.
Proof.
  intros Hi. unfold to_int, wrap_signed.
  change (32 - 1)%Z with 31%Z.
  rewrite Z.mod_small; lia.
Qed.

Lemma gather_loop_spec it nd v : ∀ os j g,
  consistent g →
  all_nodes g !! it = Some nd →
  inputs nd = [v] →
  v ∉ outputs nd →
  (∃ val pd, all_values g !! v = Some val ∧ type val = ListType IntType ∧
             all_nodes g !! node val = Some pd ∧ kind pd ≠ prim.ListConstruct) →
  drop j (outputs nd) = os →
  it ∈ block_nodes (block g) →
  ∃ g' rs,
    foldM (gather_output it) (seq j (length os)) g = Some g' ∧
    length rs = length os ∧
    (∀ i r o oval,
       rs !! i = Some r → os !! i = Some o → all_values g !! o = Some oval →
       all_nodes g !! index_node r = None ∧
       all_nodes g !! element_node r = None ∧
       all_values g !! index_value r = None ∧
       all_values g !! element_value r = None ∧
       all_nodes g' !! index_node r
       = Some (mkNode onnx.Constant [] [index_value r]
                 [(attr.value, TensorAttr (scalar_to_tensor (to_int (j + i))))]) ∧
       all_nodes g' !! element_node r
       = Some (mkNode onnx.Gather [v; index_value r] [element_value r] []) ∧
       all_values g' !! element_value r
       = Some (mkValue TensorType_get (element_node r) (uses oval)) ∧
       all_values g' !! o = Some (set_uses [] oval)) ∧
    (∀ m md, all_nodes g !! m = Some md →
       all_nodes g' !! m
       = Some (subst_inputs (subst_values (zip os (element_value <$> rs))) md)) ∧
    (∀ x xval, all_values g !! x = Some xval → x ∉ os → x ≠ v →
       all_values g' !! x = Some xval) ∧
    (∃ val' pd', all_values g' !! v = Some val' ∧ type val' = ListType IntType ∧
                 all_nodes g' !! node val' = Some pd' ∧
                 kind pd' ≠ prim.ListConstruct) ∧
    block_nodes (block g')
    = flat_map (λ x, if decide (x = it) then expansion_nodes rs ++ [x] else [x])
        (block_nodes (block g)) ∧
    consistent g'.
Proof.
  induction os as [|o os IH]; intros j g Hg Hit Hins Hv_out Hv Hdrop Hblock.
  - exists g, []. split; [done|]. split; [done|].
    split; [by intros i r o oval Hr; rewrite lookup_nil in Hr|].
    split.
    { intros m md Hm. rewrite Hm. f_equal. symmetry. by apply subst_inputs_id. }
    split; [done|]. split; [exact Hv|].
    split; [|done].
    rewrite <- (flat_map_singleton (block_nodes (block g))) at 1.
    apply flat_map_ext. intros x. by destruct (decide (x = it)).
  - destruct Hv as (val & pd & Hval & Ht & Hpd & Hk).
    assert (Hj : outputs nd !! j = Some o).
    { rewrite <- (Nat.add_0_r j), <- lookup_drop, Hdrop. done. }
    assert (Hdrop' : drop (S j) (outputs nd) = os).
    { rewrite <- (Nat.add_1_r j), <- drop_drop, Hdrop. done. }
    assert (Ho_in : o ∈ outputs nd) by (by eapply list_elem_of_lookup_2).
    assert (Hos_in : ∀ x, x ∈ os → x ∈ outputs nd).
    { intros x Hx. rewrite <- Hdrop' in Hx.
      eapply elem_of_sublist; [done|]. apply sublist_drop. }
    assert (Ho_os : o ∉ os).
    { pose proof (consistent_outputs_NoDup g Hg it nd Hit) as Hnd.
      rewrite <- (take_drop j (outputs nd)), Hdrop in Hnd.
      apply NoDup_app in Hnd as (_ & _ & Hnd). by apply NoDup_cons in Hnd as [? _]. }
    destruct (consistent_output g Hg it nd o Hit Ho_in) as (oval & Hoval & _).
    assert (Hvo : v ≠ o) by (by intros ->).
    destruct (gather_output_spec it j g nd v val pd o oval)
      as (g1 & c & co & gn & go & Hrun & (Hc & Hgn & Hcgn & Hco & Hgo & Hcogo)
          & Hc1 & Hgn1 & Hnodes1 & Hco1 & Hgo1 & Ho1 & Hv1 & Hvals1 & Hblock1 & Hg1);
      try done.
    assert (Hit1 : all_nodes g1 !! it = Some nd).
    { rewrite (Hnodes1 it nd Hit). f_equal. apply subst_inputs_not_read.
      rewrite Hins. by intros ->%list_elem_of_singleton. }
    destruct (IH (S j) g1) as (g' & rs & Hloop & Hlen & Hrs & Hnodes & Hvals & Hv' & Hblock' & Hg');
      try done.
    { exists (set_uses (uses val ++ [mkUse gn 0]) val), (subst_inputs (subst_value o go) pd).
      split; [done|]. split; [done|]. split; [|done]. simpl. by apply Hnodes1. }
    { rewrite Hblock1. apply list_elem_of_In, in_flat_map. exists it.
      split; [by apply list_elem_of_In|]. rewrite decide_True by done.
      right. right. by left. }
    assert (Hfresh_n : ∀ x, all_nodes g1 !! x = None → all_nodes g !! x = None).
    { intros x Hx. destruct (all_nodes g !! x) as [xd|] eqn:Hxd; [|done].
      by rewrite (Hnodes1 x xd Hxd) in Hx. }
    assert (Hfresh_v : ∀ x, all_values g1 !! x = None → all_values g !! x = None).
    { intros x Hx. destruct (all_values g !! x) as [xv|] eqn:Hxv; [|done].
      destruct (decide (x = o)) as [->|Hxo]; [congruence|].
      destruct (decide (x = v)) as [->|Hxv']; [congruence|].
      by rewrite (Hvals1 x xv Hxv Hxo Hxv') in Hx. }
    assert (Hold_os : ∀ x, x ∈ os → is_Some (all_values g !! x)).
    { intros x Hx. destruct (consistent_output g Hg it nd x Hit (Hos_in x Hx))
        as (? & ? & _). eauto. }
    assert (Hsig : ∀ x, x ∉ os → subst_values (zip os (element_value <$> rs)) x = x).
    { intros x Hx. apply subst_values_notin. intros Hin. apply Hx.
      rewrite fst_zip in Hin; [done|]. rewrite length_fmap. lia. }
    exists g', (mkExpansion c co gn go :: rs).
    split.
    { simpl. rewrite foldM_cons, Hrun. simpl. exact Hloop. }
    split; [simpl; by rewrite Hlen|].
    split.
    { intros [|i] r o' oval' Hr Ho' Hoval'; simpl in Hr, Ho'.
      - injection Hr as <-. injection Ho' as <-.
        assert (oval' = oval) as -> by congruence. simpl.
        rewrite Nat.add_0_r. split; [done|]. split; [done|]. split; [done|].
        split; [done|]. split.
        { rewrite (Hnodes c _ Hc1). f_equal. }
        split.
        { rewrite (Hnodes gn _ Hgn1). f_equal. unfold subst_inputs, set_inputs. simpl.
          rewrite !Hsig; [done|..].
          - intros Hin. destruct (Hold_os co Hin). congruence.
          - intros Hin. by apply Hv_out, Hos_in. }
        split.
        { apply (Hvals go _ Hgo1).
          - intros Hin. destruct (Hold_os go Hin). congruence.
          - congruence. }
        apply (Hvals o _ Ho1); [done|]. congruence.
      - assert (Ho'os : o' ∈ os) by (by eapply list_elem_of_lookup_2).
        assert (Hoval1 : all_values g1 !! o' = Some oval').
        { apply Hvals1; [done| |].
          - by intros ->.
          - intros ->. by apply Hv_out, Hos_in. }
        destruct (Hrs i r o' oval' Hr Ho' Hoval1)
          as (? & ? & ? & ? & Hci & ? & ? & ?).
        replace (j + S i) with (S j + i) by lia.
        repeat split; auto. }
    split.
    { intros m md Hm. rewrite (Hnodes m _ (Hnodes1 m md Hm)). f_equal.
      by rewrite subst_inputs_compose. }
    split.
    { intros x xval Hx Hxos Hxv. apply not_elem_of_cons in Hxos as [Hxo Hxos].
      apply Hvals; [|done..]. by apply Hvals1. }
    split; [done|]. split; [|done].
    rewrite Hblock', Hblock1, flat_map_flat_map.
    apply flat_map_ext. intros x. destruct (decide (x = it)) as [->|Hx]; simpl.
    + assert (c ≠ it) by congruence. assert (gn ≠ it) by congruence.
      rewrite !decide_False, decide_True by done. simpl.
      by rewrite app_nil_r.
    + by rewrite decide_False, app_nil_r by done.
Qed.

Lemma foldM_unchanged {A S} (f : A → S → option S) l s :
  (∀ x, x ∈ l → f x s = Some s) → foldM f l s = Some s.
Proof.
  induction l as [|x l IH]; intros H; [done|].
  rewrite foldM_cons, H by left. simpl. apply IH. intros y Hy. apply H. by right.
Qed.

Lemma subst_values_lookup os : ∀ news i o n,
  NoDup os → (∀ x, x ∈ news → x ∉ os) →
  os !! i = Some o → news !! i = Some n →
  subst_values (zip os news) o = n.
Proof.
  induction os as [|o0 os IH]; intros news i o n Hnd Hnew Ho Hn; [done|].
  apply NoDup_cons in Hnd as [Ho0 Hnd].
  destruct news as [|n0 news]; [done|]. simpl.
  destruct i as [|i]; simpl in *; simplify_eq.
  - unfold subst_value at 1. rewrite decide_True by done.
    apply subst_values_notin. intros Hin.
    assert (n ∈ os).
    { clear -Hin. revert news Hin. induction os as [|a os IH]; intros [|b news] Hin;
        simpl in *; try by apply elem_of_nil in Hin.
      apply elem_of_cons in Hin as [->|Hin]; [left|right; eauto]. }
    apply (Hnew n); [left|by right].
  - unfold subst_value at 1. rewrite decide_False.
    + eapply IH; try done. intros x Hx Hxo. apply (Hnew x); [by right|by right].
    + intros ->. apply Ho0. by eapply list_elem_of_lookup_2.
Qed.


(** ** The list-index expansion *)

(** ** The loops of the ListUnpack fusion *)

Lemma to_int64_small (i : nat) : (Z.of_nat i < 2 ^ 63)%Z → to_int64 i = Z.of_nat i.
Proof.
  intros Hi. unfold to_int64, wrap_signed.
  change (64 - 1)%Z with 63%Z.
  rewrite Z.mod_small; lia.
Qed.

Lemma copyMetadata_spec v from g val src :
  all_values g !! v = Some val → all_values g !! from = Some src →
  copyMetadata v from g
  = Some (set_all_values (<[v := set_type (type src) val]> (all_values g)) g).
Proof.
  intros Hv Hsrc. unfold copyMetadata. rewrite Hsrc. bind.
  by apply setType_spec.
Qed.

Lemma add_output_like_spec n u i g nd lu o oval :
  all_nodes g !! n = Some nd → n ≠ u →
  all_nodes g !! u = Some lu → outputs lu !! i = Some o →
  all_values g !! o = Some oval →
  add_output_like n u i g
  = Some (mkGraph
            (<[n := set_outputs (outputs nd ++ [fresh (dom (all_values g))]) nd]>
               (all_nodes g))
            (<[fresh (dom (all_values g)) := mkValue (type oval) n []]> (all_values g))
            (block g)).
Proof.
  intros Hn Hnu Hu Hi Ho. unfold add_output_like.
  rewrite (addOutput_spec n g nd Hn). bind.
  pose proof (fresh_value_None g) as Hv.
  set (v := fresh (dom (all_values g))) in *. clearbody v.
  assert (Hvo : v ≠ o) by congruence.
  cbn [all_nodes]. rewrite lookup_insert_ne by done. rewrite Hu. bind.
  unfold output_at. rewrite Hi. bind.
  rewrite (copyMetadata_spec v o _ (mkValue TensorType_get n []) oval).
  - unfold set_all_values. simpl. by rewrite insert_insert_eq.
  - cbn [all_values]. apply lookup_insert_eq.
  - cbn [all_values]. by rewrite lookup_insert_ne.
Qed.

(** The loop that adds the outputs. *)
Lemma add_outputs_loop n u lu : ∀ os j g nd,
  consistent g →
  n ≠ u →
  all_nodes g !! n = Some nd →
  all_nodes g !! u = Some lu →
  drop j (outputs lu) = os →
  ∃ g' news,
    foldM (add_output_like n u) (seq j (length os)) g = Some g' ∧
    length news = length os ∧
    NoDup news ∧
    (∀ x, x ∈ news → all_values g !! x = None) ∧
    all_nodes g' = <[n := set_outputs (outputs nd ++ news) nd]> (all_nodes g) ∧
    (∀ x xval, all_values g !! x = Some xval → all_values g' !! x = Some xval) ∧
    (∀ i new o oval,
       news !! i = Some new → os !! i = Some o → all_values g !! o = Some oval →
       all_values g' !! new = Some (mkValue (type oval) n [])) ∧
    block g' = block g ∧
    consistent g'.
Proof.
  induction os as [|o os IH]; intros j g nd Hg Hnu Hn Hu Hdrop.
  - exists g, []. split; [done|]. split; [done|]. split; [constructor|].
    split; [by intros x ?%elem_of_nil|]. split.
    { rewrite app_nil_r. destruct nd. simpl. by rewrite insert_id. }
    split; [done|]. split; [|done].
    intros i new o oval Hnew. by rewrite lookup_nil in Hnew.
  - assert (Hj : outputs lu !! j = Some o).
    { rewrite <- (Nat.add_0_r j), <- lookup_drop, Hdrop. done. }
    assert (Hdrop' : drop (S j) (outputs lu) = os).
    { rewrite <- (Nat.add_1_r j), <- drop_drop, Hdrop. done. }
    destruct (consistent_output g Hg u lu o Hu) as (oval & Hoval & _);
      [by eapply list_elem_of_lookup_2|].
    change (seq j (length (o :: os))) with (j :: seq (S j) (length os)).
    rewrite foldM_cons.
    rewrite (add_output_like_spec n u j g nd lu o oval) by done. bind.
    pose proof (fresh_value_None g) as Hv.
    set (v := fresh (dom (all_values g))) in *. clearbody v.
    pose proof (addOutput_consistent n g nd v (type oval) Hn Hv Hg) as Hg2.
    set (g2 := mkGraph _ _ (block g)) in *.
    assert (Hn2 : all_nodes g2 !! n = Some (set_outputs (outputs nd ++ [v]) nd)).
    { unfold g2. cbn [all_nodes]. apply lookup_insert_eq. }
    assert (Hu2 : all_nodes g2 !! u = Some lu).
    { unfold g2. cbn [all_nodes]. by rewrite lookup_insert_ne. }
    destruct (IH (S j) g2 _ Hg2 Hnu Hn2 Hu2 Hdrop')
      as (g' & news & Hloop & Hlen & Hnd & Hfresh & Hnodes & Hvals & Hnews
          & Hblock & Hg').
    assert (Hold : ∀ x xval, all_values g !! x = Some xval →
                             all_values g2 !! x = Some xval).
    { intros x xval Hx. assert (v ≠ x) by congruence.
      unfold g2. cbn [all_values]. by rewrite !lookup_insert_ne. }
    assert (Hv2 : all_values g2 !! v = Some (mkValue (type oval) n [])).
    { unfold g2. cbn [all_values]. apply lookup_insert_eq. }
    exists g', (v :: news). split; [exact Hloop|].
    split; [simpl; by rewrite Hlen|].
    split.
    { apply NoDup_cons. split; [|done]. intros Hin. apply Hfresh in Hin. congruence. }
    split.
    { intros x [->|Hx]%elem_of_cons; [done|].
      apply Hfresh in Hx. destruct (all_values g !! x) as [xv|] eqn:Hxv; [|done].
      by rewrite (Hold x xv Hxv) in Hx. }
    split.
    { rewrite Hnodes. unfold g2. cbn [all_nodes]. rewrite insert_insert_eq.
      f_equal. unfold set_outputs. simpl. f_equal. by rewrite <- app_assoc. }
    split; [by intros x xval Hx; apply Hvals, Hold|].
    split; [|done].
    intros [|i] new o' oval' Hnew Ho' Hoval'; simpl in Hnew, Ho'.
    + injection Hnew as <-. injection Ho' as <-.
      assert (oval' = oval) as -> by congruence. by apply Hvals.
    + eapply Hnews; [done..|]. by apply Hold.
Qed.

(** The loop that moves the uses, output by output. *)
Lemma replace_uses_loop : ∀ ps g,
  consistent g →
  NoDup ps.*1 → NoDup ps.*2 →
  (∀ x, x ∈ ps.*2 → x ∉ ps.*1) →
  (∀ x, x ∈ ps.*1 → is_Some (all_values g !! x)) →
  (∀ x, x ∈ ps.*2 → ∃ nval, all_values g !! x = Some nval ∧ uses nval = []) →
  ∃ g',
    foldM (λ p, Value_replaceAllUsesWith p.1 p.2) ps g = Some g' ∧
    all_nodes g' = subst_inputs (subst_values ps) <$> all_nodes g ∧
    (∀ x, x ∉ ps.*1 → x ∉ ps.*2 → all_values g' !! x = all_values g !! x) ∧
    (∀ o new oval nval,
       (o, new) ∈ ps →
       all_values g !! o = Some oval → all_values g !! new = Some nval →
       all_values g' !! o = Some (set_uses [] oval) ∧
       all_values g' !! new = Some (set_uses (uses oval) nval)) ∧
    block g' = block g ∧
    consistent g'.
Proof.
  induction ps as [|[o new] ps IH]; intros g Hg Hnd1 Hnd2 Hdisj Hold Hnew.
  - exists g. split; [done|]. split.
    { apply map_eq. intros m. rewrite lookup_fmap.
      destruct (all_nodes g !! m) as [md|]; simpl; [|done].
      f_equal. symmetry. by apply subst_inputs_id. }
    split; [done|]. split; [|done].
    by intros o new oval nval ?%elem_of_nil.
  - simpl in *. apply NoDup_cons in Hnd1 as [Ho Hnd1].
    apply NoDup_cons in Hnd2 as [Hn Hnd2].
    destruct (Hold o) as [oval Hoval]; [left|].
    destruct (Hnew new) as (nval & Hnval & Hnuses); [left|].
    assert (Hon : o ≠ new).
    { intros ->. apply (Hdisj new); left. }
    rewrite foldM_cons. cbn [fst snd].
    rewrite (Value_replaceAllUsesWith_spec g o new oval nval)
      by (done || by apply consistent_uses_agree).
    bind.
    pose proof (Value_replaceAllUsesWith_consistent g o new _ _ Hoval Hnval Hon Hg)
      as Hg1.
    set (g1 := mkGraph _ _ (block g)) in *.
    assert (Hframe : ∀ x, x ≠ o → x ≠ new → all_values g1 !! x = all_values g !! x).
    { intros x Hxo Hxn. unfold g1. cbn [all_values].
      by rewrite !lookup_insert_ne by done. }
    assert (Hps1 : ∀ x, x ∈ ps.*1 → x ≠ o ∧ x ≠ new).
    { intros x Hx. split; [by intros ->|]. intros ->.
      apply (Hdisj new); [left|by right]. }
    assert (Hps2 : ∀ x, x ∈ ps.*2 → x ≠ o ∧ x ≠ new).
    { intros x Hx. split; [|by intros ->]. intros ->.
      apply (Hdisj o); [by right|left]. }
    destruct (IH g1 Hg1 Hnd1 Hnd2)
      as (g' & Hloop & Hnodes & Hvals & Hpairs & Hblock & Hg').
    { intros x Hx Hx'. apply (Hdisj x); by right. }
    { intros x Hx. destruct (Hps1 x Hx). rewrite Hframe by done.
      apply Hold. by right. }
    { intros x Hx. destruct (Hps2 x Hx). rewrite Hframe by done.
      apply Hnew. by right. }
    exists g'. split; [exact Hloop|]. split.
    { rewrite Hnodes. unfold g1. cbn [all_nodes]. rewrite <- map_fmap_compose.
      apply map_fmap_ext. intros m md _. simpl. by rewrite subst_inputs_compose. }
    split.
    { intros x [Hxo Hx1]%not_elem_of_cons [Hxn Hx2]%not_elem_of_cons.
      rewrite Hvals by done. by apply Hframe. }
    split; [|done].
    intros o' new' oval' nval' [Heq|Hin]%elem_of_cons Ho' Hn'.
    + injection Heq as -> ->. simplify_eq. split.
      * rewrite Hvals; [|done|].
        -- unfold g1. cbn [all_values]. apply lookup_insert_eq.
        -- intros Hin. apply (Hdisj o); [by right|left].
      * rewrite Hvals; [|intros Hin; apply (Hdisj new); [left|by right]|done].
        unfold g1. cbn [all_values].
        rewrite lookup_insert_ne, lookup_insert_eq by done.
        by rewrite Hnuses.
    + assert (Ho1 : o' ∈ ps.*1) by (apply list_elem_of_fmap; by exists (o', new')).
      assert (Hn1 : new' ∈ ps.*2) by (apply list_elem_of_fmap; by exists (o', new')).
      destruct (Hps1 o' Ho1), (Hps2 new' Hn1).
      apply Hpairs; [done|by rewrite Hframe..].
Qed.

Lemma ListUnpack_not_fusible_kind : prim.ListUnpack ∉ fusible_kinds.
Proof. apply (bool_decide_unpack _). vm_compute. exact I. Qed.

Lemma without_edges_id n ins v val :
  (∀ u, u ∈ uses val → ¬ reads n ins v u) → without_edges n ins v val = val.
Proof.
  intros H. unfold without_edges. rewrite filter_all; [apply set_uses_id|].
  by rewrite Forall_forall.
Qed.

(** ** The ListUnpack fusion *)

(** C5: when a trigger node N, whose one output has the ListUnpack node U
    (with k outputs) as its only user, is fused: N gets the integer
    attribute [_outputs = k]; its outputs become k new values whose types are
    those of the outputs of U, position by position; the original output of N
    is erased; U has no input left; every input slot that read the i-th
    output of U reads the i-th new output of N, which takes over the use
    list, so that no output of U has a use; U is still in the graph and in
    its block. *)
Theorem C5_fuse_with_list_unpack n g nd out val u off lu :
  wf g →
  all_nodes g !! n = Some nd →
  kind nd ∈ fusible_kinds →
  outputs nd = [out] →
  all_values g !! out = Some val →
  uses val = [mkUse u off] →
  all_nodes g !! u = Some lu →
  kind lu = prim.ListUnpack →
  (Z.of_nat (length (outputs lu)) ≤ INT_MAX)%Z →
  ∃ g' news,
    FuseWithListUnpack n g = Some g' ∧
    length news = length (outputs lu) ∧
    NoDup news ∧
    (∀ x, x ∈ news → all_values g !! x = None) ∧
    all_nodes g' !! n
    = Some (subst_inputs (subst_values (zip (outputs lu) news))
              (mkNode (kind nd) (inputs nd) news
                 (set_attr attr._outputs
                    (IntAttr (Z.of_nat (length (outputs lu)))) (attributes nd)))) ∧
    (∀ i o new oval,
       outputs lu !! i = Some o → news !! i = Some new →
       all_values g !! o = Some oval →
       all_values g' !! new = Some (mkValue (type oval) n (uses oval)) ∧
       all_values g' !! o = Some (set_uses [] oval) ∧
       subst_values (zip (outputs lu) news) o = new) ∧
    (∀ m md, m ≠ n → m ≠ u → all_nodes g !! m = Some md →
       all_nodes g' !! m
       = Some (subst_inputs (subst_values (zip (outputs lu) news)) md)) ∧
    all_nodes g' !! u = Some (set_inputs [] lu) ∧
    (∀ v val' i, all_values g' !! v = Some val' → mkUse u i ∉ uses val') ∧
    all_values g' !! out = None ∧
    block g' = block g ∧
    consistent g'.
Proof.
  intros Hwf Hn Hkind Houts Hval Huses Hu Hk Hlen.
  pose proof (wf_consistent g Hwf) as Hg.
  assert (Hnu : n ≠ u).
  { intros ->. simplify_eq. rewrite Hk in Hkind.
    by apply ListUnpack_not_fusible_kind. }
  assert (Hout_lu : out ∉ outputs lu).
  { intros Hin. destruct (consistent_output g Hg u lu out Hu Hin) as (? & ? & ?).
    destruct (consistent_output g Hg n nd out Hn) as (? & ? & ?);
      [rewrite Houts; left|]. congruence. }
  assert (Hoff : inputs lu !! off = Some out).
  { destruct (consistent_use g Hg out val (mkUse u off) Hval) as (ud & Hud & Hs);
      [rewrite Huses; left|]. simpl in *. by simplify_eq. }
  assert (Hself : ∀ x, x ∈ outputs lu → x ∉ inputs lu).
  { intros x Hx Hx'. by apply (wf_no_self_use g u lu x Hwf Hu). }
  unfold FuseWithListUnpack.
  rewrite (proj2 (FindFusibleListUnpack_fusible n g nd u Hn)).
  2:{ exists out, val, off, lu. done. }
  bind. rewrite Hn. bind. rewrite decide_True by (by rewrite Houts).
  rewrite Hu. bind.
  (* i_ *)
  unfold i_. rewrite (setAttr_spec n _ _ g nd Hn). bind.
  rewrite to_int64_small by (unfold INT_MAX in Hlen; lia).
  set (k := length (outputs lu)) in *.
  set (nd1 := set_attributes (set_attr attr._outputs (IntAttr (Z.of_nat k))
                                (attributes nd)) nd).
  pose proof (consistent_set_node g n nd nd1 Hn eq_refl eq_refl Hg) as Hg1.
  set (g1 := set_all_nodes _ g) in *.
  rewrite decide_False by done. rewrite decide_True by done.
  (* the new outputs *)
  assert (Hn1 : all_nodes g1 !! n = Some nd1).
  { unfold g1. cbn [all_nodes set_all_nodes]. apply lookup_insert_eq. }
  assert (Hu1 : all_nodes g1 !! u = Some lu).
  { unfold g1. cbn [all_nodes set_all_nodes]. by rewrite lookup_insert_ne. }
  destruct (add_outputs_loop n u lu (outputs lu) 0 g1 nd1 Hg1 Hnu Hn1 Hu1 eq_refl)
    as (gA & news & HloopA & Hlen_news & Hnd_news & Hfresh & HnodesA & HvalsA
        & HnewsA & HblockA & HgA).
  fold k in HloopA. rewrite HloopA. bind.
  change (all_values g1) with (all_values g) in *.
  assert (HuA : all_nodes gA !! u = Some lu).
  { rewrite HnodesA. by rewrite lookup_insert_ne. }
  set (ndA := set_outputs (outputs nd1 ++ news) nd1) in *.
  assert (HnA : all_nodes gA !! n = Some ndA).
  { rewrite HnodesA. apply lookup_insert_eq. }
  (* removeAllInputs *)
  destruct (removeAllInputs_consistent gA u lu HuA HgA) as [Hrm HgB].
  rewrite Hrm. bind.
  set (gB := mkGraph _ _ (block gA)) in *.
  assert (HnB : all_nodes gB !! n = Some ndA).
  { unfold gB. cbn [all_nodes]. by rewrite lookup_insert_ne. }
  assert (HoutB : all_values gB !! out = Some (set_uses [] val)).
  { unfold gB. cbn [all_values]. rewrite lookup_without_edges, (HvalsA out val Hval).
    simpl. unfold without_edges. f_equal. f_equal. rewrite Huses.
    rewrite filter_cons_False; [done|]. intros Hno. apply Hno. by split. }
  (* eraseOutput *)
  assert (Houts_A : outputs ndA = out :: news).
  { unfold ndA, nd1. simpl. by rewrite Houts. }
  rewrite (eraseOutput_spec n 0 gB ndA out (set_uses [] val) HnB)
    by (by rewrite ?Houts_A).
  bind.
  pose proof (eraseOutput_consistent n 0 gB ndA out (set_uses [] val) HnB) as HgC.
  rewrite Houts_A in HgC. specialize (HgC eq_refl HoutB eq_refl HgB).
  rewrite Houts_A. cbn [delete list_delete] in *.
  set (ndC := set_outputs news ndA) in *.
  set (gC := mkGraph _ _ (block gB)) in *.
  assert (HuC : all_nodes gC !! u = Some (set_inputs [] lu)).
  { unfold gC, gB. cbn [all_nodes]. rewrite lookup_insert_ne by done.
    apply lookup_insert_eq. }
  assert (HnC : all_nodes gC !! n = Some ndC).
  { unfold gC. cbn [all_nodes]. apply lookup_insert_eq. }
  assert (HvalsC : ∀ x xval, all_values g !! x = Some xval → x ≠ out →
                   all_values gC !! x = Some (without_edges u (inputs lu) x xval)).
  { intros x xval Hx Hxo. unfold gC, gB. cbn [all_values].
    rewrite lookup_delete_ne by done.
    by rewrite lookup_without_edges, (HvalsA x xval Hx). }
  assert (Hos_C : ∀ o oval, o ∈ outputs lu → all_values g !! o = Some oval →
                            all_values gC !! o = Some oval).
  { intros o oval Ho Hoval. rewrite (HvalsC o oval Hoval) by (by intros ->).
    f_equal. apply without_edges_id. intros use _ [_ Hr].
    apply (Hself o Ho). by eapply list_elem_of_lookup_2. }
  assert (Hnews_C : ∀ i new o oval, news !! i = Some new →
                      outputs lu !! i = Some o → all_values g !! o = Some oval →
                      all_values gC !! new = Some (mkValue (type oval) n [])).
  { intros i new o oval Hnew Ho Hoval.
    assert (new ≠ out).
    { intros ->. apply list_elem_of_lookup_2, Hfresh in Hnew. congruence. }
    unfold gC, gB. cbn [all_values]. rewrite lookup_delete_ne by done.
    by rewrite lookup_without_edges, (HnewsA i new o oval Hnew Ho Hoval). }
  (* replaceAllUsesWith *)
  unfold Node_replaceAllUsesWith. rewrite HuC. bind. rewrite HnC. bind.
  cbn [outputs set_inputs]. change (outputs ndC) with news.
  rewrite decide_True by (by rewrite Hlen_news).
  assert (Hfst : (zip (outputs lu) news).*1 = outputs lu).
  { apply fst_zip. lia. }
  assert (Hsnd : (zip (outputs lu) news).*2 = news).
  { apply snd_zip. lia. }
  assert (Hos_g : ∀ x, x ∈ outputs lu → is_Some (all_values g !! x)).
  { intros x Hx. destruct (consistent_output g Hg u lu x Hu Hx) as (? & ? & _). eauto. }
  destruct (replace_uses_loop (zip (outputs lu) news) gC HgC)
    as (g' & Hloop & Hnodes & Hvals & Hpairs & Hblock & Hg').
  { rewrite Hfst. exact (consistent_outputs_NoDup g Hg u lu Hu). }
  { by rewrite Hsnd. }
  { rewrite Hfst, Hsnd. intros x Hx Hx'. apply Hfresh in Hx.
    destruct (Hos_g x Hx'). congruence. }
  { rewrite Hfst. intros x Hx. destruct (Hos_g x Hx) as [xv Hxv].
    rewrite (Hos_C x xv Hx Hxv). eauto. }
  { rewrite Hsnd. intros x Hx. apply list_elem_of_lookup in Hx as [i Hi].
    destruct (lookup_lt_is_Some_2 (outputs lu) i) as [o Ho].
    { rewrite <- Hlen_news. by eapply lookup_lt_Some. }
    destruct (Hos_g o) as [oval Hoval]; [by eapply list_elem_of_lookup_2|].
    rewrite (Hnews_C i x o oval Hi Ho Hoval). eauto. }
  exists g', news. split; [exact Hloop|]. split; [done|]. split; [done|].
  split; [done|]. split.
  { rewrite Hnodes, lookup_fmap, HnC. done. }
  split.
  { intros i o new oval Ho Hnew Hoval.
    assert (Hin : (o, new) ∈ zip (outputs lu) news).
    { apply list_elem_of_lookup. exists i. by rewrite lookup_zip_with, Ho, Hnew. }
    destruct (Hpairs o new oval (mkValue (type oval) n []) Hin) as [Ho' Hnew'].
    { apply Hos_C; [by eapply list_elem_of_lookup_2|done]. }
    { by eapply Hnews_C. }
    split; [exact Hnew'|]. split; [exact Ho'|].
    apply (subst_values_lookup _ _ i); try done.
    - exact (consistent_outputs_NoDup g Hg u lu Hu).
    - intros x Hx Hx'. apply Hfresh in Hx. destruct (Hos_g x Hx'). congruence. }
  split.
  { intros m md Hmn Hmu Hm. rewrite Hnodes, lookup_fmap.
    unfold gC, gB. cbn [all_nodes]. rewrite !lookup_insert_ne by done.
    rewrite HnodesA, lookup_insert_ne by done.
    unfold g1. cbn [all_nodes set_all_nodes]. by rewrite lookup_insert_ne, Hm. }
  split.
  { rewrite Hnodes, lookup_fmap, HuC. done. }
  assert (Hu' : all_nodes g' !! u = Some (set_inputs [] lu)).
  { rewrite Hnodes, lookup_fmap, HuC. done. }
  split.
  { intros v val' i Hv Hin.
    destruct (consistent_use g' Hg' v val' _ Hv Hin) as (ud & Hud & Hs).
    simpl in *. by simplify_eq. }
  split.
  { rewrite Hvals.
    - unfold gC. cbn [all_values]. apply lookup_delete_eq.
    - by rewrite Hfst.
    - rewrite Hsnd. intros Hin. apply Hfresh in Hin. congruence. }
  split; [|done].
  rewrite Hblock. unfold gC, gB. cbn [block]. rewrite HblockA. done.
Qed.

Lemma C5_fuse_with_list_unpack_witness :
  ∃ g' (news : list nat),
    FuseWithListUnpack 4 Examples.split_graph = Some g' ∧
    length news = 3 ∧
    all_nodes g' !! 5 = Some (mkNode prim.ListUnpack [] [4; 5; 6] []) ∧
    consistent g'.
Proof.
  destruct (C5_fuse_with_list_unpack 4 Examples.split_graph
              (mkNode aten.split_with_sizes [0; 1; 2] [3] []) 3
              (mkValue (ListType (TensorType None None)) 4 [mkUse 5 0]) 5 0
              (mkNode prim.ListUnpack [3] [4; 5; 6] []))
    as (g' & news & Hrun & Hlen & _ & _ & _ & _ & _ & Hu & _ & _ & _ & Hg');
    try reflexivity.
  - apply (bool_decide_unpack _). vm_compute. exact I.
  - apply (bool_decide_unpack _). vm_compute. exact I.
  - vm_compute. discriminate.
  - exists g', news. split; [exact Hrun|]. split; [exact Hlen|].
    split; [exact Hu|exact Hg'].
Defined.

(** ** Running the passes again *)

(** A traversal whose loop body leaves the graph as it is at every node of
    the block returns the graph as it is. *)
Lemma traversal_unchanged (step : NodeId → Graph → option Graph)
    (pass : Block → Graph → option Graph) (g : Graph) :
  (∀ p r ns,
     pass (mkBlock p r ns) g
     = foldM (λ e g, g' ← foldM pass e.2 g; step e.1 g') ns g) →
  ∀ b, (∀ n, n ∈ block_nodes b → step n g = Some g) → pass b g = Some g.
Proof.
  intros Hpass b. induction b as [p r ns IH] using Block_nested_ind.
  intros Hq. rewrite Hpass. apply foldM_unchanged. intros [n bs] Hin.
  assert (Hsub : ∀ x, x ∈ n :: flat_map block_nodes bs →
                      x ∈ block_nodes (mkBlock p r ns)).
  { intros x Hx. simpl. apply list_elem_of_In, in_flat_map. exists (n, bs).
    split; [by apply list_elem_of_In|]. by apply list_elem_of_In. }
  simpl. rewrite (foldM_unchanged pass bs g).
  - simpl. apply Hq, Hsub. left.
  - intros b Hb. rewrite Forall_forall in IH.
    specialize (IH _ Hin). simpl in IH. rewrite Forall_forall in IH.
    apply (IH b Hb). intros x Hx. apply Hq, Hsub. right.
    apply list_elem_of_In, in_flat_map. exists b.
    split; by apply list_elem_of_In.
Qed.

(** C1, as stated, fails: on the well-formed graph
    [%2 : int[] = aten::size(%x.1)], [%a.1, %b.1 = prim::ListUnpack(%2)]
    a second run does not return the result of the first run; it adds two
    more Constant and two more Gather nodes. *)
Lemma C1_second_run_expands_again :
  ¬ (∀ g g1, wf g → PreprocessForONNX g = Some g1 →
             PreprocessForONNX g1 = Some g1).
Proof.
  intros H.
  assert (Hwf : wf (Examples.unpack_graph "aten::size"%string)).
  { apply (bool_decide_unpack _). vm_compute. exact I. }
  destruct (PreprocessForONNX (Examples.unpack_graph "aten::size"%string))
    as [g1|] eqn:Hrun; [|vm_compute in Hrun; discriminate].
  specialize (H _ g1 Hwf Hrun).
  vm_compute in Hrun. injection Hrun as <-.
  apply (f_equal (fmap (λ g, length (block_nodes (block g))))) in H.
  vm_compute in H. discriminate.
Qed.

(** * Further properties of the passes *)

(** ** Graphs without a node of a trigger kind *)

Lemma FuseWithListUnpack_at_other_kind n g nd :
  all_nodes g !! n = Some nd → kind nd ∉ fusible_kinds →
  FuseWithListUnpack_at n g = Some g.
Proof.
  intros Hn Hk. unfold FuseWithListUnpack_at. rewrite Hn. simpl.
  by rewrite decide_False.
Qed.

Lemma ReplaceAddWithConcat_at_other_kind n g nd :
  all_nodes g !! n = Some nd → kind nd ≠ aten.add →
  ReplaceAddWithConcat_at n g = Some g.
Proof.
  intros Hn Hk. unfold ReplaceAddWithConcat_at. rewrite Hn. simpl.
  by rewrite decide_False.
Qed.

Lemma ReplaceIndexPutWithMaskedScatter_at_other_kind n g nd :
  all_nodes g !! n = Some nd → kind nd ≠ aten.index_put_ →
  ReplaceIndexPutWithMaskedScatter_at n g = Some g.
Proof.
  intros Hn Hk. unfold ReplaceIndexPutWithMaskedScatter_at, index_put_body.
  rewrite Hn. simpl. by rewrite decide_False.
Qed.

Lemma fuseListAndListUnpack_at_other_kind n g nd :
  all_nodes g !! n = Some nd → kind nd ≠ prim.ListUnpack →
  fuseListAndListUnpack_at n g = Some g.
Proof.
  intros Hn Hk. unfold fuseListAndListUnpack_at. rewrite Hn. simpl.
  by rewrite decide_False.
Qed.

Lemma without_kinds_elem ks g n :
  (∀ n, n ∈ block_nodes (block g) → is_Some (all_nodes g !! n)) →
  without_kinds ks g → n ∈ block_nodes (block g) →
  ∃ nd, all_nodes g !! n = Some nd ∧ ∀ k, k ∈ ks → kind nd ≠ k.
Proof.
  intros Hstore Hks Hn. destruct (Hstore n Hn) as [nd Hnd].
  exists nd. split; [done|]. intros k Hk Heq. apply (Hks n nd Hn Hnd).
  by rewrite Heq.
Qed.

(** X1: each of the four passes returns unchanged a graph that has no node,
    nested blocks included, of the kinds it looks for: the seven kinds of
    the ListUnpack fusion, [aten::add], [aten::index_put_],
    [prim::ListUnpack]; and [PreprocessForONNX] returns unchanged a graph
    that has none of all these. *)
Theorem passes_without_trigger_kinds g :
  (∀ n, n ∈ block_nodes (block g) → is_Some (all_nodes g !! n)) →
  (without_kinds fusible_kinds g →
   FuseWithListUnpack_Block (block g) g = Some g) ∧
  (without_kinds [aten.add] g → ReplaceAddWithConcat (block g) g = Some g) ∧
  (without_kinds [aten.index_put_] g →
   ReplaceIndexPutWithMaskedScatter (block g) g = Some g) ∧
  (without_kinds [prim.ListUnpack] g →
   fuseListAndListUnpack (block g) g = Some g) ∧
  (without_kinds
     (fusible_kinds ++ [aten.add; aten.index_put_; prim.ListUnpack]) g →
   PreprocessForONNX g = Some g).
Proof.
  intros Hstore.
  assert (H1 : without_kinds fusible_kinds g →
               FuseWithListUnpack_Block (block g) g = Some g).
  { intros Hks.
    apply (traversal_unchanged FuseWithListUnpack_at FuseWithListUnpack_Block);
      [done|].
    intros n Hn. destruct (Hstore n Hn) as [nd Hnd].
    apply (FuseWithListUnpack_at_other_kind n g nd Hnd). by apply (Hks n). }
  assert (H2 : without_kinds [aten.add] g →
               ReplaceAddWithConcat (block g) g = Some g).
  { intros Hks.
    apply (traversal_unchanged ReplaceAddWithConcat_at ReplaceAddWithConcat);
      [done|].
    intros n (nd & Hnd & Hk)%(without_kinds_elem [aten.add]); [|done|done].
    apply (ReplaceAddWithConcat_at_other_kind n g nd Hnd). apply Hk. left. }
  assert (H3 : without_kinds [aten.index_put_] g →
               ReplaceIndexPutWithMaskedScatter (block g) g = Some g).
  { intros Hks.
    apply (traversal_unchanged ReplaceIndexPutWithMaskedScatter_at
             ReplaceIndexPutWithMaskedScatter); [done|].
    intros n (nd & Hnd & Hk)%(without_kinds_elem [aten.index_put_]);
      [|done|done].
    apply (ReplaceIndexPutWithMaskedScatter_at_other_kind n g nd Hnd).
    apply Hk. left. }
  assert (H4 : without_kinds [prim.ListUnpack] g →
               fuseListAndListUnpack (block g) g = Some g).
  { intros Hks.
    apply (traversal_unchanged fuseListAndListUnpack_at fuseListAndListUnpack);
      [done|].
    intros n (nd & Hnd & Hk)%(without_kinds_elem [prim.ListUnpack]);
      [|done|done].
    apply (fuseListAndListUnpack_at_other_kind n g nd Hnd). apply Hk. left. }
  split; [done|]. split; [done|]. split; [done|]. split; [done|].
  intros Hks. unfold PreprocessForONNX.
  rewrite H1; [simpl|].
  2:{ intros n nd Hn Hnd Hk. apply (Hks n nd Hn Hnd).
      apply elem_of_app. by left. }
  rewrite H2; [simpl|].
  2:{ intros n nd Hn Hnd Hk. apply (Hks n nd Hn Hnd).
      apply elem_of_app. right. apply list_elem_of_singleton in Hk as ->.
      left. }
  rewrite H3; [simpl|].
  2:{ intros n nd Hn Hnd Hk. apply (Hks n nd Hn Hnd).
      apply elem_of_app. right. apply list_elem_of_singleton in Hk as ->.
      right. left. }
  apply H4. intros n nd Hn Hnd Hk. apply (Hks n nd Hn Hnd).
  apply elem_of_app. right. apply list_elem_of_singleton in Hk as ->.
  right. right. left.
Qed.

Lemma without_kinds_computed ks g :
  Forall (λ n, ∀ nd, all_nodes g !! n = Some nd → kind nd ∉ ks)
    (block_nodes (block g)) →
  without_kinds ks g.
Proof. intros H n nd Hn. rewrite Forall_forall in H. by apply H. Qed.

Lemma passes_without_trigger_kinds_witness :
  ReplaceAddWithConcat (block (Examples.nested_graph prim.ListUnpack))
    (Examples.nested_graph prim.ListUnpack)
  = Some (Examples.nested_graph prim.ListUnpack) ∧
  PreprocessForONNX (Examples.nested_graph "prim::TupleUnpack"%string)
  = Some (Examples.nested_graph "prim::TupleUnpack"%string).
Proof.
  split.
  - apply (passes_without_trigger_kinds (Examples.nested_graph prim.ListUnpack)).
    + apply (Forall_forall (λ n, is_Some (_ !! n))).
      apply (bool_decide_unpack _). vm_compute. exact I.
    + apply without_kinds_computed.
      repeat (apply List.Forall_cons;
              [intros nd Hnd; vm_compute in Hnd; injection Hnd as <-;
               apply (bool_decide_unpack _); vm_compute; exact I|]).
      apply List.Forall_nil.
  - apply (passes_without_trigger_kinds
             (Examples.nested_graph "prim::TupleUnpack"%string)).
    + apply (Forall_forall (λ n, is_Some (_ !! n))).
      apply (bool_decide_unpack _). vm_compute. exact I.
    + apply without_kinds_computed.
      repeat (apply List.Forall_cons;
              [intros nd Hnd; vm_compute in Hnd; injection Hnd as <-;
               apply (bool_decide_unpack _); vm_compute; exact I|]).
      apply List.Forall_nil.
Defined.

(** ** Inputs the passes read without a check *)

(** X2: [ReplaceAddWithConcat] reads [it->input(0)] of every [aten::add] node,
    and [it->input(1)] when input 0 is a list: an add node without inputs
    stops the pass, an add node with one input stops it when that input is a
    list and is skipped when it is not. *)
Theorem ReplaceAddWithConcat_missing_input it g nd :
  all_nodes g !! it = Some nd →
  kind nd = aten.add →
  (inputs nd = [] → ReplaceAddWithConcat_at it g = None) ∧
  (∀ in0 val0,
     inputs nd = [in0] → all_values g !! in0 = Some val0 →
     ReplaceAddWithConcat_at it g
     = match cast_ListType (type val0) with
       | Some _ => None
       | None => Some g
       end).
Proof.
  intros Hit Hkind. unfold ReplaceAddWithConcat_at, input. rewrite Hit. simpl.
  rewrite decide_True by done. split.
  - by intros ->.
  - intros in0 val0 -> Hval. simpl. rewrite Hval. simpl.
    by destruct (cast_ListType (type val0)).
Qed.

Lemma ReplaceAddWithConcat_missing_input_witness :
  ReplaceAddWithConcat_at 2
    (mkGraph (list_to_map [(2, mkNode aten.add [] [0] [])]) ∅
       (mkBlock 0 1 [(2, [])]))
  = None ∧
  ReplaceAddWithConcat_at 2
    (mkGraph (list_to_map [(2, mkNode aten.add [1] [0] [])])
       (list_to_map [(1, mkValue (ListType IntType) 0 [mkUse 2 0])])
       (mkBlock 0 1 [(2, [])]))
  = None.
Proof.
  split.
  - refine (proj1 (ReplaceAddWithConcat_missing_input 2 _
                     (mkNode aten.add [] [0] []) _ _) _); reflexivity.
  - refine (proj2 (ReplaceAddWithConcat_missing_input 2 _
                     (mkNode aten.add [1] [0] []) _ _) 1
              (mkValue (ListType IntType) 0 [mkUse 2 0]) _ _); reflexivity.
Defined.

(** X3: [ReplaceIndexPutWithMaskedScatter] reads [it->input(1)] of every
    [aten::index_put_] node, and [it->input(2)] once the mask is a [Bool]
    tensor: a node with fewer than two inputs stops the pass, and so does a
    node with two inputs whose mask is a [Bool] tensor. *)
Theorem ReplaceIndexPutWithMaskedScatter_missing_input it g nd :
  all_nodes g !! it = Some nd →
  kind nd = aten.index_put_ →
  (length (inputs nd) < 2 → ReplaceIndexPutWithMaskedScatter_at it g = None) ∧
  (∀ in1 val1 lc mask mval rk,
     length (inputs nd) = 2 →
     input 1 nd = Some in1 →
     all_values g !! in1 = Some val1 →
     all_nodes g !! node val1 = Some lc →
     input 0 lc = Some mask →
     all_values g !! mask = Some mval →
     type mval = TensorType (Some Bool) rk →
     ReplaceIndexPutWithMaskedScatter_at it g = None).
Proof.
  intros Hit Hkind.
  unfold ReplaceIndexPutWithMaskedScatter_at, index_put_body.
  rewrite Hit. simpl. rewrite decide_True by done. split.
  - intros Hlen. unfold input.
    assert (inputs nd !! 1 = None) as -> by (apply lookup_ge_None_2; lia).
    done.
  - intros in1 val1 lc mask mval rk Hlen Hin1 Hval1 Hlc Hmask Hmval Ht.
    rewrite Hin1. simpl. rewrite Hval1. simpl. rewrite Hlc. simpl.
    rewrite Hmask. simpl. rewrite Hmval. simpl. rewrite Ht. simpl.
    rewrite (inputs_size_guard_after_input lc mask Hmask).
    unfold input.
    assert (inputs nd !! 2 = None) as -> by (apply lookup_ge_None_2; lia).
    done.
Qed.

Lemma ReplaceIndexPutWithMaskedScatter_missing_input_witness :
  ReplaceIndexPutWithMaskedScatter_at 2
    (mkGraph (list_to_map [(2, mkNode aten.index_put_ [0] [1] [])])
       (list_to_map [(0, mkValue Examples.Float3 0 [mkUse 2 0])])
       (mkBlock 0 1 [(2, [])]))
  = None ∧
  ReplaceIndexPutWithMaskedScatter_at 3
    (mkGraph
       (list_to_map [(2, mkNode prim.ListConstruct [1] [2] []);
                     (3, mkNode aten.index_put_ [0; 2] [3] [])])
       (list_to_map
          [(0, mkValue Examples.Float3 0 [mkUse 3 0]);
           (1, mkValue (TensorType (Some Bool) (Some 3)) 0 [mkUse 2 0]);
           (2, mkValue (ListType (OptionalType (TensorType None None))) 2
                 [mkUse 3 1])])
       (mkBlock 0 1 [(2, []); (3, [])]))
  = None.
Proof.
  split.
  - refine (proj1 (ReplaceIndexPutWithMaskedScatter_missing_input 2 _
                     (mkNode aten.index_put_ [0] [1] []) _ _) _);
      [reflexivity|reflexivity|simpl; lia].
  - refine (proj2 (ReplaceIndexPutWithMaskedScatter_missing_input 3 _
                     (mkNode aten.index_put_ [0; 2] [3] []) _ _) 2
              (mkValue (ListType (OptionalType (TensorType None None))) 2
                 [mkUse 3 1])
              (mkNode prim.ListConstruct [1] [2] []) 1
              (mkValue (TensorType (Some Bool) (Some 3)) 0 [mkUse 2 0])
              (Some 3) _ _ _ _ _ _ _); reflexivity.
Defined.

(** ** ListUnpack nodes the list-index expansion leaves alone *)

Lemma fuseListAndListUnpack_at_skip it g nd :
  all_nodes g !! it = Some nd →
  unpacks_opaque_int_list it g = Some false →
  fuseListAndListUnpack_at it g = Some g.
Proof.
  intros Hit Hc. unfold fuseListAndListUnpack_at. rewrite Hit. simpl.
  case_decide; [|done]. apply foldM_unchanged. intros i Hi%elem_of_seq.
  unfold gather_output. rewrite Hit. simpl.
  destruct (lookup_lt_is_Some_2 (outputs nd) i) as [o Ho]; [lia|].
  unfold output_at. rewrite Ho. simpl. by rewrite Hc.
Qed.

(** X4: a [prim::ListUnpack] node without outputs, or whose number of inputs is
    not one, or whose input is not a list of [Int], is left unchanged by the
    list-index expansion, and with it the graph. *)
Theorem fuseListAndListUnpack_at_no_match it g nd :
  all_nodes g !! it = Some nd →
  kind nd = prim.ListUnpack →
  outputs nd = [] ∨
  length (inputs nd) ≠ 1 ∨
  (∃ v val pd,
     inputs nd = [v] ∧ all_values g !! v = Some val ∧
     all_nodes g !! node val = Some pd ∧ type val ≠ ListType IntType) →
  fuseListAndListUnpack_at it g = Some g.
Proof.
  intros Hit Hkind [Houts|Hcase].
  - unfold fuseListAndListUnpack_at. rewrite Hit. simpl.
    rewrite decide_True by done. by rewrite Houts.
  - apply (fuseListAndListUnpack_at_skip it g nd Hit).
    unfold unpacks_opaque_int_list, the_input. rewrite Hit. simpl.
    destruct Hcase as [Hlen|(v & val & pd & Hins & Hval & Hpd & Ht)].
    + by rewrite decide_False.
    + rewrite Hins. simpl. rewrite Hval. simpl. rewrite Hpd. simpl.
      case_decide; [|done].
      destruct (type val) as [| [] | | | | |]; simpl; done.
Qed.

Lemma fuseListAndListUnpack_at_no_match_witness :
  fuseListAndListUnpack_at 5 Examples.split_graph = Some Examples.split_graph.
Proof.
  refine (fuseListAndListUnpack_at_no_match 5 _
            (mkNode prim.ListUnpack [3] [4; 5; 6] []) _ _ _);
    [reflexivity|reflexivity|].
  right. right.
  exists 3, (mkValue (ListType (TensorType None None)) 4 [mkUse 5 0]),
    (mkNode aten.split_with_sizes [0; 1; 2] [3] []).
  repeat split; discriminate.
Defined.



(** ** Operations that keep the skeleton of the graph *)

Lemma same_skeleton_refl g : same_skeleton g g.
Proof. by split. Qed.

Lemma same_skeleton_trans g1 g2 g3 :
  same_skeleton g1 g2 → same_skeleton g2 g3 → same_skeleton g1 g3.
Proof.
  intros [Hb1 Hk1] [Hb2 Hk2]. split; [congruence|].
  intros m. by rewrite Hk2, Hk1.
Qed.

Lemma lookup_kind_insert (ns : gmap nat Node) n nd nd' m :
  ns !! n = Some nd → kind nd' = kind nd →
  kind <$> <[n := nd']> ns !! m = kind <$> ns !! m.
Proof.
  intros Hn Hk. destruct (decide (m = n)) as [->|Hne].
  - rewrite lookup_insert_eq, Hn. simpl. by f_equal.
  - by rewrite lookup_insert_ne.
Qed.

Lemma foldM_preserves {A S} (R : S → S → Prop) (f : A → S → option S) l :
  (∀ s, R s s) → (∀ s1 s2 s3, R s1 s2 → R s2 s3 → R s1 s3) →
  (∀ x s s', x ∈ l → f x s = Some s' → R s s') →
  ∀ s s', foldM f l s = Some s' → R s s'.
Proof.
  intros Hrefl Htrans. induction l as [|x l IH]; intros Hf s s' Hrun.
  - injection Hrun as <-. apply Hrefl.
  - rewrite foldM_cons in Hrun. apply bind_Some in Hrun as (s1 & Hx & Hl).
    apply (Htrans s s1 s').
    + apply (Hf x); [left|done].
    + apply IH; [|done]. intros y t t' Hy. apply Hf. by right.
Qed.

(** A traversal that runs to the end relates the graph it was given to the
    graph it returns by every reflexive and transitive relation its loop
    body keeps. *)
Lemma traversal_preserves (R : Graph → Graph → Prop)
    (step : NodeId → Graph → option Graph)
    (pass : Block → Graph → option Graph) :
  (∀ g, R g g) → (∀ g1 g2 g3, R g1 g2 → R g2 g3 → R g1 g3) →
  (∀ p r ns g,
     pass (mkBlock p r ns) g
     = foldM (λ e g, g' ← foldM pass e.2 g; step e.1 g') ns g) →
  (∀ n g g', step n g = Some g' → R g g') →
  ∀ b g g', pass b g = Some g' → R g g'.
Proof.
  intros Hrefl Htrans Hpass Hstep b.
  induction b as [p r ns IH] using Block_nested_ind.
  intros g g' Hrun. rewrite Hpass in Hrun.
  revert g g' Hrun. apply foldM_preserves; [done|done|].
  intros [n bs] s s' Hin Hrun. simpl in Hrun.
  apply bind_Some in Hrun as (s1 & Hbs & Hn).
  apply (Htrans s s1 s'); [|by eapply Hstep].
  apply (foldM_preserves R pass bs); [done|done| |done].
  intros b t t' Hb Ht. rewrite Forall_forall in IH.
  specialize (IH _ Hin). simpl in IH. rewrite Forall_forall in IH.
  by apply (IH b Hb).
Qed.

Lemma setAttr_skeleton n name v g g' :
  setAttr n name v g = Some g' → same_skeleton g g'.
Proof.
  unfold setAttr. intros (nd & Hn & [= <-])%bind_Some. split; [done|].
  intros m. simpl. by apply (lookup_kind_insert _ _ nd).
Qed.

Lemma addOutput_skeleton n g v g' :
  addOutput n g = Some (v, g') → same_skeleton g g'.
Proof.
  unfold addOutput. intros (nd & Hn & [= <- <-])%bind_Some. split; [done|].
  intros m. simpl. by apply (lookup_kind_insert _ _ nd).
Qed.

Lemma copyMetadata_skeleton v from g g' :
  copyMetadata v from g = Some g' → same_skeleton g g'.
Proof.
  unfold copyMetadata, setType.
  intros (src & _ & (val & _ & [= <-])%bind_Some)%bind_Some. by split.
Qed.

Lemma add_output_like_skeleton n u i g g' :
  add_output_like n u i g = Some g' → same_skeleton g g'.
Proof.
  unfold add_output_like. intros ([v g1] & Hadd & Hrest)%bind_Some.
  simpl in Hrest.
  apply bind_Some in Hrest as (lu & _ & (o & _ & Hcopy)%bind_Some).
  eapply same_skeleton_trans; [by eapply addOutput_skeleton|].
  by eapply copyMetadata_skeleton.
Qed.

Lemma removeAllInputs_skeleton n g g' :
  removeAllInputs n g = Some g' → same_skeleton g g'.
Proof.
  unfold removeAllInputs.
  intros (nd & Hn & (vs & _ & [= <-])%bind_Some)%bind_Some. split; [done|].
  intros m. simpl. by apply (lookup_kind_insert _ _ nd).
Qed.

Lemma eraseOutput_skeleton n i g g' :
  eraseOutput n i g = Some g' → same_skeleton g g'.
Proof.
  unfold eraseOutput.
  intros (nd & Hn & (v & _ & (val & _ & Hrun)%bind_Some)%bind_Some)%bind_Some.
  destruct (uses val); [|done]. injection Hrun as <-. split; [done|].
  intros m. simpl. by apply (lookup_kind_insert _ _ nd).
Qed.

Lemma redirect_kinds old new u ns ns' :
  redirect old new u ns = Some ns' →
  ∀ m, kind <$> ns' !! m = kind <$> ns !! m.
Proof.
  unfold redirect. intros (nd & Hn & Hrun)%bind_Some.
  case_decide; [|done]. injection Hrun as <-.
  intros m. by apply (lookup_kind_insert _ _ nd).
Qed.

Lemma Value_replaceAllUsesWith_skeleton v new g g' :
  Value_replaceAllUsesWith v new g = Some g' → same_skeleton g g'.
Proof.
  unfold Value_replaceAllUsesWith. intros (val & _ & Hrun)%bind_Some.
  destruct (uses val) as [|u us]; [injection Hrun as <-; apply same_skeleton_refl|].
  case_decide; [done|].
  apply bind_Some in Hrun as (nval & _ & (ns & Hns & [= <-])%bind_Some).
  split; [done|]. simpl. revert Hns.
  apply (foldM_preserves
           (λ ns ns' : gmap nat Node,
              ∀ m, kind <$> ns' !! m = kind <$> ns !! m)); [done| |].
  - intros s1 s2 s3 H1 H2 m. by rewrite H2, H1.
  - intros x s s' _. apply redirect_kinds.
Qed.

Lemma Node_replaceAllUsesWith_skeleton n other g g' :
  Node_replaceAllUsesWith n other g = Some g' → same_skeleton g g'.
Proof.
  unfold Node_replaceAllUsesWith.
  intros (nd & _ & (od & _ & Hrun)%bind_Some)%bind_Some.
  case_decide; [|done]. revert g g' Hrun.
  apply (foldM_preserves same_skeleton);
    [apply same_skeleton_refl|apply same_skeleton_trans|].
  intros p s s' _. apply Value_replaceAllUsesWith_skeleton.
Qed.

Lemma FuseWithListUnpack_skeleton n g g' :
  FuseWithListUnpack n g = Some g' → same_skeleton g g'.
Proof.
  unfold FuseWithListUnpack. intros (found & _ & Hrun)%bind_Some.
  destruct found as [u|]; [|injection Hrun as <-; apply same_skeleton_refl].
  apply bind_Some in Hrun as (nd & _ & Hrun).
  case_decide; [|done].
  apply bind_Some in Hrun as (lu & _ & (g1 & Hattr & Hrun)%bind_Some).
  case_decide; [done|]. case_decide; [|done].
  apply bind_Some in Hrun as (g2 & Hadd & (g3 & Hrm & (g4 & Her & Hrep)%bind_Some)%bind_Some).
  eapply same_skeleton_trans; [by eapply setAttr_skeleton|].
  apply (same_skeleton_trans _ g2).
  { revert Hadd. apply (foldM_preserves same_skeleton);
      [apply same_skeleton_refl|apply same_skeleton_trans|].
    intros i s s' _. apply add_output_like_skeleton. }
  eapply same_skeleton_trans; [by eapply removeAllInputs_skeleton|].
  eapply same_skeleton_trans; [by eapply eraseOutput_skeleton|].
  by eapply Node_replaceAllUsesWith_skeleton.
Qed.

(** ** The ListUnpack fusion keeps the nodes and the blocks *)

(** X6: when the ListUnpack fusion runs to the end, the block tree is the one
    it was given, and the store holds the same nodes, each of the kind it
    had: the pass creates no node, destroys none and moves none, and the
    ListUnpack nodes it has fused stay where they were. *)
Theorem FuseWithListUnpack_Block_keeps_nodes b g g' :
  FuseWithListUnpack_Block b g = Some g' →
  block g' = block g ∧
  ∀ m, kind <$> all_nodes g' !! m = kind <$> all_nodes g !! m.
Proof.
  apply (traversal_preserves same_skeleton FuseWithListUnpack_at
           FuseWithListUnpack_Block);
    [apply same_skeleton_refl|apply same_skeleton_trans|done|].
  intros n s s'. unfold FuseWithListUnpack_at.
  intros (nd & _ & Hrun)%bind_Some. case_decide.
  - by apply FuseWithListUnpack_skeleton in Hrun.
  - injection Hrun as <-. apply same_skeleton_refl.
Qed.

Lemma FuseWithListUnpack_Block_keeps_nodes_witness :
  ∃ g', FuseWithListUnpack_Block (block Examples.split_graph) Examples.split_graph
        = Some g' ∧
        block g' = block Examples.split_graph ∧
        kind <$> all_nodes g' !! 5 = Some prim.ListUnpack.
Proof.
  destruct (FuseWithListUnpack_Block (block Examples.split_graph)
              Examples.split_graph) as [g'|] eqn:Hrun;
    [|vm_compute in Hrun; discriminate].
  exists g'. split; [reflexivity|].
  destruct (FuseWithListUnpack_Block_keeps_nodes _ _ _ Hrun) as [Hb Hk].
  split; [exact Hb|]. rewrite Hk. reflexivity.
Defined.


(** ** Loops that keep an invariant *)

Lemma foldM_invariant {A S} (J : S → Prop) (f : A → S → option S) l :
  (∀ x s, x ∈ l → J s → ∃ s', f x s = Some s' ∧ J s') →
  ∀ s, J s → ∃ s', foldM f l s = Some s' ∧ J s'.
Proof.
  induction l as [|x l IH]; intros Hf s Hs.
  - by exists s.
  - destruct (Hf x s) as (s1 & Hx & Hs1); [left|done|].
    destruct (IH (λ y t Hy, Hf y t (list_elem_of_further _ _ _ Hy)) s1 Hs1)
      as (s' & Hl & Hs').
    exists s'. by rewrite foldM_cons, Hx.
Qed.

(** A traversal whose loop body, at every node of the block, runs to the end
    and keeps [J], runs to the end and keeps [J]. *)
Lemma traversal_invariant (J : Graph → Prop)
    (step : NodeId → Graph → option Graph)
    (pass : Block → Graph → option Graph) :
  (∀ p r ns g,
     pass (mkBlock p r ns) g
     = foldM (λ e g, g' ← foldM pass e.2 g; step e.1 g') ns g) →
  ∀ b, (∀ n g, n ∈ block_nodes b → J g → ∃ g', step n g = Some g' ∧ J g') →
       ∀ g, J g → ∃ g', pass b g = Some g' ∧ J g'.
Proof.
  intros Hpass b. induction b as [p r ns IH] using Block_nested_ind.
  intros Hstep g Hg. rewrite Hpass. apply foldM_invariant; [|done].
  intros [n bs] s Hin Hs. simpl.
  assert (Hsub : ∀ x, x ∈ n :: flat_map block_nodes bs →
                      x ∈ block_nodes (mkBlock p r ns)).
  { intros x Hx. simpl. apply list_elem_of_In, in_flat_map. exists (n, bs).
    split; [by apply list_elem_of_In|]. by apply list_elem_of_In. }
  destruct (foldM_invariant J pass bs) with (s := s) as (s1 & Hbs & Hs1);
    [|done|].
  - intros b t Hb Ht. rewrite Forall_forall in IH.
    specialize (IH _ Hin). simpl in IH. rewrite Forall_forall in IH.
    apply (IH b Hb); [|done]. intros x u Hx Hu. apply Hstep; [|done].
    apply Hsub. right. apply list_elem_of_In, in_flat_map. exists b.
    split; by apply list_elem_of_In.
  - rewrite Hbs. simpl. apply Hstep; [|done]. apply Hsub. left.
Qed.

Lemma subst_values_range ps : ∀ x,
  subst_values ps x = x ∨ subst_values ps x ∈ ps.*2.
Proof.
  induction ps as [|[o n] ps IH]; intros x; [by left|]. simpl.
  unfold subst_value. destruct (decide (x = o)) as [Hx|Hx].
  - right. destruct (IH n) as [Heq|Hin]; [rewrite Heq; left|by right].
  - destruct (IH x) as [Heq|Hin]; [by left|right; by right].
Qed.

Lemma sublist_flat_map_before {A} `{EqDecision A} (it : A) (pre l : list A) :
  sublist l (flat_map (λ x, if decide (x = it) then pre ++ [x] else [x]) l).
Proof.
  induction l as [|x l IH]; [done|]. simpl. case_decide.
  - rewrite <- app_assoc. apply sublist_inserts_l. simpl. by apply sublist_skip.
  - simpl. by apply sublist_skip.
Qed.

(** ** The list-index expansion runs to the end *)

Lemma unpacks_opaque_int_list_cases it g nd :
  consistent g → all_nodes g !! it = Some nd →
  unpacks_opaque_int_list it g = Some false ∨
  ∃ v val pd,
    inputs nd = [v] ∧ all_values g !! v = Some val ∧
    type val = ListType IntType ∧
    all_nodes g !! node val = Some pd ∧ kind pd ≠ prim.ListConstruct.
Proof.
  intros Hg Hit. unfold unpacks_opaque_int_list, the_input. rewrite Hit. simpl.
  case_decide as Hlen; [|by left].
  destruct (inputs nd) as [|v [|? ?]] eqn:Hins; try done. simpl.
  destruct (consistent_input g Hg it nd 0 v Hit) as (val & Hval & _);
    [by rewrite Hins|].
  rewrite Hval. simpl.
  destruct (consistent_producer g Hg v val Hval) as (pd & Hpd & _).
  rewrite Hpd. simpl.
  case_decide as Hk; [|by left].
  destruct (type val) as [| elem | | | | |] eqn:Ht; simpl; try by left.
  destruct elem; simpl; try by left.
  right. by exists v, val, pd.
Qed.

Lemma fuseListAndListUnpack_at_keeps g0 it g :
  consistent g0 →
  it ∈ block_nodes (block g0) →
  expansion_invariant g0 g →
  ∃ g', fuseListAndListUnpack_at it g = Some g' ∧ expansion_invariant g0 g'.
Proof.
  intros Hg0 Hit0 (Hg & Hsub & Hkeep & Hkeepv).
  assert (Hblock : it ∈ block_nodes (block g)).
  { eapply elem_of_sublist; [exact Hit0|exact Hsub]. }
  destruct (consistent_block_node g Hg it Hblock) as [nd Hit].
  destruct (decide (kind nd = prim.ListUnpack)) as [Hkind|Hkind].
  2:{ exists g. split; [|done]. unfold fuseListAndListUnpack_at.
      rewrite Hit. simpl. by rewrite decide_False. }
  destruct (unpacks_opaque_int_list_cases it g nd Hg Hit)
    as [Hc|(v & val & pd & Hins & Hval & Ht & Hpd & Hk)].
  { exists g. split; [by eapply fuseListAndListUnpack_at_skip|done]. }
  destruct (consistent_block_node g0 Hg0 it Hit0) as [nd0 Hnd0].
  destruct (Hkeep it nd0 Hnd0) as (nd' & Hit' & _ & _ & _ & Hself).
  rewrite Hit in Hit'. injection Hit' as <-.
  assert (Hv_out : v ∉ outputs nd).
  { unfold reads_no_own_output in Hself. rewrite Forall_forall in Hself.
    apply Hself. rewrite Hins. left. }
  destruct (gather_loop_spec it nd v (outputs nd) 0 g)
    as (g' & rs & Hloop & Hlenrs & Hrs & Hnodes & Hvals & Hv' & Hblock' & Hg');
    try done.
  { by exists val, pd. }
  exists g'. split.
  { unfold fuseListAndListUnpack_at. rewrite Hit. simpl.
    by rewrite decide_True. }
  split; [done|]. split.
  { rewrite Hblock'. etrans; [exact Hsub|]. apply sublist_flat_map_before. }
  split.
  2:{ intros x val0 Hx0. destruct (Hkeepv x val0 Hx0) as (xval & Hx & Htx).
      destruct (decide (x = v)) as [->|Hxv].
      { destruct Hv' as (val' & _ & Hval' & Ht' & _). exists val'.
        split; [done|]. rewrite Hval in Hx. injection Hx as <-. congruence. }
      destruct (decide (x ∈ outputs nd)) as [Hxo|Hxo].
      - apply list_elem_of_lookup in Hxo as [i Hi].
        destruct (lookup_lt_is_Some_2 rs i) as [r Hr].
        { rewrite Hlenrs. by eapply lookup_lt_Some. }
        destruct (Hrs i r x xval Hr Hi Hx) as (_ & _ & _ & _ & _ & _ & _ & Hx').
        by exists (set_uses [] xval).
      - exists xval. split; [by apply Hvals|done]. }
  intros m md0 Hm0.
  destruct (Hkeep m md0 Hm0) as (md & Hm & Hkd & Hout & Hlen & Hmself).
  eexists. split; [by apply Hnodes|]. simpl.
  split; [done|]. split; [done|]. split; [by rewrite length_map|].
  unfold reads_no_own_output in *. simpl. rewrite Forall_forall in *.
  intros x Hx Hxo. apply list_elem_of_In, in_map_iff in Hx as (y & <- & Hy).
  apply list_elem_of_In in Hy.
  destruct (subst_values_range (zip (outputs nd) (element_value <$> rs)) y)
    as [Heq|Hin].
  - rewrite Heq in Hxo. by apply (Hmself y).
  - apply list_elem_of_fmap in Hin as ([o' new] & Hsnd & Hin). simpl in Hsnd.
    apply elem_of_zip_r in Hin.
    apply list_elem_of_fmap in Hin as (r & -> & Hr).
    apply list_elem_of_lookup in Hr as [i Hi].
    destruct (lookup_lt_is_Some_2 (outputs nd) i) as [o Ho].
    { rewrite <- Hlenrs. by eapply lookup_lt_Some. }
    destruct (consistent_output g Hg it nd o Hit) as (oval & Hoval & _);
      [by eapply list_elem_of_lookup_2|].
    destruct (Hrs i r o oval Hi Ho Hoval) as (_ & _ & _ & Hfresh & _).
    destruct (consistent_output g Hg m md _ Hm Hxo) as (? & ? & _).
    congruence.
Qed.

Lemma fuseListAndListUnpack_keeps g :
  wf g →
  ∃ g', fuseListAndListUnpack (block g) g = Some g' ∧ expansion_invariant g g'.
Proof.
  intros Hwf. pose proof (wf_consistent g Hwf) as Hg.
  apply (traversal_invariant (expansion_invariant g)
           fuseListAndListUnpack_at fuseListAndListUnpack).
  - done.
  - intros n s Hn Hs. by apply fuseListAndListUnpack_at_keeps.
  - split; [done|]. split; [done|]. split.
    + intros m md Hm. exists md. repeat split; try done.
      destruct Hwf as [_ Hself]. by apply (Hself m).
    + intros x val Hx. by exists val.
Qed.

(** X5: on a well-formed graph the list-index expansion runs to the end; the
    graph it returns is consistent; every node of the graph is still there,
    with its kind, its outputs and its number of inputs; every value is
    still there, with its type; and the nodes of the block tree keep their
    order. *)
Theorem fuseListAndListUnpack_completes g :
  wf g →
  ∃ g', fuseListAndListUnpack (block g) g = Some g' ∧
        consistent g' ∧
        sublist (block_nodes (block g)) (block_nodes (block g')) ∧
        (∀ m md, all_nodes g !! m = Some md →
           ∃ md', all_nodes g' !! m = Some md' ∧ kind md' = kind md ∧
                  outputs md' = outputs md ∧
                  length (inputs md') = length (inputs md)) ∧
        (∀ x val, all_values g !! x = Some val →
           ∃ val', all_values g' !! x = Some val' ∧ type val' = type val).
Proof.
  intros Hwf.
  destruct (fuseListAndListUnpack_keeps g Hwf)
    as (g' & Hrun & Hg' & Hsub & Hkeep & Hkeepv).
  exists g'. split; [done|]. split; [done|]. split; [done|]. split; [|done].
  intros m md Hm. destruct (Hkeep m md Hm) as (md' & ? & ? & ? & ? & _).
  by exists md'.
Qed.

Lemma fuseListAndListUnpack_completes_witness :
  ∃ g', fuseListAndListUnpack (block (Examples.nested_graph prim.ListUnpack))
          (Examples.nested_graph prim.ListUnpack) = Some g' ∧
        consistent g' ∧
        sublist [2; 3; 6; 7] (block_nodes (block g')).
Proof.
  destruct (fuseListAndListUnpack_completes
              (Examples.nested_graph prim.ListUnpack))
    as (g' & Hrun & Hg' & Hsub & _).
  - apply (bool_decide_unpack _). vm_compute. exact I.
  - exists g'. split; [exact Hrun|]. split; [exact Hg'|exact Hsub].
Defined.

(** ** The entry point on graphs that only the list-index expansion rewrites *)

(** X7: on a well-formed graph without a node of one of the seven kinds of the
    ListUnpack fusion, without [aten::add] and without [aten::index_put_],
    [PreprocessForONNX] runs to the end and returns what the list-index
    expansion returns: a consistent graph that still has every node, with
    its kind and its outputs, and every value, with its type. *)
Theorem PreprocessForONNX_completes g :
  wf g →
  without_kinds (fusible_kinds ++ [aten.add; aten.index_put_]) g →
  ∃ g', PreprocessForONNX g = Some g' ∧
        fuseListAndListUnpack (block g) g = Some g' ∧
        consistent g' ∧
        (∀ m md, all_nodes g !! m = Some md →
           ∃ md', all_nodes g' !! m = Some md' ∧ kind md' = kind md ∧
                  outputs md' = outputs md) ∧
        (∀ x val, all_values g !! x = Some val →
           ∃ val', all_values g' !! x = Some val' ∧ type val' = type val).
Proof.
  intros Hwf Hks. pose proof (wf_consistent g Hwf) as Hg.
  assert (Hnode : ∀ n, n ∈ block_nodes (block g) →
            ∃ nd, all_nodes g !! n = Some nd ∧
                  ∀ k, k ∈ fusible_kinds ++ [aten.add; aten.index_put_] →
                       kind nd ≠ k).
  { intros n Hn. apply without_kinds_elem; [|done|done].
    apply (consistent_block_node g Hg). }
  destruct (fuseListAndListUnpack_keeps g Hwf)
    as (g' & Hrun & Hg' & _ & Hkeep & Hkeepv).
  exists g'. split; [|split; [done|split; [done|split; [|done]]]].
  - unfold PreprocessForONNX.
    rewrite (traversal_unchanged FuseWithListUnpack_at FuseWithListUnpack_Block);
      [simpl|done|].
    2:{ intros n (nd & Hn & Hk)%Hnode.
        apply (FuseWithListUnpack_at_other_kind n g nd Hn).
        intros Hin. apply (Hk (kind nd)); [|done]. apply elem_of_app. by left. }
    rewrite (traversal_unchanged ReplaceAddWithConcat_at ReplaceAddWithConcat);
      [simpl|done|].
    2:{ intros n (nd & Hn & Hk)%Hnode.
        apply (ReplaceAddWithConcat_at_other_kind n g nd Hn).
        apply Hk. apply elem_of_app. right. left. }
    rewrite (traversal_unchanged ReplaceIndexPutWithMaskedScatter_at
               ReplaceIndexPutWithMaskedScatter); [done|done|].
    intros n (nd & Hn & Hk)%Hnode.
    apply (ReplaceIndexPutWithMaskedScatter_at_other_kind n g nd Hn).
    apply Hk. apply elem_of_app. right. right. left.
  - intros m md Hm. destruct (Hkeep m md Hm) as (md' & ? & ? & ? & _).
    by exists md'.
Qed.

Lemma PreprocessForONNX_completes_witness :
  ∃ g', PreprocessForONNX (Examples.nested_graph prim.ListUnpack) = Some g' ∧
        consistent g'.
Proof.
  destruct (PreprocessForONNX_completes (Examples.nested_graph prim.ListUnpack))
    as (g' & Hrun & _ & Hg' & _).
  - apply (bool_decide_unpack _). vm_compute. exact I.
  - apply without_kinds_computed.
    repeat (apply List.Forall_cons;
            [intros nd Hnd; vm_compute in Hnd; injection Hnd as <-;
             apply (bool_decide_unpack _); vm_compute; exact I|]).
    apply List.Forall_nil.
  - exists g'. split; [exact Hrun|exact Hg'].
Defined.

(** ** The list-add rewrite, whatever the second list holds *)

Lemma ReplaceAddWithConcat_at_rewrites it g nd in0 in1 val0 val1 elem1 out oval :
  wf g →
  all_nodes g !! it = Some nd →
  kind nd = aten.add →
  input 0 nd = Some in0 →
  input 1 nd = Some in1 →
  all_values g !! in0 = Some val0 →
  all_values g !! in1 = Some val1 →
  type val0 = ListType IntType →
  type val1 = ListType elem1 →
  outputs nd = [out] →
  all_values g !! out = Some oval →
  it ∈ block_nodes (block g) →
  blocks it g = [] →
  ∃ g' concat_node new_out,
    ReplaceAddWithConcat_at it g = Some g' ∧
    all_nodes g !! concat_node = None ∧
    all_values g !! new_out = None ∧
    all_nodes g' !! concat_node
    = Some (mkNode onnx.Concat [in0; in1] [new_out] [(attr.axis, IntAttr 0)]) ∧
    all_values g' !! new_out
    = Some (mkValue (TensorType (Some Long) (Some 1)) concat_node (uses oval)) ∧
    block_nodes (block g')
    = flat_map (λ x, if decide (x = it) then [concat_node] else [x])
        (block_nodes (block g)) ∧
    (∀ m md, m ≠ it → all_nodes g !! m = Some md →
             all_nodes g' !! m = Some (subst_inputs (subst_value out new_out) md)) ∧
    all_nodes g' !! it = None ∧
    all_values g' !! out = None ∧
    (∀ i v, inputs nd !! i = Some v →
            ∃ val', all_values g' !! v = Some val' ∧ mkUse it i ∉ uses val') ∧
    consistent g'.
Proof.
  intros Hwf Hit Hkind Hin0 Hin1 Hval0 Hval1 Ht0 Ht1 Houts Hout Hblock Hblocks.
  pose proof (wf_consistent g Hwf) as Hg. unfold blocks in Hblocks.
  assert (Hout_nd : out ∉ inputs nd).
  { intros Hin. eapply (wf_no_self_use g it nd out); [done..|].
    rewrite Houts. left. }
  assert (Hne0 : in0 ≠ out) by (intros ->; by apply Hout_nd, (input_elem_of 0)).
  assert (Hne1 : in1 ≠ out) by (intros ->; by apply Hout_nd, (input_elem_of 1)).
  unfold ReplaceAddWithConcat_at.
  rewrite Hit. bind. rewrite decide_True by done.
  rewrite Hin0. bind. rewrite Hval0. bind. rewrite Ht0. cbn [cast_ListType].
  rewrite Hin1. bind. rewrite Hval1. bind. rewrite Ht1.
  cbn [cast_ListType cast_IntType].
  (* create *)
  rewrite create_1_spec. bind.
  pose proof (fresh_node_None g) as Hc. pose proof (fresh_value_None g) as Hco.
  set (c := fresh (dom (all_nodes g))) in *.
  set (co := fresh (dom (all_values g))) in *.
  clearbody c co.
  assert (Hcit : c ≠ it) by congruence.
  assert (Hco0 : co ≠ in0) by congruence.
  assert (Hco1 : co ≠ in1) by congruence.
  assert (Hcoout : co ≠ out) by congruence.
  pose proof (create_1_consistent g onnx.Concat c co Hc Hco Hg) as Hg1.
  set (g1 := mkGraph _ _ _) in *.
  (* i_ *)
  unfold i_. rewrite (setAttr_spec c _ _ g1 (mkNode onnx.Concat [] [co] []))
    by apply lookup_insert_eq.
  bind.
  pose proof (consistent_set_node g1 c (mkNode onnx.Concat [] [co] [])
                (mkNode onnx.Concat [] [co] [(attr.axis, IntAttr 0)])
                (lookup_insert_eq _ _ _) eq_refl eq_refl Hg1) as Hg2.
  change (set_attributes _ _)
    with (mkNode onnx.Concat [] [co] [(attr.axis, IntAttr 0)]).
  set (g2 := set_all_nodes _ g1) in *.
  (* insertBefore *)
  assert (Hcb : c ∉ block_nodes (block g)).
  { intros Hcb. apply (consistent_block_node g Hg) in Hcb as [? ?]. congruence. }
  rewrite (insertBefore_spec c it g2) by done. bind.
  pose proof (consistent_link_before g2 c it) as Hg3.
  set (g3 := set_block _ g2) in *.
  assert (Hc3 : all_nodes g3 !! c
                = Some (mkNode onnx.Concat [] [co] [(attr.axis, IntAttr 0)])).
  { unfold g3, g2. simpl. apply lookup_insert_eq. }
  specialize (Hg3 (mk_is_Some _ _ Hc3) Hg2).
  assert (Hit3 : all_nodes g3 !! it = Some nd).
  { unfold g3, g2, g1. simpl. by rewrite !lookup_insert_ne. }
  (* addInput, twice *)
  rewrite Hit3. bind. rewrite Hin0. bind.
  assert (Hval03 : all_values g3 !! in0 = Some val0).
  { unfold g3, g2, g1. simpl. by rewrite lookup_insert_ne. }
  rewrite (addInput_spec c in0 g3 _ _ Hc3 Hval03). bind.
  pose proof (addInput_consistent c in0 g3 _ _ Hc3 Hval03 Hg3) as Hg4.
  set (g4 := mkGraph _ _ (block g3)) in *.
  assert (Hc4 : all_nodes g4 !! c
                = Some (mkNode onnx.Concat [in0] [co] [(attr.axis, IntAttr 0)])).
  { unfold g4. simpl. apply lookup_insert_eq. }
  assert (Hit4 : all_nodes g4 !! it = Some nd).
  { unfold g4. simpl. by rewrite lookup_insert_ne. }
  rewrite Hit4. bind. rewrite Hin1. bind.
  destruct (consistent_input g4 Hg4 it nd 1 in1 Hit4 Hin1) as (val14 & Hval14 & _).
  rewrite (addInput_spec c in1 g4 _ _ Hc4 Hval14). bind.
  pose proof (addInput_consistent c in1 g4 _ _ Hc4 Hval14 Hg4) as Hg5.
  set (g5 := mkGraph _ _ (block g4)) in *.
  assert (Hc5 : all_nodes g5 !! c
                = Some (mkNode onnx.Concat [in0; in1] [co] [(attr.axis, IntAttr 0)])).
  { unfold g5. simpl. apply lookup_insert_eq. }
  assert (Hco5 : all_values g5 !! co = Some (mkValue TensorType_get c [])).
  { unfold g5, g4, g3, g2, g1. simpl. rewrite !lookup_insert_ne by done.
    apply lookup_insert_eq. }
  (* setType *)
  rewrite Hc5. bind. unfold output_at at 1. simpl outputs. simpl lookup. bind.
  rewrite (setType_spec co _ g5 _ Hco5). bind.
  pose proof (consistent_set_value g5 co _
                (set_type (fromNumberType IntType) (mkValue TensorType_get c []))
                Hco5 eq_refl eq_refl Hg5) as Hg6.
  set (g6 := set_all_values _ g5) in *.
  assert (Hit6 : all_nodes g6 !! it = Some nd).
  { unfold g6, g5. simpl. by rewrite lookup_insert_ne. }
  assert (Hco6 : all_values g6 !! co
                 = Some (mkValue (TensorType (Some Long) (Some 1)) c [])).
  { unfold g6. simpl. apply lookup_insert_eq. }
  assert (Hout6 : all_values g6 !! out = Some oval).
  { unfold g6, g5, g4, g3, g2, g1. simpl. by rewrite !lookup_insert_ne. }
  (* replaceAllUsesWith, removeAllInputs, destroy *)
  destruct (replace_and_destroy_spec g6 it c nd _ out co oval _ Hg6 Hit6 Hc5 Houts
              eq_refl Hout6 Hco6 eq_refl Hout_nd)
    as (g' & Hrun & Hc' & Hco' & Hblock' & Hother & Hit' & Hout' & Hins' & Hg').
  { simpl. intros [->|[->|[]%elem_of_nil]%elem_of_cons]%elem_of_cons; done. }
  { done. }
  { unfold g6, g5, g4, g3. simpl. by rewrite blocks_in_link_before, Hblocks. }
  exists g', c, co. split; [exact Hrun|].
  split; [done|]. split; [done|]. split; [done|]. split; [done|].
  split.
  { rewrite Hblock'. unfold g6, g5, g4, g3. simpl.
    rewrite block_nodes_unlink by (by rewrite blocks_in_link_before, Hblocks).
    rewrite block_nodes_link_before. by apply filter_flat_map_replace. }
  split.
  { intros m md Hm Hmd. assert (c ≠ m) by congruence.
    rewrite (Hother m Hm). unfold g6, g5, g4, g3, g2, g1. simpl.
    by rewrite !lookup_insert_ne, Hmd by done. }
  done.
Qed.

(** X8: an [aten::add] node whose first input is an int list and whose
    second input is a list, whatever its element type, is replaced by an
    [onnx::Concat] node just as an add of two int lists is: the element type
    of the second list is not read, and the type of the new output is the
    tensor type derived from [Int]. *)
Theorem add_of_int_list_and_any_list_becomes_concat it g nd in0 in1 val0 val1 elem1 out oval :
  wf g →
  all_nodes g !! it = Some nd →
  kind nd = aten.add →
  input 0 nd = Some in0 →
  input 1 nd = Some in1 →
  all_values g !! in0 = Some val0 →
  all_values g !! in1 = Some val1 →
  type val0 = ListType IntType →
  type val1 = ListType elem1 →
  outputs nd = [out] →
  all_values g !! out = Some oval →
  it ∈ block_nodes (block g) →
  blocks it g = [] →
  ∃ g' concat_node new_out,
    ReplaceAddWithConcat_at it g = Some g' ∧
    all_nodes g !! concat_node = None ∧
    all_values g !! new_out = None ∧
    all_nodes g' !! concat_node
    = Some (mkNode onnx.Concat [in0; in1] [new_out] [(attr.axis, IntAttr 0)]) ∧
    all_values g' !! new_out
    = Some (mkValue (TensorType (Some Long) (Some 1)) concat_node (uses oval)) ∧
    block_nodes (block g')
    = flat_map (λ x, if decide (x = it) then [concat_node] else [x])
        (block_nodes (block g)) ∧
    (∀ m md, m ≠ it → all_nodes g !! m = Some md →
             all_nodes g' !! m = Some (subst_inputs (subst_value out new_out) md)) ∧
    all_nodes g' !! it = None ∧
    all_values g' !! out = None ∧
    (∀ i v, inputs nd !! i = Some v →
            ∃ val', all_values g' !! v = Some val' ∧ mkUse it i ∉ uses val') ∧
    consistent g'.
Proof. apply ReplaceAddWithConcat_at_rewrites. Qed.

Lemma add_of_int_list_and_any_list_becomes_concat_witness :
  ∃ g' concat_node new_out,
    ReplaceAddWithConcat_at 7 (Examples.add_graph IntType FloatType) = Some g' ∧
    all_nodes g' !! concat_node
    = Some (mkNode onnx.Concat [4; 6] [new_out] [(attr.axis, IntAttr 0)]) ∧
    all_nodes g' !! 7 = None ∧
    consistent g'.
Proof.
  destruct (add_of_int_list_and_any_list_becomes_concat 7
              (Examples.add_graph IntType FloatType)
              (mkNode aten.add [4; 6] [7] []) 4 6
              (mkValue (ListType IntType) 4 [mkUse 7 0])
              (mkValue (ListType FloatType) 6 [mkUse 7 1]) FloatType 7
              (mkValue (ListType IntType) 7 [mkUse 8 1])
              ltac:(apply (bool_decide_unpack _); vm_compute; exact I)
              eq_refl eq_refl eq_refl eq_refl eq_refl eq_refl eq_refl eq_refl
              eq_refl eq_refl
              ltac:(apply (bool_decide_unpack _); vm_compute; exact I)
              eq_refl)
    as (g' & c & co & Hrun & _ & _ & Hc & _ & _ & _ & Hit & _ & _ & Hg').
  exists g', c, co. split; [exact Hrun|]. split; [exact Hc|].
  split; [exact Hit|exact Hg'].
Defined.

(** * The passes as loops over the visit order *)

Lemma foldM_ext_Forall {A S} (f1 f2 : A → S → option S) l :
  Forall (λ x, ∀ s, f1 x s = f2 x s) l → ∀ s, foldM f1 l s = foldM f2 l s.
Proof.
  induction 1 as [|x l Hx _ IH]; intros s; [done|].
  rewrite !foldM_cons, Hx. destruct (f2 x s); simpl; [apply IH|done].
Qed.

Lemma foldM_flat_map {A B S} (f : B → S → option S) (h : A → list B) l : ∀ s,
  foldM f (flat_map h l) s = foldM (λ x s, foldM f (h x) s) l s.
Proof.
  induction l as [|x l IH]; intros s; [done|]. simpl.
  rewrite foldM_app, foldM_cons. destruct (foldM f (h x) s); simpl; [apply IH|done].
Qed.

(** A pass is its loop body applied along the visit order. *)
Lemma pass_steps (step : NodeId → Graph → option Graph)
    (pass : Block → Graph → option Graph) :
  (∀ p r ns g,
     pass (mkBlock p r ns) g
     = foldM (λ e g, g' ← foldM pass e.2 g; step e.1 g') ns g) →
  ∀ b g, pass b g = foldM step (visit_order b) g.
Proof.
  intros Hpass b. induction b as [p r ns IH] using Block_nested_ind.
  intros g. rewrite Hpass. simpl. rewrite foldM_flat_map.
  apply foldM_ext_Forall. eapply Forall_impl; [exact IH|].
  intros [n bs] Hbs s. simpl in *.
  rewrite foldM_app, foldM_flat_map.
  rewrite (foldM_ext_Forall pass (λ b s, foldM step (visit_order b) s) bs Hbs).
  destruct (foldM _ bs s); simpl; [|done]. rewrite foldM_cons.
  by destruct (step n _).
Qed.

Lemma FuseWithListUnpack_Block_steps b g :
  FuseWithListUnpack_Block b g = foldM FuseWithListUnpack_at (visit_order b) g.
Proof. by apply pass_steps. Qed.

Lemma ReplaceAddWithConcat_steps b g :
  ReplaceAddWithConcat b g = foldM ReplaceAddWithConcat_at (visit_order b) g.
Proof. by apply pass_steps. Qed.

Lemma ReplaceIndexPutWithMaskedScatter_steps b g :
  ReplaceIndexPutWithMaskedScatter b g
  = foldM ReplaceIndexPutWithMaskedScatter_at (visit_order b) g.
Proof. by apply pass_steps. Qed.

Lemma fuseListAndListUnpack_steps b g :
  fuseListAndListUnpack b g = foldM fuseListAndListUnpack_at (visit_order b) g.
Proof. by apply pass_steps. Qed.

Lemma elem_of_visit_order b n : n ∈ visit_order b ↔ n ∈ block_nodes b.
Proof.
  induction b as [p r ns IH] using Block_nested_ind. simpl.
  rewrite Forall_forall in IH.
  assert (Hnested : ∀ m bs, (m, bs) ∈ ns →
            n ∈ flat_map visit_order bs ↔ n ∈ flat_map block_nodes bs).
  { intros m bs Hin. specialize (IH _ Hin). simpl in IH.
    rewrite Forall_forall in IH.
    rewrite !list_elem_of_In, !in_flat_map.
    split; intros (b & Hb & Hn); exists b; (split; [done|]);
      apply list_elem_of_In, (IH b); try by apply list_elem_of_In. }
  rewrite !list_elem_of_In, !in_flat_map.
  split; intros ([m bs] & Hin & Hn); exists (m, bs); (split; [done|]);
    apply list_elem_of_In in Hn; apply list_elem_of_In in Hin as Hin';
    apply list_elem_of_In; simpl in *.
  - apply elem_of_app in Hn as [Hn|Hn%list_elem_of_singleton].
    + right. by apply (Hnested m bs).
    + subst. left.
  - apply elem_of_app. apply elem_of_cons in Hn as [->|Hn].
    + right. by apply list_elem_of_singleton.
    + left. by apply (Hnested m bs).
Qed.

(** What [reaches] says of the run of the pass. *)
Lemma reaches_run step g it g1 rest :
  reaches step g it g1 rest →
  foldM step (visit_order (block g)) g = step it g1 ≫= foldM step rest.
Proof.
  intros (before & -> & Hrun). by rewrite foldM_app, Hrun, option_bind_Some, foldM_cons.
Qed.

Lemma reaches_elem_of step g it g1 rest :
  reaches step g it g1 rest → it ∈ block_nodes (block g).
Proof.
  intros (before & Hvo & _). apply elem_of_visit_order. rewrite Hvo.
  apply elem_of_app. right. left.
Qed.

Lemma reaches_before step g it g1 rest :
  reaches step g it g1 rest →
  ∃ before, (∀ n, n ∈ before → n ∈ block_nodes (block g)) ∧
            foldM step before g = Some g1.
Proof.
  intros (before & Hvo & Hrun). exists before. split; [|done].
  intros n Hn. apply elem_of_visit_order. rewrite Hvo. apply elem_of_app. by left.
Qed.

(** * The claims at the level of the passes *)

(** ** The size test of the indexed-put pass *)

(** C3: the pass evaluates [(!lc_node->inputs().size()) == 1] only once
    [lc_node->input(0)] has been read, that is on a list with at least one
    element, and the test is false for every such size; the loop body does
    not depend on what the test would be for the empty list; the [continue]
    is never taken, and the pass is the same function as the pass without
    the test: the test has no effect on which nodes are rewritten. *)
Theorem C3_size_test_has_no_effect :
  (∀ size : nat, 0 < size → inputs_size_guard size = false) ∧
  (∀ (lc : Node) (mask : ValueId),
     input 0 lc = Some mask → inputs_size_guard (length (inputs lc)) = false) ∧
  (∀ (check : nat → bool) it g,
     (∀ size, 0 < size → check size = inputs_size_guard size) →
     index_put_body check it g = ReplaceIndexPutWithMaskedScatter_at it g) ∧
  (∀ b g,
     ReplaceIndexPutWithMaskedScatter b g
     = foldM (index_put_body (λ _, false)) (visit_order b) g).
Proof.
  split.
  { intros size Hsize. destruct size; [lia|reflexivity]. }
  split; [exact inputs_size_guard_after_input|].
  split.
  { intros check it g Hc. by apply index_put_body_size_check. }
  intros b g. rewrite ReplaceIndexPutWithMaskedScatter_steps.
  apply foldM_ext_Forall, Forall_forall. intros it _ s.
  apply index_put_body_size_check.
  intros size Hsize. destruct size; [lia|reflexivity].
Qed.

Lemma C3_size_test_has_no_effect_witness :
  inputs_size_guard 1 = false ∧
  inputs_size_guard (length (inputs (mkNode prim.ListConstruct [1] [2] []))) = false ∧
  index_put_body (λ _, false) 3 Examples.index_put_chain_graph
  = ReplaceIndexPutWithMaskedScatter_at 3 Examples.index_put_chain_graph.
Proof.
  split.
  - apply (proj1 C3_size_test_has_no_effect 1). lia.
  - split.
    + apply (proj1 (proj2 C3_size_test_has_no_effect) _ 1). reflexivity.
    + apply (proj1 (proj2 (proj2 C3_size_test_has_no_effect)) (λ _, false)).
      intros size Hsize. destruct size; [lia|reflexivity].
Defined.

(** The fusion of one trigger node with its ListUnpack node, in closed
    form. *)
Lemma FuseWithListUnpack_fuses n g nd out val u off lu :
  consistent g →
  unpacks_read_no_own_output g →
  all_nodes g !! n = Some nd →
  kind nd ∈ fusible_kinds →
  outputs nd = [out] →
  all_values g !! out = Some val →
  uses val = [mkUse u off] →
  all_nodes g !! u = Some lu →
  kind lu = prim.ListUnpack →
  (Z.of_nat (length (outputs lu)) ≤ INT_MAX)%Z →
  ∃ g' news,
    FuseWithListUnpack n g = Some g' ∧
    length news = length (outputs lu) ∧
    NoDup news ∧
    (∀ x, x ∈ news → all_values g !! x = None) ∧
    all_nodes g' !! n
    = Some (subst_inputs (subst_values (zip (outputs lu) news))
              (mkNode (kind nd) (inputs nd) news
                 (set_attr attr._outputs
                    (IntAttr (Z.of_nat (length (outputs lu)))) (attributes nd)))) ∧
    (∀ i o new oval,
       outputs lu !! i = Some o → news !! i = Some new →
       all_values g !! o = Some oval →
       all_values g' !! new = Some (mkValue (type oval) n (uses oval)) ∧
       all_values g' !! o = Some (set_uses [] oval) ∧
       subst_values (zip (outputs lu) news) o = new) ∧
    (∀ m md, m ≠ n → m ≠ u → all_nodes g !! m = Some md →
       all_nodes g' !! m
       = Some (subst_inputs (subst_values (zip (outputs lu) news)) md)) ∧
    all_nodes g' !! u = Some (set_inputs [] lu) ∧
    (∀ v val' i, all_values g' !! v = Some val' → mkUse u i ∉ uses val') ∧
    all_values g' !! out = None ∧
    block g' = block g ∧
    consistent g' ∧
    unpacks_read_no_own_output g'.
Proof.
  intros Hg Hself0 Hn Hkind Houts Hval Huses Hu Hk Hlen.
  assert (Hnu : n ≠ u).
  { intros ->. simplify_eq. rewrite Hk in Hkind.
    by apply ListUnpack_not_fusible_kind. }
  assert (Hout_lu : out ∉ outputs lu).
  { intros Hin. destruct (consistent_output g Hg u lu out Hu Hin) as (? & ? & ?).
    destruct (consistent_output g Hg n nd out Hn) as (? & ? & ?);
      [rewrite Houts; left|]. congruence. }
  assert (Hoff : inputs lu !! off = Some out).
  { destruct (consistent_use g Hg out val (mkUse u off) Hval) as (ud & Hud & Hs);
      [rewrite Huses; left|]. simpl in *. by simplify_eq. }
  assert (Hself : ∀ x, x ∈ outputs lu → x ∉ inputs lu).
  { intros x Hx Hx'. specialize (Hself0 u lu Hu Hk).
    unfold reads_no_own_output in Hself0. rewrite Forall_forall in Hself0.
    by apply (Hself0 x). }
  unfold FuseWithListUnpack.
  rewrite (proj2 (FindFusibleListUnpack_fusible n g nd u Hn)).
  2:{ exists out, val, off, lu. done. }
  bind. rewrite Hn. bind. rewrite decide_True by (by rewrite Houts).
  rewrite Hu. bind.
  (* i_ *)
  unfold i_. rewrite (setAttr_spec n _ _ g nd Hn). bind.
  rewrite to_int64_small by (unfold INT_MAX in Hlen; lia).
  set (k := length (outputs lu)) in *.
  set (nd1 := set_attributes (set_attr attr._outputs (IntAttr (Z.of_nat k))
                                (attributes nd)) nd).
  pose proof (consistent_set_node g n nd nd1 Hn eq_refl eq_refl Hg) as Hg1.
  set (g1 := set_all_nodes _ g) in *.
  rewrite decide_False by done. rewrite decide_True by done.
  (* the new outputs *)
  assert (Hn1 : all_nodes g1 !! n = Some nd1).
  { unfold g1. cbn [all_nodes set_all_nodes]. apply lookup_insert_eq. }
  assert (Hu1 : all_nodes g1 !! u = Some lu).
  { unfold g1. cbn [all_nodes set_all_nodes]. by rewrite lookup_insert_ne. }
  destruct (add_outputs_loop n u lu (outputs lu) 0 g1 nd1 Hg1 Hnu Hn1 Hu1 eq_refl)
    as (gA & news & HloopA & Hlen_news & Hnd_news & Hfresh & HnodesA & HvalsA
        & HnewsA & HblockA & HgA).
  fold k in HloopA. rewrite HloopA. bind.
  change (all_values g1) with (all_values g) in *.
  assert (HuA : all_nodes gA !! u = Some lu).
  { rewrite HnodesA. by rewrite lookup_insert_ne. }
  set (ndA := set_outputs (outputs nd1 ++ news) nd1) in *.
  assert (HnA : all_nodes gA !! n = Some ndA).
  { rewrite HnodesA. apply lookup_insert_eq. }
  (* removeAllInputs *)
  destruct (removeAllInputs_consistent gA u lu HuA HgA) as [Hrm HgB].
  rewrite Hrm. bind.
  set (gB := mkGraph _ _ (block gA)) in *.
  assert (HnB : all_nodes gB !! n = Some ndA).
  { unfold gB. cbn [all_nodes]. by rewrite lookup_insert_ne. }
  assert (HoutB : all_values gB !! out = Some (set_uses [] val)).
  { unfold gB. cbn [all_values]. rewrite lookup_without_edges, (HvalsA out val Hval).
    simpl. unfold without_edges. f_equal. f_equal. rewrite Huses.
    rewrite filter_cons_False; [done|]. intros Hno. apply Hno. by split. }
  (* eraseOutput *)
  assert (Houts_A : outputs ndA = out :: news).
  { unfold ndA, nd1. simpl. by rewrite Houts. }
  rewrite (eraseOutput_spec n 0 gB ndA out (set_uses [] val) HnB)
    by (by rewrite ?Houts_A).
  bind.
  pose proof (eraseOutput_consistent n 0 gB ndA out (set_uses [] val) HnB) as HgC.
  rewrite Houts_A in HgC. specialize (HgC eq_refl HoutB eq_refl HgB).
  rewrite Houts_A. cbn [delete list_delete] in *.
  set (ndC := set_outputs news ndA) in *.
  set (gC := mkGraph _ _ (block gB)) in *.
  assert (HuC : all_nodes gC !! u = Some (set_inputs [] lu)).
  { unfold gC, gB. cbn [all_nodes]. rewrite lookup_insert_ne by done.
    apply lookup_insert_eq. }
  assert (HnC : all_nodes gC !! n = Some ndC).
  { unfold gC. cbn [all_nodes]. apply lookup_insert_eq. }
  assert (HvalsC : ∀ x xval, all_values g !! x = Some xval → x ≠ out →
                   all_values gC !! x = Some (without_edges u (inputs lu) x xval)).
  { intros x xval Hx Hxo. unfold gC, gB. cbn [all_values].
    rewrite lookup_delete_ne by done.
    by rewrite lookup_without_edges, (HvalsA x xval Hx). }
  assert (Hos_C : ∀ o oval, o ∈ outputs lu → all_values g !! o = Some oval →
                            all_values gC !! o = Some oval).
  { intros o oval Ho Hoval. rewrite (HvalsC o oval Hoval) by (by intros ->).
    f_equal. apply without_edges_id. intros use _ [_ Hr].
    apply (Hself o Ho). by eapply list_elem_of_lookup_2. }
  assert (Hnews_C : ∀ i new o oval, news !! i = Some new →
                      outputs lu !! i = Some o → all_values g !! o = Some oval →
                      all_values gC !! new = Some (mkValue (type oval) n [])).
  { intros i new o oval Hnew Ho Hoval.
    assert (new ≠ out).
    { intros ->. apply list_elem_of_lookup_2, Hfresh in Hnew. congruence. }
    unfold gC, gB. cbn [all_values]. rewrite lookup_delete_ne by done.
    by rewrite lookup_without_edges, (HnewsA i new o oval Hnew Ho Hoval). }
  (* replaceAllUsesWith *)
  unfold Node_replaceAllUsesWith. rewrite HuC. bind. rewrite HnC. bind.
  cbn [outputs set_inputs]. change (outputs ndC) with news.
  rewrite decide_True by (by rewrite Hlen_news).
  assert (Hfst : (zip (outputs lu) news).*1 = outputs lu).
  { apply fst_zip. lia. }
  assert (Hsnd : (zip (outputs lu) news).*2 = news).
  { apply snd_zip. lia. }
  assert (Hos_g : ∀ x, x ∈ outputs lu → is_Some (all_values g !! x)).
  { intros x Hx. destruct (consistent_output g Hg u lu x Hu Hx) as (? & ? & _). eauto. }
  destruct (replace_uses_loop (zip (outputs lu) news) gC HgC)
    as (g' & Hloop & Hnodes & Hvals & Hpairs & Hblock & Hg').
  { rewrite Hfst. exact (consistent_outputs_NoDup g Hg u lu Hu). }
  { by rewrite Hsnd. }
  { rewrite Hfst, Hsnd. intros x Hx Hx'. apply Hfresh in Hx.
    destruct (Hos_g x Hx'). congruence. }
  { rewrite Hfst. intros x Hx. destruct (Hos_g x Hx) as [xv Hxv].
    rewrite (Hos_C x xv Hx Hxv). eauto. }
  { rewrite Hsnd. intros x Hx. apply list_elem_of_lookup in Hx as [i Hi].
    destruct (lookup_lt_is_Some_2 (outputs lu) i) as [o Ho].
    { rewrite <- Hlen_news. by eapply lookup_lt_Some. }
    destruct (Hos_g o) as [oval Hoval]; [by eapply list_elem_of_lookup_2|].
    rewrite (Hnews_C i x o oval Hi Ho Hoval). eauto. }
  exists g', news. split; [exact Hloop|]. split; [done|]. split; [done|].
  split; [done|]. split.
  { rewrite Hnodes, lookup_fmap, HnC. done. }
  split.
  { intros i o new oval Ho Hnew Hoval.
    assert (Hin : (o, new) ∈ zip (outputs lu) news).
    { apply list_elem_of_lookup. exists i. by rewrite lookup_zip_with, Ho, Hnew. }
    destruct (Hpairs o new oval (mkValue (type oval) n []) Hin) as [Ho' Hnew'].
    { apply Hos_C; [by eapply list_elem_of_lookup_2|done]. }
    { by eapply Hnews_C. }
    split; [exact Hnew'|]. split; [exact Ho'|].
    apply (subst_values_lookup _ _ i); try done.
    - exact (consistent_outputs_NoDup g Hg u lu Hu).
    - intros x Hx Hx'. apply Hfresh in Hx. destruct (Hos_g x Hx'). congruence. }
  split.
  { intros m md Hmn Hmu Hm. rewrite Hnodes, lookup_fmap.
    unfold gC, gB. cbn [all_nodes]. rewrite !lookup_insert_ne by done.
    rewrite HnodesA, lookup_insert_ne by done.
    unfold g1. cbn [all_nodes set_all_nodes]. by rewrite lookup_insert_ne, Hm. }
  split.
  { rewrite Hnodes, lookup_fmap, HuC. done. }
  assert (Hu' : all_nodes g' !! u = Some (set_inputs [] lu)).
  { rewrite Hnodes, lookup_fmap, HuC. done. }
  split.
  { intros v val' i Hv Hin.
    destruct (consistent_use g' Hg' v val' _ Hv Hin) as (ud & Hud & Hs).
    simpl in *. by simplify_eq. }
  split.
  { rewrite Hvals.
    - unfold gC. cbn [all_values]. apply lookup_delete_eq.
    - by rewrite Hfst.
    - rewrite Hsnd. intros Hin. apply Hfresh in Hin. congruence. }
  split.
  { rewrite Hblock. unfold gC, gB. cbn [block]. rewrite HblockA. done. }
  split; [done|].
  intros m md' Hm' Hkm. unfold reads_no_own_output. apply Forall_forall.
  destruct (decide (m = u)) as [->|Hmu].
  { rewrite Hu' in Hm'. injection Hm' as <-. simpl. by intros x ?%elem_of_nil. }
  destruct (decide (m = n)) as [->|Hmn].
  { rewrite Hnodes, lookup_fmap, HnC in Hm'. injection Hm' as <-.
    simpl in Hkm. rewrite Hkm in Hkind.
    by destruct ListUnpack_not_fusible_kind. }
  assert (∃ md, all_nodes g !! m = Some md ∧
                md' = subst_inputs (subst_values (zip (outputs lu) news)) md)
    as (md & Hm & ->).
  { rewrite Hnodes, lookup_fmap in Hm'. unfold gC, gB in Hm'. cbn [all_nodes] in Hm'.
    rewrite !lookup_insert_ne in Hm' by done.
    rewrite HnodesA, lookup_insert_ne in Hm' by done.
    unfold g1 in Hm'. cbn [all_nodes set_all_nodes] in Hm'.
    rewrite lookup_insert_ne in Hm' by done.
    destruct (all_nodes g !! m) as [md|]; [|done]. exists md.
    split; [done|]. by injection Hm' as <-. }
  simpl in *. intros x Hx Hxo.
  apply list_elem_of_In, in_map_iff in Hx as (x0 & <- & Hx0).
  apply list_elem_of_In in Hx0.
  destruct (subst_values_range (zip (outputs lu) news) x0) as [Heq|Hin].
  - rewrite Heq in Hxo. specialize (Hself0 m md Hm Hkm).
    unfold reads_no_own_output in Hself0. rewrite Forall_forall in Hself0.
    by apply (Hself0 x0).
  - rewrite Hsnd in Hin. apply Hfresh in Hin.
    destruct (consistent_output g Hg m md _ Hm Hxo) as (? & ? & _). congruence.
Qed.

(** ** When the loop fuses a trigger node *)

Lemma wf_unpacks_read_no_own_output g : wf g → unpacks_read_no_own_output g.
Proof. intros [_ Hself] u lu Hu _. by apply (Hself u). Qed.

(** The loop body of the fusion keeps the graph consistent and its
    ListUnpack nodes free of reading their own outputs. *)
Lemma FuseWithListUnpack_at_keeps it g g' :
  consistent g → unpacks_read_no_own_output g →
  FuseWithListUnpack_at it g = Some g' →
  consistent g' ∧ unpacks_read_no_own_output g'.
Proof.
  intros Hg Hself Hstep.
  assert (∃ nd, all_nodes g !! it = Some nd) as [nd Hit].
  { unfold FuseWithListUnpack_at in Hstep.
    apply bind_Some in Hstep as (nd & ? & _). by exists nd. }
  unfold FuseWithListUnpack_at in Hstep. rewrite Hit in Hstep. simpl in Hstep.
  case_decide as Hkind; [|by injection Hstep as <-].
  pose proof Hstep as Hrun. unfold FuseWithListUnpack in Hrun.
  apply bind_Some in Hrun as (found & Hfound & Hrun).
  destruct found as [u|]; [|by injection Hrun as <-].
  destruct (proj1 (FindFusibleListUnpack_fusible it g nd u Hit) Hfound)
    as (out & val & off & lu & Houts & Hval & Huses & Hu & Hklu).
  rewrite Hit in Hrun. simpl in Hrun.
  case_decide; [|done].
  rewrite Hu in Hrun. simpl in Hrun.
  apply bind_Some in Hrun as (g1 & Hattr & Hrun).
  case_decide; [done|]. case_decide as Hlen; [|done].
  destruct (FuseWithListUnpack_fuses it g nd out val u off lu)
    as (g2 & news & Hfuse & _ & _ & _ & _ & _ & _ & _ & _ & _ & _ & Hg2 & Hself2);
    try done.
  rewrite Hstep in Hfuse. by injection Hfuse as <-.
Qed.

Lemma foldM_keeps {A S} (J : S → Prop) (f : A → S → option S) l :
  (∀ x s s', f x s = Some s' → J s → J s') →
  ∀ s s', foldM f l s = Some s' → J s → J s'.
Proof.
  intros Hf.
  apply (foldM_preserves (λ s s', J s → J s') f l); [done|by auto|].
  intros x s s' _. apply Hf.
Qed.

(** What the loop of the fusion has in hand when it comes to a node of a
    well-formed graph. *)
Lemma FuseWithListUnpack_reaches g it g1 rest :
  wf g →
  reaches FuseWithListUnpack_at g it g1 rest →
  consistent g1 ∧ unpacks_read_no_own_output g1.
Proof.
  intros Hwf (before & _ & Hrun).
  apply (foldM_keeps (λ s, consistent s ∧ unpacks_read_no_own_output s)
           FuseWithListUnpack_at before) with (s := g); [|done|].
  - intros n s s' Hstep [Hs Hself]. by eapply FuseWithListUnpack_at_keeps.
  - split; [by apply wf_consistent|by apply wf_unpacks_read_no_own_output].
Qed.

(** C4: when the loop of the ListUnpack fusion, run on a well-formed graph,
    comes to a node of a trigger kind, the node is fused exactly when, in
    the graph the loop has in hand, it has one output, that output has one
    use, and the user is a
    [prim::ListUnpack] node, which is the node the search returns.  When it
    is, the node gets the attribute [_outputs] and as many new outputs as
    the ListUnpack node has, the ListUnpack node loses its inputs, and the
    pass goes on from that graph, which is not the one it had; in every
    other case the node and the graph are left unchanged and the pass goes
    on from the graph it had. *)
Theorem C4_fused_iff_fusible g it g1 rest nd :
  reaches FuseWithListUnpack_at g it g1 rest →
  wf g →
  all_nodes g1 !! it = Some nd →
  kind nd ∈ fusible_kinds →
  (∀ u, FindFusibleListUnpack it g1 = Some (Some u) ↔ fusible g1 nd u) ∧
  (∀ u lu,
     fusible g1 nd u →
     all_nodes g1 !! u = Some lu →
     (Z.of_nat (length (outputs lu)) ≤ INT_MAX)%Z →
     ∃ g2 nd2,
       FuseWithListUnpack_at it g1 = Some g2 ∧
       all_nodes g2 !! it = Some nd2 ∧
       kind nd2 = kind nd ∧
       length (outputs nd2) = length (outputs lu) ∧
       (∀ o, o ∈ outputs nd2 → all_values g1 !! o = None) ∧
       attributes nd2
       = set_attr attr._outputs (IntAttr (Z.of_nat (length (outputs lu))))
           (attributes nd) ∧
       all_nodes g2 !! u = Some (set_inputs [] lu) ∧
       g2 ≠ g1 ∧
       FuseWithListUnpack_Block (block g) g
       = foldM FuseWithListUnpack_at rest g2) ∧
  ((∀ u, ¬ fusible g1 nd u) →
   FuseWithListUnpack_at it g1 = Some g1 ∧
   FuseWithListUnpack_Block (block g) g = foldM FuseWithListUnpack_at rest g1).
Proof.
  intros Hreach Hwf Hit Hkind.
  pose proof (reaches_run _ _ _ _ _ Hreach) as Hrun.
  rewrite <- FuseWithListUnpack_Block_steps in Hrun.
  destruct (FuseWithListUnpack_reaches g it g1 rest Hwf Hreach) as [Hg1 Hself1].
  split; [intros u; by apply FindFusibleListUnpack_fusible|].
  split.
  - intros u lu Hfus Hu Hlen.
    destruct Hfus as (out & val & off & lu' & Houts & Hval & Huses & Hu' & Hklu).
    rewrite Hu in Hu'. injection Hu' as <-.
    destruct (FuseWithListUnpack_fuses it g1 nd out val u off lu)
      as (g2 & news & Hfuse & Hlnews & _ & Hfresh & Hit2 & _ & _ & Hu2 & _);
      try done.
    assert (Hstep : FuseWithListUnpack_at it g1 = Some g2).
    { unfold FuseWithListUnpack_at. rewrite Hit. simpl.
      by rewrite decide_True. }
    exists g2. eexists. split; [exact Hstep|].
    split; [exact Hit2|]. simpl. split; [done|]. split; [done|].
    split; [done|]. split; [done|]. split; [done|]. split.
    + intros ->. rewrite Hu in Hu2. injection Hu2 as Hins.
      destruct (consistent_use g1 Hg1 out val (mkUse u off) Hval)
        as (ud & Hud & Hoff); [rewrite Huses; left|].
      simpl in *. rewrite Hu in Hud. injection Hud as <-.
      apply (f_equal inputs) in Hins. simpl in Hins.
      rewrite Hins in Hoff. by rewrite lookup_nil in Hoff.
    + by rewrite Hrun, Hstep.
  - intros Hno.
    assert (Hstep : FuseWithListUnpack_at it g1 = Some g1).
    { unfold FuseWithListUnpack_at. rewrite Hit. simpl.
      rewrite decide_True by done. unfold FuseWithListUnpack.
      by rewrite (FindFusibleListUnpack_not_fusible it g1 nd). }
    split; [done|]. by rewrite Hrun, Hstep.
Qed.

Lemma C4_fused_iff_fusible_witness :
  (∃ g2, FuseWithListUnpack_at 4 Examples.split_graph = Some g2 ∧
         all_nodes g2 !! 5 = Some (mkNode prim.ListUnpack [] [4; 5; 6] []) ∧
         FuseWithListUnpack_Block (block Examples.split_graph) Examples.split_graph
         = foldM FuseWithListUnpack_at [5] g2) ∧
  FuseWithListUnpack_Block (block Examples.split_two_uses_graph)
    Examples.split_two_uses_graph
  = foldM FuseWithListUnpack_at [5; 6] Examples.split_two_uses_graph.
Proof.
  split.
  - destruct (proj1 (proj2 (C4_fused_iff_fusible Examples.split_graph 4
                Examples.split_graph [5]
                (mkNode aten.split_with_sizes [0; 1; 2] [3] [])
                ltac:(by exists [2; 3])
                ltac:(apply (bool_decide_unpack _); vm_compute; exact I)
                eq_refl
                ltac:(apply (bool_decide_unpack _); vm_compute; exact I)))
              5 (mkNode prim.ListUnpack [3] [4; 5; 6] []))
      as (g2 & nd2 & Hstep & _ & _ & _ & _ & _ & Hu & _ & Hpass).
    + exists 3, (mkValue (ListType (TensorType None None)) 4 [mkUse 5 0]), 0,
        (mkNode prim.ListUnpack [3] [4; 5; 6] []). done.
    + reflexivity.
    + vm_compute. discriminate.
    + exists g2. split; [exact Hstep|]. split; [exact Hu|exact Hpass].
  - apply (proj2 (proj2 (C4_fused_iff_fusible Examples.split_two_uses_graph 4
                Examples.split_two_uses_graph [5; 6]
                (mkNode aten.split_with_sizes [0; 1; 2] [3] [])
                ltac:(by exists [2; 3])
                ltac:(apply (bool_decide_unpack _); vm_compute; exact I)
                eq_refl
                ltac:(apply (bool_decide_unpack _); vm_compute; exact I)))).
    intros u (out & val & off & lu & Houts & Hval & Huses & _).
    injection Houts as <-. vm_compute in Hval. injection Hval as <-.
    discriminate.
Defined.

(** ** The indexed-put pass *)

(** C6, as stated, fails: the pass does not replace every [index_put_] node
    that, in the graph it is given, has a [Bool] mask and a value of known
    rank.  In [%4 = index_put_(%x, [%c], %v)] followed by
    [%6 = index_put_(%x, [%c], %4)] the first node is replaced by a
    [masked_fill] node, whose output has no known rank; the second node,
    which now reads that output as its value, is left in place. *)
Lemma C6_later_index_put_left_in_place :
  ¬ (∀ g g' it nd idx ival lc mask mval rk value vval st rank,
       wf g →
       all_nodes g !! it = Some nd →
       kind nd = aten.index_put_ →
       input 1 nd = Some idx →
       all_values g !! idx = Some ival →
       all_nodes g !! node ival = Some lc →
       input 0 lc = Some mask →
       all_values g !! mask = Some mval →
       type mval = TensorType (Some Bool) rk →
       input 2 nd = Some value →
       all_values g !! value = Some vval →
       type vval = TensorType st (Some rank) →
       ReplaceIndexPutWithMaskedScatter (block g) g = Some g' →
       all_nodes g' !! it = None).
Proof.
  intros H.
  destruct (ReplaceIndexPutWithMaskedScatter
              (block Examples.index_put_chain_graph)
              Examples.index_put_chain_graph) as [g'|] eqn:Hrun;
    [|vm_compute in Hrun; discriminate].
  specialize (H Examples.index_put_chain_graph g' 5
                (mkNode aten.index_put_ [0; 5; 4] [6] []) 5
                (mkValue (ListType (OptionalType (TensorType None None))) 4
                   [mkUse 5 1])
                (mkNode prim.ListConstruct [1] [5] []) 1
                (mkValue (TensorType (Some Bool) (Some 3)) 0
                   [mkUse 2 0; mkUse 4 0])
                (Some 3) 4 (mkValue Examples.Float3 3 [mkUse 5 2])
                (Some Float) 3).
  vm_compute in Hrun. injection Hrun as <-.
  assert (Hwf : wf Examples.index_put_chain_graph).
  { apply (bool_decide_unpack _). vm_compute. exact I. }
  specialize (H Hwf eq_refl eq_refl eq_refl eq_refl eq_refl eq_refl eq_refl
                eq_refl eq_refl eq_refl eq_refl eq_refl).
  vm_compute in H. discriminate.
Qed.

Lemma ranked_lt rank g n nd p pd v :
  ranked rank g →
  all_nodes g !! n = Some nd → all_nodes g !! p = Some pd →
  v ∈ inputs nd → v ∈ outputs pd → rank p < rank n.
Proof.
  intros Hr Hn Hp Hv Hvo. specialize (Hr n nd Hn p pd Hp).
  rewrite Forall_forall in Hr. by apply (Hr v).
Qed.

Lemma ranked_intro rank g :
  (∀ n nd p pd v,
     all_nodes g !! n = Some nd → all_nodes g !! p = Some pd →
     v ∈ inputs nd → v ∈ outputs pd → rank p < rank n) →
  ranked rank g.
Proof.
  intros H n nd Hn p pd Hp. apply Forall_forall. intros v Hv Hvo.
  by apply (H n nd p pd v).
Qed.

(** A consistent graph without a cycle is well formed. *)
Lemma ranked_wf rank g : consistent g → ranked rank g → wf g.
Proof.
  intros Hg Hr. split; [done|]. intros n nd Hn.
  unfold reads_no_own_output. apply Forall_forall. intros v Hv Hvo.
  pose proof (ranked_lt rank g n nd n nd v Hr Hn Hn Hv Hvo). lia.
Qed.

(** In a graph without a cycle the mask of an [index_put_] node is not its
    output. *)
Lemma ranked_mask_not_output rank g it nd idx ival lc mask out :
  consistent g → ranked rank g →
  all_nodes g !! it = Some nd →
  input 1 nd = Some idx →
  all_values g !! idx = Some ival →
  all_nodes g !! node ival = Some lc →
  input 0 lc = Some mask →
  out ∈ outputs nd →
  mask ≠ out.
Proof.
  intros Hg Hr Hit Hin1 Hival Hlc Hmask Hout ->.
  destruct (consistent_producer g Hg idx ival Hival) as (lc' & Hlc' & Hidx).
  rewrite Hlc in Hlc'. injection Hlc' as <-.
  pose proof (ranked_lt rank g it nd (node ival) lc idx Hr Hit Hlc
                (input_elem_of 1 nd idx Hin1) Hidx).
  pose proof (ranked_lt rank g (node ival) lc it nd out Hr Hlc Hit
                (input_elem_of 0 lc out Hmask) Hout).
  lia.
Qed.

Lemma blocks_in_unlink_nil n x b :
  blocks_in x b = [] → blocks_in x (unlink n b) = [].
Proof.
  induction b as [p r ns IH] using Block_nested_ind. simpl. intros Hnil.
  rewrite flat_map_flat_map.
  induction IH as [|[m bs] ns Hbs _ IHns]; [done|]. simpl in *.
  apply app_eq_nil in Hnil as [Hm Hnil].
  rewrite (IHns Hnil), app_nil_r.
  destruct (decide (m = n)) as [->|Hne]; simpl; [done|].
  rewrite app_nil_r.
  destruct (decide (m = x)) as [->|Hmx].
  - by subst bs.
  - clear IHns Hnil. induction Hbs as [|b bs Hb _ IHbs]; [done|]. simpl in *.
    apply app_eq_nil in Hm as [Hb' Hm]. by rewrite (Hb Hb'), (IHbs Hm).
Qed.

(** A round of the indexed-put pass leaves the graph as it is or finds the
    whole pattern. *)
Lemma ReplaceIndexPutWithMaskedScatter_at_cases it g g' :
  ReplaceIndexPutWithMaskedScatter_at it g = Some g' →
  g' = g ∨
  ∃ nd dest idx value ival lc mask mval vval rk st rank,
    all_nodes g !! it = Some nd ∧ kind nd = aten.index_put_ ∧
    input 0 nd = Some dest ∧ input 1 nd = Some idx ∧ input 2 nd = Some value ∧
    all_values g !! idx = Some ival ∧ all_nodes g !! node ival = Some lc ∧
    input 0 lc = Some mask ∧ all_values g !! mask = Some mval ∧
    type mval = TensorType (Some Bool) rk ∧
    all_values g !! value = Some vval ∧
    type vval = TensorType st (Some rank).
Proof.
  unfold ReplaceIndexPutWithMaskedScatter_at, index_put_body.
  intros (nd & Hit & Hrun)%bind_Some.
  case_decide as Hkind; [|injection Hrun as <-; by left].
  apply bind_Some in Hrun as (idx & Hin1 & (ival & Hival & (lc & Hlc & (mask & Hmask &
            (mval & Hmval & Hrun)%bind_Some)%bind_Some)%bind_Some)%bind_Some).
  destruct (type mval) as [[[]|] rk| | | | | |] eqn:Htm; simpl in Hrun;
    try (injection Hrun as <-; by left).
  destruct (inputs_size_guard _); [injection Hrun as <-; by left|].
  apply bind_Some in Hrun as (value & Hin2 & (vval & Hvval & Hrun)%bind_Some).
  destruct (type vval) as [st [rank|]| | | | | |] eqn:Htv; simpl in Hrun;
    try (injection Hrun as <-; by left).
  right.
  assert (∃ dest, input 0 nd = Some dest) as [dest Hin0].
  { unfold input in *. destruct (inputs nd) as [|d ?]; [done|]. by exists d. }
  exists nd, dest, idx, value, ival, lc, mask, mval, vval, rk, st, rank.
  done.
Qed.

(** The rewrite of an [index_put_] node of a graph without a cycle makes no
    cycle: the new node takes the rank of the node it replaces. *)
Lemma index_put_rewrite_ranked
    rank it g g' c co nd dest idx value ival lc mask out k :
  consistent g → ranked rank g → consistent g' →
  all_nodes g !! it = Some nd →
  input 0 nd = Some dest → input 1 nd = Some idx → input 2 nd = Some value →
  all_values g !! idx = Some ival → all_nodes g !! node ival = Some lc →
  input 0 lc = Some mask →
  out ∈ outputs nd →
  all_nodes g !! c = None → all_values g !! co = None →
  all_nodes g' !! c = Some (mkNode k [dest; mask; value] [co] []) →
  (∀ m md', all_nodes g' !! m = Some md' →
     m = c ∨
     m ≠ it ∧ ∃ md, all_nodes g !! m = Some md ∧
                    md' = subst_inputs (subst_value out co) md) →
  ranked (λ x, if decide (x = c) then rank it else rank x) g'.
Proof.
  intros Hg Hr Hg' Hit Hin0 Hin1 Hin2 Hival Hlc Hmask Hout Hc Hco Hc' Hconv.
  destruct (consistent_producer g Hg idx ival Hival) as (lc' & Hlc' & Hidx).
  rewrite Hlc in Hlc'. injection Hlc' as <-.
  assert (Hold : ∀ m md y, all_nodes g !! m = Some md → y ∈ inputs md → y ≠ co).
  { intros m md y Hm Hy ->. apply list_elem_of_lookup in Hy as [j Hj].
    destruct (consistent_input g Hg m md j co Hm Hj) as (? & ? & _). congruence. }
  assert (Hold_out : ∀ m md y, all_nodes g !! m = Some md → y ∈ outputs md → y ≠ co).
  { intros m md y Hm Hy ->.
    destruct (consistent_output g Hg m md co Hm Hy) as (? & ? & _). congruence. }
  assert (Hnew : ∀ p pd v, all_nodes g !! p = Some pd → v ∈ outputs pd →
                           v ∈ [dest; mask; value] → rank p < rank it).
  { intros p pd v Hp Hv Hin.
    apply elem_of_cons in Hin as [->|Hin].
    { apply (ranked_lt rank g it nd p pd dest Hr Hit Hp); [|done].
      by apply (input_elem_of 0). }
    apply elem_of_cons in Hin as [->|Hin].
    { pose proof (ranked_lt rank g (node ival) lc p pd mask Hr Hlc Hp
                    (input_elem_of 0 lc mask Hmask) Hv).
      pose proof (ranked_lt rank g it nd (node ival) lc idx Hr Hit Hlc
                    (input_elem_of 1 nd idx Hin1) Hidx).
      lia. }
    apply list_elem_of_singleton in Hin as ->.
    apply (ranked_lt rank g it nd p pd value Hr Hit Hp); [|done].
    by apply (input_elem_of 2). }
  apply ranked_intro. intros n' nd' p' pd' v Hn' Hp' Hv Hvo.
  destruct (Hconv p' pd' Hp') as [->|(Hp_it & mdp & Hmdp & ->)].
  - (* the value is the new output *)
    rewrite Hc' in Hp'. injection Hp' as <-. simpl in Hvo.
    apply list_elem_of_singleton in Hvo as ->.
    rewrite decide_True by done.
    destruct (Hconv n' nd' Hn') as [->|(Hn_it & mdn & Hmdn & ->)].
    + rewrite Hc' in Hn'. injection Hn' as <-. simpl in Hv.
      exfalso.
      apply elem_of_cons in Hv as [Heq|Hv].
      { apply (Hold it nd dest Hit (input_elem_of 0 nd dest Hin0)). by symmetry. }
      apply elem_of_cons in Hv as [Heq|Hv].
      { apply (Hold (node ival) lc mask Hlc (input_elem_of 0 lc mask Hmask)).
        by symmetry. }
      apply list_elem_of_singleton in Hv.
      apply (Hold it nd value Hit (input_elem_of 2 nd value Hin2)). by symmetry.
    + assert (n' ≠ c) by congruence. rewrite decide_False by done.
      simpl in Hv. apply list_elem_of_In, in_map_iff in Hv as (y & Hy & Hyin).
      apply list_elem_of_In in Hyin. unfold subst_value in Hy.
      case_decide as Hyo; [subst y|subst y; by destruct (Hold n' mdn co Hmdn Hyin)].
      by apply (ranked_lt rank g n' mdn it nd out Hr Hmdn Hit).
  - (* the value is a value of the graph as it was *)
    assert (p' ≠ c) by congruence. rewrite (decide_False (P := p' = c)) by done.
    simpl in Hvo.
    destruct (Hconv n' nd' Hn') as [->|(Hn_it & mdn & Hmdn & ->)].
    + rewrite Hc' in Hn'. injection Hn' as <-. simpl in Hv.
      rewrite decide_True by done. by apply (Hnew p' mdp v).
    + assert (n' ≠ c) by congruence. rewrite decide_False by done.
      simpl in Hv. apply list_elem_of_In, in_map_iff in Hv as (y & Hy & Hyin).
      apply list_elem_of_In in Hyin. unfold subst_value in Hy.
      case_decide as Hyo;
        [rewrite <- Hy in Hvo; by destruct (Hold_out p' mdp co Hmdp Hvo)|].
      subst y. by apply (ranked_lt rank g n' mdn p' mdp v Hr Hmdn Hmdp).
Qed.

(** A round of the indexed-put pass keeps the invariant of the loop. *)
Lemma index_put_round_keeps n todo s s' :
  n ∉ todo →
  index_put_invariant (n :: todo) s →
  ReplaceIndexPutWithMaskedScatter_at n s = Some s' →
  index_put_invariant todo s'.
Proof.
  intros Hn (Hs & [rank Hr] & Htodo) Hstep.
  destruct (ReplaceIndexPutWithMaskedScatter_at_cases n s s' Hstep)
    as [->|(nd & dest & idx & value & ival & lc & mask & mval & vval & rk & st
            & rank_v & Hit & Hkind & Hin0 & Hin1 & Hin2 & Hival & Hlc & Hmask
            & Hmval & Htm & Hvval & Htv)].
  { split; [done|]. split; [by exists rank|].
    intros x Hx. apply Htodo. by right. }
  destruct (Htodo n) as [Hblock Hone]; [left|].
  destruct (Hone nd Hit Hkind) as [Hlen Hblocks].
  destruct (outputs nd) as [|out [|? ?]] eqn:Houts; try done.
  destruct (consistent_output s Hs n nd out Hit) as (oval & Hout & _);
    [rewrite Houts; left|].
  destruct (index_put_rewrite_spec n s nd dest idx value ival lc mask mval vval
              rk st rank_v out oval)
    as (g' & c & co & Hstep' & Hc & Hco & Hc' & _ & Hnodes' & Hother & Hgone
        & _ & _ & Hwf' & Hconv & Hblock'); try done.
  { by apply (ranked_wf rank). }
  { apply (ranked_mask_not_output rank s n nd idx ival lc mask out); try done.
    rewrite Houts. left. }
  rewrite Hstep in Hstep'. injection Hstep' as <-.
  pose proof (wf_consistent s' Hwf') as Hs'.
  split; [done|]. split.
  { eexists.
    apply (index_put_rewrite_ranked rank n s s' c co nd dest idx value ival lc
             mask out
             (if decide (rank_v = 0) then aten.masked_fill
              else aten.masked_scatter)
             Hs Hr Hs' Hit Hin0 Hin1 Hin2 Hival Hlc Hmask); try done.
    rewrite Houts. left. }
  intros x Hx.
  assert (Hxn : x ≠ n) by (by intros ->).
  destruct (Htodo x) as [Hxblock Hxone]; [by right|].
  split.
  { rewrite Hnodes'. apply list_elem_of_In, in_flat_map. exists x.
    split; [by apply list_elem_of_In|].
    rewrite decide_False by done. by left. }
  intros d' Hd' Hkd'.
  destruct (Hconv x d' Hd') as [->|(_ & d & Hd & ->)].
  { rewrite Hc' in Hd'. injection Hd' as <-. simpl in Hkd'.
    by destruct (decide (rank_v = 0)). }
  destruct (Hxone d Hd Hkd') as [Hdlen Hdblocks].
  split; [done|].
  unfold blocks in *. rewrite Hblock'.
  apply blocks_in_unlink_nil. by rewrite blocks_in_link_before, Hdblocks.
Qed.

(** The same for the rounds of a run of the loop. *)
Lemma index_put_rounds_keep : ∀ before todo s s1,
  NoDup (before ++ todo) →
  index_put_invariant (before ++ todo) s →
  foldM ReplaceIndexPutWithMaskedScatter_at before s = Some s1 →
  index_put_invariant todo s1.
Proof.
  induction before as [|n before IH]; intros todo s s1 Hnd Hinv Hrun.
  { by injection Hrun as <-. }
  rewrite foldM_cons in Hrun. apply bind_Some in Hrun as (s' & Hstep & Hrun).
  simpl in Hnd. apply NoDup_cons in Hnd as [Hn Hnd].
  apply (IH todo s' s1 Hnd); [|done].
  by apply (index_put_round_keeps n (before ++ todo) s s').
Qed.

(** What the loop of the indexed-put pass has in hand when it comes to a
    node of a consistent graph without a cycle. *)
Lemma ReplaceIndexPutWithMaskedScatter_reaches rank g it g1 rest :
  consistent g → ranked rank g →
  NoDup (visit_order (block g)) →
  (∀ n nd, n ∈ block_nodes (block g) → all_nodes g !! n = Some nd →
           kind nd = aten.index_put_ →
           length (outputs nd) = 1 ∧ blocks n g = []) →
  reaches ReplaceIndexPutWithMaskedScatter_at g it g1 rest →
  index_put_invariant (it :: rest) g1.
Proof.
  intros Hg Hr Hnd Hput (before & Hvo & Hrun).
  apply (index_put_rounds_keep before (it :: rest) g g1); [by rewrite <- Hvo| |done].
  split; [done|]. split; [by exists rank|].
  intros x Hx. rewrite <- Hvo in Hx. apply elem_of_visit_order in Hx.
  split; [done|]. intros d Hd Hk. by apply (Hput x d).
Qed.

(** C6, amended: take a consistent graph without a cycle, each node at one
    place of the block tree, whose [index_put_] nodes have one output and no
    nested block.  When the loop of the indexed-put pass, run on that graph,
    comes to an [index_put_] node that, in the graph the loop has in hand,
    has a [Bool] tensor as mask (first input of the producer of the index
    list) and a tensor of known rank as value, the node is replaced: a new
    node, [aten::masked_fill] for rank 0 and [aten::masked_scatter]
    otherwise, with the inputs (dest, mask, value) and one output, stands in
    the block where the node stood; every input slot that read the output of
    the node reads the new output, whose use list is the one the old output
    had; the input edges of the node are gone from the use lists, and the
    node and its output are freed; the graph is well formed, and the pass
    goes on from it. *)
Theorem C6_index_put_becomes_masked
    rank g it g1 rest nd dest idx value ival lc mask mval vval rk st rank_v :
  consistent g →
  ranked rank g →
  NoDup (visit_order (block g)) →
  (∀ n nd, n ∈ block_nodes (block g) → all_nodes g !! n = Some nd →
           kind nd = aten.index_put_ →
           length (outputs nd) = 1 ∧ blocks n g = []) →
  reaches ReplaceIndexPutWithMaskedScatter_at g it g1 rest →
  all_nodes g1 !! it = Some nd →
  kind nd = aten.index_put_ →
  input 0 nd = Some dest →
  input 1 nd = Some idx →
  input 2 nd = Some value →
  all_values g1 !! idx = Some ival →
  all_nodes g1 !! node ival = Some lc →
  input 0 lc = Some mask →
  all_values g1 !! mask = Some mval →
  type mval = TensorType (Some Bool) rk →
  all_values g1 !! value = Some vval →
  type vval = TensorType st (Some rank_v) →
  ∃ out oval g2 masked_node new_out,
    outputs nd = [out] ∧
    all_values g1 !! out = Some oval ∧
    ReplaceIndexPutWithMaskedScatter_at it g1 = Some g2 ∧
    all_nodes g1 !! masked_node = None ∧
    all_values g1 !! new_out = None ∧
    all_nodes g2 !! masked_node
    = Some (mkNode (if decide (rank_v = 0) then aten.masked_fill
                    else aten.masked_scatter)
                   [dest; mask; value] [new_out] []) ∧
    all_values g2 !! new_out
    = Some (mkValue TensorType_get masked_node (uses oval)) ∧
    block_nodes (block g2)
    = flat_map (λ x, if decide (x = it) then [masked_node] else [x])
        (block_nodes (block g1)) ∧
    (∀ m md, m ≠ it → all_nodes g1 !! m = Some md →
             all_nodes g2 !! m = Some (subst_inputs (subst_value out new_out) md)) ∧
    all_nodes g2 !! it = None ∧
    all_values g2 !! out = None ∧
    (∀ i v, inputs nd !! i = Some v →
            ∃ val', all_values g2 !! v = Some val' ∧ mkUse it i ∉ uses val') ∧
    wf g2 ∧
    ReplaceIndexPutWithMaskedScatter (block g) g
    = foldM ReplaceIndexPutWithMaskedScatter_at rest g2.
Proof.
  intros Hg Hr Hnd Hput Hreach Hit Hkind Hin0 Hin1 Hin2 Hival Hlc Hmask Hmval Htm
    Hvval Htv.
  pose proof (reaches_run _ _ _ _ _ Hreach) as Hrun.
  rewrite <- ReplaceIndexPutWithMaskedScatter_steps in Hrun.
  destruct (ReplaceIndexPutWithMaskedScatter_reaches rank g it g1 rest
              Hg Hr Hnd Hput Hreach) as (Hg1 & [rank1 Hr1] & Htodo).
  destruct (Htodo it) as [Hblock Hone]; [left|].
  destruct (Hone nd Hit Hkind) as [Hlen Hblocks].
  destruct (outputs nd) as [|out [|? ?]] eqn:Houts; try done.
  destruct (consistent_output g1 Hg1 it nd out Hit) as (oval & Hout & _);
    [rewrite Houts; left|].
  destruct (index_put_rewrite_spec it g1 nd dest idx value ival lc mask mval vval
              rk st rank_v out oval)
    as (g2 & c & co & Hstep & H1 & H2 & H3 & H4 & H5 & H6 & H7 & H8 & H9 & H10 & _);
    try done.
  { by apply (ranked_wf rank1). }
  { apply (ranked_mask_not_output rank1 g1 it nd idx ival lc mask out); try done.
    rewrite Houts. left. }
  exists out, oval, g2, c, co. split; [done|]. split; [done|].
  split; [exact Hstep|].
  repeat (split; [assumption|]). by rewrite Hrun, Hstep.
Qed.

Lemma C6_index_put_becomes_masked_witness :
  (∃ g2 masked_node new_out,
     ReplaceIndexPutWithMaskedScatter_at 3 Examples.index_put_chain_graph = Some g2 ∧
     all_nodes g2 !! masked_node
     = Some (mkNode aten.masked_fill [0; 1; 2] [new_out] []) ∧
     all_nodes g2 !! 3 = None ∧
     ReplaceIndexPutWithMaskedScatter (block Examples.index_put_chain_graph)
       Examples.index_put_chain_graph
     = foldM ReplaceIndexPutWithMaskedScatter_at [4; 5] g2) ∧
  (∃ g1 g2 masked_node new_out,
     foldM ReplaceIndexPutWithMaskedScatter_at [2; 3; 4]
       Examples.index_put_twice_graph = Some g1 ∧
     ReplaceIndexPutWithMaskedScatter_at 5 g1 = Some g2 ∧
     all_nodes g2 !! masked_node
     = Some (mkNode aten.masked_fill [7; 1; 2] [new_out] []) ∧
     all_nodes g2 !! 5 = None ∧
     ReplaceIndexPutWithMaskedScatter (block Examples.index_put_twice_graph)
       Examples.index_put_twice_graph
     = Some g2).
Proof.
  split.
  - destruct (C6_index_put_becomes_masked
                (λ n, if decide (n = 1) then 9 else n)
                Examples.index_put_chain_graph 3
                Examples.index_put_chain_graph [4; 5]
                (mkNode aten.index_put_ [0; 3; 2] [4] []) 0 3 2
                (mkValue (ListType (OptionalType (TensorType None None))) 2
                   [mkUse 3 1])
                (mkNode prim.ListConstruct [1] [3] []) 1
                (mkValue (TensorType (Some Bool) (Some 3)) 0 [mkUse 2 0; mkUse 4 0])
                (mkValue (TensorType (Some Float) (Some 0)) 0 [mkUse 3 2])
                (Some 3) (Some Float) 0
                ltac:(apply (bool_decide_unpack _); vm_compute; exact I)
                ltac:(apply (bool_decide_unpack _); vm_compute; exact I)
                ltac:(apply (bool_decide_unpack _); vm_compute; exact I))
      as (out & oval & g2 & c & co & _ & _ & Hstep & _ & _ & Hc & _ & _ & _ & Hit
          & _ & _ & _ & Hpass); try reflexivity.
    + intros n nd' Hn Hnd' Hk.
      change (n ∈ [2; 3; 4; 5]) in Hn.
      repeat (apply elem_of_cons in Hn as [->|Hn];
              [vm_compute in Hnd'; injection Hnd' as <-;
               try discriminate; split; reflexivity|]).
      by apply elem_of_nil in Hn.
    + by exists [2].
    + exists g2, c, co. split; [exact Hstep|]. split; [exact Hc|].
      split; [exact Hit|exact Hpass].
  - assert (Hput : ∀ n nd', n ∈ block_nodes (block Examples.index_put_twice_graph) →
              all_nodes Examples.index_put_twice_graph !! n = Some nd' →
              kind nd' = aten.index_put_ →
              length (outputs nd') = 1 ∧
              blocks n Examples.index_put_twice_graph = []).
    { intros n nd' Hn Hnd' Hk.
      change (n ∈ [2; 3; 4; 5]) in Hn.
      repeat (apply elem_of_cons in Hn as [->|Hn];
              [vm_compute in Hnd'; injection Hnd' as <-;
               try discriminate; split; reflexivity|]).
      by apply elem_of_nil in Hn. }
    destruct (foldM ReplaceIndexPutWithMaskedScatter_at [2; 3; 4]
                Examples.index_put_twice_graph) as [g1|] eqn:Hrun1;
      [|vm_compute in Hrun1; discriminate].
    assert (Hnd : all_nodes g1 !! 5 = Some (mkNode aten.index_put_ [7; 5; 2] [6] [])).
    { vm_compute in Hrun1. injection Hrun1 as <-. reflexivity. }
    assert (Hival : all_values g1 !! 5
                    = Some (mkValue (ListType (OptionalType (TensorType None None)))
                              4 [mkUse 5 1])).
    { vm_compute in Hrun1. injection Hrun1 as <-. reflexivity. }
    assert (Hlc : all_nodes g1 !! 4 = Some (mkNode prim.ListConstruct [1] [5] [])).
    { vm_compute in Hrun1. injection Hrun1 as <-. reflexivity. }
    assert (Hmval : all_values g1 !! 1
                    = Some (mkValue (TensorType (Some Bool) (Some 3)) 0
                              [mkUse 2 0; mkUse 4 0; mkUse 6 1])).
    { vm_compute in Hrun1. injection Hrun1 as <-. reflexivity. }
    assert (Hvval : all_values g1 !! 2
                    = Some (mkValue (TensorType (Some Float) (Some 0)) 0
                              [mkUse 5 2; mkUse 6 2])).
    { vm_compute in Hrun1. injection Hrun1 as <-. reflexivity. }
    assert (Hreach : reaches ReplaceIndexPutWithMaskedScatter_at
                       Examples.index_put_twice_graph 5 g1 []).
    { exists [2; 3; 4]. split; [reflexivity|exact Hrun1]. }
    assert (Hg : consistent Examples.index_put_twice_graph).
    { apply (bool_decide_unpack _). vm_compute. exact I. }
    assert (Hr : ranked (λ n, if decide (n = 1) then 9 else n)
                   Examples.index_put_twice_graph).
    { apply (bool_decide_unpack _). vm_compute. exact I. }
    assert (Hnodup : NoDup (visit_order (block Examples.index_put_twice_graph))).
    { apply (bool_decide_unpack _). vm_compute. exact I. }
    pose proof (C6_index_put_becomes_masked
                (λ n, if decide (n = 1) then 9 else n)
                Examples.index_put_twice_graph 5 g1 []
                (mkNode aten.index_put_ [7; 5; 2] [6] []) 7 5 2
                (mkValue (ListType (OptionalType (TensorType None None))) 4
                   [mkUse 5 1])
                (mkNode prim.ListConstruct [1] [5] []) 1
                (mkValue (TensorType (Some Bool) (Some 3)) 0
                   [mkUse 2 0; mkUse 4 0; mkUse 6 1])
                (mkValue (TensorType (Some Float) (Some 0)) 0 [mkUse 5 2; mkUse 6 2])
                (Some 3) (Some Float) 0 Hg Hr Hnodup Hput Hreach
                Hnd eq_refl eq_refl eq_refl eq_refl Hival Hlc eq_refl Hmval
                eq_refl Hvval eq_refl)
      as (out & oval & g2 & c & co & _ & _ & Hstep & _ & _ & Hc & _ & _ & _ & Hit
          & _ & _ & _ & Hpass).
    exists g1, g2, c, co. split; [reflexivity|]. split; [exact Hstep|].
    split; [exact Hc|]. split; [exact Hit|]. exact Hpass.
Defined.

(** ** The list-index expansion pass *)

(** What the loop of the list-index expansion has in hand when it comes to
    a node of a well-formed graph. *)
Lemma fuseListAndListUnpack_reaches g it g1 rest :
  wf g →
  reaches fuseListAndListUnpack_at g it g1 rest →
  expansion_invariant g g1 ∧ it ∈ block_nodes (block g1).
Proof.
  intros Hwf Hreach. pose proof (wf_consistent g Hwf) as Hg.
  pose proof (reaches_elem_of _ _ _ _ _ Hreach) as Hit.
  destruct (reaches_before _ _ _ _ _ Hreach) as (before & Hbefore & Hrun).
  destruct (foldM_invariant (expansion_invariant g) fuseListAndListUnpack_at
              before) with (s := g) as (g1' & Hrun' & Hinv).
  - intros n s Hn Hs. apply fuseListAndListUnpack_at_keeps; [done| |done].
    by apply Hbefore.
  - split; [done|]. split; [done|]. split.
    + intros m md Hm. exists md. repeat split; try done.
      destruct Hwf as [_ Hself]. by apply (Hself m).
    + intros x val Hx. by exists val.
  - rewrite Hrun in Hrun'. injection Hrun' as <-. split; [done|].
    destruct Hinv as (_ & Hsub & _). by eapply elem_of_sublist.
Qed.

(** What the loop body of the list-index expansion does at a
    [prim::ListUnpack] node the loop has come to, by the maker and the type
    of the input of the node in the graph the loop has in hand. *)
Lemma list_unpack_expanded_at_reach g it g1 rest nd v val pd :
  wf g →
  reaches fuseListAndListUnpack_at g it g1 rest →
  all_nodes g1 !! it = Some nd →
  kind nd = prim.ListUnpack →
  inputs nd = [v] →
  all_values g1 !! v = Some val →
  all_nodes g1 !! node val = Some pd →
  (kind pd = prim.ListConstruct →
   fuseListAndListUnpack_at it g1 = Some g1 ∧
   fuseListAndListUnpack (block g) g = foldM fuseListAndListUnpack_at rest g1) ∧
  (kind pd ≠ prim.ListConstruct →
   type val = ListType IntType →
   (Z.of_nat (length (outputs nd)) ≤ 2 ^ 31)%Z →
   ∃ g2 rs,
     fuseListAndListUnpack_at it g1 = Some g2 ∧
     length rs = length (outputs nd) ∧
     (∀ i r o oval,
        rs !! i = Some r → outputs nd !! i = Some o →
        all_values g1 !! o = Some oval →
        all_nodes g1 !! index_node r = None ∧
        all_nodes g1 !! element_node r = None ∧
        all_values g1 !! index_value r = None ∧
        all_values g1 !! element_value r = None ∧
        all_nodes g2 !! index_node r
        = Some (mkNode onnx.Constant [] [index_value r]
                  [(attr.value, TensorAttr (mkTensor Long (Z.of_nat i)))]) ∧
        all_nodes g2 !! element_node r
        = Some (mkNode onnx.Gather [v; index_value r] [element_value r] []) ∧
        all_values g2 !! element_value r
        = Some (mkValue TensorType_get (element_node r) (uses oval)) ∧
        all_values g2 !! o = Some (set_uses [] oval) ∧
        subst_values (zip (outputs nd) (element_value <$> rs)) o = element_value r) ∧
     (∀ m md, all_nodes g1 !! m = Some md →
        all_nodes g2 !! m
        = Some (subst_inputs
                  (subst_values (zip (outputs nd) (element_value <$> rs))) md)) ∧
     all_nodes g2 !! it = Some nd ∧
     block_nodes (block g2)
     = flat_map (λ x, if decide (x = it) then expansion_nodes rs ++ [x] else [x])
         (block_nodes (block g1)) ∧
     consistent g2 ∧
     fuseListAndListUnpack (block g) g = foldM fuseListAndListUnpack_at rest g2).
Proof.
  intros Hwf Hreach Hit Hkind Hins Hval Hpd.
  pose proof (reaches_run _ _ _ _ _ Hreach) as Hrun.
  rewrite <- fuseListAndListUnpack_steps in Hrun.
  destruct (fuseListAndListUnpack_reaches g it g1 rest Hwf Hreach)
    as ((Hg1 & _ & Hkeep & _) & Hblock).
  assert (Hv_out : v ∉ outputs nd).
  { destruct (consistent_block_node g (wf_consistent g Hwf) it
                (reaches_elem_of _ _ _ _ _ Hreach)) as [nd0 Hnd0].
    destruct (Hkeep it nd0 Hnd0) as (nd' & Hit' & _ & _ & _ & Hself).
    rewrite Hit in Hit'. injection Hit' as <-.
    unfold reads_no_own_output in Hself. rewrite Forall_forall in Hself.
    apply Hself. rewrite Hins. left. }
  split.
  - intros Hk.
    assert (Hstep : fuseListAndListUnpack_at it g1 = Some g1).
    { apply (fuseListAndListUnpack_at_skip it g1 nd Hit).
      unfold unpacks_opaque_int_list, the_input. rewrite Hit. simpl.
      rewrite Hins. simpl. rewrite Hval. simpl. rewrite Hpd. simpl.
      by rewrite decide_False by (by intros ?). }
    split; [done|]. by rewrite Hrun, Hstep.
  - intros Hk Ht Hlen.
    destruct (gather_loop_spec it nd v (outputs nd) 0 g1)
      as (g2 & rs & Hloop & Hlenrs & Hrs & Hnodes & Hvals & _ & Hblock' & Hg2);
      try done.
    { by exists val, pd. }
    assert (Hstep : fuseListAndListUnpack_at it g1 = Some g2).
    { unfold fuseListAndListUnpack_at. rewrite Hit. simpl.
      by rewrite decide_True by done. }
    assert (Hnew : ∀ x, x ∈ element_value <$> rs → x ∉ outputs nd).
    { intros x Hx Hxo. apply list_elem_of_fmap in Hx as (r & -> & Hr).
      apply list_elem_of_lookup in Hr as [i Hi].
      destruct (lookup_lt_is_Some_2 (outputs nd) i) as [o Ho].
      { rewrite <- Hlenrs. by eapply lookup_lt_Some. }
      destruct (consistent_output g1 Hg1 it nd o Hit) as (oval & Hoval & _);
        [by eapply list_elem_of_lookup_2|].
      destruct (Hrs i r o oval Hi Ho Hoval) as (_ & _ & _ & Hfresh & _).
      destruct (consistent_output g1 Hg1 it nd _ Hit Hxo) as (? & ? & _).
      congruence. }
    exists g2, rs. split; [done|]. split; [done|]. split.
    { intros i r o oval Hr Ho Hoval.
      destruct (Hrs i r o oval Hr Ho Hoval) as (? & ? & ? & ? & Hci & ? & ? & ?).
      simpl in Hci. rewrite to_int_small in Hci.
      2:{ apply lookup_lt_Some in Ho. lia. }
      repeat split; try done.
      apply (subst_values_lookup _ _ i); [|done|done|].
      - exact (consistent_outputs_NoDup g1 Hg1 it nd Hit).
      - by rewrite list_lookup_fmap, Hr. }
    split; [done|]. split.
    { rewrite (Hnodes it nd Hit). f_equal. apply subst_inputs_id.
      intros x Hx. rewrite Hins in Hx. apply list_elem_of_singleton in Hx as ->.
      apply subst_values_notin. rewrite fst_zip; [done|].
      rewrite length_fmap. lia. }
    split; [done|]. split; [done|]. by rewrite Hrun, Hstep.
Qed.

(** A round of the list-index expansion leaves a node as it is when its
    input is not an output of a ListUnpack node. *)
Lemma fuseListAndListUnpack_at_keeps_entry g0 n g1 g2 it nd v val pd :
  consistent g0 →
  n ∈ block_nodes (block g0) →
  expansion_invariant g0 g1 →
  inputs nd = [v] →
  all_values g0 !! v = Some val →
  all_nodes g0 !! node val = Some pd →
  kind pd ≠ prim.ListUnpack →
  all_nodes g1 !! it = Some nd →
  fuseListAndListUnpack_at n g1 = Some g2 →
  all_nodes g2 !! it = Some nd.
Proof.
  intros Hg0 Hn0 (Hg1 & Hsub & Hkeep & Hkeepv) Hins Hval Hpd Hkpd Hit Hstep.
  assert (Hblock : n ∈ block_nodes (block g1)).
  { eapply elem_of_sublist; [exact Hn0|exact Hsub]. }
  destruct (consistent_block_node g1 Hg1 n Hblock) as [nd_n Hn].
  destruct (decide (kind nd_n = prim.ListUnpack)) as [Hkind|Hkind].
  2:{ unfold fuseListAndListUnpack_at in Hstep. rewrite Hn in Hstep.
      simpl in Hstep. rewrite decide_False in Hstep by done.
      by injection Hstep as <-. }
  destruct (unpacks_opaque_int_list_cases n g1 nd_n Hg1 Hn)
    as [Hc|(v_n & val_n & pd_n & Hins_n & Hval_n & Ht_n & Hpd_n & Hk_n)].
  { rewrite (fuseListAndListUnpack_at_skip n g1 nd_n Hn Hc) in Hstep.
    by injection Hstep as <-. }
  destruct (consistent_block_node g0 Hg0 n Hn0) as [nd0 Hnd0].
  destruct (Hkeep n nd0 Hnd0) as (nd' & Hn' & _ & _ & _ & Hself).
  rewrite Hn in Hn'. injection Hn' as <-.
  assert (Hv_out : v_n ∉ outputs nd_n).
  { unfold reads_no_own_output in Hself. rewrite Forall_forall in Hself.
    apply Hself. rewrite Hins_n. left. }
  destruct (gather_loop_spec n nd_n v_n (outputs nd_n) 0 g1)
    as (g' & rs & Hloop & Hlenrs & _ & Hnodes & _); try done.
  { by exists val_n, pd_n. }
  unfold fuseListAndListUnpack_at in Hstep. rewrite Hn in Hstep. simpl in Hstep.
  rewrite decide_True in Hstep by done. rewrite Hloop in Hstep.
  injection Hstep as <-.
  rewrite (Hnodes it nd Hit). f_equal. apply subst_inputs_id.
  intros x Hx. rewrite Hins in Hx. apply list_elem_of_singleton in Hx as ->.
  apply subst_values_notin. rewrite fst_zip by (rewrite length_fmap; lia).
  intros Hv.
  destruct (consistent_output g1 Hg1 n nd_n v Hn Hv) as (val1 & Hval1 & Hnode1).
  destruct (consistent_producer g0 Hg0 v val Hval) as (pd' & Hpd' & Hv_pd).
  rewrite Hpd in Hpd'. injection Hpd' as <-.
  destruct (Hkeep (node val) pd Hpd) as (pd1 & Hpd1 & Hkpd1 & Hopd1 & _).
  destruct (consistent_output g1 Hg1 (node val) pd1 v Hpd1) as (val1' & Hval1' & Hnode1');
    [by rewrite Hopd1|].
  rewrite Hval1 in Hval1'. injection Hval1' as <-.
  assert (Heq : n = node val) by congruence.
  rewrite Heq in Hn. rewrite Hn in Hpd1. injection Hpd1 as <-. congruence.
Qed.

(** The same for the rounds of a run of the loop. *)
Lemma fuseListAndListUnpack_rounds_keep_entry g l it nd v val pd :
  wf g →
  (∀ n, n ∈ l → n ∈ block_nodes (block g)) →
  all_nodes g !! it = Some nd →
  inputs nd = [v] →
  all_values g !! v = Some val →
  all_nodes g !! node val = Some pd →
  kind pd ≠ prim.ListUnpack →
  ∃ g1, foldM fuseListAndListUnpack_at l g = Some g1 ∧
        expansion_invariant g g1 ∧
        all_nodes g1 !! it = Some nd ∧
        ∃ val1 pd1, all_values g1 !! v = Some val1 ∧ type val1 = type val ∧
                    all_nodes g1 !! node val1 = Some pd1 ∧ kind pd1 = kind pd.
Proof.
  intros Hwf Hl Hit Hins Hval Hpd Hkpd.
  pose proof (wf_consistent g Hwf) as Hg.
  destruct (foldM_invariant
              (λ s, expansion_invariant g s ∧ all_nodes s !! it = Some nd)
              fuseListAndListUnpack_at l) with (s := g)
    as (g1 & Hrun & Hinv & Hit1).
  - intros n s Hn [Hs Hits].
    destruct (fuseListAndListUnpack_at_keeps g n s Hg (Hl n Hn) Hs)
      as (s' & Hstep & Hs').
    exists s'. split; [done|]. split; [done|].
    by apply (fuseListAndListUnpack_at_keeps_entry g n s s' it nd v val pd Hg
                (Hl n Hn)).
  - split; [|done]. split; [done|]. split; [done|]. split.
    + intros m md Hm. exists md. repeat split; try done.
      destruct Hwf as [_ Hself]. by apply (Hself m).
    + intros x xval Hx. by exists xval.
  - exists g1. split; [done|]. split; [done|]. split; [done|].
    destruct Hinv as (Hg1 & _ & Hkeep & Hkeepv).
    destruct (Hkeepv v val Hval) as (val1 & Hval1 & Ht1).
    destruct (consistent_producer g Hg v val Hval) as (pd' & Hpd' & Hv_pd).
    rewrite Hpd in Hpd'. injection Hpd' as <-.
    destruct (Hkeep (node val) pd Hpd) as (pd1 & Hpd1 & Hkpd1 & Hopd1 & _).
    destruct (consistent_output g1 Hg1 (node val) pd1 v Hpd1)
      as (val1' & Hval1' & Hnode1); [by rewrite Hopd1|].
    rewrite Hval1 in Hval1'. injection Hval1' as <-.
    exists val1, pd1. rewrite Hnode1. done.
Qed.

(** C8: the list-index expansion, run on a well-formed graph.  When its
    loop comes to a [prim::ListUnpack] node whose one input, in the graph
    the loop has in hand, is an int list not made by a
    [prim::ListConstruct], it adds, for each output index [i], an
    [onnx::Constant] node holding the scalar integer tensor [i] and an
    [onnx::Gather] node reading the list and that constant, all linked in
    before the ListUnpack node in the order of the outputs; every input slot
    that read output [i] reads the output of the [i]-th Gather node, whose
    use list is the one the output had; the ListUnpack node stays in the
    graph as it was; and the pass goes on from that graph.  When the input
    is made by a [prim::ListConstruct], whatever its type, the node and the
    graph are left unchanged.  For a ListUnpack node of the graph the pass
    is given whose input is not itself an output of a ListUnpack node, the
    loop comes to the node, the node is then as it is in the given graph,
    and all of this holds with the maker and the type of the input read in
    the given graph; the pass runs to the end, and the node is in the graph
    it returns as it was. *)
Theorem C8_list_unpack_expanded_to_gathers :
  (∀ g it g1 rest nd v val pd,
     wf g →
     reaches fuseListAndListUnpack_at g it g1 rest →
     all_nodes g1 !! it = Some nd →
     kind nd = prim.ListUnpack →
     inputs nd = [v] →
     all_values g1 !! v = Some val →
     all_nodes g1 !! node val = Some pd →
     (kind pd = prim.ListConstruct →
      fuseListAndListUnpack_at it g1 = Some g1 ∧
      fuseListAndListUnpack (block g) g = foldM fuseListAndListUnpack_at rest g1) ∧
     (kind pd ≠ prim.ListConstruct →
      type val = ListType IntType →
      (Z.of_nat (length (outputs nd)) ≤ 2 ^ 31)%Z →
      ∃ g2 rs,
        fuseListAndListUnpack_at it g1 = Some g2 ∧
        length rs = length (outputs nd) ∧
        (∀ i r o oval,
           rs !! i = Some r → outputs nd !! i = Some o →
           all_values g1 !! o = Some oval →
           all_nodes g1 !! index_node r = None ∧
           all_nodes g1 !! element_node r = None ∧
           all_values g1 !! index_value r = None ∧
           all_values g1 !! element_value r = None ∧
           all_nodes g2 !! index_node r
           = Some (mkNode onnx.Constant [] [index_value r]
                     [(attr.value, TensorAttr (mkTensor Long (Z.of_nat i)))]) ∧
           all_nodes g2 !! element_node r
           = Some (mkNode onnx.Gather [v; index_value r] [element_value r] []) ∧
           all_values g2 !! element_value r
           = Some (mkValue TensorType_get (element_node r) (uses oval)) ∧
           all_values g2 !! o = Some (set_uses [] oval) ∧
           subst_values (zip (outputs nd) (element_value <$> rs)) o = element_value r) ∧
        (∀ m md, all_nodes g1 !! m = Some md →
           all_nodes g2 !! m
           = Some (subst_inputs
                     (subst_values (zip (outputs nd) (element_value <$> rs))) md)) ∧
        all_nodes g2 !! it = Some nd ∧
        block_nodes (block g2)
        = flat_map (λ x, if decide (x = it) then expansion_nodes rs ++ [x] else [x])
            (block_nodes (block g1)) ∧
        consistent g2 ∧
        fuseListAndListUnpack (block g) g = foldM fuseListAndListUnpack_at rest g2)) ∧
  (∀ g it nd v val pd,
     wf g →
     it ∈ block_nodes (block g) →
     all_nodes g !! it = Some nd →
     kind nd = prim.ListUnpack →
     inputs nd = [v] →
     all_values g !! v = Some val →
     all_nodes g !! node val = Some pd →
     kind pd ≠ prim.ListUnpack →
     (∃ g', fuseListAndListUnpack (block g) g = Some g' ∧
            all_nodes g' !! it = Some nd) ∧
     (∃ g1 rest, reaches fuseListAndListUnpack_at g it g1 rest) ∧
     ∀ g1 rest,
       reaches fuseListAndListUnpack_at g it g1 rest →
       all_nodes g1 !! it = Some nd ∧
       (kind pd = prim.ListConstruct →
        fuseListAndListUnpack_at it g1 = Some g1 ∧
        fuseListAndListUnpack (block g) g = foldM fuseListAndListUnpack_at rest g1) ∧
       (kind pd ≠ prim.ListConstruct →
        type val = ListType IntType →
        (Z.of_nat (length (outputs nd)) ≤ 2 ^ 31)%Z →
        ∃ g2 rs,
          fuseListAndListUnpack_at it g1 = Some g2 ∧
          length rs = length (outputs nd) ∧
          (∀ i r o oval,
             rs !! i = Some r → outputs nd !! i = Some o →
             all_values g1 !! o = Some oval →
             all_nodes g1 !! index_node r = None ∧
             all_nodes g1 !! element_node r = None ∧
             all_values g1 !! index_value r = None ∧
             all_values g1 !! element_value r = None ∧
             all_nodes g2 !! index_node r
             = Some (mkNode onnx.Constant [] [index_value r]
                       [(attr.value, TensorAttr (mkTensor Long (Z.of_nat i)))]) ∧
             all_nodes g2 !! element_node r
             = Some (mkNode onnx.Gather [v; index_value r] [element_value r] []) ∧
             all_values g2 !! element_value r
             = Some (mkValue TensorType_get (element_node r) (uses oval)) ∧
             all_values g2 !! o = Some (set_uses [] oval) ∧
             subst_values (zip (outputs nd) (element_value <$> rs)) o = element_value r) ∧
          (∀ m md, all_nodes g1 !! m = Some md →
             all_nodes g2 !! m
             = Some (subst_inputs
                       (subst_values (zip (outputs nd) (element_value <$> rs))) md)) ∧
          all_nodes g2 !! it = Some nd ∧
          block_nodes (block g2)
          = flat_map (λ x, if decide (x = it) then expansion_nodes rs ++ [x] else [x])
              (block_nodes (block g1)) ∧
          consistent g2 ∧
          fuseListAndListUnpack (block g) g = foldM fuseListAndListUnpack_at rest g2)).
Proof.
  split.
  { intros g it g1 rest nd v val pd.
    apply list_unpack_expanded_at_reach. }
  intros g it nd v val pd Hwf Hblock Hit Hkind Hins Hval Hpd Hkpd.
  split.
  { destruct (fuseListAndListUnpack_rounds_keep_entry g (visit_order (block g))
                it nd v val pd) as (g' & Hrun & _ & Hit' & _); try done.
    - intros n. apply elem_of_visit_order.
    - exists g'. by rewrite fuseListAndListUnpack_steps. }
  split.
  { apply elem_of_visit_order in Hblock.
    apply list_elem_of_split in Hblock as (before & rest & Hvo).
    destruct (fuseListAndListUnpack_rounds_keep_entry g before it nd v val pd)
      as (g1 & Hrun & _); try done.
    - intros n Hn. apply elem_of_visit_order. rewrite Hvo.
      apply elem_of_app. by left.
    - by exists g1, rest, before. }
  intros g1 rest Hreach.
  destruct (reaches_before _ _ _ _ _ Hreach) as (before & Hbefore & Hrun).
  destruct (fuseListAndListUnpack_rounds_keep_entry g before it nd v val pd)
    as (g1' & Hrun' & _ & Hit1 & val1 & pd1 & Hval1 & Ht1 & Hpd1 & Hk1);
    try done.
  rewrite Hrun in Hrun'. injection Hrun' as <-.
  split; [done|].
  destruct (list_unpack_expanded_at_reach g it g1 rest nd v val1 pd1
              Hwf Hreach Hit1 Hkind Hins Hval1 Hpd1) as [HA HB].
  split.
  - intros Hk. apply HA. congruence.
  - intros Hk Ht Hlen. apply HB; congruence.
Qed.

Lemma C8_list_unpack_expanded_to_gathers_witness :
  (fuseListAndListUnpack (block (Examples.unpack_graph prim.ListConstruct))
     (Examples.unpack_graph prim.ListConstruct)
   = foldM fuseListAndListUnpack_at [4] (Examples.unpack_graph prim.ListConstruct)) ∧
  (∃ g2 (rs : list Expansion),
     fuseListAndListUnpack_at 7 (Examples.nested_graph prim.ListUnpack) = Some g2 ∧
     length rs = 2 ∧
     all_nodes g2 !! 7 = Some (mkNode prim.ListUnpack [2] [3; 4] []) ∧
     consistent g2 ∧
     fuseListAndListUnpack (block (Examples.nested_graph prim.ListUnpack))
       (Examples.nested_graph prim.ListUnpack)
     = foldM fuseListAndListUnpack_at [3] g2) ∧
  (∃ g', fuseListAndListUnpack (block (Examples.nested_graph prim.ListUnpack))
           (Examples.nested_graph prim.ListUnpack) = Some g' ∧
         all_nodes g' !! 7 = Some (mkNode prim.ListUnpack [2] [3; 4] [])) ∧
  (∃ g2 (rs : list Expansion),
     fuseListAndListUnpack_at 7 (Examples.nested_graph prim.ListUnpack) = Some g2 ∧
     length rs = 2 ∧
     fuseListAndListUnpack (block (Examples.nested_graph prim.ListUnpack))
       (Examples.nested_graph prim.ListUnpack)
     = foldM fuseListAndListUnpack_at [3] g2).
Proof.
  split.
  { apply (proj1 (proj1 C8_list_unpack_expanded_to_gathers
                    (Examples.unpack_graph prim.ListConstruct) 3
                    (Examples.unpack_graph prim.ListConstruct) [4]
                    (mkNode prim.ListUnpack [1] [2; 3] []) 1
                    (mkValue (ListType IntType) 2 [mkUse 3 0])
                    (mkNode prim.ListConstruct [0] [1] [])
                    ltac:(apply (bool_decide_unpack _); vm_compute; exact I)
                    ltac:(by exists [2])
                    eq_refl eq_refl eq_refl eq_refl eq_refl)).
    reflexivity. }
  split.
  { destruct (proj2 (proj1 C8_list_unpack_expanded_to_gathers
                    (Examples.nested_graph prim.ListUnpack) 7
                    (Examples.nested_graph prim.ListUnpack) [3]
                    (mkNode prim.ListUnpack [2] [3; 4] []) 2
                    (mkValue (ListType IntType) 6 [mkUse 7 0])
                    (mkNode "aten::size"%string [0] [2] [])
                    ltac:(apply (bool_decide_unpack _); vm_compute; exact I)
                    ltac:(by exists [2; 6])
                    eq_refl eq_refl eq_refl eq_refl eq_refl))
      as (g2 & rs & Hstep & Hlen & _ & _ & Hit & _ & Hg2 & Hpass).
    - discriminate.
    - reflexivity.
    - vm_compute. discriminate.
    - exists g2, rs. split; [exact Hstep|]. split; [exact Hlen|].
      split; [exact Hit|]. split; [exact Hg2|exact Hpass]. }
  destruct (proj2 C8_list_unpack_expanded_to_gathers
              (Examples.nested_graph prim.ListUnpack) 7
              (mkNode prim.ListUnpack [2] [3; 4] []) 2
              (mkValue (ListType IntType) 6 [mkUse 7 0])
              (mkNode "aten::size"%string [0] [2] [])
              ltac:(apply (bool_decide_unpack _); vm_compute; exact I)
              ltac:(apply (bool_decide_unpack _); vm_compute; exact I)
              eq_refl eq_refl eq_refl eq_refl eq_refl
              ltac:(discriminate))
    as (Hpass & _ & Hreach).
  split; [exact Hpass|].
  destruct (Hreach (Examples.nested_graph prim.ListUnpack) [3]
              ltac:(by exists [2; 6]))
    as (_ & _ & Hexp).
  destruct Hexp as (g2 & rs & Hstep & Hlen & _ & _ & _ & _ & _ & Hrun).
  - discriminate.
  - reflexivity.
  - vm_compute. discriminate.
  - exists g2, rs. split; [exact Hstep|]. split; [exact Hlen|exact Hrun].
Defined.

(** * What a run of the passes cannot undo *)

(** ** Stores *)

Lemma descends_nodes_refl ns : descends_nodes ns ns.
Proof. intros x d Hx. right. by exists d. Qed.

Lemma descends_nodes_trans ns1 ns2 ns3 :
  descends_nodes ns1 ns2 → descends_nodes ns2 ns3 → descends_nodes ns1 ns3.
Proof.
  intros H12 H23 x d3 Hx. destruct (H23 x d3 Hx) as [?|(d2 & Hd2 & Hk2 & Hi2)];
    [by left|].
  destruct (H12 x d2 Hd2) as [Hc|(d1 & Hd1 & Hk1 & Hi1)].
  - left. by rewrite <- Hk2.
  - right. exists d1. split; [done|]. split; [congruence|]. auto.
Qed.

Lemma descends_nodes_update ns n d d' :
  ns !! n = Some d → kind d' = kind d → (inputs d = [] → inputs d' = []) →
  descends_nodes ns (<[n := d']> ns).
Proof.
  intros Hn Hk Hi x dx Hx. right. destruct (decide (x = n)) as [->|Hne].
  - rewrite lookup_insert_eq in Hx. injection Hx as <-. by exists d.
  - rewrite lookup_insert_ne in Hx by done. by exists dx.
Qed.

Lemma descends_nodes_created ns n d' :
  kind d' ∈ created_kinds → descends_nodes ns (<[n := d']> ns).
Proof.
  intros Hk x dx Hx. destruct (decide (x = n)) as [->|Hne].
  - rewrite lookup_insert_eq in Hx. injection Hx as <-. by left.
  - rewrite lookup_insert_ne in Hx by done. right. by exists dx.
Qed.

Lemma descends_nodes_delete ns n : descends_nodes ns (delete n ns).
Proof.
  intros x dx Hx. right. exists dx. split; [|done].
  apply lookup_delete_Some in Hx. tauto.
Qed.

Lemma keeps_kinds_nodes_refl ns : keeps_kinds_nodes ns ns.
Proof. intros x d Hx. by exists d. Qed.

Lemma keeps_kinds_nodes_trans ns1 ns2 ns3 :
  keeps_kinds_nodes ns1 ns2 → keeps_kinds_nodes ns2 ns3 →
  keeps_kinds_nodes ns1 ns3.
Proof.
  intros H12 H23 x d1 Hx. destruct (H12 x d1 Hx) as (d2 & Hd2 & Hk2).
  destruct (H23 x d2 Hd2) as (d3 & Hd3 & Hk3). exists d3. split; congruence.
Qed.

Lemma keeps_kinds_nodes_update ns n d d' :
  ns !! n = Some d → kind d' = kind d → keeps_kinds_nodes ns (<[n := d']> ns).
Proof.
  intros Hn Hk x dx Hx. destruct (decide (x = n)) as [->|Hne].
  - rewrite lookup_insert_eq. exists d'. split; congruence.
  - rewrite lookup_insert_ne by done. by exists dx.
Qed.

Lemma keeps_kinds_nodes_fresh ns n d' :
  ns !! n = None → keeps_kinds_nodes ns (<[n := d']> ns).
Proof.
  intros Hn x dx Hx. rewrite lookup_insert_ne by congruence. by exists dx.
Qed.

(** ** Graphs *)

Lemma descends_refl g : descends g g.
Proof. apply descends_nodes_refl. Qed.

Lemma descends_trans g1 g2 g3 : descends g1 g2 → descends g2 g3 → descends g1 g3.
Proof. apply descends_nodes_trans. Qed.

Lemma descends_spent g g' x : descends g g' → spent g x → spent g' x.
Proof.
  intros Hd Hs d' Hx. destruct (Hd x d' Hx) as [?|(d & Hd' & Hk & Hi)];
    [by right|].
  destruct (Hs d Hd') as [?|?]; [left; auto|right; by rewrite <- Hk].
Qed.

Lemma absent_spent g x : all_nodes g !! x = None → spent g x.
Proof. intros Hx d Hd. congruence. Qed.

Lemma keeps_kinds_refl g : keeps_kinds g g.
Proof. apply keeps_kinds_nodes_refl. Qed.

Lemma keeps_kinds_trans g1 g2 g3 :
  keeps_kinds g1 g2 → keeps_kinds g2 g3 → keeps_kinds g1 g3.
Proof. apply keeps_kinds_nodes_trans. Qed.

(** ** The host operations *)

Lemma setAttr_descends n name v g g' :
  setAttr n name v g = Some g' → descends g g' ∧ keeps_kinds g g'.
Proof.
  unfold setAttr. intros (nd & Hn & [= <-])%bind_Some.
  split; [by apply (descends_nodes_update _ _ nd)|
          by apply (keeps_kinds_nodes_update _ _ nd)].
Qed.

Lemma addOutput_descends n g v g' :
  addOutput n g = Some (v, g') → descends g g' ∧ keeps_kinds g g'.
Proof.
  unfold addOutput. intros (nd & Hn & [= <- <-])%bind_Some.
  split; [by apply (descends_nodes_update _ _ nd)|
          by apply (keeps_kinds_nodes_update _ _ nd)].
Qed.

Lemma addOutputs_descends k n : ∀ g g',
  addOutputs k n g = Some g' → descends g g' ∧ keeps_kinds g g'.
Proof.
  induction k as [|k IH]; intros g g' Hrun; simpl in Hrun.
  - injection Hrun as <-. split; [apply descends_refl|apply keeps_kinds_refl].
  - apply bind_Some in Hrun as ([v g1] & Hadd & Hrest). simpl in Hrest.
    destruct (addOutput_descends _ _ _ _ Hadd) as [Hd1 Hk1].
    destruct (IH _ _ Hrest) as [Hd2 Hk2].
    split; [by eapply descends_trans|by eapply keeps_kinds_trans].
Qed.

Lemma create_descends k num g c g' :
  k ∈ created_kinds →
  create k num g = Some (c, g') →
  descends g g' ∧ keeps_kinds g g' ∧
  all_nodes g !! c = None ∧
  ∃ d, all_nodes g' !! c = Some d ∧ kind d = k.
Proof.
  intros Hk. unfold create. intros (g1 & Hadd & [= <- <-])%bind_Some.
  destruct (addOutputs_descends _ _ _ _ Hadd) as [Hd Hkk].
  pose proof (fresh_node_None g) as Hfresh.
  split; [|split; [|split; [done|]]].
  - eapply descends_trans; [|exact Hd]. by apply descends_nodes_created.
  - eapply keeps_kinds_trans; [|exact Hkk]. by apply keeps_kinds_nodes_fresh.
  - apply (Hkk _ (mkNode k [] [] [])). simpl. apply lookup_insert_eq.
Qed.

Lemma setType_descends v t g g' :
  setType v t g = Some g' → descends g g' ∧ keeps_kinds g g'.
Proof.
  unfold setType. intros (val & _ & [= <-])%bind_Some.
  split; [apply descends_nodes_refl|apply keeps_kinds_nodes_refl].
Qed.

Lemma copyMetadata_descends v from g g' :
  copyMetadata v from g = Some g' → descends g g' ∧ keeps_kinds g g'.
Proof.
  unfold copyMetadata. intros (src & _ & Hset)%bind_Some.
  by eapply setType_descends.
Qed.

Lemma insertBefore_descends n it g g' :
  insertBefore n it g = Some g' → descends g g' ∧ keeps_kinds g g'.
Proof.
  unfold insertBefore. destruct (_ && _); [|done]. intros [= <-].
  split; [apply descends_nodes_refl|apply keeps_kinds_nodes_refl].
Qed.

Lemma addInput_descends n v g g' :
  addInput n v g = Some g' →
  (∀ d, all_nodes g !! n = Some d → kind d ∈ created_kinds) →
  descends g g' ∧ keeps_kinds g g'.
Proof.
  unfold addInput. intros (nd & Hn & (val & _ & [= <-])%bind_Some)%bind_Some Hk.
  split.
  - apply descends_nodes_created. simpl. by apply Hk.
  - by apply (keeps_kinds_nodes_update _ _ nd).
Qed.

Lemma removeAllInputs_descends n g g' :
  removeAllInputs n g = Some g' → descends g g' ∧ spent g' n.
Proof.
  unfold removeAllInputs.
  intros (nd & Hn & (vs & _ & [= <-])%bind_Some)%bind_Some. split.
  - by apply (descends_nodes_update _ _ nd).
  - intros d. simpl. rewrite lookup_insert_eq. intros [= <-]. by left.
Qed.

Lemma eraseOutput_descends n i g g' :
  eraseOutput n i g = Some g' → descends g g'.
Proof.
  unfold eraseOutput.
  intros (nd & Hn & (v & _ & (val & _ & Hrun)%bind_Some)%bind_Some)%bind_Some.
  destruct (uses val); [|done]. injection Hrun as <-.
  by apply (descends_nodes_update _ _ nd).
Qed.

Lemma eraseOutputs_descends k n : ∀ g g',
  eraseOutputs k n g = Some g' → descends g g'.
Proof.
  induction k as [|k IH]; intros g g' Hrun; simpl in Hrun.
  - injection Hrun as <-. apply descends_refl.
  - apply bind_Some in Hrun as (g1 & Her & Hrest).
    eapply descends_trans; [by eapply eraseOutput_descends|by apply IH].
Qed.

Lemma redirect_descends old new u ns ns' :
  redirect old new u ns = Some ns' →
  descends_nodes ns ns' ∧ keeps_kinds_nodes ns ns'.
Proof.
  unfold redirect. intros (nd & Hn & Hrun)%bind_Some.
  case_decide as Hoff; [|done]. injection Hrun as <-. split.
  - apply (descends_nodes_update _ _ nd); [done|done|]. simpl.
    intros Hnil. rewrite Hnil in Hoff. by rewrite lookup_nil in Hoff.
  - by apply (keeps_kinds_nodes_update _ _ nd).
Qed.

Lemma Value_replaceAllUsesWith_descends v new g g' :
  Value_replaceAllUsesWith v new g = Some g' →
  descends g g' ∧ keeps_kinds g g'.
Proof.
  unfold Value_replaceAllUsesWith. intros (val & _ & Hrun)%bind_Some.
  destruct (uses val) as [|u us].
  { injection Hrun as <-. split; [apply descends_refl|apply keeps_kinds_refl]. }
  case_decide; [done|].
  apply bind_Some in Hrun as (nval & _ & (ns & Hns & [= <-])%bind_Some).
  unfold descends, keeps_kinds. simpl. revert Hns.
  apply (foldM_preserves
           (λ ns ns', descends_nodes ns ns' ∧ keeps_kinds_nodes ns ns')).
  - intros s. split; [apply descends_nodes_refl|apply keeps_kinds_nodes_refl].
  - intros s1 s2 s3 [? ?] [? ?].
    split; [by eapply descends_nodes_trans|by eapply keeps_kinds_nodes_trans].
  - intros x s s' _. apply redirect_descends.
Qed.

Lemma Node_replaceAllUsesWith_descends n other g g' :
  Node_replaceAllUsesWith n other g = Some g' → descends g g'.
Proof.
  unfold Node_replaceAllUsesWith.
  intros (nd & _ & (od & _ & Hrun)%bind_Some)%bind_Some.
  case_decide; [|done]. revert g g' Hrun.
  apply (foldM_preserves descends); [apply descends_refl|apply descends_trans|].
  intros p s s' _ Hp. by apply Value_replaceAllUsesWith_descends in Hp as [? _].
Qed.

Lemma foldr_destroy_descends (nested : list (Graph → option Graph)) : ∀ g g',
  Forall (λ f, ∀ h h', f h = Some h' → descends h h') nested →
  foldr (λ d acc, g' ← acc; d g') (Some g) nested = Some g' →
  descends g g'.
Proof.
  induction nested as [|f nested IH]; intros g g' Hall Hrun; simpl in Hrun.
  - injection Hrun as <-. apply descends_refl.
  - apply Forall_cons in Hall as [Hf Hall].
    apply bind_Some in Hrun as (g1 & Hrest & Hfg).
    eapply descends_trans; [by apply IH|by apply Hf].
Qed.

Lemma destroy_with_descends nested n g g' :
  Forall (λ f, ∀ h h', f h = Some h' → descends h h') nested →
  destroy_with nested n g = Some g' →
  descends g g' ∧ all_nodes g' !! n = None.
Proof.
  intros Hall. unfold destroy_with.
  intros (nd & _ & (g1 & Her & (g2 & Hnested & (g3 & Hrm & [= <-])%bind_Some)
            %bind_Some)%bind_Some)%bind_Some.
  split; [|apply lookup_delete_eq].
  eapply descends_trans; [by eapply eraseOutputs_descends|].
  eapply descends_trans; [by eapply foldr_destroy_descends|].
  eapply descends_trans; [by eapply proj1, removeAllInputs_descends|].
  apply descends_nodes_delete.
Qed.

Lemma Block_destroy_descends b : ∀ g g',
  Block_destroy b g = Some g' → descends g g'.
Proof.
  induction b as [p r ns IH] using Block_nested_ind. intros g g'. simpl.
  intros (g1 & Hrm & (g2 & Hns & (g3 & Hr & Hp)%bind_Some)%bind_Some)%bind_Some.
  destruct (destroy_with_descends [] r g2 g3 (List.Forall_nil _) Hr) as [Hdr _].
  destruct (destroy_with_descends [] p g3 g' (List.Forall_nil _) Hp) as [Hdp _].
  destruct (removeAllInputs_descends _ _ _ Hrm) as [Hd1 _].
  apply (descends_trans _ g1); [exact Hd1|].
  apply (descends_trans _ g2); [|exact (descends_trans _ _ _ Hdr Hdp)].
  clear Hrm Hr Hp Hdr Hdp Hd1. revert g2 Hns.
  induction IH as [|[n bs] ns Hbs _ IHns]; intros g2 Hns; simpl in Hns.
  - injection Hns as <-. apply descends_refl.
  - apply bind_Some in Hns as (g1' & Hrest & Hn).
    eapply descends_trans; [by apply IHns|].
    eapply proj1, (destroy_with_descends (map Block_destroy bs)); [|done].
    simpl in Hbs. apply Forall_forall. intros f Hf.
    apply list_elem_of_In, in_map_iff in Hf as (b & <- & Hb).
    rewrite Forall_forall in Hbs. apply Hbs. by apply list_elem_of_In.
Qed.

Lemma destroy_descends n g g' :
  destroy n g = Some g' → descends g g' ∧ all_nodes g' !! n = None.
Proof.
  unfold destroy. apply destroy_with_descends.
  apply Forall_forall. intros f Hf.
  apply list_elem_of_In, in_map_iff in Hf as (b & <- & _).
  apply Block_destroy_descends.
Qed.

Lemma kind_at_keeps g g' c k :
  keeps_kinds g g' →
  (∃ d, all_nodes g !! c = Some d ∧ kind d = k) →
  ∃ d', all_nodes g' !! c = Some d' ∧ kind d' = k.
Proof.
  intros Hk (d & Hd & <-). destruct (Hk c d Hd) as (d' & ? & ?). by exists d'.
Qed.

Lemma kind_at_created g c k :
  k ∈ created_kinds →
  (∃ d, all_nodes g !! c = Some d ∧ kind d = k) →
  ∀ d, all_nodes g !! c = Some d → kind d ∈ created_kinds.
Proof. intros Hk (d0 & Hd0 & <-) d Hd. congruence. Qed.

(** ** The loop bodies *)

Lemma add_output_like_descends n u i g g' :
  add_output_like n u i g = Some g' → descends g g'.
Proof.
  unfold add_output_like. intros ([v g1] & Hadd & Hrest)%bind_Some.
  simpl in Hrest.
  apply bind_Some in Hrest as (lu & _ & (o & _ & Hcopy)%bind_Some).
  eapply descends_trans; [by eapply proj1, addOutput_descends|].
  by eapply proj1, copyMetadata_descends.
Qed.

(** A round of the ListUnpack fusion that changes the graph leaves the
    ListUnpack node, which had an input, without inputs. *)
Lemma FuseWithListUnpack_at_descends it g g' :
  FuseWithListUnpack_at it g = Some g' →
  descends g g' ∧
  (g' = g ∨ ∃ u, FindFusibleListUnpack it g = Some (Some u) ∧
                 (consistent g → ¬ spent g u) ∧ spent g' u).
Proof.
  unfold FuseWithListUnpack_at.
  intros (nd & Hit & Hrun)%bind_Some.
  case_decide as Hkind; [|injection Hrun as <-; split;
                           [apply descends_refl|by left]].
  unfold FuseWithListUnpack in Hrun.
  apply bind_Some in Hrun as (found & Hfound & Hrun).
  destruct found as [u|]; [|injection Hrun as <-; split;
                              [apply descends_refl|by left]].
  pose proof Hfound as Hfusible.
  apply (FindFusibleListUnpack_fusible it g nd u Hit) in Hfusible
    as (out & val & off & lu & Houts & Hval & Huses & Hu & Hklu).
  apply bind_Some in Hrun as (nd' & Hit' & Hrun).
  case_decide; [|done].
  apply bind_Some in Hrun as (lu' & Hu' & (g1 & Hattr & Hrun)%bind_Some).
  case_decide; [done|]. case_decide; [|done].
  apply bind_Some in Hrun
    as (g2 & Hadd & (g3 & Hrm & (g4 & Her & Hrep)%bind_Some)%bind_Some).
  assert (H12 : descends g g2).
  { eapply descends_trans; [by eapply proj1, setAttr_descends|].
    revert Hadd. apply (foldM_preserves descends);
      [apply descends_refl|apply descends_trans|].
    intros i s s' _. apply add_output_like_descends. }
  destruct (removeAllInputs_descends _ _ _ Hrm) as [H23 Hspent].
  assert (H34 : descends g3 g').
  { eapply descends_trans; [by eapply eraseOutput_descends|].
    by eapply Node_replaceAllUsesWith_descends. }
  split.
  { eapply descends_trans; [exact H12|]. by eapply descends_trans. }
  right. exists u. split; [done|]. split; [|by eapply descends_spent].
  intros Hg Hs. destruct (Hs lu Hu) as [Hnil|Hcreated].
  - destruct (consistent_use g Hg out val (mkUse u off) Hval) as (ud & Hud & Hoff);
      [rewrite Huses; left|].
    simpl in *. rewrite Hu in Hud. injection Hud as <-.
    rewrite Hnil in Hoff. by rewrite lookup_nil in Hoff.
  - rewrite Hklu in Hcreated. revert Hcreated.
    apply (bool_decide_unpack _). vm_compute. exact I.
Qed.

Lemma created_Concat : onnx.Concat ∈ created_kinds.
Proof. apply (bool_decide_unpack _). vm_compute. exact I. Qed.
Lemma created_masked_fill : aten.masked_fill ∈ created_kinds.
Proof. apply (bool_decide_unpack _). vm_compute. exact I. Qed.
Lemma created_masked_scatter : aten.masked_scatter ∈ created_kinds.
Proof. apply (bool_decide_unpack _). vm_compute. exact I. Qed.
Lemma created_Constant : onnx.Constant ∈ created_kinds.
Proof. apply (bool_decide_unpack _). vm_compute. exact I. Qed.
Lemma created_Gather : onnx.Gather ∈ created_kinds.
Proof. apply (bool_decide_unpack _). vm_compute. exact I. Qed.

(** A round of the list-add pass that changes the graph frees the add node,
    which had an input. *)
Lemma ReplaceAddWithConcat_at_descends it g g' :
  ReplaceAddWithConcat_at it g = Some g' →
  descends g g' ∧ (g' = g ∨ (¬ spent g it ∧ all_nodes g' !! it = None)).
Proof.
  unfold ReplaceAddWithConcat_at. intros (nd & Hit & Hrun)%bind_Some.
  case_decide as Hkind;
    [|injection Hrun as <-; split; [apply descends_refl|by left]].
  apply bind_Some in Hrun as (in0 & Hin0 & (val0 & _ & Hrun)%bind_Some).
  destruct (cast_ListType (type val0)) as [elem|];
    [|injection Hrun as <-; split; [apply descends_refl|by left]].
  apply bind_Some in Hrun as (in1 & _ & (val1 & _ & Hrun)%bind_Some).
  destruct (cast_ListType (type val1)) as [elem'|];
    [|injection Hrun as <-; split; [apply descends_refl|by left]].
  destruct (cast_IntType elem);
    [|injection Hrun as <-; split; [apply descends_refl|by left]].
  apply bind_Some in Hrun as ([c g1] & Hcreate & Hrun). simpl in Hrun.
  apply bind_Some in Hrun as (g2 & Hattr & (g3 & Hins & Hrun)%bind_Some).
  apply bind_Some in Hrun as (nd3 & _ & (in0' & _ & (g4 & Hadd0 & Hrun)
            %bind_Some)%bind_Some).
  apply bind_Some in Hrun as (nd4 & _ & (in1' & _ & (g5 & Hadd1 & Hrun)
            %bind_Some)%bind_Some).
  apply bind_Some in Hrun as (cn & _ & (out0 & _ & (g6 & Hset & Hrun)
            %bind_Some)%bind_Some).
  apply bind_Some in Hrun as (g7 & Hrep & (g8 & Hrm & Hdestroy)%bind_Some).
  destruct (create_descends _ _ _ _ _ created_Concat Hcreate)
    as (Hd1 & Hk1 & _ & Hc1).
  destruct (setAttr_descends _ _ _ _ _ Hattr) as [Hd2 Hk2].
  destruct (insertBefore_descends _ _ _ _ Hins) as [Hd3 Hk3].
  pose proof (kind_at_keeps _ _ _ _ Hk3 (kind_at_keeps _ _ _ _ Hk2 Hc1)) as Hc3.
  destruct (addInput_descends _ _ _ _ Hadd0
              (kind_at_created _ _ _ created_Concat Hc3)) as [Hd4 Hk4].
  pose proof (kind_at_keeps _ _ _ _ Hk4 Hc3) as Hc4.
  destruct (addInput_descends _ _ _ _ Hadd1
              (kind_at_created _ _ _ created_Concat Hc4)) as [Hd5 _].
  destruct (setType_descends _ _ _ _ Hset) as [Hd6 _].
  pose proof (Node_replaceAllUsesWith_descends _ _ _ _ Hrep) as Hd7.
  destruct (removeAllInputs_descends _ _ _ Hrm) as [Hd8 _].
  destruct (destroy_descends _ _ _ Hdestroy) as [Hd9 Hgone].
  split.
  { repeat (eapply descends_trans; [eassumption|]). apply descends_refl. }
  right. split.
  - intros Hs. destruct (Hs nd Hit) as [Hnil|Hcreated].
    + unfold input in Hin0. rewrite Hnil in Hin0. by rewrite lookup_nil in Hin0.
    + rewrite Hkind in Hcreated. revert Hcreated.
      apply (bool_decide_unpack _). vm_compute. exact I.
  - done.
Qed.

(** A round of the indexed-put pass that changes the graph frees the
    [index_put_] node, which had an input. *)
Lemma ReplaceIndexPutWithMaskedScatter_at_descends it g g' :
  ReplaceIndexPutWithMaskedScatter_at it g = Some g' →
  descends g g' ∧ (g' = g ∨ (¬ spent g it ∧ all_nodes g' !! it = None)).
Proof.
  unfold ReplaceIndexPutWithMaskedScatter_at, index_put_body.
  intros (nd & Hit & Hrun)%bind_Some.
  case_decide as Hkind;
    [|injection Hrun as <-; split; [apply descends_refl|by left]].
  apply bind_Some in Hrun as (in1 & Hin1 & (val1 & _ & (lc & _ & (mask & _ &
            (mval & _ & Hrun)%bind_Some)%bind_Some)%bind_Some)%bind_Some).
  destruct (cast_TensorType (type mval)) as [[[[]|] ?]|];
    try (injection Hrun as <-; split; [apply descends_refl|by left]).
  destruct (inputs_size_guard _);
    [injection Hrun as <-; split; [apply descends_refl|by left]|].
  apply bind_Some in Hrun as (in2 & _ & (val2 & _ & Hrun)%bind_Some).
  destruct (cast_TensorType (type val2)) as [[? [rank|]]|];
    try (injection Hrun as <-; split; [apply descends_refl|by left]).
  apply bind_Some in Hrun as ([c g1] & Hcreate & Hrun). simpl in Hrun.
  assert (∃ k, k ∈ created_kinds ∧ create k 1 g = Some (c, g1)) as (k & Hk & Hcr).
  { destruct (decide (rank = 0));
      [exists aten.masked_fill|exists aten.masked_scatter];
      (split; [|done]); [apply created_masked_fill|apply created_masked_scatter]. }
  apply bind_Some in Hrun as (g3 & Hins & Hrun).
  apply bind_Some in Hrun as (nd3 & _ & (in0 & _ & (g4 & Hadd0 & Hrun)
            %bind_Some)%bind_Some).
  apply bind_Some in Hrun as (lc4 & _ & (mask4 & _ & (g5 & Hadd1 & Hrun)
            %bind_Some)%bind_Some).
  apply bind_Some in Hrun as (nd5 & _ & (in2' & _ & (g6 & Hadd2 & Hrun)
            %bind_Some)%bind_Some).
  apply bind_Some in Hrun as (g7 & Hrep & (g8 & Hrm & Hdestroy)%bind_Some).
  destruct (create_descends _ _ _ _ _ Hk Hcr) as (Hd1 & Hk1 & _ & Hc1).
  destruct (insertBefore_descends _ _ _ _ Hins) as [Hd3 Hk3].
  pose proof (kind_at_keeps _ _ _ _ Hk3 Hc1) as Hc3.
  destruct (addInput_descends _ _ _ _ Hadd0 (kind_at_created _ _ _ Hk Hc3))
    as [Hd4 Hk4].
  pose proof (kind_at_keeps _ _ _ _ Hk4 Hc3) as Hc4.
  destruct (addInput_descends _ _ _ _ Hadd1 (kind_at_created _ _ _ Hk Hc4))
    as [Hd5 Hk5].
  pose proof (kind_at_keeps _ _ _ _ Hk5 Hc4) as Hc5.
  destruct (addInput_descends _ _ _ _ Hadd2 (kind_at_created _ _ _ Hk Hc5))
    as [Hd6 _].
  pose proof (Node_replaceAllUsesWith_descends _ _ _ _ Hrep) as Hd7.
  destruct (removeAllInputs_descends _ _ _ Hrm) as [Hd8 _].
  destruct (destroy_descends _ _ _ Hdestroy) as [Hd9 Hgone].
  split.
  { repeat (eapply descends_trans; [eassumption|]). apply descends_refl. }
  right. split.
  - intros Hs. destruct (Hs nd Hit) as [Hnil|Hcreated].
    + unfold input in Hin1. rewrite Hnil in Hin1. by rewrite lookup_nil in Hin1.
    + rewrite Hkind in Hcreated. revert Hcreated.
      apply (bool_decide_unpack _). vm_compute. exact I.
  - done.
Qed.

(** A round of the list-index expansion that changes the graph adds a node
    to the store, and no round removes one. *)
Lemma gather_output_descends it i g g' :
  gather_output it i g = Some g' →
  descends g g' ∧ keeps_kinds g g' ∧
  (g' = g ∨ ∃ c, all_nodes g !! c = None ∧ is_Some (all_nodes g' !! c)).
Proof.
  unfold gather_output.
  intros (nd & _ & (output & _ & (c & _ & Hrun)%bind_Some)%bind_Some)%bind_Some.
  destruct c;
    [|injection Hrun as <-; split; [apply descends_refl|];
      split; [apply keeps_kinds_refl|by left]].
  apply bind_Some in Hrun as ([gi g1] & Hcreate1 & Hrun). simpl in Hrun.
  apply bind_Some in Hrun as (g2 & Hins1 & (g3 & Hattr & Hrun)%bind_Some).
  apply bind_Some in Hrun as ([gn g4] & Hcreate2 & Hrun). simpl in Hrun.
  apply bind_Some in Hrun as (g5 & Hins2 & Hrun).
  apply bind_Some in Hrun as (nd5 & _ & (v & _ & (g6 & Hadd0 & Hrun)
            %bind_Some)%bind_Some).
  apply bind_Some in Hrun as (gi' & _ & (gi_out & _ & (g7 & Hadd1 & Hrun)
            %bind_Some)%bind_Some).
  apply bind_Some in Hrun as (gn' & _ & (gn_out & _ & Hrep)%bind_Some).
  destruct (create_descends _ _ _ _ _ created_Constant Hcreate1)
    as (Hd1 & Hk1 & Hfresh & Hc1).
  destruct (insertBefore_descends _ _ _ _ Hins1) as [Hd2 Hk2].
  destruct (setAttr_descends _ _ _ _ _ Hattr) as [Hd3 Hk3].
  destruct (create_descends _ _ _ _ _ created_Gather Hcreate2)
    as (Hd4 & Hk4 & _ & Hc4).
  destruct (insertBefore_descends _ _ _ _ Hins2) as [Hd5 Hk5].
  pose proof (kind_at_keeps _ _ _ _ Hk5 Hc4) as Hc5.
  destruct (addInput_descends _ _ _ _ Hadd0
              (kind_at_created _ _ _ created_Gather Hc5)) as [Hd6 Hk6].
  pose proof (kind_at_keeps _ _ _ _ Hk6 Hc5) as Hc6.
  destruct (addInput_descends _ _ _ _ Hadd1
              (kind_at_created _ _ _ created_Gather Hc6)) as [Hd7 Hk7].
  destruct (Value_replaceAllUsesWith_descends _ _ _ _ Hrep) as [Hd8 Hk8].
  assert (Hk : keeps_kinds g1 g').
  { repeat (eapply keeps_kinds_trans; [eassumption|]). apply keeps_kinds_refl. }
  split.
  { repeat (eapply descends_trans; [eassumption|]). apply descends_refl. }
  split; [by eapply keeps_kinds_trans|].
  right. exists gi. split; [done|].
  destruct (kind_at_keeps _ _ _ _ Hk Hc1) as (d & -> & _). done.
Qed.

(** The relation of a graph to a later one in a run of the list-index
    expansion: no node is removed, and the graph is the same or has a node
    more. *)
Lemma grown_trans g1 g2 g3 :
  keeps_kinds g1 g2 ∧
  (g2 = g1 ∨ ∃ c, all_nodes g1 !! c = None ∧ is_Some (all_nodes g2 !! c)) →
  keeps_kinds g2 g3 ∧
  (g3 = g2 ∨ ∃ c, all_nodes g2 !! c = None ∧ is_Some (all_nodes g3 !! c)) →
  keeps_kinds g1 g3 ∧
  (g3 = g1 ∨ ∃ c, all_nodes g1 !! c = None ∧ is_Some (all_nodes g3 !! c)).
Proof.
  intros [Hk12 H12] [Hk23 H23]. split; [by eapply keeps_kinds_trans|].
  destruct H12 as [->|(c & Hc1 & [d Hc2])]; [done|].
  right. exists c. split; [done|].
  destruct (Hk23 c d Hc2) as (d' & -> & _). done.
Qed.

Lemma fuseListAndListUnpack_at_descends it g g' :
  fuseListAndListUnpack_at it g = Some g' →
  descends g g' ∧ keeps_kinds g g' ∧
  (g' = g ∨ ∃ c, all_nodes g !! c = None ∧ is_Some (all_nodes g' !! c)).
Proof.
  unfold fuseListAndListUnpack_at. intros (nd & _ & Hrun)%bind_Some.
  case_decide;
    [|injection Hrun as <-; split; [apply descends_refl|];
      split; [apply keeps_kinds_refl|by left]].
  revert Hrun.
  apply (foldM_preserves
           (λ g g', descends g g' ∧ keeps_kinds g g' ∧
                    (g' = g ∨ ∃ c, all_nodes g !! c = None ∧
                                   is_Some (all_nodes g' !! c)))).
  - intros s. split; [apply descends_refl|].
    split; [apply keeps_kinds_refl|by left].
  - intros s1 s2 s3 [Hd12 H12] [Hd23 H23].
    split; [by eapply descends_trans|]. by eapply grown_trans.
  - intros i s s' _. apply gather_output_descends.
Qed.



Lemma round_descends g g' : round g g' → descends g g'.
Proof.
  intros (n & [H|[H|[H|H]]]).
  - by apply FuseWithListUnpack_at_descends in H as [? _].
  - by apply ReplaceAddWithConcat_at_descends in H as [? _].
  - by apply ReplaceIndexPutWithMaskedScatter_at_descends in H as [? _].
  - by apply fuseListAndListUnpack_at_descends in H as [? _].
Qed.

Lemma rounds_descends g g' : rtc round g g' → descends g g'.
Proof.
  induction 1 as [g|g g1 g2 H1 _ IH]; [apply descends_refl|].
  eapply descends_trans; [|exact IH]. by apply round_descends.
Qed.

Lemma foldM_rounds (step : NodeId → Graph → option Graph) l :
  (∀ n s s', step n s = Some s' → round s s') →
  ∀ g g', foldM step l g = Some g' → rtc round g g'.
Proof.
  intros Hstep.
  apply (foldM_preserves (rtc round) step l).
  - intros s. apply rtc_refl.
  - intros s1 s2 s3 H12 H23. by etrans.
  - intros n s s' _ Hn. apply rtc_once. by apply (Hstep n).
Qed.

Lemma FuseWithListUnpack_Block_rounds b g g' :
  FuseWithListUnpack_Block b g = Some g' → rtc round g g'.
Proof.
  rewrite FuseWithListUnpack_Block_steps. apply foldM_rounds.
  intros n s s' H. exists n. tauto.
Qed.

Lemma ReplaceAddWithConcat_rounds b g g' :
  ReplaceAddWithConcat b g = Some g' → rtc round g g'.
Proof.
  rewrite ReplaceAddWithConcat_steps. apply foldM_rounds.
  intros n s s' H. exists n. tauto.
Qed.

Lemma ReplaceIndexPutWithMaskedScatter_rounds b g g' :
  ReplaceIndexPutWithMaskedScatter b g = Some g' → rtc round g g'.
Proof.
  rewrite ReplaceIndexPutWithMaskedScatter_steps. apply foldM_rounds.
  intros n s s' H. exists n. tauto.
Qed.

Lemma fuseListAndListUnpack_rounds b g g' :
  fuseListAndListUnpack b g = Some g' → rtc round g g'.
Proof.
  rewrite fuseListAndListUnpack_steps. apply foldM_rounds.
  intros n s s' H. exists n. tauto.
Qed.

(** A loop whose rounds are in a transitive relation that no graph other
    than [g] has with [g] in both directions, and that returns [g] when run
    on [g], changes nothing in any of its rounds. *)
Lemma foldM_fixed_quiet {A} (R : Graph → Graph → Prop)
    (f : A → Graph → option Graph) (g : Graph) :
  (∀ s, R s s) → (∀ s1 s2 s3, R s1 s2 → R s2 s3 → R s1 s3) →
  (∀ x s s', f x s = Some s' → R s s') →
  (∀ s, R g s → R s g → s = g) →
  ∀ l, foldM f l g = Some g → ∀ x, x ∈ l → f x g = Some g.
Proof.
  intros Hrefl Htrans Hf Hanti. induction l as [|y l IH]; intros Hrun x Hx.
  { by apply elem_of_nil in Hx. }
  rewrite foldM_cons in Hrun. apply bind_Some in Hrun as (s1 & Hy & Hl).
  assert (s1 = g) as ->.
  { apply Hanti; [by apply (Hf y)|].
    apply (foldM_preserves R f l); [done|done| |done].
    intros z s s' _. apply Hf. }
  apply elem_of_cons in Hx as [->|Hx]; [done|]. by apply IH.
Qed.

(** The relation of a graph to a later one in a run of one of the first
    three passes: the later graph is the same, or a node that was a trigger
    is spent in it. *)
Lemma consumed_trans g1 g2 g3 :
  descends g1 g2 ∧
  (g2 = g1 ∨ ∃ x, (consistent g1 → ¬ spent g1 x) ∧ spent g2 x) →
  descends g2 g3 ∧
  (g3 = g2 ∨ ∃ x, (consistent g2 → ¬ spent g2 x) ∧ spent g3 x) →
  descends g1 g3 ∧
  (g3 = g1 ∨ ∃ x, (consistent g1 → ¬ spent g1 x) ∧ spent g3 x).
Proof.
  intros [Hd12 H12] [Hd23 H23]. split; [by eapply descends_trans|].
  destruct H12 as [->|(x & Hx1 & Hx2)]; [done|].
  right. exists x. split; [done|]. by eapply descends_spent.
Qed.

Lemma consumed_antisym g s :
  consistent g →
  descends g s ∧ (s = g ∨ ∃ x, (consistent g → ¬ spent g x) ∧ spent s x) →
  descends s g →
  s = g.
Proof.
  intros Hg [_ [->|(x & Hx & Hs)]] Hd; [done|].
  destruct (Hx Hg). by eapply descends_spent.
Qed.

Lemma consumed_steps_quiet (step : NodeId → Graph → option Graph) g l :
  consistent g →
  (∀ n s s', step n s = Some s' →
     descends s s' ∧
     (s' = s ∨ ∃ x, (consistent s → ¬ spent s x) ∧ spent s' x)) →
  ∀ g', foldM step l g = Some g' → descends g' g →
  g' = g ∧ ∀ n, n ∈ l → step n g = Some g.
Proof.
  intros Hg Hstep g' Hrun Hback.
  pose (R := λ s s' : Graph,
          descends s s' ∧
          (s' = s ∨ ∃ x, (consistent s → ¬ spent s x) ∧ spent s' x)).
  assert (Hrefl : ∀ s, R s s).
  { intros s. split; [apply descends_refl|by left]. }
  assert (Htrans : ∀ s1 s2 s3, R s1 s2 → R s2 s3 → R s1 s3).
  { intros s1 s2 s3. apply consumed_trans. }
  assert (g' = g) as ->.
  { apply (consumed_antisym g g' Hg); [|done].
    apply (foldM_preserves R step l); [done|done| |done].
    intros n s s' _. apply Hstep. }
  split; [done|].
  apply (foldM_fixed_quiet R step g); try done.
  intros s Hs [Hd _]. by apply (consumed_antisym g s Hg).
Qed.

Lemma grown_steps_quiet g l :
  ∀ g', foldM fuseListAndListUnpack_at l g = Some g' → g' = g →
  ∀ n, n ∈ l → fuseListAndListUnpack_at n g = Some g.
Proof.
  intros g' Hrun ->.
  pose (R := λ s s' : Graph,
          keeps_kinds s s' ∧
          (s' = s ∨ ∃ c, all_nodes s !! c = None ∧ is_Some (all_nodes s' !! c))).
  apply (foldM_fixed_quiet R fuseListAndListUnpack_at g); try done.
  - intros s. split; [apply keeps_kinds_refl|by left].
  - intros s1 s2 s3. apply grown_trans.
  - intros n s s' H. by apply fuseListAndListUnpack_at_descends in H as [_ ?].
  - intros s [_ [->|(c & Hc & [d Hd])]] [Hk _]; [done|].
    destruct (Hk c d Hd) as (d' & Hd' & _). by rewrite Hc in Hd'.
Qed.

(** A run of the four passes that returns the graph it was given has
    changed nothing at any node. *)
Lemma PreprocessForONNX_fixed_quiet g :
  consistent g → PreprocessForONNX g = Some g →
  ∀ n, n ∈ block_nodes (block g) → quiet_at g n.
Proof.
  intros Hg Hrun. unfold PreprocessForONNX in Hrun.
  apply bind_Some in Hrun as (ga & H1 & Hrun).
  apply bind_Some in Hrun as (gb & H2 & Hrun).
  apply bind_Some in Hrun as (gc & H3 & H4).
  pose proof (rounds_descends _ _ (ReplaceAddWithConcat_rounds _ _ _ H2)) as Hd2.
  pose proof (rounds_descends _ _
                (ReplaceIndexPutWithMaskedScatter_rounds _ _ _ H3)) as Hd3.
  pose proof (rounds_descends _ _ (fuseListAndListUnpack_rounds _ _ _ H4)) as Hd4.
  rewrite FuseWithListUnpack_Block_steps in H1.
  destruct (consumed_steps_quiet FuseWithListUnpack_at g
              (visit_order (block g)) Hg) with (g' := ga)
    as [-> Hq1]; [|done| |].
  { intros n s s' H. apply FuseWithListUnpack_at_descends in H as [Hd H].
    split; [done|]. destruct H as [->|(u & _ & ? & ?)]; [by left|right].
    by exists u. }
  { eapply descends_trans; [exact Hd2|]. by eapply descends_trans. }
  rewrite ReplaceAddWithConcat_steps in H2.
  destruct (consumed_steps_quiet ReplaceAddWithConcat_at g
              (visit_order (block g)) Hg) with (g' := gb)
    as [-> Hq2]; [|done|by eapply descends_trans|].
  { intros n s s' H. apply ReplaceAddWithConcat_at_descends in H as [Hd H].
    split; [done|]. destruct H as [->|[? ?]]; [by left|right].
    exists n. split; [done|]. by apply absent_spent. }
  rewrite ReplaceIndexPutWithMaskedScatter_steps in H3.
  destruct (consumed_steps_quiet ReplaceIndexPutWithMaskedScatter_at g
              (visit_order (block g)) Hg)
    with (g' := gc) as [-> Hq3]; [|done|done|].
  { intros n s s' H.
    apply ReplaceIndexPutWithMaskedScatter_at_descends in H as [Hd H].
    split; [done|]. destruct H as [->|[? ?]]; [by left|right].
    exists n. split; [done|]. by apply absent_spent. }
  rewrite fuseListAndListUnpack_steps in H4.
  pose proof (grown_steps_quiet g _ g H4 eq_refl) as Hq4.
  intros n Hn. apply elem_of_visit_order in Hn.
  split; [by apply Hq1|]. split; [by apply Hq2|]. split; [by apply Hq3|].
  by apply Hq4.
Qed.

Lemma PreprocessForONNX_quiet_fixed g :
  (∀ n, n ∈ block_nodes (block g) → quiet_at g n) →
  PreprocessForONNX g = Some g.
Proof.
  intros Hq. unfold PreprocessForONNX.
  rewrite (traversal_unchanged FuseWithListUnpack_at FuseWithListUnpack_Block);
    [simpl|done|intros n Hn; apply (Hq n Hn)].
  rewrite (traversal_unchanged ReplaceAddWithConcat_at ReplaceAddWithConcat);
    [simpl|done|intros n Hn; apply (Hq n Hn)].
  rewrite (traversal_unchanged ReplaceIndexPutWithMaskedScatter_at
             ReplaceIndexPutWithMaskedScatter);
    [simpl|done|intros n Hn; apply (Hq n Hn)].
  apply (traversal_unchanged fuseListAndListUnpack_at fuseListAndListUnpack);
    [done|intros n Hn; apply (Hq n Hn)].
Qed.

(** ** A second run *)

(** No node is fusible with a ListUnpack node that is spent. *)
Lemma spent_not_fusible s u n :
  consistent s → spent s u → FindFusibleListUnpack n s ≠ Some (Some u).
Proof.
  intros Hs Hu Hfound.
  assert (∃ nd, all_nodes s !! n = Some nd) as [nd Hn].
  { unfold FindFusibleListUnpack in Hfound.
    apply bind_Some in Hfound as (nd & ? & _). by exists nd. }
  destruct (proj1 (FindFusibleListUnpack_fusible n s nd u Hn) Hfound)
    as (out & val & off & lu & Houts & Hval & Huses & Hlu & Hklu).
  destruct (Hu lu Hlu) as [Hnil|Hcreated].
  - destruct (consistent_use s Hs out val (mkUse u off) Hval) as (ud & Hud & Hoff);
      [rewrite Huses; left|].
    simpl in *. rewrite Hlu in Hud. injection Hud as <-.
    rewrite Hnil in Hoff. by rewrite lookup_nil in Hoff.
  - rewrite Hklu in Hcreated. revert Hcreated.
    apply (bool_decide_unpack _). vm_compute. exact I.
Qed.

(** The ListUnpack node a fusion has emptied is not fused again. *)
Lemma fused_for_good it g g' :
  consistent g →
  FuseWithListUnpack_at it g = Some g' →
  g' ≠ g →
  ∃ u, FindFusibleListUnpack it g = Some (Some u) ∧
       ∀ g'', rtc round g' g'' → consistent g'' →
              ∀ n, FindFusibleListUnpack n g'' ≠ Some (Some u).
Proof.
  intros Hg Hstep Hne.
  apply FuseWithListUnpack_at_descends in Hstep
    as [_ [->|(u & Hfound & _ & Hu)]]; [done|].
  exists u. split; [done|]. intros g'' Hlater Hg'' n.
  apply spent_not_fusible; [done|].
  eapply descends_spent; [|exact Hu]. by apply rounds_descends.
Qed.

(** The add node a rewrite has replaced is gone, and the rewrite does not
    fire at it again. *)
Lemma add_replaced_for_good it g g' :
  ReplaceAddWithConcat_at it g = Some g' →
  g' ≠ g →
  all_nodes g' !! it = None ∧
  ∀ g'' g''', rtc round g' g'' →
              ReplaceAddWithConcat_at it g'' = Some g''' → g''' = g''.
Proof.
  intros Hstep Hne.
  apply ReplaceAddWithConcat_at_descends in Hstep as [_ [->|[_ Hgone]]]; [done|].
  split; [done|]. intros g'' g''' Hlater Hagain.
  apply ReplaceAddWithConcat_at_descends in Hagain as [_ [->|[Hs _]]]; [done|].
  destruct Hs. eapply descends_spent; [by apply rounds_descends|].
  by apply absent_spent.
Qed.

Lemma index_put_replaced_for_good it g g' :
  ReplaceIndexPutWithMaskedScatter_at it g = Some g' →
  g' ≠ g →
  all_nodes g' !! it = None ∧
  ∀ g'' g''', rtc round g' g'' →
              ReplaceIndexPutWithMaskedScatter_at it g'' = Some g''' → g''' = g''.
Proof.
  intros Hstep Hne.
  apply ReplaceIndexPutWithMaskedScatter_at_descends in Hstep
    as [_ [->|[_ Hgone]]]; [done|].
  split; [done|]. intros g'' g''' Hlater Hagain.
  apply ReplaceIndexPutWithMaskedScatter_at_descends in Hagain
    as [_ [->|[Hs _]]]; [done|].
  destruct Hs. eapply descends_spent; [by apply rounds_descends|].
  by apply absent_spent.
Qed.

(** The list-index expansion, applied to a node it has expanded, expands
    it again. *)
Lemma expansion_refires it g nd v val pd :
  wf g →
  all_nodes g !! it = Some nd →
  kind nd = prim.ListUnpack →
  inputs nd = [v] →
  all_values g !! v = Some val →
  type val = ListType IntType →
  all_nodes g !! node val = Some pd →
  kind pd ≠ prim.ListConstruct →
  it ∈ block_nodes (block g) →
  ∃ g' g'' rs,
    fuseListAndListUnpack_at it g = Some g' ∧
    consistent g' ∧
    it ∈ block_nodes (block g') ∧
    all_nodes g' !! it = Some nd ∧
    unpacks_opaque_int_list it g' = Some true ∧
    fuseListAndListUnpack_at it g' = Some g'' ∧
    length rs = length (outputs nd) ∧
    (∀ i r, rs !! i = Some r →
       all_nodes g' !! index_node r = None ∧
       all_nodes g' !! element_node r = None ∧
       all_nodes g'' !! index_node r
       = Some (mkNode onnx.Constant [] [index_value r]
                 [(attr.value, TensorAttr (scalar_to_tensor (to_int i)))]) ∧
       all_nodes g'' !! element_node r
       = Some (mkNode onnx.Gather [v; index_value r] [element_value r] [])).
Proof.
  intros Hwf Hit Hkind Hins Hval Ht Hpd Hk Hblock.
  pose proof (wf_consistent g Hwf) as Hg.
  assert (Hv_out : v ∉ outputs nd).
  { apply (wf_no_self_use g it nd v Hwf Hit). rewrite Hins. left. }
  destruct (gather_loop_spec it nd v (outputs nd) 0 g)
    as (g' & rs0 & Hloop & Hlenrs0 & _ & Hnodes & _ & Hv' & Hblock' & Hg');
    try done.
  { by exists val, pd. }
  assert (Hit' : all_nodes g' !! it = Some nd).
  { rewrite (Hnodes it nd Hit). f_equal. apply subst_inputs_id.
    intros x Hx. rewrite Hins in Hx. apply list_elem_of_singleton in Hx as ->.
    apply subst_values_notin. rewrite fst_zip; [done|].
    rewrite length_fmap. lia. }
  assert (Hin' : it ∈ block_nodes (block g')).
  { rewrite Hblock'. apply list_elem_of_In, in_flat_map. exists it.
    split; [by apply list_elem_of_In|].
    rewrite decide_True by done. apply list_elem_of_In, elem_of_app. right. left. }
  destruct (gather_loop_spec it nd v (outputs nd) 0 g')
    as (g'' & rs & Hloop' & Hlenrs & Hrs & _); try done.
  exists g', g'', rs.
  split.
  { unfold fuseListAndListUnpack_at. rewrite Hit. simpl.
    by rewrite decide_True by done. }
  split; [done|]. split; [done|]. split; [done|]. split.
  { destruct Hv' as (val' & pd' & Hval' & Ht' & Hpd' & Hk').
    by apply (unpacks_opaque_int_list_true it g' nd v val' pd' Hit'). }
  split.
  { unfold fuseListAndListUnpack_at. rewrite Hit'. simpl.
    by rewrite decide_True by done. }
  split; [done|].
  intros i r Hr.
  destruct (lookup_lt_is_Some_2 (outputs nd) i) as [o Ho].
  { rewrite <- Hlenrs. by eapply lookup_lt_Some. }
  destruct (consistent_output g' Hg' it nd o Hit') as (oval & Hoval & _);
    [by eapply list_elem_of_lookup_2|].
  destruct (Hrs i r o oval Hr Ho Hoval) as (? & ? & _ & _ & ? & ? & _).
  done.
Qed.

(** The loop body of the list-index expansion changes the graph at a
    ListUnpack node that meets its condition and has an output. *)
Lemma expansion_changes_graph it s nd v :
  consistent s →
  all_nodes s !! it = Some nd →
  kind nd = prim.ListUnpack →
  inputs nd = [v] →
  v ∉ outputs nd →
  (∃ val pd, all_values s !! v = Some val ∧ type val = ListType IntType ∧
             all_nodes s !! node val = Some pd ∧ kind pd ≠ prim.ListConstruct) →
  it ∈ block_nodes (block s) →
  outputs nd ≠ [] →
  fuseListAndListUnpack_at it s ≠ Some s.
Proof.
  intros Hs Hits Hkind Hins Hv_out Hvs Hblocks Houts Hq.
  destruct (gather_loop_spec it nd v (outputs nd) 0 s)
    as (s' & rs & Hloop & Hlenrs & Hrs & _); try done.
  unfold fuseListAndListUnpack_at in Hq. rewrite Hits in Hq. simpl in Hq.
  rewrite decide_True in Hq by done. rewrite Hloop in Hq. injection Hq as ->.
  destruct (outputs nd) as [|o os] eqn:Hos; [done|].
  destruct rs as [|r rs]; [done|].
  destruct (consistent_output s Hs it nd o Hits) as (oval & Hoval & _);
    [rewrite Hos; left|].
  destruct (Hrs 0 r o oval eq_refl eq_refl Hoval) as (Hnone & _ & _ & _ & Hsome & _).
  by rewrite Hnone in Hsome.
Qed.

(** A graph that has a ListUnpack node that meets the condition of the
    list-index expansion, and has an output, is not returned as it is. *)
Lemma expansion_not_fixed it g nd v val pd :
  wf g →
  all_nodes g !! it = Some nd →
  kind nd = prim.ListUnpack →
  inputs nd = [v] →
  all_values g !! v = Some val →
  type val = ListType IntType →
  all_nodes g !! node val = Some pd →
  kind pd ≠ prim.ListConstruct →
  it ∈ block_nodes (block g) →
  outputs nd ≠ [] →
  PreprocessForONNX g ≠ Some g ∧
  ∀ g', fuseListAndListUnpack_at it g = Some g' → PreprocessForONNX g' ≠ Some g'.
Proof.
  intros Hwf Hit Hkind Hins Hval Ht Hpd Hk Hblock Houts.
  pose proof (wf_consistent g Hwf) as Hg.
  assert (Hv_out : v ∉ outputs nd).
  { apply (wf_no_self_use g it nd v Hwf Hit). rewrite Hins. left. }
  assert (Hfires : ∀ s, consistent s → all_nodes s !! it = Some nd →
            (∃ val pd, all_values s !! v = Some val ∧
                       type val = ListType IntType ∧
                       all_nodes s !! node val = Some pd ∧
                       kind pd ≠ prim.ListConstruct) →
            it ∈ block_nodes (block s) →
            PreprocessForONNX s ≠ Some s).
  { intros s Hs Hits Hvs Hblocks Hfix.
    destruct (PreprocessForONNX_fixed_quiet s Hs Hfix it Hblocks)
      as (_ & _ & _ & Hq).
    by apply (expansion_changes_graph it s nd v) in Hq. }
  split.
  { apply Hfires; try done. by exists val, pd. }
  intros g' Hstep.
  destruct (expansion_refires it g nd v val pd)
    as (g1 & _ & _ & Hstep1 & Hg1 & Hblock1 & Hit1 & Hc1 & _); try done.
  rewrite Hstep in Hstep1. injection Hstep1 as <-.
  apply Hfires; try done.
  destruct (unpacks_opaque_int_list_cases it g' nd Hg1 Hit1)
    as [Hc|(v' & val' & pd' & Hins' & ?)]; [congruence|].
  rewrite Hins in Hins'. injection Hins' as <-. by exists val', pd'.
Qed.

(** A well-formed graph on which the first run is the indexed-put rewrite
    alone and the second run is the fusion alone: the [aten::where] list is
    read by the [index_put_] node and by a ListUnpack node; once the first
    run has replaced the [index_put_] node, the ListUnpack node is the one
    user of the list, and the second run fuses the two. *)
Lemma where_fused_by_second_run :
  wf Examples.where_index_put_graph ∧
  ∃ g1 g2,
    ReplaceIndexPutWithMaskedScatter (block Examples.where_index_put_graph)
      Examples.where_index_put_graph = Some g1 ∧
    PreprocessForONNX Examples.where_index_put_graph = Some g1 ∧
    wf g1 ∧
    FuseWithListUnpack_Block (block g1) g1 = Some g2 ∧
    PreprocessForONNX g1 = Some g2 ∧
    g2 ≠ g1.
Proof.
  split; [apply (bool_decide_unpack _); vm_compute; exact I|].
  destruct (PreprocessForONNX Examples.where_index_put_graph)
    as [g1|] eqn:H1; [|vm_compute in H1; discriminate].
  destruct (PreprocessForONNX g1) as [g2|] eqn:H2;
    [|vm_compute in H1; injection H1 as <-; vm_compute in H2; discriminate].
  exists g1, g2.
  vm_compute in H1. injection H1 as <-.
  vm_compute in H2. injection H2 as <-.
  split; [vm_compute; reflexivity|]. split; [reflexivity|].
  split; [apply (bool_decide_unpack _); vm_compute; exact I|].
  split; [vm_compute; reflexivity|]. split; [vm_compute; reflexivity|].
  intros H. apply (f_equal (λ g, all_nodes g !! 4)) in H.
  vm_compute in H. discriminate.
Qed.

(** C1, amended: [PreprocessForONNX] returns a consistent graph as it is
    exactly when none of the four loop bodies changes the graph at a node of
    its block tree; so a second run returns the result of the first run
    exactly when no rewrite fires in that result.  The rewrites of the first
    three passes consume their trigger for good, through all later rounds of
    the four loop bodies: no node of a consistent graph is again fusible
    with the ListUnpack node a fusion has emptied; the [aten::add] node and
    the [aten::index_put_] node a rewrite has replaced are gone from the
    graph, and the rewrite does not fire at them again.  The list-index
    expansion does not consume its trigger: when its loop body has expanded
    a ListUnpack node of a well-formed graph, the node is in the graph as it
    was and still meets the condition of the expansion, and the loop body,
    applied again, adds a further Constant node and a further Gather node
    for every output; a graph with such a node and an output is not a fixed
    point of [PreprocessForONNX], before the expansion or after it.  And
    consumption is not idempotence, also where the list-index expansion
    never fires: on the well-formed graph [%3 = aten::where(%c)],
    [%4 = aten::index_put_(%x, %3, %v)], [%5, %6 = prim::ListUnpack(%3)] the
    first run is the indexed-put rewrite alone, and the second run fuses the
    [aten::where] node with the ListUnpack node, the one user of [%3] that
    is left. *)
Theorem C1_preprocess_fixed_points :
  (∀ g, consistent g →
        (PreprocessForONNX g = Some g ↔
         ∀ n, n ∈ block_nodes (block g) → quiet_at g n)) ∧
  (∀ it g g',
     consistent g → FuseWithListUnpack_at it g = Some g' → g' ≠ g →
     ∃ u, FindFusibleListUnpack it g = Some (Some u) ∧
          ∀ g'', rtc round g' g'' → consistent g'' →
                 ∀ n, FindFusibleListUnpack n g'' ≠ Some (Some u)) ∧
  (∀ it g g',
     ReplaceAddWithConcat_at it g = Some g' → g' ≠ g →
     all_nodes g' !! it = None ∧
     ∀ g'' g''', rtc round g' g'' →
                 ReplaceAddWithConcat_at it g'' = Some g''' → g''' = g'') ∧
  (∀ it g g',
     ReplaceIndexPutWithMaskedScatter_at it g = Some g' → g' ≠ g →
     all_nodes g' !! it = None ∧
     ∀ g'' g''', rtc round g' g'' →
                 ReplaceIndexPutWithMaskedScatter_at it g'' = Some g''' →
                 g''' = g'') ∧
  (∀ it g nd v val pd,
     wf g →
     all_nodes g !! it = Some nd →
     kind nd = prim.ListUnpack →
     inputs nd = [v] →
     all_values g !! v = Some val →
     type val = ListType IntType →
     all_nodes g !! node val = Some pd →
     kind pd ≠ prim.ListConstruct →
     it ∈ block_nodes (block g) →
     ∃ g' g'' rs,
       fuseListAndListUnpack_at it g = Some g' ∧
       consistent g' ∧
       it ∈ block_nodes (block g') ∧
       all_nodes g' !! it = Some nd ∧
       unpacks_opaque_int_list it g' = Some true ∧
       fuseListAndListUnpack_at it g' = Some g'' ∧
       length rs = length (outputs nd) ∧
       (∀ i r, rs !! i = Some r →
          all_nodes g' !! index_node r = None ∧
          all_nodes g' !! element_node r = None ∧
          all_nodes g'' !! index_node r
          = Some (mkNode onnx.Constant [] [index_value r]
                    [(attr.value, TensorAttr (scalar_to_tensor (to_int i)))]) ∧
          all_nodes g'' !! element_node r
          = Some (mkNode onnx.Gather [v; index_value r] [element_value r] [])) ∧
       (outputs nd ≠ [] →
        PreprocessForONNX g ≠ Some g ∧ PreprocessForONNX g' ≠ Some g')) ∧
  (wf Examples.where_index_put_graph ∧
   ∃ g1 g2,
     ReplaceIndexPutWithMaskedScatter (block Examples.where_index_put_graph)
       Examples.where_index_put_graph = Some g1 ∧
     PreprocessForONNX Examples.where_index_put_graph = Some g1 ∧
     wf g1 ∧
     FuseWithListUnpack_Block (block g1) g1 = Some g2 ∧
     PreprocessForONNX g1 = Some g2 ∧
     g2 ≠ g1).
Proof.
  split.
  { intros g Hg. split.
    - by apply PreprocessForONNX_fixed_quiet.
    - apply PreprocessForONNX_quiet_fixed. }
  split; [apply fused_for_good|].
  split; [apply add_replaced_for_good|].
  split; [apply index_put_replaced_for_good|].
  split; [|apply where_fused_by_second_run].
  intros it g nd v val pd Hwf Hit Hkind Hins Hval Ht Hpd Hk Hblock.
  destruct (expansion_refires it g nd v val pd)
    as (g' & g'' & rs & Hstep & Hg' & Hblock' & Hit' & Hc & Hstep' & Hlen & Hrs);
    try done.
  exists g', g'', rs. repeat (split; [done|]).
  intros Houts.
  destruct (expansion_not_fixed it g nd v val pd) as [Hfix Hfix']; try done.
  split; [done|]. by apply Hfix'.
Qed.

Lemma C1_preprocess_fixed_points_witness :
  (PreprocessForONNX (Examples.unpack_graph prim.ListConstruct)
   = Some (Examples.unpack_graph prim.ListConstruct) ↔
   ∀ n, n ∈ block_nodes (block (Examples.unpack_graph prim.ListConstruct)) →
        quiet_at (Examples.unpack_graph prim.ListConstruct) n) ∧
  (∃ g' u,
     FuseWithListUnpack_at 4 Examples.split_graph = Some g' ∧
     FindFusibleListUnpack 4 Examples.split_graph = Some (Some u) ∧
     ∀ g'', rtc round g' g'' → consistent g'' →
            ∀ n, FindFusibleListUnpack n g'' ≠ Some (Some u)) ∧
  (∃ g',
     ReplaceAddWithConcat_at 7 (Examples.add_graph IntType IntType) = Some g' ∧
     all_nodes g' !! 7 = None ∧
     ∀ g'' g''', rtc round g' g'' →
                 ReplaceAddWithConcat_at 7 g'' = Some g''' → g''' = g'') ∧
  (∃ g',
     ReplaceIndexPutWithMaskedScatter_at 3 Examples.index_put_chain_graph
     = Some g' ∧
     all_nodes g' !! 3 = None ∧
     ∀ g'' g''', rtc round g' g'' →
                 ReplaceIndexPutWithMaskedScatter_at 3 g'' = Some g''' →
                 g''' = g'') ∧
  (∃ g' g'',
     fuseListAndListUnpack_at 3 (Examples.unpack_graph "aten::size"%string)
     = Some g' ∧
     unpacks_opaque_int_list 3 g' = Some true ∧
     fuseListAndListUnpack_at 3 g' = Some g'' ∧
     PreprocessForONNX (Examples.unpack_graph "aten::size"%string)
     ≠ Some (Examples.unpack_graph "aten::size"%string) ∧
     PreprocessForONNX g' ≠ Some g').
Proof.
  split.
  { apply (proj1 C1_preprocess_fixed_points
             (Examples.unpack_graph prim.ListConstruct)).
    apply (bool_decide_unpack _). vm_compute. exact I. }
  split.
  { destruct (FuseWithListUnpack_at 4 Examples.split_graph) as [g'|] eqn:Hstep;
      [|vm_compute in Hstep; discriminate].
    destruct (proj1 (proj2 C1_preprocess_fixed_points) 4 Examples.split_graph g')
      as (u & Hfound & Hlater).
    - apply (bool_decide_unpack _). vm_compute. exact I.
    - exact Hstep.
    - intros Heq. rewrite Heq in Hstep.
      apply (f_equal (fmap (λ g, inputs <$> all_nodes g !! 5))) in Hstep.
      vm_compute in Hstep. discriminate.
    - exists g', u. split; [reflexivity|]. split; [exact Hfound|exact Hlater]. }
  split.
  { destruct (ReplaceAddWithConcat_at 7 (Examples.add_graph IntType IntType))
      as [g'|] eqn:Hstep; [|vm_compute in Hstep; discriminate].
    destruct (proj1 (proj2 (proj2 C1_preprocess_fixed_points)) 7
                (Examples.add_graph IntType IntType) g') as [Hgone Hlater].
    - exact Hstep.
    - intros Heq. rewrite Heq in Hstep.
      apply (f_equal (fmap (λ g, kind <$> all_nodes g !! 7))) in Hstep.
      vm_compute in Hstep. discriminate.
    - exists g'. split; [reflexivity|]. split; [exact Hgone|exact Hlater]. }
  split.
  { destruct (ReplaceIndexPutWithMaskedScatter_at 3 Examples.index_put_chain_graph)
      as [g'|] eqn:Hstep; [|vm_compute in Hstep; discriminate].
    destruct (proj1 (proj2 (proj2 (proj2 C1_preprocess_fixed_points))) 3
                Examples.index_put_chain_graph g') as [Hgone Hlater].
    - exact Hstep.
    - intros Heq. rewrite Heq in Hstep.
      apply (f_equal (fmap (λ g, kind <$> all_nodes g !! 3))) in Hstep.
      vm_compute in Hstep. discriminate.
    - exists g'. split; [reflexivity|]. split; [exact Hgone|exact Hlater]. }
  destruct (proj1 (proj2 (proj2 (proj2 (proj2 C1_preprocess_fixed_points)))) 3
              (Examples.unpack_graph "aten::size"%string)
              (mkNode prim.ListUnpack [1] [2; 3] []) 1
              (mkValue (ListType IntType) 2 [mkUse 3 0])
              (mkNode "aten::size"%string [0] [1] [])
              ltac:(apply (bool_decide_unpack _); vm_compute; exact I)
              eq_refl eq_refl eq_refl eq_refl eq_refl eq_refl
              ltac:(vm_compute; discriminate)
              ltac:(apply (bool_decide_unpack _); vm_compute; exact I))
    as (g' & g'' & rs & Hstep & _ & _ & _ & Hc & Hstep' & _ & _ & Hfix).
  exists g', g''. split; [exact Hstep|]. split; [exact Hc|].
  split; [exact Hstep'|]. apply Hfix. discriminate.
Defined.

(** * The list-add rewrite comes before the list-index expansion *)

(** X9: take a well-formed graph in which an [aten::add] of an int list and
    a list makes an int list, the ListUnpack nodes read that list, and no
    other node is of a kind the first three passes look for.  A ListUnpack
    node reading the list meets the condition of the list-index expansion in
    the graph as given, and the list-index expansion run on that graph
    changes it; but [PreprocessForONNX] replaces the add node by
    [onnx::Concat] first, the ListUnpack nodes then read a tensor, the
    list-index expansion leaves that graph as it is, and the graph
    [PreprocessForONNX] returns is the graph with the add node replaced: no
    ListUnpack node is expanded. *)
Theorem PreprocessForONNX_unpack_of_list_add
    it g nd in0 in1 val0 val1 elem1 out oval u ud :
  wf g →
  NoDup (visit_order (block g)) →
  all_nodes g !! it = Some nd →
  kind nd = aten.add →
  input 0 nd = Some in0 →
  input 1 nd = Some in1 →
  all_values g !! in0 = Some val0 →
  all_values g !! in1 = Some val1 →
  type val0 = ListType IntType →
  type val1 = ListType elem1 →
  outputs nd = [out] →
  all_values g !! out = Some oval →
  type oval = ListType IntType →
  it ∈ block_nodes (block g) →
  blocks it g = [] →
  (∀ n nd', n ∈ block_nodes (block g) → n ≠ it → all_nodes g !! n = Some nd' →
            (kind nd' ∉ fusible_kinds) ∧ kind nd' ≠ aten.add ∧
            kind nd' ≠ aten.index_put_ ∧
            (kind nd' = prim.ListUnpack → inputs nd' = [out])) →
  all_nodes g !! u = Some ud →
  kind ud = prim.ListUnpack →
  inputs ud = [out] →
  outputs ud ≠ [] →
  u ∈ block_nodes (block g) →
  unpacks_opaque_int_list u g = Some true ∧
  (∃ g4, fuseListAndListUnpack (block g) g = Some g4 ∧ g4 ≠ g) ∧
  ∃ g', ReplaceAddWithConcat_at it g = Some g' ∧
        fuseListAndListUnpack (block g') g' = Some g' ∧
        PreprocessForONNX g = Some g'.
Proof.
  intros Hwf Hnd_vo Hit Hkind Hin0 Hin1 Hval0 Hval1 Ht0 Ht1 Houts Hout Hto Hblock
    Hblocks Hothers Hu Hku Hiu Hou Hublock.
  pose proof (wf_consistent g Hwf) as Hg.
  assert (Hnode : node oval = it).
  { destruct (consistent_output g Hg it nd out Hit) as (oval' & Hout' & Hnode);
      [rewrite Houts; left|].
    rewrite Hout in Hout'. by injection Hout' as <-. }
  split.
  { apply (unpacks_opaque_int_list_true u g ud out oval nd); try done.
    - by rewrite Hnode.
    - rewrite Hkind. discriminate. }
  split.
  { destruct (fuseListAndListUnpack_keeps g Hwf) as (g4 & Hpass4 & _).
    exists g4. split; [done|]. intros ->.
    rewrite fuseListAndListUnpack_steps in Hpass4.
    apply (expansion_changes_graph u g ud out); try done.
    - apply (wf_no_self_use g u ud out Hwf Hu). rewrite Hiu. left.
    - exists oval, nd. rewrite Hnode. repeat split; try done.
      rewrite Hkind. discriminate.
    - apply (grown_steps_quiet g (visit_order (block g)) g Hpass4 eq_refl).
      by apply elem_of_visit_order. }
  destruct (ReplaceAddWithConcat_at_rewrites it g nd in0 in1 val0 val1 elem1
              out oval)
    as (g' & c & co & Hstep & Hcfresh & _ & Hc & Hco & Hblock' & Hnodes & _);
    try done.
  exists g'. split; [done|].
  assert (Hother : ∀ n, n ∈ block_nodes (block g) → n ≠ it →
            ∃ nd', all_nodes g !! n = Some nd' ∧
                   all_nodes g' !! n
                   = Some (subst_inputs (subst_value out co) nd') ∧
                   (kind nd' ∉ fusible_kinds) ∧ kind nd' ≠ aten.add ∧
                   kind nd' ≠ aten.index_put_ ∧
                   (kind nd' = prim.ListUnpack → inputs nd' = [out])).
  { intros n Hn Hne. destruct (consistent_block_node g Hg n Hn) as [nd' Hnd'].
    exists nd'. split; [done|]. split; [by apply Hnodes|].
    by apply (Hothers n). }
  assert (Hnodes' : ∀ n, n ∈ block_nodes (block g') →
            n = c ∨ (n ∈ block_nodes (block g) ∧ n ≠ it)).
  { intros n. rewrite Hblock'. intros Hn.
    apply list_elem_of_In, in_flat_map in Hn as (x & Hx & Hn).
    apply list_elem_of_In in Hx. apply list_elem_of_In in Hn.
    case_decide; apply list_elem_of_singleton in Hn; subst; [by left|by right]. }
  assert (Hpass4' : fuseListAndListUnpack (block g') g' = Some g').
  { apply (traversal_unchanged fuseListAndListUnpack_at fuseListAndListUnpack);
      [done|].
    intros n [->|[Hn Hne]]%Hnodes'.
    - apply (fuseListAndListUnpack_at_other_kind c g' _ Hc). discriminate.
    - destruct (Hother n Hn Hne) as (nd' & _ & Hnd' & _ & _ & _ & Hunpack).
      destruct (decide (kind nd' = prim.ListUnpack)) as [Hk|Hk].
      + apply (fuseListAndListUnpack_at_skip n g' _ Hnd').
        unfold unpacks_opaque_int_list, the_input. rewrite Hnd'. simpl.
        rewrite (Hunpack Hk). simpl. unfold subst_value.
        destruct (decide (out = out)); [|done].
        rewrite Hco. simpl. rewrite Hc. reflexivity.
      + by apply (fuseListAndListUnpack_at_other_kind n g' _ Hnd'). }
  split; [done|].
  unfold PreprocessForONNX.
  (* the ListUnpack fusion *)
  rewrite (traversal_unchanged FuseWithListUnpack_at FuseWithListUnpack_Block);
    [simpl|done|].
  2:{ intros n Hn. destruct (decide (n = it)) as [->|Hne].
      - apply (FuseWithListUnpack_at_other_kind it g nd Hit).
        rewrite Hkind. apply (bool_decide_unpack _). vm_compute. exact I.
      - destruct (Hother n Hn Hne) as (nd' & Hnd' & _ & Hk & _).
        by apply (FuseWithListUnpack_at_other_kind n g nd'). }
  (* the list-add pass *)
  assert (Hpass2 : ReplaceAddWithConcat (block g) g = Some g').
  { rewrite ReplaceAddWithConcat_steps.
    assert (Hin : it ∈ visit_order (block g)) by (by apply elem_of_visit_order).
    apply list_elem_of_split in Hin as (before & rest & Hvo).
    rewrite Hvo in Hnd_vo. apply NoDup_app in Hnd_vo as (_ & Hbefore & Hrest).
    apply NoDup_cons in Hrest as [Hrest _].
    assert (Hsub : ∀ n, n ∈ before ++ it :: rest → n ∈ block_nodes (block g)).
    { intros n Hn. apply elem_of_visit_order. by rewrite Hvo. }
    rewrite Hvo, foldM_app, foldM_unchanged; [simpl|].
    2:{ intros n Hn.
        assert (Hne : n ≠ it).
        { intros ->. apply (Hbefore it Hn). left. }
        destruct (Hother n) as (nd' & Hnd' & _ & _ & Hk & _); [|done|].
        { apply Hsub, elem_of_app. by left. }
        by apply (ReplaceAddWithConcat_at_other_kind n g nd'). }
    rewrite foldM_cons, Hstep. simpl. apply foldM_unchanged. intros n Hn.
    assert (Hne : n ≠ it) by (by intros ->).
    destruct (Hother n) as (nd' & _ & Hnd' & _ & Hk & _); [|done|].
    { apply Hsub, elem_of_app. right. by right. }
    by apply (ReplaceAddWithConcat_at_other_kind n g' _ Hnd'). }
  rewrite Hpass2. simpl.
  (* the indexed-put pass *)
  rewrite (traversal_unchanged ReplaceIndexPutWithMaskedScatter_at
             ReplaceIndexPutWithMaskedScatter); [simpl|done|].
  2:{ intros n [->|[Hn Hne]]%Hnodes'.
      - apply (ReplaceIndexPutWithMaskedScatter_at_other_kind c g' _ Hc).
        discriminate.
      - destruct (Hother n Hn Hne) as (nd' & _ & Hnd' & _ & _ & Hk & _).
        by apply (ReplaceIndexPutWithMaskedScatter_at_other_kind n g' _ Hnd'). }
  (* the list-index expansion *)
  exact Hpass4'.
Qed.

Lemma PreprocessForONNX_unpack_of_list_add_witness :
  unpacks_opaque_int_list 5 Examples.add_unpack_graph = Some true ∧
  (∃ g4, fuseListAndListUnpack (block Examples.add_unpack_graph)
           Examples.add_unpack_graph = Some g4 ∧
         g4 ≠ Examples.add_unpack_graph) ∧
  ∃ g', ReplaceAddWithConcat_at 4 Examples.add_unpack_graph = Some g' ∧
        fuseListAndListUnpack (block g') g' = Some g' ∧
        PreprocessForONNX Examples.add_unpack_graph = Some g'.
Proof.
  apply (PreprocessForONNX_unpack_of_list_add 4 Examples.add_unpack_graph
           (mkNode aten.add [2; 3] [4] []) 2 3
           (mkValue (ListType IntType) 2 [mkUse 4 0])
           (mkValue (ListType IntType) 3 [mkUse 4 1]) IntType 4
           (mkValue (ListType IntType) 4 [mkUse 5 0]) 5
           (mkNode prim.ListUnpack [4] [5; 6] [])
           ltac:(apply (bool_decide_unpack _); vm_compute; exact I)
           ltac:(apply (bool_decide_unpack _); vm_compute; exact I)
           eq_refl eq_refl eq_refl eq_refl eq_refl eq_refl eq_refl eq_refl
           eq_refl eq_refl eq_refl
           ltac:(apply (bool_decide_unpack _); vm_compute; exact I)
           eq_refl).
  - intros n nd' Hn. revert nd'. revert n Hn.
    apply (Forall_forall (λ n, ∀ nd', n ≠ 4 → _ !! n = Some nd' → _)).
    repeat (apply List.Forall_cons;
            [intros nd' Hne Hnd'; try done; vm_compute in Hnd';
             injection Hnd' as <-;
             (split; [apply (bool_decide_unpack _); vm_compute; exact I|]);
             (split; [discriminate|]); (split; [discriminate|]);
             try done; intros ?; reflexivity|]).
    apply List.Forall_nil.
  - reflexivity.
  - reflexivity.
  - reflexivity.
  - discriminate.
  - apply (bool_decide_unpack _). vm_compute. exact I.
Defined.
